(** * CanvasManager: reconciliation and orchestration engine

    A shallow embedding of
    [invokeai/frontend/web/src/features/controlLayers/konva/CanvasManager.ts]
    and the properties of its render cycle, z-ordering, derived values,
    transform state machine and background task channel.

    Conventions of the embedding:
    - a JavaScript [Map] is an association list in insertion order
      ([JSMap]); [values()] iterates in that order;
    - object identity ([===] on objects) is an address carried next to the
      object's content ([Ref]); immutable snapshot sub-trees are compared by
      address, exactly as [render] does;
    - mutable adapter objects carry an allocation number ([ad_uid]) that is
      their identity; mutating an adapter through a reference rewrites every
      map entry holding that object;
    - methods of the manager are computations in a state monad over the
      manager that also records the calls made to collaborators (adapters,
      Konva nodes, value channels, the worker) as a trace of [Event]s and can
      throw (a failed [assert]);
    - the [async] methods are given twice: here as they run when nothing
      else runs on the manager before they end, each [await] being
      sequential composition; and, in [Task] and [Async] below, with their
      [await]s as the points where they are suspended, for the render
      passes that overlap because nothing awaits [render]. *)

From Stdlib Require Import List String Bool Arith Lia Permutation.
From Stdlib Require Import QArith_base.
Import ListNotations.
Local Close Scope Q_scope.
Local Open Scope string_scope.
Local Open Scope nat_scope.
Local Open Scope list_scope.

(** ** JavaScript [Map<string, V>] *)

Module JSMap.

Definition t (V : Type) : Type := list (string * V).

Definition empty {V : Type} : t V := [].

Fixpoint get {V : Type} (k : string) (m : t V) : option V :=
  match m with
  | [] => None
  | (k', v) :: m' => if String.eqb k' k then Some v else get k m'
  end.

Definition has {V : Type} (k : string) (m : t V) : bool :=
  match get k m with Some _ => true | None => false end.

(** [set] overwrites in place when the key exists and appends otherwise. *)
Fixpoint set {V : Type} (k : string) (v : V) (m : t V) : t V :=
  match m with
  | [] => [(k, v)]
  | (k', v') :: m' =>
      if String.eqb k' k then (k, v) :: m' else (k', v') :: set k v m'
  end.

Definition delete {V : Type} (k : string) (m : t V) : t V :=
  filter (fun kv => negb (String.eqb (fst kv) k)) m.

Definition keys {V : Type} (m : t V) : list string := map fst m.

Definition values {V : Type} (m : t V) : list V := map snd m.

(** Rewrites the values in place: the effect of mutating the objects the
    map holds. *)
Definition map_values {V : Type} (f : V -> V) (m : t V) : t V :=
  map (fun kv => (fst kv, f (snd kv))) m.

End JSMap.

(** ** Data model *)

(** Object identity. *)
Definition Addr := nat.

Record Ref (A : Type) : Type := mkRef { addr : Addr; val : A }.
Arguments mkRef {A} _ _.
Arguments addr {A} _.
Arguments val {A} _.

(** [x === y] on two objects. *)
Definition same_ref {A B : Type} (x : Ref A) (y : Ref B) : bool :=
  Nat.eqb (addr x) (addr y).

(** The [type] tag of an entity. *)
Inductive EntityType : Type :=
| layer
| control_adapter
| regional_guidance
| inpaint_mask.

Definition EntityType_eqb (x y : EntityType) : bool :=
  match x, y with
  | layer, layer => true
  | control_adapter, control_adapter => true
  | regional_guidance, regional_guidance => true
  | inpaint_mask, inpaint_mask => true
  | _, _ => false
  end.

Record CanvasEntityIdentifier : Type := mkIdentifier {
  id : string;
  type : EntityType
}.

(** JavaScript numbers are only copied and compared here, never computed
    with; they are rationals. *)
Definition number := Q.

Definition number_eqb (x y : number) : bool := Qeq_bool x y.

Record RgbaColor : Type := mkRgba {
  color_r : number;
  color_g : number;
  color_b : number;
  color_a : number
}.

(** Modelled from the spec: the constant [RGBA_WHITE] is declared in
    [features/controlLayers/store/types], which is not part of the sources at
    hand; the spec calls it opaque white. *)
Definition RGBA_WHITE : RgbaColor :=
  mkRgba (Qmake 255 1) (Qmake 255 1) (Qmake 255 1) (Qmake 1 1).

(** [CanvasEntityState]: the union of [CanvasLayerState],
    [CanvasControlAdapterState], [CanvasRegionalGuidanceState] and
    [CanvasInpaintMaskState].  The manager reads [id], [type] and (for the
    two mask-like kinds) [fill]; everything else an entity holds (objects,
    position, opacity, ...) is [es_rest]. *)
Record CanvasEntityState : Type := mkEntityState {
  es_id : string;
  es_type : EntityType;
  es_fill : RgbaColor;
  es_rest : nat
}.

Record ToolState : Type := mkTool {
  tool_selected : string;
  tool_fill : RgbaColor
}.

(** The snapshot [CanvasV2State].  Sub-trees the manager compares with
    [!==] are [Ref]s; sub-trees it only compares and never reads are bare
    addresses. *)
Module State.

Record Entities : Type := mkEntities {
  entities : Ref (list CanvasEntityState)
}.

Record Settings : Type := mkSettings { maskOpacity : number }.

Record Bbox : Type := mkBbox { rect : Addr }.

Record Session : Type := mkSession { isActive : bool }.

Record t : Type := mk {
  layers : Ref Entities;
  controlAdapters : Ref Entities;
  regions : Ref Entities;
  inpaintMask : Ref CanvasEntityState;
  initialImage : Addr;
  bbox : Ref Bbox;
  tool : ToolState;
  settings : Settings;
  selectedEntityIdentifier : option CanvasEntityIdentifier;
  session : Ref Session
}.

End State.

Definition CanvasV2State := Ref State.t.

(** [state.layers.entities] and its siblings, as arrays. *)
Definition entities_of (r : Ref State.Entities) : list CanvasEntityState :=
  val (State.entities (val r)).

(** [state.selectedEntityIdentifier?.id] *)
Definition selected_id (s : CanvasV2State) : option string :=
  option_map id (State.selectedEntityIdentifier (val s)).

Definition option_string_eqb (x y : option string) : bool :=
  match x, y with
  | Some a, Some b => String.eqb a b
  | None, None => true
  | _, _ => false
  end.

(** ** Adapters and the scene graph *)

Inductive AdapterClass : Type :=
| CanvasLayer
| CanvasControlAdapter
| CanvasRegion
| CanvasInpaintMask.

(** The [type] field the adapter classes declare. *)
Definition class_type (c : AdapterClass) : EntityType :=
  match c with
  | CanvasLayer => layer
  | CanvasControlAdapter => control_adapter
  | CanvasRegion => regional_guidance
  | CanvasInpaintMask => inpaint_mask
  end.

(** An adapter object: [ad_uid] is its identity, [ad_state] the entity state
    it last rendered. *)
Record Adapter : Type := mkAdapter {
  ad_id : string;
  ad_type : EntityType;
  ad_uid : nat;
  ad_state : CanvasEntityState
}.

Definition with_state (st : CanvasEntityState) (a : Adapter) : Adapter :=
  mkAdapter (ad_id a) (ad_type a) (ad_uid a) st.

(** [CanvasLayer | CanvasRegion | CanvasControlAdapter | CanvasInpaintMask] *)
Inductive AnyAdapter : Type :=
| AsLayer (a : Adapter)
| AsControlAdapter (a : Adapter)
| AsRegion (a : Adapter)
| AsInpaintMask (a : Adapter).

Definition the_adapter (x : AnyAdapter) : Adapter :=
  match x with
  | AsLayer a | AsControlAdapter a | AsRegion a | AsInpaintMask a => a
  end.

Record EntityStateAndAdapter : Type := mkPair {
  state : CanvasEntityState;
  adapter : AnyAdapter
}.

(** Konva layers on the stage. *)
Inductive Node : Type :=
| NPreview
| NBackground
| NInitialImage
| NAdapter (uid : nat).

Definition Node_eqb (x y : Node) : bool :=
  match x, y with
  | NPreview, NPreview => true
  | NBackground, NBackground => true
  | NInitialImage, NInitialImage => true
  | NAdapter i, NAdapter j => Nat.eqb i j
  | _, _ => false
  end.

(** [adapter.konva.layer] *)
Definition konva_layer (a : Adapter) : Node := NAdapter (ad_uid a).

(** Konva's [Node.zIndex(i)] (external library): the node is taken out of
    its parent's children and spliced back in at index [i]; the z-index of a
    node is its position among the children.  [splice] past the end
    appends. A node without a parent is left alone. *)
Definition remove_node (n : Node) (children : list Node) : list Node :=
  filter (fun x => negb (Node_eqb x n)) children.

Definition splice_in (i : nat) (n : Node) (children : list Node) : list Node :=
  firstn i children ++ n :: skipn i children.

Definition setZIndex (n : Node) (i : nat) (children : list Node) : list Node :=
  if existsb (Node_eqb n) children
  then splice_in i n (remove_node n children)
  else children.

(** [node.zIndex()]: the position among the children. *)
Fixpoint getZIndex (n : Node) (children : list Node) : option nat :=
  match children with
  | [] => None
  | x :: rest =>
      if Node_eqb x n then Some 0 else option_map S (getZIndex n rest)
  end.

(** ** Background tasks *)

Record Extents : Type := mkExtents {
  minX : number; minY : number; maxX : number; maxY : number
}.

(** The payload of a task: the transferred raster buffer and the rest. *)
Record BboxData : Type := mkBboxData { buffer : Addr; data_rest : nat }.

(** [{ type: 'get_bbox', data: { ...data, id } }] *)
Record GetBboxTask : Type := mkTask { task_id : string; task_data : BboxData }.

(** A completion callback is a closure; what matters is which one it is. *)
Definition Callback := nat.

Record PendingTask : Type := mkPending {
  task : GetBboxTask;
  onComplete : Callback
}.

(** [ExtentsResult | WorkerLogMessage] *)
Inductive WorkerMessage : Type :=
| MsgExtents (task_id : string) (extents : option Extents)
| MsgLog (level : string) (message : string) (ctx : option string).

(** ** Calls to collaborators *)

Inductive Event : Type :=
| Log (level : string) (message : string)
| New (c : AdapterClass) (uid : nat) (e : CanvasEntityState)
| StageAdd (n : Node)
| Destroy (c : AdapterClass) (uid : nat) (entity_id : string)
| Update (c : AdapterClass) (uid : nat) (e : CanvasEntityState)
         (toolState : ToolState) (isSelected : bool)
| Render (c : AdapterClass) (uid : nat) (e : CanvasEntityState)
| InitialImageRender
| BboxRender
| StagingAreaRender
| ZIndex (n : Node) (i : nat)
| PublishToolState (v : ToolState)
| PublishSelectedEntityIdentifier (v : option CanvasEntityIdentifier)
| PublishSelectedEntity (v : option EntityStateAndAdapter)
| PublishCurrentFill (v : RgbaColor)
| NotifyTransformingEntity (v : option CanvasEntityIdentifier)
| TransformerStart (uid : nat)
| TransformerApply (uid : nat)
| TransformerStop (uid : nat)
| PostMessage (t : GetBboxTask)
| OnComplete (cb : Callback) (extents : option Extents)
| WorkerLog (level : string) (message : string) (ctx : option string).

(** ** The manager *)

Record CanvasManager : Type := mkManager {
  stage : list Node;
  controlAdapters : JSMap.t Adapter;
  layers : JSMap.t Adapter;
  regions : JSMap.t Adapter;
  inpaintMask : Adapter;
  transformingEntity : option CanvasEntityIdentifier;
  _prevState : CanvasV2State;
  _isFirstRender : bool;
  _tasks : JSMap.t PendingTask;
  next_uid : nat
}.

Definition with_stage (f : list Node -> list Node) (m : CanvasManager) :=
  mkManager (f (stage m)) (controlAdapters m) (layers m) (regions m)
    (inpaintMask m) (transformingEntity m) (_prevState m) (_isFirstRender m)
    (_tasks m) (next_uid m).

Definition with_controlAdapters (f : JSMap.t Adapter -> JSMap.t Adapter)
    (m : CanvasManager) :=
  mkManager (stage m) (f (controlAdapters m)) (layers m) (regions m)
    (inpaintMask m) (transformingEntity m) (_prevState m) (_isFirstRender m)
    (_tasks m) (next_uid m).

Definition with_layers (f : JSMap.t Adapter -> JSMap.t Adapter)
    (m : CanvasManager) :=
  mkManager (stage m) (controlAdapters m) (f (layers m)) (regions m)
    (inpaintMask m) (transformingEntity m) (_prevState m) (_isFirstRender m)
    (_tasks m) (next_uid m).

Definition with_regions (f : JSMap.t Adapter -> JSMap.t Adapter)
    (m : CanvasManager) :=
  mkManager (stage m) (controlAdapters m) (layers m) (f (regions m))
    (inpaintMask m) (transformingEntity m) (_prevState m) (_isFirstRender m)
    (_tasks m) (next_uid m).

Definition with_inpaintMask (f : Adapter -> Adapter) (m : CanvasManager) :=
  mkManager (stage m) (controlAdapters m) (layers m) (regions m)
    (f (inpaintMask m)) (transformingEntity m) (_prevState m)
    (_isFirstRender m) (_tasks m) (next_uid m).

Definition with_transformingEntity (v : option CanvasEntityIdentifier)
    (m : CanvasManager) :=
  mkManager (stage m) (controlAdapters m) (layers m) (regions m)
    (inpaintMask m) v (_prevState m) (_isFirstRender m) (_tasks m)
    (next_uid m).

Definition with_prevState (s : CanvasV2State) (m : CanvasManager) :=
  mkManager (stage m) (controlAdapters m) (layers m) (regions m)
    (inpaintMask m) (transformingEntity m) s (_isFirstRender m) (_tasks m)
    (next_uid m).

Definition with_isFirstRender (b : bool) (m : CanvasManager) :=
  mkManager (stage m) (controlAdapters m) (layers m) (regions m)
    (inpaintMask m) (transformingEntity m) (_prevState m) b (_tasks m)
    (next_uid m).

Definition with_tasks (f : JSMap.t PendingTask -> JSMap.t PendingTask)
    (m : CanvasManager) :=
  mkManager (stage m) (controlAdapters m) (layers m) (regions m)
    (inpaintMask m) (transformingEntity m) (_prevState m) (_isFirstRender m)
    (f (_tasks m)) (next_uid m).

Definition with_next_uid (n : nat) (m : CanvasManager) :=
  mkManager (stage m) (controlAdapters m) (layers m) (regions m)
    (inpaintMask m) (transformingEntity m) (_prevState m) (_isFirstRender m)
    (_tasks m) n.

(** ** The monad of manager methods *)

Inductive Outcome (A : Type) : Type :=
| Returned (a : A) (m : CanvasManager) (tr : list Event)
| Threw (message : string) (m : CanvasManager) (tr : list Event).
Arguments Returned {A} _ _ _.
Arguments Threw {A} _ _ _.

Definition M (A : Type) : Type := CanvasManager -> Outcome A.

Definition ret {A : Type} (a : A) : M A := fun m => Returned a m [].

Definition bind {A B : Type} (c : M A) (f : A -> M B) : M B :=
  fun m =>
    match c m with
    | Returned a m1 t1 =>
        match f a m1 with
        | Returned b m2 t2 => Returned b m2 (t1 ++ t2)
        | Threw msg m2 t2 => Threw msg m2 (t1 ++ t2)
        end
    | Threw msg m1 t1 => Threw msg m1 t1
    end.

Declare Scope manager_scope.
Delimit Scope manager_scope with mgr.
Notation "x <- c1 ;; c2" := (bind c1 (fun x => c2))
  (at level 61, c1 at next level, right associativity) : manager_scope.
Notation "c1 ;; c2" := (bind c1 (fun _ => c2))
  (at level 61, right associativity) : manager_scope.
Local Open Scope manager_scope.

Definition this : M CanvasManager := fun m => Returned m m [].

Definition modify (f : CanvasManager -> CanvasManager) : M unit :=
  fun m => Returned tt (f m) [].

Definition call (e : Event) : M unit := fun m => Returned tt m [e].

Definition throw {A : Type} (message : string) : M A :=
  fun m => Threw message m [].

Definition when (b : bool) (c : M unit) : M unit := if b then c else ret tt.

Fixpoint for_each {A : Type} (l : list A) (body : A -> M unit) : M unit :=
  match l with
  | [] => ret tt
  | x :: rest => body x ;; for_each rest body
  end.

(** ** Collaborators *)

(** The three id-keyed adapter collections of the manager. *)
Inductive Collection : Type := Layers | ControlAdapters | Regions.

Definition adapters_of (c : Collection) (m : CanvasManager) : JSMap.t Adapter :=
  match c with
  | Layers => layers m
  | ControlAdapters => controlAdapters m
  | Regions => regions m
  end.

Definition with_adapters (c : Collection)
    (f : JSMap.t Adapter -> JSMap.t Adapter) : CanvasManager -> CanvasManager :=
  match c with
  | Layers => with_layers f
  | ControlAdapters => with_controlAdapters f
  | Regions => with_regions f
  end.

Definition adapter_class (c : Collection) : AdapterClass :=
  match c with
  | Layers => CanvasLayer
  | ControlAdapters => CanvasControlAdapter
  | Regions => CanvasRegion
  end.

(** [stateApi.getLayersState().entities] and its siblings: the State
    Accessor returns the sub-trees of the current snapshot. *)
Definition snapshot_entities (c : Collection) (s : CanvasV2State)
    : list CanvasEntityState :=
  match c with
  | Layers => entities_of (State.layers (val s))
  | ControlAdapters => entities_of (State.controlAdapters (val s))
  | Regions => entities_of (State.regions (val s))
  end.

(** Modelled from the spec: the adapter classes ([CanvasLayer],
    [CanvasRegion], [CanvasControlAdapter], [CanvasInpaintMask]) are not
    part of the sources at hand.  An adapter owns the renderable
    representation for one entity id, so a new adapter takes the id of the
    entity state it is built from, and its type tag is that of its class;
    [next_uid] numbers the objects as they are allocated. *)
Definition new_adapter (c : AdapterClass) (e : CanvasEntityState) : M Adapter :=
  m <- this ;;
  let a := mkAdapter (es_id e) (class_type c) (next_uid m) e in
  modify (with_next_uid (S (next_uid m))) ;;
  call (New c (ad_uid a) e) ;;
  ret a.

(** Mutating the adapter object [uid]. *)
Definition set_adapter_state (uid : nat) (e : CanvasEntityState) (a : Adapter)
    : Adapter :=
  if Nat.eqb (ad_uid a) uid then with_state e a else a.

(** Modelled from the spec: [adapter.update({state, toolState, isSelected})]
    brings the adapter's representation up to date with the entity state;
    the adapter stays the same object. *)
Definition adapter_update (c : Collection) (a : Adapter) (e : CanvasEntityState)
    (toolState : ToolState) (isSelected : bool) : M unit :=
  call (Update (adapter_class c) (ad_uid a) e toolState isSelected) ;;
  modify (with_adapters c (JSMap.map_values (set_adapter_state (ad_uid a) e))).

(** Modelled from the spec: [adapter.render(entity)], the update contract of
    regions and control adapters. *)
Definition adapter_render (c : Collection) (a : Adapter) (e : CanvasEntityState)
    : M unit :=
  call (Render (adapter_class c) (ad_uid a) e) ;;
  modify (with_adapters c (JSMap.map_values (set_adapter_state (ad_uid a) e))).

(** Modelled from the spec: [adapter.destroy()] releases the adapter's
    scene-graph nodes. *)
Definition adapter_destroy (c : Collection) (a : Adapter) : M unit :=
  call (Destroy (adapter_class c) (ad_uid a) (ad_id a)) ;;
  modify (with_stage (remove_node (konva_layer a))).

(** [this.stage.add(layer)] *)
Definition stage_add (n : Node) : M unit :=
  call (StageAdd n) ;;
  modify (with_stage (fun children => children ++ [n])).

(** [layer.zIndex(i)] *)
Definition zIndex (n : Node) (i : nat) : M unit :=
  call (ZIndex n i) ;;
  modify (with_stage (setZIndex n i)).

(** Modelled from the spec: the Value Channel ([PubSub]) holds one current
    value and takes a new one only when its equality function says the value
    changed.  The transform target uses the default equality, [===]: the
    identifiers published are [null] or an object literal built at the call,
    so two values are the same only when both are [null]. *)
Definition transformingEntity_same
    (old new : option CanvasEntityIdentifier) : bool :=
  match old, new with
  | None, None => true
  | _, _ => false
  end.

Definition transformingEntity_publish (v : option CanvasEntityIdentifier)
    : M unit :=
  m <- this ;;
  if transformingEntity_same (transformingEntity m) v
  then ret tt
  else modify (with_transformingEntity v) ;; call (NotifyTransformingEntity v).

(** ** The constructor *)

(** The stage receives, in this order, the preview layer, the background,
    the initial image and the inpaint mask; the inpaint mask adapter is the
    first adapter object allocated. *)
Definition constructor (s : CanvasV2State) : CanvasManager :=
  let mask := State.inpaintMask (val s) in
  let inpaint :=
    mkAdapter (es_id (val mask)) (class_type CanvasInpaintMask) 0 (val mask) in
  mkManager
    [NPreview; NBackground; NInitialImage; konva_layer inpaint]
    JSMap.empty JSMap.empty JSMap.empty
    inpaint
    None
    s true
    JSMap.empty
    1.

(** ** Background task channel *)

(** [requestBbox(data, onComplete)]; [id] is what [nanoid()] returned. *)
Definition requestBbox (data : BboxData) (onComplete : Callback) (id : string)
    : M unit :=
  let task := mkTask id data in
  modify (with_tasks (JSMap.set id (mkPending task onComplete))) ;;
  call (PostMessage task).

(** [this._worker.onmessage] *)
Definition worker_onmessage (msg : WorkerMessage) : M unit :=
  match msg with
  | MsgLog level message ctx => call (WorkerLog level message ctx)
  | MsgExtents tid extents =>
      m <- this ;;
      match JSMap.get tid (_tasks m) with
      | None => ret tt
      | Some t =>
          call (OnComplete (onComplete t) extents) ;;
          modify (with_tasks (JSMap.delete tid))
      end
  end.

(** ** Entity collection reconciliation *)

(** [for (const x of map.values()) if (!entities.find(e => e.id === x.id))
    { x.destroy(); map.delete(x.id) }].  The iterator of a JavaScript [Map]
    is live: an entry deleted before it is reached is not visited. *)
Definition destroy_if_nonexistent (c : Collection)
    (entities : list CanvasEntityState) (entry : string * Adapter) : M unit :=
  let x := snd entry in
  m <- this ;;
  when (JSMap.has (fst entry) (adapters_of c m))
    (when (negb (existsb (fun e => String.eqb (es_id e) (ad_id x)) entities))
       (adapter_destroy c x ;;
        modify (with_adapters c (JSMap.delete (ad_id x))))).

Definition destroy_nonexistent (c : Collection)
    (entities : list CanvasEntityState) (entries : list (string * Adapter))
    : M unit :=
  for_each entries (destroy_if_nonexistent c entities).

(** [let adapter = map.get(entity.id); if (!adapter) { adapter = new X(entity,
    this); map.set(adapter.id, adapter); this.stage.add(adapter.konva.layer) }] *)
Definition get_or_create (c : Collection) (e : CanvasEntityState) : M Adapter :=
  m <- this ;;
  match JSMap.get (es_id e) (adapters_of c m) with
  | Some a => ret a
  | None =>
      a <- new_adapter (adapter_class c) e ;;
      modify (with_adapters c (JSMap.set (ad_id a) a)) ;;
      stage_add (konva_layer a) ;;
      ret a
  end.

(** The body of the loop over [state.layers.entities] in [render]. *)
Definition update_layer (s : CanvasV2State) (entityState : CanvasEntityState)
    : M unit :=
  a <- get_or_create Layers entityState ;;
  adapter_update Layers a entityState (State.tool (val s))
    (option_string_eqb (selected_id s) (Some (es_id entityState))).

(** The body of the loops of [renderRegions] and [renderControlAdapters]. *)
Definition render_entity (c : Collection) (entity : CanvasEntityState)
    : M unit :=
  a <- get_or_create c entity ;;
  adapter_render c a entity.

(** The layer part of [render]. *)
Definition renderLayers (s : CanvasV2State) : M unit :=
  let entities := entities_of (State.layers (val s)) in
  m <- this ;;
  destroy_nonexistent Layers entities (layers m) ;;
  for_each entities (update_layer s).

Definition renderRegions (s : CanvasV2State) : M unit :=
  let entities := entities_of (State.regions (val s)) in
  m <- this ;;
  destroy_nonexistent Regions entities (regions m) ;;
  for_each entities (render_entity Regions).

Definition renderControlAdapters (s : CanvasV2State) : M unit :=
  let entities := entities_of (State.controlAdapters (val s)) in
  m <- this ;;
  destroy_nonexistent ControlAdapters entities (controlAdapters m) ;;
  for_each entities (render_entity ControlAdapters).

(** ** Z-order *)

(** [for (const e of entities) map.get(e.id)?.konva.layer.zIndex(++zIndex)];
    the counter is only incremented when the adapter exists. *)
Fixpoint arrange_collection (c : Collection) (entities : list CanvasEntityState)
    (z : nat) : M nat :=
  match entities with
  | [] => ret z
  | e :: rest =>
      m <- this ;;
      z' <- match JSMap.get (es_id e) (adapters_of c m) with
            | Some a => zIndex (konva_layer a) (S z) ;; ret (S z)
            | None => ret z
            end ;;
      arrange_collection c rest z'
  end.

Definition arrangeEntities (s : CanvasV2State) : M unit :=
  let layers := snapshot_entities Layers s in
  let controlAdapters := snapshot_entities ControlAdapters s in
  let regions := snapshot_entities Regions s in
  let z := 0 in
  zIndex NBackground (S z) ;;
  let z := S z in
  zIndex NInitialImage (S z) ;;
  let z := S z in
  z <- arrange_collection Layers layers z ;;
  z <- arrange_collection ControlAdapters controlAdapters z ;;
  z <- arrange_collection Regions regions z ;;
  m <- this ;;
  zIndex (konva_layer (inpaintMask m)) (S z) ;;
  let z := S z in
  zIndex NPreview (S z).

(** ** Derived values *)

Definition find_entity (i : string) (entities : list CanvasEntityState)
    : option CanvasEntityState :=
  find (fun e => String.eqb (es_id e) i) entities.

Definition getEntity (s : CanvasV2State) (m : CanvasManager)
    (identifier : CanvasEntityIdentifier) : option EntityStateAndAdapter :=
  let state := val s in
  let '(entityState, entityAdapter) :=
    match type identifier with
    | layer =>
        (find_entity (id identifier) (entities_of (State.layers state)),
         option_map AsLayer (JSMap.get (id identifier) (layers m)))
    | control_adapter =>
        (find_entity (id identifier) (entities_of (State.controlAdapters state)),
         option_map AsControlAdapter
           (JSMap.get (id identifier) (controlAdapters m)))
    | regional_guidance =>
        (find_entity (id identifier) (entities_of (State.regions state)),
         option_map AsRegion (JSMap.get (id identifier) (regions m)))
    | inpaint_mask =>
        (Some (val (State.inpaintMask state)),
         Some (AsInpaintMask (inpaintMask m)))
    end in
  match entityState, entityAdapter with
  | Some st, Some ad =>
      if EntityType_eqb (es_type st) (ad_type (the_adapter ad))
      then Some (mkPair st ad)
      else None
  | _, _ => None
  end.

Definition getSelectedEntity (s : CanvasV2State) (m : CanvasManager)
    : option EntityStateAndAdapter :=
  match State.selectedEntityIdentifier (val s) with
  | Some identifier => getEntity s m identifier
  | None => None
  end.

Definition is_mask_like (t : EntityType) : bool :=
  match t with
  | regional_guidance | inpaint_mask => true
  | _ => false
  end.

Definition getCurrentFill (s : CanvasV2State) (m : CanvasManager) : RgbaColor :=
  let currentFill := tool_fill (State.tool (val s)) in
  match getSelectedEntity s m with
  | Some selectedEntity =>
      if is_mask_like (es_type (state selectedEntity))
      then RGBA_WHITE
      else currentFill
  | None => currentFill
  end.

(** [{ ...fill, a: maskOpacity }] *)
Definition with_alpha (alpha : number) (c : RgbaColor) : RgbaColor :=
  mkRgba (color_r c) (color_g c) (color_b c) alpha.

Definition getBrushPreviewFill (s : CanvasV2State) (m : CanvasManager)
    : RgbaColor :=
  let currentFill := tool_fill (State.tool (val s)) in
  match getSelectedEntity s m with
  | Some selectedEntity =>
      if is_mask_like (es_type (state selectedEntity))
      then with_alpha (State.maskOpacity (State.settings (val s)))
             (es_fill (state selectedEntity))
      else currentFill
  | None => currentFill
  end.

(** ** Transform state machine *)

Definition getTransformingLayer (m : CanvasManager) : option AnyAdapter :=
  match transformingEntity m with
  | None => None
  | Some transformingEntity =>
      match type transformingEntity with
      | layer => option_map AsLayer (JSMap.get (id transformingEntity) (layers m))
      | inpaint_mask => Some (AsInpaintMask (inpaintMask m))
      | _ => None
      end
  end.

Definition getIsTransforming (m : CanvasManager) : bool :=
  match transformingEntity m with Some _ => true | None => false end.

(** [x instanceof CanvasLayer || x instanceof CanvasInpaintMask] *)
Definition is_transformable (x : AnyAdapter) : bool :=
  match x with
  | AsLayer _ | AsInpaintMask _ => true
  | _ => false
  end.

Definition startTransform (s : CanvasV2State) : M unit :=
  m <- this ;;
  if getIsTransforming m then ret tt
  else
    match getSelectedEntity s m with
    | Some selected =>
        if is_transformable (adapter selected)
        then
          call (TransformerStart (ad_uid (the_adapter (adapter selected)))) ;;
          transformingEntity_publish
            (Some (mkIdentifier (es_id (state selected))
                     (es_type (state selected))))
        else throw "No selected layer"
    | None => throw "No selected layer"
    end.

Definition applyTransform : M unit :=
  m <- this ;;
  match getTransformingLayer m with
  | Some target => call (TransformerApply (ad_uid (the_adapter target)))
  | None => ret tt
  end ;;
  transformingEntity_publish None.

Definition cancelTransform : M unit :=
  m <- this ;;
  match getTransformingLayer m with
  | Some target => call (TransformerStop (ad_uid (the_adapter target)))
  | None => ret tt
  end ;;
  transformingEntity_publish None.

(** ** The render cycle *)

(** [render] and the methods it awaits, run with nothing else in between:
    the manager they find after an [await] is the one they left. *)

Definition inpaintMask_update (e : CanvasEntityState) (toolState : ToolState)
    (isSelected : bool) : M unit :=
  m <- this ;;
  call (Update CanvasInpaintMask (ad_uid (inpaintMask m)) e toolState isSelected) ;;
  modify (with_inpaintMask (with_state e)).

Definition render (s : CanvasV2State) : M unit :=
  m <- this ;;
  let state := val s in
  let prev := val (_prevState m) in
  let first := _isFirstRender m in
  let layers_changed :=
    negb (same_ref (State.entities (val (State.layers state)))
                   (State.entities (val (State.layers prev)))) in
  let controlAdapters_changed :=
    negb (same_ref (State.entities (val (State.controlAdapters state)))
                   (State.entities (val (State.controlAdapters prev)))) in
  let regions_changed :=
    negb (same_ref (State.entities (val (State.regions state)))
                   (State.entities (val (State.regions prev)))) in
  let inpaintMask_changed :=
    negb (same_ref (State.inpaintMask state) (State.inpaintMask prev)) in
  let maskOpacity_changed :=
    negb (number_eqb (State.maskOpacity (State.settings state))
                     (State.maskOpacity (State.settings prev))) in
  let tool_changed :=
    negb (String.eqb (tool_selected (State.tool state))
                     (tool_selected (State.tool prev))) in
  let selection_changed :=
    negb (option_string_eqb (selected_id s) (selected_id (_prevState m))) in
  if same_ref (_prevState m) s && negb first then
    call (Log "trace" "No changes detected, skipping render")
  else
    when (first || layers_changed)
      (call (Log "debug" "Rendering layers") ;;
       renderLayers s) ;;
    when (first
          || negb (Nat.eqb (State.initialImage state) (State.initialImage prev))
          || negb (Nat.eqb (State.rect (val (State.bbox state)))
                           (State.rect (val (State.bbox prev))))
          || tool_changed || selection_changed)
      (call (Log "debug" "Rendering initial image") ;;
       call InitialImageRender) ;;
    when (first || regions_changed || maskOpacity_changed || tool_changed
          || selection_changed)
      (call (Log "debug" "Rendering regions") ;;
       renderRegions s) ;;
    when (first || inpaintMask_changed || maskOpacity_changed || tool_changed
          || selection_changed)
      (call (Log "debug" "Rendering inpaint mask") ;;
       inpaintMask_update (val (State.inpaintMask state)) (State.tool state)
         (option_string_eqb (selected_id s)
            (Some (es_id (val (State.inpaintMask state)))))) ;;
    when (first || controlAdapters_changed || tool_changed || selection_changed)
      (call (Log "debug" "Rendering control adapters") ;;
       renderControlAdapters s) ;;
    call (PublishToolState (State.tool state)) ;;
    call (PublishSelectedEntityIdentifier (State.selectedEntityIdentifier state)) ;;
    (m1 <- this ;; call (PublishSelectedEntity (getSelectedEntity s m1))) ;;
    (m1 <- this ;; call (PublishCurrentFill (getCurrentFill s m1))) ;;
    when (first
          || negb (same_ref (State.bbox state) (State.bbox prev))
          || tool_changed
          || negb (Bool.eqb (State.isActive (val (State.session state)))
                            (State.isActive (val (State.session prev)))))
      (call (Log "debug" "Rendering generation bbox") ;;
       call BboxRender) ;;
    when (first
          || negb (same_ref (State.layers state) (State.layers prev))
          || negb (same_ref (State.controlAdapters state)
                            (State.controlAdapters prev))
          || negb (same_ref (State.regions state) (State.regions prev)))
      (ret tt) ;;
    when (first || negb (same_ref (State.session state) (State.session prev)))
      (call (Log "debug" "Rendering staging area") ;;
       call StagingAreaRender) ;;
    when (first || layers_changed || controlAdapters_changed || regions_changed
          || inpaintMask_changed || selection_changed)
      (call (Log "debug" "Arranging entities") ;;
       arrangeEntities s) ;;
    modify (with_prevState s) ;;
    when first (modify (with_isFirstRender false)).

Definition state_after {A : Type} (o : Outcome A) : CanvasManager :=
  match o with
  | Returned _ m _ => m
  | Threw _ m _ => m
  end.

Definition trace_of {A : Type} (o : Outcome A) : list Event :=
  match o with
  | Returned _ _ tr => tr
  | Threw _ _ tr => tr
  end.

Definition returned {A : Type} (o : Outcome A) : bool :=
  match o with
  | Returned _ _ _ => true
  | Threw _ _ _ => false
  end.

(** Render passes that do not overlap: one pass per snapshot, each over
    when the next begins.  [initialize] subscribes [render] to the store
    without awaiting it, so this is what happens when the store dispatches
    a snapshot only once the pass of the previous one has finished; [Async]
    has the general case. *)
Fixpoint render_all (snapshots : list CanvasV2State) : M unit :=
  match snapshots with
  | [] => ret tt
  | s :: rest => render s ;; render_all rest
  end.

(** ** Logging contexts *)

(** JSON values, as far as logging contexts hold them. *)
#[warnings="-register-all"] Inductive JSONValue : Type :=
| JString (s : string)
| JNumber (n : number)
| JBoolean (b : bool)
| JNull
| JObject (fields : list (string * JSONValue)).

(** [JSONObject]: a JavaScript object with string keys. *)
Definition JSONObject : Type := JSMap.t JSONValue.

(** [{ ...target, ...source }]: the own properties of [source] are copied
    over [target] in order; a key that exists keeps its place and takes the
    new value. *)
Definition spread (target source : JSONObject) : JSONObject :=
  fold_left (fun acc kv => JSMap.set (fst kv) (snd kv) acc) source target.

(** [{ ...x }] for an optional [x]: spreading [undefined] copies nothing. *)
Definition spread_optional (target : JSONObject) (source : option JSONObject)
    : JSONObject :=
  match source with
  | Some o => spread target o
  | None => target
  end.

(** [getLoggingContext()]: the manager's own context is the empty object. *)
Definition getLoggingContext : JSONObject := JSMap.empty.

(** An instance passed to [buildGetLoggingContext]: what the [instanceof]
    tests say about it, its [id], and what its parent's
    [getLoggingContext()] returns. *)
Record LoggingInstance : Type := mkLoggingInstance {
  instanceof_CanvasLayer : bool;
  instanceof_CanvasStagingArea : bool;
  instanceof_CanvasInpaintMask : bool;
  instanceof_CanvasObjectRenderer : bool;
  instance_id : string;
  parent_getLoggingContext : JSONObject
}.

(** [buildGetLoggingContext(instance)]: a function of the optional [extra]
    fields. *)
Definition buildGetLoggingContext (instance : LoggingInstance)
    : option JSONObject -> JSONObject :=
  if instanceof_CanvasLayer instance
     || instanceof_CanvasStagingArea instance
     || instanceof_CanvasInpaintMask instance
  then
    fun extra =>
      spread_optional
        (JSMap.set "entityId" (JString (instance_id instance))
           (spread JSMap.empty getLoggingContext))
        extra
  else if instanceof_CanvasObjectRenderer instance
  then
    fun extra =>
      spread_optional
        (JSMap.set "rendererId" (JString (instance_id instance))
           (spread JSMap.empty (parent_getLoggingContext instance)))
        extra
  else
    fun extra =>
      spread_optional
        (JSMap.set "objectId" (JString (instance_id instance))
           (spread JSMap.empty (parent_getLoggingContext instance)))
        extra.

(** ** Vocabulary of the properties *)

(** A computation that returns, with a postcondition on the value, the
    manager and the calls it made. *)
Definition returns {A : Type} (c : M A) (m : CanvasManager)
    (Q : A -> CanvasManager -> list Event -> Prop) : Prop :=
  match c m with
  | Returned a m' tr => Q a m' tr
  | Threw _ _ _ => False
  end.

(** The ids of a list of entity states. *)
Definition ids (entities : list CanvasEntityState) : list string :=
  map es_id entities.

(** A collection is keyed by adapter id, one entry per key. *)
Definition key_is_id (kv : string * Adapter) : Prop := fst kv = ad_id (snd kv).

Definition keyed (mp : JSMap.t Adapter) : Prop :=
  NoDup (JSMap.keys mp) /\ Forall key_is_id mp.

(** The live adapters of collection [c] are exactly the entities of the
    snapshot [s]: same id set, one adapter per id. *)
Definition converged (c : Collection) (s : CanvasV2State) (m : CanvasManager)
    : Prop :=
  (forall i, In i (JSMap.keys (adapters_of c m)) <->
             In i (ids (snapshot_entities c s))) /\
  NoDup (JSMap.keys (adapters_of c m)) /\
  (forall k a, In (k, a) (adapters_of c m) -> ad_id a = k).

(** Immutable snapshots: an address denotes one object, so two sub-trees
    at the same address have the same content. *)
Definition entities_ref (c : Collection) (s : CanvasV2State)
    : Ref (list CanvasEntityState) :=
  match c with
  | Layers => State.entities (val (State.layers (val s)))
  | ControlAdapters => State.entities (val (State.controlAdapters (val s)))
  | Regions => State.entities (val (State.regions (val s)))
  end.

Definition coherent (x y : CanvasV2State) : Prop :=
  (addr x = addr y -> val x = val y) /\
  (forall c, addr (entities_ref c x) = addr (entities_ref c y) ->
             val (entities_ref c x) = val (entities_ref c y)).

(** The selected identifier resolves to an entity state and an adapter:
    both lookups of [getEntity] succeed. *)
Inductive resolves (s : CanvasV2State) (m : CanvasManager)
    : CanvasEntityIdentifier -> CanvasEntityState -> AnyAdapter -> Prop :=
| resolves_layer i st a :
    find_entity i (entities_of (State.layers (val s))) = Some st ->
    JSMap.get i (layers m) = Some a ->
    resolves s m (mkIdentifier i layer) st (AsLayer a)
| resolves_control_adapter i st a :
    find_entity i (entities_of (State.controlAdapters (val s))) = Some st ->
    JSMap.get i (controlAdapters m) = Some a ->
    resolves s m (mkIdentifier i control_adapter) st (AsControlAdapter a)
| resolves_region i st a :
    find_entity i (entities_of (State.regions (val s))) = Some st ->
    JSMap.get i (regions m) = Some a ->
    resolves s m (mkIdentifier i regional_guidance) st (AsRegion a)
| resolves_inpaint_mask i :
    resolves s m (mkIdentifier i inpaint_mask)
      (val (State.inpaintMask (val s))) (AsInpaintMask (inpaintMask m)).

(** The adapters found for the snapshot's entities, in snapshot order. *)
Fixpoint adapters_in_order (mp : JSMap.t Adapter)
    (entities : list CanvasEntityState) : list Adapter :=
  match entities with
  | [] => []
  | e :: rest =>
      match JSMap.get (es_id e) mp with
      | Some a => a :: adapters_in_order mp rest
      | None => adapters_in_order mp rest
      end
  end.

(** The z-order of the spec: background, initial image, drawable layers,
    control adapters, region guides, inpaint mask, preview. *)
Definition scene_order (s : CanvasV2State) (m : CanvasManager) : list Node :=
  [NBackground; NInitialImage]
  ++ map konva_layer (adapters_in_order (layers m) (snapshot_entities Layers s))
  ++ map konva_layer
       (adapters_in_order (controlAdapters m)
          (snapshot_entities ControlAdapters s))
  ++ map konva_layer
       (adapters_in_order (regions m) (snapshot_entities Regions s))
  ++ [konva_layer (inpaintMask m); NPreview].

(** [ZIndex] calls on the nodes of [l], numbered from [z + 1]. *)
Fixpoint zIndex_calls (l : list Node) (z : nat) : list Event :=
  match l with
  | [] => []
  | n :: rest => ZIndex n (S z) :: zIndex_calls rest (S z)
  end.

(** Calls that create, update or destroy an adapter, or publish a value. *)
Definition is_adapter_or_publish_call (e : Event) : bool :=
  match e with
  | New _ _ _ | Destroy _ _ _ | Update _ _ _ _ _ | Render _ _ _
  | StageAdd _ | ZIndex _ _
  | PublishToolState _ | PublishSelectedEntityIdentifier _
  | PublishSelectedEntity _ | PublishCurrentFill _
  | NotifyTransformingEntity _
  | TransformerStart _ | TransformerApply _ | TransformerStop _ => true
  | _ => false
  end.

(** The selection resolves to the entity state [st] of a region guide or of
    the inpaint mask, paired with an adapter of the same type tag. *)
Definition selected_mask_like (s : CanvasV2State) (m : CanvasManager)
    (st : CanvasEntityState) : Prop :=
  exists identifier ad,
    State.selectedEntityIdentifier (val s) = Some identifier /\
    resolves s m identifier st ad /\
    es_type st = ad_type (the_adapter ad) /\
    (es_type st = regional_guidance \/ es_type st = inpaint_mask).

(** The selection resolves to [st] paired with the adapter [ad] of the same
    type tag. *)
Definition selection_is (s : CanvasV2State) (m : CanvasManager)
    (st : CanvasEntityState) (ad : AnyAdapter) : Prop :=
  exists identifier,
    State.selectedEntityIdentifier (val s) = Some identifier /\
    resolves s m identifier st ad /\
    es_type st = ad_type (the_adapter ad).

(** The recorded transform target does not resolve to a live drawable-layer
    or inpaint-mask adapter. *)
Definition target_unresolved (m : CanvasManager) (t : CanvasEntityIdentifier)
    : Prop :=
  type t = control_adapter \/
  type t = regional_guidance \/
  (type t = layer /\ JSMap.get (id t) (layers m) = None).

(** What the task channel sees: requests and worker messages. *)
Inductive ChannelOp : Type :=
| OpRequest (data : BboxData) (onComplete : Callback) (id : string)
| OpMessage (msg : WorkerMessage).

Definition run_op (op : ChannelOp) : M unit :=
  match op with
  | OpRequest data cb i => requestBbox data cb i
  | OpMessage msg => worker_onmessage msg
  end.

(** The operation does not concern task [i]. *)
Definition other_task (i : string) (op : ChannelOp) : Prop :=
  match op with
  | OpRequest _ _ j => j <> i
  | OpMessage (MsgExtents j _) => j <> i
  | OpMessage (MsgLog _ _ _) => True
  end.

(** ** Vocabulary of the scene graph *)

(** The identities of the adapters of collection [c]. *)
Definition coll_uids (c : Collection) (m : CanvasManager) : list nat :=
  map ad_uid (JSMap.values (adapters_of c m)).

(** The identities of all live adapters: the inpaint mask and the three
    collections. *)
Definition uids (m : CanvasManager) : list nat :=
  ad_uid (inpaintMask m)
  :: coll_uids Layers m ++ coll_uids ControlAdapters m ++ coll_uids Regions m.

Definition other_uids (c : Collection) (m : CanvasManager) : list nat :=
  match c with
  | Layers => coll_uids ControlAdapters m ++ coll_uids Regions m
  | ControlAdapters => coll_uids Layers m ++ coll_uids Regions m
  | Regions => coll_uids Layers m ++ coll_uids ControlAdapters m
  end.

(** The stage holds the preview, the background, the initial image and one
    layer per live adapter; adapters are distinct objects, allocated before
    [next_uid]. *)
Definition scene_consistent (m : CanvasManager) : Prop :=
  NoDup (uids m) /\
  Forall (fun u => u < next_uid m) (uids m) /\
  Permutation (stage m)
    ([NPreview; NBackground; NInitialImage] ++ map NAdapter (uids m)).

(** The entity ids of each collection of a snapshot are distinct. *)
Definition unique_ids (s : CanvasV2State) : Prop :=
  forall c, NoDup (ids (snapshot_entities c s)).

(** ** Vocabulary of the reconciliation proofs *)

Definition Collection_eqb (x y : Collection) : bool :=
  match x, y with
  | Layers, Layers => true
  | ControlAdapters, ControlAdapters => true
  | Regions, Regions => true
  | _, _ => false
  end.

(** The class named by a creation or destruction call. *)
Definition lifecycle_class (e : Event) : option AdapterClass :=
  match e with
  | New c _ _ => Some c
  | Destroy c _ _ => Some c
  | _ => None
  end.

(** The ids of collection [c] are those of the snapshot [s]. *)
Definition synced_ids (s : CanvasV2State) (c : Collection) (m : CanvasManager)
    : Prop :=
  forall i, In i (JSMap.keys (adapters_of c m)) <->
            In i (ids (snapshot_entities c s)).

(** An adapter whose id is in the snapshot [s] stays the same object. *)
Definition kept (s : CanvasV2State) (c : Collection) (m m' : CanvasManager)
    : Prop :=
  forall i a,
    JSMap.get i (adapters_of c m) = Some a ->
    In i (ids (snapshot_entities c s)) ->
    exists a', JSMap.get i (adapters_of c m') = Some a' /\
               ad_uid a' = ad_uid a.

(** Adapters are destroyed only when their id is absent from [s]. *)
Definition destroys_only_absent (s : CanvasV2State) (c : Collection)
    (tr : list Event) : Prop :=
  forall uid i,
    In (Destroy (adapter_class c) uid i) tr ->
    ~ In i (ids (snapshot_entities c s)).

(** Adapters are created only for ids of [s] that had none in [m]. *)
Definition creates_only_missing (s : CanvasV2State) (c : Collection)
    (m : CanvasManager) (tr : list Event) : Prop :=
  forall uid e,
    In (New (adapter_class c) uid e) tr ->
    In (es_id e) (ids (snapshot_entities c s)) /\
    JSMap.get (es_id e) (adapters_of c m) = None.

(** What a step of a render pass may establish: collection [c] reconciled
    with the snapshot, the previous snapshot replaced, the first-render flag
    cleared. *)
Inductive Flag : Type :=
| FSync (c : Collection)
| FPrev
| FFirst.

(** What every step guarantees about the snapshot pointer and the
    first-render flag; [b] tells what the step establishes. *)
Record step_flags (s : CanvasV2State) (b : Flag -> bool)
    (m m' : CanvasManager) : Prop := mk_step_flags {
  fl_prev_set : b FPrev = true -> _prevState m' = s;
  fl_prev : _prevState m = s -> _prevState m' = s;
  fl_first_set : b FFirst = true -> _isFirstRender m' = false;
  fl_first : _isFirstRender m = false -> _isFirstRender m' = false
}.

(** What every step guarantees about the collections, given that they are
    keyed by adapter id. *)
Record step_ok (s : CanvasV2State) (b : Flag -> bool)
    (m m' : CanvasManager) (tr : list Event) : Prop := mk_step_ok {
  ok_keyed : forall c, keyed (adapters_of c m');
  ok_kept : forall c, kept s c m m';
  ok_destroy : forall c, destroys_only_absent s c tr;
  ok_create : forall c, creates_only_missing s c m tr;
  ok_synced : forall c, synced_ids s c m -> synced_ids s c m';
  ok_triggered : forall c, b (FSync c) = true -> synced_ids s c m';
  ok_scene : scene_consistent m -> scene_consistent m'
}.

Definition step_spec (s : CanvasV2State) (b : Flag -> bool)
    (c : M unit) : Prop :=
  forall m,
    returns c m (fun _ m' tr =>
      step_flags s b m m' /\
      ((forall c, keyed (adapters_of c m)) -> step_ok s b m m' tr)).

Definition no_flag : Flag -> bool := fun _ => false.

Definition sync_flag (c : Collection) : Flag -> bool :=
  fun f => match f with FSync c' => Collection_eqb c' c | _ => false end.

Definition prev_flag : Flag -> bool :=
  fun f => match f with FPrev => true | _ => false end.

Definition first_flag : Flag -> bool :=
  fun f => match f with FFirst => true | _ => false end.

(** A step that touches no collection, neither creates nor destroys, and
    leaves the snapshot pointer and the first-render flag alone. *)
Definition quiet_step {A : Type} (c : M A) : Prop :=
  forall m,
    returns c m (fun _ m' tr =>
      (forall c, adapters_of c m' = adapters_of c m) /\
      _prevState m' = _prevState m /\
      _isFirstRender m' = _isFirstRender m /\
      Forall (fun e => lifecycle_class e = None) tr /\
      (scene_consistent m -> scene_consistent m')).

(** Whether the adapter of an entry has its id in the snapshot. *)
Definition id_in_snapshot (E : list CanvasEntityState)
    (entry : string * Adapter) : bool :=
  existsb (fun e => String.eqb (es_id e) (ad_id (snd entry))) E.

(** Invariant of the destroy loop over the entries of collection [c] of
    [m0]: the entries [done] have been visited. *)
Definition destroy_inv (c : Collection) (E : list CanvasEntityState)
    (m0 : CanvasManager) (done : list (string * Adapter)) (m : CanvasManager)
    (tr : list Event) : Prop :=
  adapters_of c m
    = filter (id_in_snapshot E) done
      ++ skipn (List.length done) (adapters_of c m0) /\
  (forall c', c' <> c -> adapters_of c' m = adapters_of c' m0) /\
  _prevState m = _prevState m0 /\
  _isFirstRender m = _isFirstRender m0 /\
  (forall ev, In ev tr ->
     exists entry,
       In entry done /\ id_in_snapshot E entry = false /\
       ev = Destroy (adapter_class c) (ad_uid (snd entry)) (ad_id (snd entry))) /\
  (scene_consistent m0 -> scene_consistent m).

(** Invariant of the loop over the snapshot's entities for collection [c],
    started from [m0]: the entities [done] have been visited. *)
Definition entity_inv (c : Collection) (m0 : CanvasManager)
    (done : list CanvasEntityState) (m : CanvasManager) (tr : list Event)
    : Prop :=
  keyed (adapters_of c m) /\
  (forall i, In i (JSMap.keys (adapters_of c m)) <->
             In i (JSMap.keys (adapters_of c m0)) \/ In i (ids done)) /\
  (forall i a, JSMap.get i (adapters_of c m0) = Some a ->
     exists a', JSMap.get i (adapters_of c m) = Some a' /\
                ad_uid a' = ad_uid a) /\
  (forall c', c' <> c -> adapters_of c' m = adapters_of c' m0) /\
  _prevState m = _prevState m0 /\
  _isFirstRender m = _isFirstRender m0 /\
  (forall ev, In ev tr ->
     lifecycle_class ev = None \/
     exists uid e,
       ev = New (adapter_class c) uid e /\ In e done /\
       JSMap.get (es_id e) (adapters_of c m0) = None) /\
  (scene_consistent m0 -> scene_consistent m).

(** The update contract of an adapter, as the entity loop uses it: one call
    that is neither a creation nor a destruction, and the new state in the
    adapter object. *)
Definition updates_state (c : Collection) (e : CanvasEntityState)
    (upd : Adapter -> M unit) : Prop :=
  forall a m,
    exists ev,
      lifecycle_class ev = None /\
      upd a m =
        Returned tt
          (with_adapters c
             (JSMap.map_values (set_adapter_state (ad_uid a) e)) m)
          [ev].

(** [render] returns at once: same snapshot object as last time, and not
    the first invocation. *)
Definition takes_fast_path (s : CanvasV2State) (m : CanvasManager) : bool :=
  same_ref (_prevState m) s && negb (_isFirstRender m).

(** [state.x.entities !== this._prevState.x.entities] *)
Definition entities_changed (c : Collection) (s : CanvasV2State)
    (m : CanvasManager) : bool :=
  negb (same_ref (entities_ref c s) (entities_ref c (_prevState m))).

(** What a full render pass establishes. *)
Definition render_flags (s : CanvasV2State) (m : CanvasManager)
    : Flag -> bool :=
  fun f =>
    match f with
    | FSync c => _isFirstRender m || entities_changed c s m
    | FPrev => true
    | FFirst => _isFirstRender m
    end.

(** The children of the stage after [zIndex] has been called on the nodes
    of [l], in order, with the indices [z + 1], [z + 2], ... *)
Fixpoint apply_zIndex (l : list Node) (z : nat) (children : list Node)
    : list Node :=
  match l with
  | [] => children
  | n :: rest => apply_zIndex rest (S z) (setZIndex n (S z) children)
  end.


(** The children of the stage are in the z-order of the spec: the z-index
    of each layer is its rank in [scene_order], so it grows along it. *)
Definition z_ordered (s : CanvasV2State) (m : CanvasManager)
    (children : list Node) : Prop :=
  children = scene_order s m /\
  (forall i n,
     nth_error (scene_order s m) i = Some n ->
     getZIndex n children = Some i) /\
  (forall i j x y,
     i < j ->
     nth_error (scene_order s m) i = Some x ->
     nth_error (scene_order s m) j = Some y ->
     exists zx zy,
       getZIndex x children = Some zx /\ getZIndex y children = Some zy /\
       zx < zy).

(** ** Footprints of manager methods *)

(** What a method may do: a relation between the manager before, the
    manager after and the calls made. *)
Definition Footprint : Type := CanvasManager -> CanvasManager -> list Event -> Prop.

(** Every run of [c] returns and stays within the footprint [R]. *)
Definition within {A : Type} (R : Footprint) (c : M A) : Prop :=
  forall m, returns c m (fun _ m' tr => R m m' tr).

(** Footprints that doing nothing satisfies and that compose along
    sequencing. *)
Class Composable (R : Footprint) : Prop := {
  fp_refl : forall m, R m m [];
  fp_trans : forall m m1 m2 t1 t2,
    R m m1 t1 -> R m1 m2 t2 -> R m m2 (t1 ++ t2)
}.

(** The calls [render] makes go to adapters, Konva nodes, the value channels
    of the render pass and the log: not to the worker, a completion
    callback, a transformer or the transform target's channel. *)
Definition is_render_call (e : Event) : bool :=
  match e with
  | PostMessage _ | OnComplete _ _ | WorkerLog _ _ _
  | TransformerStart _ | TransformerApply _ | TransformerStop _
  | NotifyTransformingEntity _ => false
  | _ => true
  end.

(** The footprint of a render pass on the rest of the manager. *)
Definition render_frame : Footprint := fun m m' tr =>
  _tasks m' = _tasks m /\
  transformingEntity m' = transformingEntity m /\
  Forall (fun e => is_render_call e = true) tr.

(** ** Selective rendering *)

(** What a call of a render pass is about. *)
Inductive CallKind : Type :=
| KAdapter (c : AdapterClass)
| KInitialImage
| KBbox
| KStagingArea
| KZIndex.

Definition kind_of (e : Event) : option CallKind :=
  match e with
  | New c _ _ | Destroy c _ _ | Update c _ _ _ _ | Render c _ _ =>
      Some (KAdapter c)
  | InitialImageRender => Some KInitialImage
  | BboxRender => Some KBbox
  | StagingAreaRender => Some KStagingArea
  | ZIndex _ _ => Some KZIndex
  | _ => None
  end.

Definition AdapterClass_eqb (x y : AdapterClass) : bool :=
  match x, y with
  | CanvasLayer, CanvasLayer => true
  | CanvasControlAdapter, CanvasControlAdapter => true
  | CanvasRegion, CanvasRegion => true
  | CanvasInpaintMask, CanvasInpaintMask => true
  | _, _ => false
  end.

Definition CallKind_eqb (x y : CallKind) : bool :=
  match x, y with
  | KAdapter c, KAdapter c' => AdapterClass_eqb c c'
  | KInitialImage, KInitialImage => true
  | KBbox, KBbox => true
  | KStagingArea, KStagingArea => true
  | KZIndex, KZIndex => true
  | _, _ => false
  end.

Definition is_kind (k : CallKind) (e : Event) : bool :=
  match kind_of e with
  | Some k' => CallKind_eqb k' k
  | None => false
  end.

(** The comparisons of [render] with the previous snapshot. *)
Definition inpaintMask_changed (s : CanvasV2State) (m : CanvasManager) : bool :=
  negb (same_ref (State.inpaintMask (val s))
                 (State.inpaintMask (val (_prevState m)))).

Definition maskOpacity_changed (s : CanvasV2State) (m : CanvasManager) : bool :=
  negb (number_eqb (State.maskOpacity (State.settings (val s)))
                   (State.maskOpacity (State.settings (val (_prevState m))))).

Definition tool_changed (s : CanvasV2State) (m : CanvasManager) : bool :=
  negb (String.eqb (tool_selected (State.tool (val s)))
                   (tool_selected (State.tool (val (_prevState m))))).

Definition selection_changed (s : CanvasV2State) (m : CanvasManager) : bool :=
  negb (option_string_eqb (selected_id s) (selected_id (_prevState m))).

Definition initialImage_changed (s : CanvasV2State) (m : CanvasManager) : bool :=
  negb (Nat.eqb (State.initialImage (val s))
                (State.initialImage (val (_prevState m)))).

Definition bbox_rect_changed (s : CanvasV2State) (m : CanvasManager) : bool :=
  negb (Nat.eqb (State.rect (val (State.bbox (val s))))
                (State.rect (val (State.bbox (val (_prevState m)))))).

Definition bbox_changed (s : CanvasV2State) (m : CanvasManager) : bool :=
  negb (same_ref (State.bbox (val s)) (State.bbox (val (_prevState m)))).

Definition session_changed (s : CanvasV2State) (m : CanvasManager) : bool :=
  negb (same_ref (State.session (val s)) (State.session (val (_prevState m)))).

Definition isActive_changed (s : CanvasV2State) (m : CanvasManager) : bool :=
  negb (Bool.eqb (State.isActive (val (State.session (val s))))
                 (State.isActive (val (State.session (val (_prevState m)))))).

(** The guard of each block of a full render pass. *)
Definition triggered (s : CanvasV2State) (m : CanvasManager) (k : CallKind)
    : bool :=
  let first := _isFirstRender m in
  match k with
  | KAdapter CanvasLayer => first || entities_changed Layers s m
  | KInitialImage =>
      first || initialImage_changed s m || bbox_rect_changed s m
      || tool_changed s m || selection_changed s m
  | KAdapter CanvasRegion =>
      first || entities_changed Regions s m || maskOpacity_changed s m
      || tool_changed s m || selection_changed s m
  | KAdapter CanvasInpaintMask =>
      first || inpaintMask_changed s m || maskOpacity_changed s m
      || tool_changed s m || selection_changed s m
  | KAdapter CanvasControlAdapter =>
      first || entities_changed ControlAdapters s m || tool_changed s m
      || selection_changed s m
  | KBbox =>
      first || bbox_changed s m || tool_changed s m || isActive_changed s m
  | KStagingArea => first || session_changed s m
  | KZIndex =>
      first || entities_changed Layers s m
      || entities_changed ControlAdapters s m
      || entities_changed Regions s m
      || inpaintMask_changed s m || selection_changed s m
  end.

(** The calls to the collaborators that are not entity adapters: the
    initial image, the inpaint mask, the four value channels, the bounding
    box and the staging area. *)
Definition is_fixed_call (e : Event) : bool :=
  match e with
  | InitialImageRender | BboxRender | StagingAreaRender
  | Update CanvasInpaintMask _ _ _ _
  | PublishToolState _ | PublishSelectedEntityIdentifier _
  | PublishSelectedEntity _ | PublishCurrentFill _ => true
  | _ => false
  end.

(** The collections and the inpaint mask are the same. *)
Definition same_adapters (m m' : CanvasManager) : Prop :=
  layers m' = layers m /\ controlAdapters m' = controlAdapters m /\
  regions m' = regions m /\ inpaintMask m' = inpaintMask m.

(** No call of kind [k] is made. *)
Definition no_call_of (k : CallKind) : Footprint :=
  fun _ _ tr => existsb (is_kind k) tr = false.

(** The footprint of the reconciliation of a collection on the fixed
    collaborators: none is called, and the inpaint mask adapter is left
    alone. *)
Definition collection_footprint : Footprint := fun m m' tr =>
  filter is_fixed_call tr = [] /\ inpaintMask m' = inpaintMask m.

(** The footprint of the end of a render pass (arranging the layers,
    recording the snapshot): no fixed collaborator is called, and the
    adapters are left alone. *)
Definition arrange_footprint : Footprint := fun m m' tr =>
  filter is_fixed_call tr = [] /\ same_adapters m m'.

(** The calls a full render pass over [s] makes to the fixed collaborators,
    in order, from the manager [m]; [m'] is the manager after the pass. *)
Definition fixed_calls (s : CanvasV2State) (m m' : CanvasManager)
    : list Event :=
  let state := val s in
  (if triggered s m KInitialImage then [InitialImageRender] else [])
  ++ (if triggered s m (KAdapter CanvasInpaintMask)
      then [Update CanvasInpaintMask (ad_uid (inpaintMask m))
              (val (State.inpaintMask state)) (State.tool state)
              (option_string_eqb (selected_id s)
                 (Some (es_id (val (State.inpaintMask state)))))]
      else [])
  ++ [PublishToolState (State.tool state);
      PublishSelectedEntityIdentifier (State.selectedEntityIdentifier state);
      PublishSelectedEntity (getSelectedEntity s m');
      PublishCurrentFill (getCurrentFill s m')]
  ++ (if triggered s m KBbox then [BboxRender] else [])
  ++ (if triggered s m KStagingArea then [StagingAreaRender] else []).

(** ** The stage across render passes *)

(** The stage has the same children in the same order, the inpaint mask is
    the same object and each id is bound to the same adapter object. *)
Definition same_objects (m m' : CanvasManager) : Prop :=
  stage m' = stage m /\
  ad_uid (inpaintMask m') = ad_uid (inpaintMask m) /\
  forall c i,
    option_map ad_uid (JSMap.get i (adapters_of c m'))
    = option_map ad_uid (JSMap.get i (adapters_of c m)).

(** A step that, on collections that already hold the ids of the snapshot,
    creates and destroys nothing and moves no layer. *)
Definition stable_step (s : CanvasV2State) (c : M unit) : Prop :=
  forall m,
    (forall c, keyed (adapters_of c m)) ->
    (forall c, synced_ids s c m) ->
    returns c m (fun _ m' _ =>
      (forall c, keyed (adapters_of c m')) /\
      (forall c, synced_ids s c m') /\
      same_objects m m').

(** What the rest [T] of a render pass establishes, when the steps made so
    far from [m0] have established [b]. *)
Definition after_steps (s : CanvasV2State) (b : Flag -> bool)
    (m0 : CanvasManager) (T : M unit) (Q : CanvasManager -> Prop) : Prop :=
  forall m tr0,
    step_flags s b m0 m ->
    ((forall c, keyed (adapters_of c m0)) -> step_ok s b m0 m tr0) ->
    returns T m (fun _ m' _ => Q m').

(** The manager between two render passes: collections keyed by id, a
    stage that holds one layer per adapter, and, once a snapshot has been
    rendered, the ids of that snapshot and its z-order. *)
Definition settled (m : CanvasManager) : Prop :=
  (forall c, keyed (adapters_of c m)) /\
  scene_consistent m /\
  (_isFirstRender m = false ->
   (forall c, synced_ids (_prevState m) c m) /\
   (unique_ids (_prevState m) -> stage m = scene_order (_prevState m) m)).

(** ** Transform targets and tasks *)

(** The type tag of an adapter is that of its class: [CanvasLayer] declares
    [type = 'layer'], and so on. *)
Definition adapter_tagged (x : AnyAdapter) : Prop :=
  match x with
  | AsLayer a => ad_type a = class_type CanvasLayer
  | AsControlAdapter a => ad_type a = class_type CanvasControlAdapter
  | AsRegion a => ad_type a = class_type CanvasRegion
  | AsInpaintMask a => ad_type a = class_type CanvasInpaintMask
  end.

(** The tasks posted to the worker and the completion callbacks called. *)
Definition is_post (e : Event) : bool :=
  match e with PostMessage _ => true | _ => false end.

Definition is_completion (e : Event) : bool :=
  match e with OnComplete _ _ => true | _ => false end.

Definition posts (tr : list Event) : nat := List.length (filter is_post tr).

Definition completions (tr : list Event) : nat :=
  List.length (filter is_completion tr).

(** ** Type tags of the adapters *)

(** An adapter of collection [c], as [getEntity] returns it. *)
Definition wrap_adapter (c : Collection) (a : Adapter) : AnyAdapter :=
  match c with
  | Layers => AsLayer a
  | ControlAdapters => AsControlAdapter a
  | Regions => AsRegion a
  end.

(** Every adapter carries the type tag of its class. *)
Definition tagged (m : CanvasManager) : Prop :=
  (forall c k a, In (k, a) (adapters_of c m) ->
                 ad_type a = class_type (adapter_class c)) /\
  ad_type (inpaintMask m) = class_type CanvasInpaintMask.

Definition keeps_tags : Footprint := fun m m' _ => tagged m -> tagged m'.

(** The entities of the snapshot carry the type tag of the sub-tree they
    are in, as the types [CanvasLayerState], [CanvasControlAdapterState],
    [CanvasRegionalGuidanceState] and [CanvasInpaintMaskState] require. *)
Definition well_typed (s : CanvasV2State) : Prop :=
  (forall c e, In e (snapshot_entities c s) ->
               es_type e = class_type (adapter_class c)) /\
  es_type (val (State.inpaintMask (val s))) = class_type CanvasInpaintMask.

(** ** The state held by the adapters *)

(** What a render pass brings up to date: the adapters of a collection, or
    the inpaint mask adapter. *)
Inductive Target : Type :=
| TCollection (c : Collection)
| TMask.

(** The adapters of the target hold the state the snapshot gives their
    entity: it is the state they were last updated or rendered with. *)
Definition up_to_date (s : CanvasV2State) (t : Target) (m : CanvasManager)
    : Prop :=
  match t with
  | TCollection c =>
      forall e, In e (snapshot_entities c s) ->
        exists a, JSMap.get (es_id e) (adapters_of c m) = Some a /\
                  ad_state a = e
  | TMask => ad_state (inpaintMask m) = val (State.inpaintMask (val s))
  end.

(** The entities of the target have distinct ids. *)
Definition distinct_ids (s : CanvasV2State) (t : Target) : Prop :=
  match t with
  | TCollection c => NoDup (ids (snapshot_entities c s))
  | TMask => True
  end.

(** What a step does to the state held by the adapters; [b] tells which
    targets the step brings up to date. *)
Record step_fresh (s : CanvasV2State) (b : Target -> bool)
    (m m' : CanvasManager) : Prop := mk_step_fresh {
  fresh_kept : forall t, b t = false -> up_to_date s t m -> up_to_date s t m';
  fresh_done : forall t, b t = true -> distinct_ids s t -> up_to_date s t m'
}.

Definition fresh_spec (s : CanvasV2State) (b : Target -> bool) (c : M unit)
    : Prop :=
  forall m,
    (forall c, keyed (adapters_of c m)) -> scene_consistent m ->
    returns c m (fun _ m' _ => step_fresh s b m m').

Definition no_target : Target -> bool := fun _ => false.

Definition collection_target (c : Collection) : Target -> bool :=
  fun t =>
    match t with
    | TCollection c' => Collection_eqb c' c
    | TMask => false
    end.

Definition mask_target : Target -> bool :=
  fun t => match t with TMask => true | TCollection _ => false end.

(** The targets a full render pass brings up to date. *)
Definition render_targets (s : CanvasV2State) (m : CanvasManager)
    : Target -> bool :=
  fun t =>
    match t with
    | TCollection c => triggered s m (KAdapter (adapter_class c))
    | TMask => triggered s m (KAdapter CanvasInpaintMask)
    end.

(** Only the collection [c] is touched. *)
Definition touches_only (c : Collection) : Footprint := fun m m' _ =>
  (forall c', c' <> c -> adapters_of c' m' = adapters_of c' m) /\
  inpaintMask m' = inpaintMask m.

(** Invariant of the loop over the snapshot's entities, for the state held
    by the adapters: the entities [done] have been visited. *)
Definition entity_loop_inv (c : Collection) (done : list CanvasEntityState)
    (m : CanvasManager) : Prop :=
  keyed (adapters_of c m) /\
  scene_consistent m /\
  forall e, In e done ->
    exists a, JSMap.get (es_id e) (adapters_of c m) = Some a /\
              ad_state a = e.

(** Immutable snapshots, for the inpaint mask: the same address holds the
    same mask state. *)
Definition mask_coherent (x y : CanvasV2State) : Prop :=
  addr (State.inpaintMask (val x)) = addr (State.inpaintMask (val y)) ->
  val (State.inpaintMask (val x)) = val (State.inpaintMask (val y)).

(** Once a snapshot has been rendered, the adapters hold its state. *)
Definition current (m : CanvasManager) : Prop :=
  _isFirstRender m = false ->
  forall t, distinct_ids (_prevState m) t -> up_to_date (_prevState m) t m.

(** The adapters are left alone. *)
Definition keeps_adapters : Footprint := fun m m' _ => same_adapters m m'.

(** ** Logging contexts *)

(** The key under which [buildGetLoggingContext] records the id of the
    instance. *)
Definition id_key (instance : LoggingInstance) : string :=
  if instanceof_CanvasLayer instance
     || instanceof_CanvasStagingArea instance
     || instanceof_CanvasInpaintMask instance
  then "entityId"
  else if instanceof_CanvasObjectRenderer instance then "rendererId"
  else "objectId".

(** The ambient context the instance's fields are merged over: the
    manager's for a layer, the inpaint mask or the staging area, the
    parent's for the others. *)
Definition ambient_context (instance : LoggingInstance) : JSONObject :=
  if instanceof_CanvasLayer instance
     || instanceof_CanvasStagingArea instance
     || instanceof_CanvasInpaintMask instance
  then getLoggingContext
  else parent_getLoggingContext instance.

(** The keys of an object are distinct. *)
Definition well_formed (o : JSONObject) : Prop := NoDup (JSMap.keys o).

(** ** The life of an adapter object *)

(** The adapter object a call is made on: an update, a render, a move in
    the z-order, the insertion of its layer in the stage, a transformer
    operation. *)
Definition uses_adapter (e : Event) : option nat :=
  match e with
  | Update _ uid _ _ _ | Render _ uid _
  | StageAdd (NAdapter uid) | ZIndex (NAdapter uid) _
  | TransformerStart uid | TransformerApply uid | TransformerStop uid =>
      Some uid
  | _ => None
  end.

Definition is_live (uid : nat) (live : list nat) : bool :=
  existsb (Nat.eqb uid) live.

(** Following a trace from the set [live] of the live adapter objects: a
    creation makes an object live, and it must not be live already; a
    destruction ends its life, and it must be live; any other call on an
    object requires it to be live.  The result is the set of live objects at
    the end, or nothing when a call breaks these rules. *)
Fixpoint follow (live : list nat) (tr : list Event) : option (list nat) :=
  match tr with
  | [] => Some live
  | New _ uid _ :: rest =>
      if is_live uid live then None else follow (uid :: live) rest
  | Destroy _ uid _ :: rest =>
      if is_live uid live
      then follow (remove Nat.eq_dec uid live) rest
      else None
  | e :: rest =>
      match uses_adapter e with
      | Some uid => if is_live uid live then follow live rest else None
      | None => follow live rest
      end
  end.

Definition same_elements (l l' : list nat) : Prop :=
  forall u, In u l <-> In u l'.

(** The calls [tr], made from [m] and ending in [m'], keep to the life of
    the adapters: followed from the adapters of [m], they break no rule and
    end with the adapters of [m']. *)
Definition conforms (m m' : CanvasManager) (tr : list Event) : Prop :=
  forall live,
    same_elements live (uids m) ->
    exists live', follow live tr = Some live' /\ same_elements live' (uids m').

Definition protocol_spec (c : M unit) : Prop :=
  forall m,
    (forall c, keyed (adapters_of c m)) -> scene_consistent m ->
    returns c m (fun _ m' tr => conforms m m' tr).

(** A step that calls no adapter and leaves the adapters alone. *)
Definition no_adapter_call : Footprint := fun m m' tr =>
  same_adapters m m' /\
  Forall (fun e => uses_adapter e = None /\ lifecycle_class e = None) tr.

(** ** Asynchronous methods *)

(** [render], [renderInitialImage], [renderRegions] and
    [renderControlAdapters] are [async]: a call runs up to its first
    [await], and the rest runs later, when the awaited promise has settled.
    Whatever else was called in between has run on the same manager.  A
    task is the code of such a method, with its suspension points. *)
Module Task.

(** - [Sync c k]: the synchronous code [c], which may read the store through
      the State Accessor, then [k] on its result;
    - [Await k]: the method is suspended; [k] is what runs when it is
      resumed;
    - [DestroyLayers entities awaited seen k]: the loop of [render] over
      [this.layers.values()], whose body awaits:
      [for (const canvasLayer of this.layers.values())
         if (!entities.find((l) => l.id === canvasLayer.id))
           { await canvasLayer.destroy(); this.layers.delete(canvasLayer.id) }].
      The iterator of a [Map] is live: at each step it yields the first
      entry of the map, as it then is, that it has not passed yet.  An
      adapter object is put in the map once, when it is created, so the
      entries passed are told by the identities [seen] of their adapters.
      [awaited] is the adapter whose [destroy()] the loop is suspended at. *)
Inductive t (A : Type) : Type :=
| Done (a : A)
| Sync {B : Type} (c : CanvasV2State -> M B) (k : B -> t A)
| Await (k : t A)
| DestroyLayers (entities : list CanvasEntityState) (awaited : option Adapter)
    (seen : list nat) (k : t A).
Arguments Done {A} _.
Arguments Sync {A B} _ _.
Arguments Await {A} _.
Arguments DestroyLayers {A} _ _ _ _.

Fixpoint bind {A B : Type} (c : t A) (f : A -> t B) : t B :=
  match c with
  | Done a => f a
  | Sync c k => Sync c (fun b => bind (k b) f)
  | Await k => Await (bind k f)
  | DestroyLayers entities awaited seen k =>
      DestroyLayers entities awaited seen (bind k f)
  end.

(** Synchronous code of the manager. *)
Definition lift {A : Type} (c : M A) : t A := Sync (fun _ => c) Done.

(** Synchronous code that reads the store: [this.stateApi.getState()] and
    the getters of the sub-trees return what the store holds at the time
    of the call. *)
Definition stateApi {A : Type} (c : CanvasV2State -> M A) : t A := Sync c Done.

Definition getState : t CanvasV2State := stateApi (fun state => ret state).

(** [await c]: the call [c] is made, and the caller is suspended until the
    promise it returned has settled. *)
Definition await {A : Type} (c : t A) : t A := bind c (fun a => Await (Done a)).

Definition when (b : bool) (c : t unit) : t unit := if b then c else Done tt.

Fixpoint for_each {A : Type} (l : list A) (body : A -> t unit) : t unit :=
  match l with
  | [] => Done tt
  | x :: rest => bind (body x) (fun _ => for_each rest body)
  end.

(** A task has finished, or is suspended at an [await]. *)
Inductive Status (A : Type) : Type :=
| Finished (a : A)
| Suspended (k : t A).
Arguments Finished {A} _.
Arguments Suspended {A} _.

(** The next entry of the live iterator whose adapter has no entity in
    [entities], and the entries passed once it is yielded. *)
Fixpoint next_nonexistent (entities : list CanvasEntityState) (seen : list nat)
    (entries : JSMap.t Adapter) : option (Adapter * list nat) :=
  match entries with
  | [] => None
  | (_, canvasLayer) :: rest =>
      if existsb (Nat.eqb (ad_uid canvasLayer)) seen
      then next_nonexistent entities seen rest
      else if existsb (fun l => String.eqb (es_id l) (ad_id canvasLayer)) entities
      then next_nonexistent entities (seen ++ [ad_uid canvasLayer]) rest
      else Some (canvasLayer, seen ++ [ad_uid canvasLayer])
  end.

(** The loop over the live iterator, from where it is: the [delete] that
    follows the awaited [destroy()], then the iteration up to the next
    [await canvasLayer.destroy()]; [after] is what follows the loop. *)
Definition destroy_layers {A : Type} (entities : list CanvasEntityState)
    (awaited : option Adapter) (seen : list nat) (k : t A)
    (after : M (Status A)) : M (Status A) :=
  (match awaited with
   | Some canvasLayer => modify (with_layers (JSMap.delete (ad_id canvasLayer)))
   | None => ret tt
   end ;;
   m <- this ;;
   match next_nonexistent entities seen (layers m) with
   | Some (canvasLayer, seen') =>
       adapter_destroy Layers canvasLayer ;;
       ret (Suspended (DestroyLayers entities (Some canvasLayer) seen' k))
   | None => after
   end)%mgr.

(** A task runs, on the store as it is, until it has finished or is
    suspended. *)
Fixpoint advance {A : Type} (c : t A) (store : CanvasV2State)
    : M (Status A) :=
  match c with
  | Done a => ret (Finished a)
  | Sync c k => (b <- c store ;; advance (k b) store)%mgr
  | Await k => ret (Suspended k)
  | DestroyLayers entities awaited seen k =>
      destroy_layers entities awaited seen k (advance k store)
  end.

End Task.

Declare Scope task_scope.
Delimit Scope task_scope with task.
Notation "x <- c1 ;; c2" := (Task.bind c1 (fun x => c2))
  (at level 61, c1 at next level, right associativity) : task_scope.
Notation "c1 ;; c2" := (Task.bind c1 (fun _ => c2))
  (at level 61, right associativity) : task_scope.

(** ** Render passes that overlap *)

Module Async.

Local Open Scope task_scope.

(** [await this.initialImage.render(this.stateApi.getInitialImageState())] *)
Definition renderInitialImage : Task.t unit :=
  Task.await (Task.lift (call InitialImageRender)).

(** The loop of [renderRegions] and [renderControlAdapters] over the
    entities: [for (const entity of entities) { ...; await
    adapter.render(entity) }]. *)
Definition render_entities (c : Collection) (entities : list CanvasEntityState)
    : Task.t unit :=
  Task.for_each entities
    (fun entity => Task.await (Task.lift (render_entity c entity))).

(** [renderRegions]: the entities are those of the store at the time of the
    call; the loop that destroys has no [await]. *)
Definition renderRegions : Task.t unit :=
  entities <- Task.stateApi
                (fun state => ret (entities_of (State.regions (val state)))) ;;
  Task.lift (m <- this ;; destroy_nonexistent Regions entities (regions m))%mgr ;;
  render_entities Regions entities.

Definition renderControlAdapters : Task.t unit :=
  entities <- Task.stateApi
                (fun state =>
                   ret (entities_of (State.controlAdapters (val state)))) ;;
  Task.lift (m <- this ;;
             destroy_nonexistent ControlAdapters entities (controlAdapters m))%mgr ;;
  render_entities ControlAdapters entities.

(** [render]: [state] is the snapshot the store held when the pass began;
    [this._prevState] and [this._isFirstRender] are read at each guard,
    and [getSelectedEntity], [getCurrentFill], [renderRegions],
    [renderControlAdapters] and [arrangeEntities] read the store when they
    are called. *)
Definition render : Task.t unit :=
  state <- Task.getState ;;
  m <- Task.lift this ;;
  if same_ref (_prevState m) state && negb (_isFirstRender m) then
    Task.lift (call (Log "trace" "No changes detected, skipping render"))
  else
    (m <- Task.lift this ;;
     Task.when (_isFirstRender m || entities_changed Layers state m)
       (Task.lift (call (Log "debug" "Rendering layers")) ;;
        Task.DestroyLayers (entities_of (State.layers (val state))) None []
          (Task.Done tt) ;;
        Task.for_each (entities_of (State.layers (val state)))
          (fun entityState =>
             Task.await (Task.lift (update_layer state entityState))))) ;;
    (m <- Task.lift this ;;
     Task.when (_isFirstRender m || initialImage_changed state m
                || bbox_rect_changed state m || tool_changed state m
                || selection_changed state m)
       (Task.lift (call (Log "debug" "Rendering initial image")) ;;
        Task.await renderInitialImage)) ;;
    (m <- Task.lift this ;;
     Task.when (_isFirstRender m || entities_changed Regions state m
                || maskOpacity_changed state m || tool_changed state m
                || selection_changed state m)
       (Task.lift (call (Log "debug" "Rendering regions")) ;;
        Task.await renderRegions)) ;;
    (m <- Task.lift this ;;
     Task.when (_isFirstRender m || inpaintMask_changed state m
                || maskOpacity_changed state m || tool_changed state m
                || selection_changed state m)
       (Task.lift (call (Log "debug" "Rendering inpaint mask")) ;;
        Task.await
          (Task.lift
             (inpaintMask_update (val (State.inpaintMask (val state)))
                (State.tool (val state))
                (option_string_eqb (selected_id state)
                   (Some (es_id (val (State.inpaintMask (val state)))))))))) ;;
    (m <- Task.lift this ;;
     Task.when (_isFirstRender m || entities_changed ControlAdapters state m
                || tool_changed state m || selection_changed state m)
       (Task.lift (call (Log "debug" "Rendering control adapters")) ;;
        Task.await renderControlAdapters)) ;;
    Task.lift (call (PublishToolState (State.tool (val state)))) ;;
    Task.lift (call (PublishSelectedEntityIdentifier
                       (State.selectedEntityIdentifier (val state)))) ;;
    Task.stateApi
      (fun store =>
         m1 <- this ;;
         call (PublishSelectedEntity (getSelectedEntity store m1)))%mgr ;;
    Task.stateApi
      (fun store =>
         m1 <- this ;;
         call (PublishCurrentFill (getCurrentFill store m1)))%mgr ;;
    (m <- Task.lift this ;;
     Task.when (_isFirstRender m || bbox_changed state m || tool_changed state m
                || isActive_changed state m)
       (Task.lift (call (Log "debug" "Rendering generation bbox")) ;;
        Task.await (Task.lift (call BboxRender)))) ;;
    (m <- Task.lift this ;;
     Task.when (_isFirstRender m
                || negb (same_ref (State.layers (val state))
                                  (State.layers (val (_prevState m))))
                || negb (same_ref (State.controlAdapters (val state))
                                  (State.controlAdapters (val (_prevState m))))
                || negb (same_ref (State.regions (val state))
                                  (State.regions (val (_prevState m)))))
       (Task.Done tt)) ;;
    (m <- Task.lift this ;;
     Task.when (_isFirstRender m || session_changed state m)
       (Task.lift (call (Log "debug" "Rendering staging area")) ;;
        Task.await (Task.lift (call StagingAreaRender)))) ;;
    (m <- Task.lift this ;;
     Task.when (_isFirstRender m || entities_changed Layers state m
                || entities_changed ControlAdapters state m
                || entities_changed Regions state m
                || inpaintMask_changed state m || selection_changed state m)
       (Task.lift (call (Log "debug" "Arranging entities")) ;;
        Task.await (Task.stateApi arrangeEntities))) ;;
    Task.lift (modify (with_prevState state)) ;;
    (m <- Task.lift this ;;
     Task.when (_isFirstRender m)
       (Task.lift (modify (with_isFirstRender false)))).

(** The store, the manager subscribed to it, the calls made so far and the
    render passes that are suspended. *)
Record World : Type := mkWorld {
  store : CanvasV2State;
  manager : CanvasManager;
  calls : list Event;
  in_flight : list (Task.t unit)
}.

(** The world [initialize] finds: the manager as constructed over the state
    the store holds, and nothing in flight. *)
Definition boot (s0 : CanvasV2State) : World :=
  mkWorld s0 (constructor s0) [] [].

(** What happens next:
    - [Dispatch s]: the store takes the state [s] and notifies its
      subscriber, [this.render] ([this._store.subscribe(this.render)]); the
      call [this.render()] of [initialize] is a notification that leaves
      the state as it is.  Neither awaits the pass: it runs up to its
      first [await] and stays in flight;
    - [Resume i]: the promise the [i]-th pass in flight awaits has settled,
      and the pass runs up to its next [await], or to its end.  Which
      promise settles first is up to the collaborators awaited (adapters,
      images), so any pass in flight may be the next to run. *)
Inductive Action : Type :=
| Dispatch (s : CanvasV2State)
| Resume (i : nat).

(** The pass [c] runs in [w]; [suspended k] are the passes in flight when it
    is suspended with [k] left to run, [finished] when it has ended. *)
Definition run_pass (c : Task.t unit) (w : World)
    (suspended : Task.t unit -> list (Task.t unit))
    (finished : list (Task.t unit)) : World :=
  match Task.advance c (store w) (manager w) with
  | Returned (Task.Suspended k) m tr =>
      mkWorld (store w) m (calls w ++ tr) (suspended k)
  | Returned (Task.Finished _) m tr =>
      mkWorld (store w) m (calls w ++ tr) finished
  | Threw _ m tr => mkWorld (store w) m (calls w ++ tr) finished
  end.

Definition step (w : World) (a : Action) : World :=
  match a with
  | Dispatch s =>
      run_pass render (mkWorld s (manager w) (calls w) (in_flight w))
        (fun k => in_flight w ++ [k]) (in_flight w)
  | Resume i =>
      match nth_error (in_flight w) i with
      | Some c =>
          run_pass c w
            (fun k => firstn i (in_flight w) ++ k :: skipn (S i) (in_flight w))
            (firstn i (in_flight w) ++ skipn (S i) (in_flight w))
      | None => w
      end
  end.

Definition run (schedule : list Action) (w : World) : World :=
  fold_left step schedule w.

(** The snapshots dispatched, in order. *)
Fixpoint dispatched (schedule : list Action) : list CanvasV2State :=
  match schedule with
  | [] => []
  | Dispatch s :: rest => s :: dispatched rest
  | Resume _ :: rest => dispatched rest
  end.

(** No pass is begun while another is in flight: every dispatch finds the
    manager at rest. *)
Fixpoint one_at_a_time (schedule : list Action) (w : World) : bool :=
  match schedule with
  | [] => true
  | a :: rest =>
      match a, in_flight w with
      | Dispatch _, _ :: _ => false
      | _, _ => one_at_a_time rest (step w a)
      end
  end.

(** The loop over the live iterator when nothing else runs in between:
    each [destroy()] is followed at once by its [delete].  Every round
    passes at least one entry, so as many rounds as the map has entries
    are enough; more change nothing. *)
Fixpoint destroy_layers_alone (rounds : nat) (entities : list CanvasEntityState)
    (seen : list nat) : M unit :=
  match rounds with
  | 0 => ret tt
  | S rounds' =>
      (m <- this ;;
       match Task.next_nonexistent entities seen (layers m) with
       | Some (canvasLayer, seen') =>
           adapter_destroy Layers canvasLayer ;;
           modify (with_layers (JSMap.delete (ad_id canvasLayer))) ;;
           destroy_layers_alone rounds' entities seen'
       | None => ret tt
       end)%mgr
  end.

(** A task run to its end with nothing else running in between, on a
    store that does not change: every [await] resumes at once. *)
Fixpoint alone {A : Type} (c : Task.t A) (store : CanvasV2State) : M A :=
  match c with
  | Task.Done a => ret a
  | Task.Sync c k => (b <- c store ;; alone (k b) store)%mgr
  | Task.Await k => alone k store
  | Task.DestroyLayers entities awaited seen k =>
      (match awaited with
       | Some canvasLayer =>
           modify (with_layers (JSMap.delete (ad_id canvasLayer)))
       | None => ret tt
       end ;;
       m <- this ;;
       destroy_layers_alone (List.length (layers m)) entities seen ;;
       alone k store)%mgr
  end.

End Async.

(** ** Sample snapshots *)

Module Sample.

(** The tool fill of the spec's example, [{r:10, g:20, b:30, a:255}]. *)
Definition fill : RgbaColor :=
  mkRgba (Qmake 10 1) (Qmake 20 1) (Qmake 30 1) (Qmake 255 1).

Definition entity (i : string) (t : EntityType) : CanvasEntityState :=
  mkEntityState i t fill 0.

Definition snapshot (a : Addr) (ls cs rs : Ref (list CanvasEntityState))
    (selected : option CanvasEntityIdentifier) : CanvasV2State :=
  mkRef a
    (State.mk
       (mkRef (a + 1) (State.mkEntities ls))
       (mkRef (a + 2) (State.mkEntities cs))
       (mkRef (a + 3) (State.mkEntities rs))
       (mkRef (a + 4) (entity "mask" inpaint_mask))
       0
       (mkRef (a + 5) (State.mkBbox 0))
       (mkTool "brush" fill)
       (State.mkSettings (Qmake 3 10))
       selected
       (mkRef (a + 6) (State.mkSession false))).

Definition L1 := entity "L1" layer.
Definition L2 := entity "L2" layer.
Definition C1 := entity "C1" control_adapter.
Definition R1 := entity "R1" regional_guidance.

(** The snapshot the manager is constructed with: no entities. *)
Definition initial : CanvasV2State :=
  snapshot 0 (mkRef 90 []) (mkRef 91 []) (mkRef 92 []) None.

(** Two layers, a control adapter and a region guide; [L1] selected. *)
Definition two_layers : CanvasV2State :=
  snapshot 10 (mkRef 100 [L1; L2]) (mkRef 101 [C1]) (mkRef 102 [R1])
    (Some (mkIdentifier "L1" layer)).

(** The layers swapped; everything else is the same objects. *)
Definition swapped : CanvasV2State :=
  snapshot 20 (mkRef 200 [L2; L1]) (mkRef 101 [C1]) (mkRef 102 [R1])
    (Some (mkIdentifier "L1" layer)).

(** [L1] removed, a new region guide [R2], the control adapters untouched. *)
Definition edited : CanvasV2State :=
  snapshot 30 (mkRef 300 [L2]) (mkRef 101 [C1])
    (mkRef 302 [R1; entity "R2" regional_guidance])
    (Some (mkIdentifier "L2" layer)).

(** As [two_layers], with the region guide selected. *)
Definition region_selected : CanvasV2State :=
  snapshot 40 (mkRef 100 [L1; L2]) (mkRef 101 [C1]) (mkRef 102 [R1])
    (Some (mkIdentifier "R1" regional_guidance)).

(** As [two_layers], with the control adapter selected. *)
Definition control_selected : CanvasV2State :=
  snapshot 50 (mkRef 100 [L1; L2]) (mkRef 101 [C1]) (mkRef 102 [R1])
    (Some (mkIdentifier "C1" control_adapter)).

(** A corrupt snapshot: the entity listed among the layers under the id
    [L1] carries the type tag of a region guide. *)
Definition mismatched : CanvasV2State :=
  snapshot 60 (mkRef 600 [entity "L1" regional_guidance]) (mkRef 91 [])
    (mkRef 92 []) (Some (mkIdentifier "L1" layer)).

(** The manager after its first render pass, over [s]. *)
Definition rendered (s : CanvasV2State) : CanvasManager :=
  state_after (render s (constructor initial)).

End Sample.

(** ** More sample data *)

Module Scenario.

(** As [Sample.swapped], with another tool selected: every sub-tree is the
    same object as in [Sample.swapped]. *)
Definition tool_switched : CanvasV2State :=
  let st := val Sample.swapped in
  mkRef 70
    (State.mk (State.layers st) (State.controlAdapters st) (State.regions st)
       (State.inpaintMask st) (State.initialImage st) (State.bbox st)
       (mkTool "eraser" Sample.fill) (State.settings st)
       (State.selectedEntityIdentifier st) (State.session st)).

(** The store's snapshots in this scenario: two layers, the layers swapped,
    then the tool switched. *)
Definition history : list CanvasV2State :=
  [Sample.two_layers; Sample.swapped] ++ [tool_switched].

(** The adapters the first pass creates for the two layers. *)
Definition adapter_L1 : Adapter := mkAdapter "L1" layer 1 Sample.L1.

(** A layer asking for its logging context, and the extra fields of a log
    call that names an entity of its own. *)
Definition layer_instance : LoggingInstance :=
  mkLoggingInstance true false false false "L1" JSMap.empty.

Definition extra_fields : JSONObject :=
  [("tool", JString "brush"); ("entityId", JString "L2")].

(** A brush line of an object renderer of that layer. *)
Definition brush_line_instance : LoggingInstance :=
  mkLoggingInstance false false false false "line-1"
    [("entityId", JString "L1"); ("rendererId", JString "renderer-1")].

(** A request, an unrelated log message, the response, and the response
    once more. *)
Definition channel_ops : list ChannelOp :=
  [OpRequest (mkBboxData 7 0) 42 "task-1";
   OpMessage (MsgLog "debug" "working" None);
   OpMessage (MsgExtents "task-1" None);
   OpMessage (MsgExtents "task-1" None)].

End Scenario.

(** ** Schedules *)

Module Schedule.

(** A dispatch whose render pass is left to run to its end before anything
    else happens. *)
Definition awaited (s : CanvasV2State) : list Async.Action :=
  Async.Dispatch s :: repeat (Async.Resume 0) 24.

(** Two layers, then the layers swapped, then the tool switched, each pass
    left to finish. *)
Definition one_by_one : list Async.Action :=
  awaited Sample.two_layers ++ awaited Sample.swapped
  ++ awaited Scenario.tool_switched.

(** Two layers, then the layers swapped, then a layer removed and a region
    guide added, each pass left to finish. *)
Definition editing : list Async.Action :=
  awaited Sample.two_layers ++ awaited Sample.swapped
  ++ awaited Sample.edited.

Definition L3 : CanvasEntityState := Sample.entity "L3" layer.

(** Three layers, and then only the first of them. *)
Definition three_layers : CanvasV2State :=
  Sample.snapshot 70 (mkRef 700 [Sample.L1; Sample.L2; L3]) (mkRef 91 [])
    (mkRef 92 []) None.

Definition one_layer : CanvasV2State :=
  Sample.snapshot 80 (mkRef 800 [Sample.L1]) (mkRef 91 []) (mkRef 92 []) None.

(** The two passes in flight resumed in turn, [n] times each. *)
Fixpoint in_turn (n : nat) : list Async.Action :=
  match n with
  | 0 => []
  | S n' => Async.Resume 0 :: Async.Resume 1 :: in_turn n'
  end.

(** Both snapshots are dispatched before either pass is resumed; the two
    passes then advance in turn, one [await] at a time, until the second
    has finished, and the first runs its last two stretches. *)
Definition same_tick_before_arrange : list Async.Action :=
  Async.Dispatch three_layers :: Async.Dispatch one_layer :: in_turn 9.

Definition same_tick : list Async.Action :=
  same_tick_before_arrange ++ [Async.Resume 0; Async.Resume 0].

(** Snapshots with drawable layers only. *)
Definition layers_only (a r : Addr) (ls : list CanvasEntityState)
    (selected : option CanvasEntityIdentifier) : CanvasV2State :=
  Sample.snapshot a (mkRef r ls) (mkRef 91 []) (mkRef 92 []) selected.

Definition both_layers : CanvasV2State :=
  layers_only 100 1000 [Sample.L1; Sample.L2] None.

Definition no_layer : CanvasV2State := layers_only 110 1100 [] None.

Definition first_layer : CanvasV2State :=
  layers_only 120 1200 [Sample.L1] (Some (mkIdentifier "L1" layer)).

Definition second_layer : CanvasV2State :=
  layers_only 130 1300 [Sample.L2] None.

(** [L1] with other content. *)
Definition L1_edited : CanvasEntityState :=
  mkEntityState "L1" layer Sample.fill 1.

Definition swapped_layers : CanvasV2State :=
  layers_only 140 1400 [Sample.L2; Sample.L1] None.

Definition edited_layers : CanvasV2State :=
  layers_only 150 1500 [L1_edited; Sample.L2] None.

(** The three passes in flight resumed in turn, [n] times each. *)
Fixpoint three_in_turn (n : nat) : list Async.Action :=
  match n with
  | 0 => []
  | S n' =>
      Async.Resume 0 :: Async.Resume 1 :: Async.Resume 2 :: three_in_turn n'
  end.

(** The passes still in flight run to their end, the first one first. *)
Definition drain : list Async.Action := repeat (Async.Resume 0) 48.

(** The layers are removed, then the first is back, then the second is
    there instead: three dispatches before any pass is resumed. *)
Definition removed_and_back : list Async.Action :=
  awaited both_layers
  ++ Async.Dispatch no_layer :: Async.Dispatch first_layer
     :: Async.Dispatch second_layer :: three_in_turn 12 ++ drain.

(** The second layer is removed, and the store notifies twice. *)
Definition notified_twice : list Async.Action :=
  awaited both_layers
  ++ Async.Dispatch first_layer :: Async.Dispatch first_layer
     :: in_turn 12 ++ drain.

(** The only layer is removed and is back at once. *)
Definition removed_and_restored : list Async.Action :=
  awaited (layers_only 160 1600 [Sample.L1] None)
  ++ Async.Dispatch no_layer :: Async.Dispatch first_layer
     :: in_turn 12 ++ drain.

(** The layers are swapped, and then the first is edited. *)
Definition swapped_then_edited : list Async.Action :=
  awaited both_layers
  ++ Async.Dispatch swapped_layers :: Async.Dispatch edited_layers
     :: in_turn 12 ++ drain.

End Schedule.

(** ** Vocabulary of the overlapping passes *)

(** The entries the live iterator has not passed. *)
Definition unseen (seen : list nat) (entries : JSMap.t Adapter) : nat :=
  List.length
    (filter (fun kv => negb (existsb (Nat.eqb (ad_uid (snd kv))) seen)) entries).

(** What the pass in flight, if any, still does when nothing interrupts
    it. *)
Definition pending (w : Async.World) : M unit :=
  match Async.in_flight w with
  | [] => ret tt
  | c :: _ => Async.alone c (Async.store w)
  end.

(** The snapshot the store holds after the dispatches [snapshots]. *)
Definition last_dispatched (snapshots : list CanvasV2State)
    (s0 : CanvasV2State) : CanvasV2State :=
  last snapshots s0.

(** The render passes over [snapshots], each on the store as its dispatch
    left it, each run alone. *)
Fixpoint alone_all (snapshots : list CanvasV2State) : M unit :=
  match snapshots with
  | [] => ret tt
  | s :: rest => (Async.alone Async.render s ;; alone_all rest)%mgr
  end.

(** The manager's flags of the render cycle are left alone. *)
Definition keeps_flags : Footprint := fun m m' _ =>
  _prevState m' = _prevState m /\ _isFirstRender m' = _isFirstRender m.

(** * Properties *)

(** ** Facts about [JSMap] *)

Section JSMapFacts.

Context {V : Type}.
Implicit Types (m : JSMap.t V) (k : string) (v : V).

Lemma JSMap_get_In m k v : JSMap.get k m = Some v -> In (k, v) m.
Proof.
  induction m as [|[k' v'] m IH]; simpl; [discriminate|].
  destruct (String.eqb_spec k' k) as [->|Hne].
  - intros [= ->]. now left.
  - intros H. right. auto.
Qed.

Lemma JSMap_get_None m k : JSMap.get k m = None <-> ~ In k (JSMap.keys m).
Proof.
  induction m as [|[k' v'] m IH]; simpl.
  - split; auto.
  - destruct (String.eqb_spec k' k) as [->|Hne].
    + split; [discriminate | intros H; exfalso; apply H; now left].
    + rewrite IH. split; intros H; [intros [E|E]; [congruence|auto] | auto].
Qed.

Lemma JSMap_get_Some_keys m k v : JSMap.get k m = Some v -> In k (JSMap.keys m).
Proof.
  intros H. apply JSMap_get_In in H.
  unfold JSMap.keys. now apply (in_map fst) in H.
Qed.

Lemma JSMap_keys_get m k : In k (JSMap.keys m) -> exists v, JSMap.get k m = Some v.
Proof.
  intros H. destruct (JSMap.get k m) as [v|] eqn:E; [eauto|].
  apply JSMap_get_None in E. contradiction.
Qed.

Lemma JSMap_In_get m k v :
  NoDup (JSMap.keys m) -> In (k, v) m -> JSMap.get k m = Some v.
Proof.
  induction m as [|[k' v'] m IH]; simpl; [easy|].
  intros Hnd [E|Hin].
  - injection E as -> ->. now rewrite String.eqb_refl.
  - inversion Hnd as [|? ? Hnotin Hnd']; subst.
    destruct (String.eqb_spec k' k) as [->|Hne].
    + exfalso. apply Hnotin. now apply (in_map fst) in Hin.
    + auto.
Qed.

Lemma JSMap_has_true m k : JSMap.has k m = true <-> In k (JSMap.keys m).
Proof.
  unfold JSMap.has. destruct (JSMap.get k m) as [v|] eqn:E.
  - split; [intros _; eapply JSMap_get_Some_keys; eauto | reflexivity].
  - apply JSMap_get_None in E. split; [discriminate | contradiction].
Qed.

Lemma JSMap_get_app_notin m1 m2 k :
  ~ In k (JSMap.keys m1) -> JSMap.get k (m1 ++ m2) = JSMap.get k m2.
Proof.
  induction m1 as [|[k' v'] m1 IH]; simpl; [reflexivity|].
  intros H. destruct (String.eqb_spec k' k) as [->|Hne].
  - exfalso. apply H. now left.
  - apply IH. intros Hin. apply H. now right.
Qed.

Lemma JSMap_get_set_eq m k v : JSMap.get k (JSMap.set k v m) = Some v.
Proof.
  induction m as [|[k' v'] m IH]; simpl.
  - now rewrite String.eqb_refl.
  - destruct (String.eqb_spec k' k) as [->|Hne]; simpl.
    + now rewrite String.eqb_refl.
    + destruct (String.eqb_spec k' k); [contradiction|assumption].
Qed.

Lemma JSMap_get_set_neq m k k' v :
  k <> k' -> JSMap.get k' (JSMap.set k v m) = JSMap.get k' m.
Proof.
  intros Hne. induction m as [|[k0 v0] m IH]; simpl.
  - destruct (String.eqb_spec k k'); [contradiction|reflexivity].
  - destruct (String.eqb_spec k0 k) as [->|Hne0]; simpl.
    + destruct (String.eqb_spec k k'); [contradiction|reflexivity].
    + destruct (String.eqb_spec k0 k'); [reflexivity|assumption].
Qed.

Lemma JSMap_set_fresh m k v :
  ~ In k (JSMap.keys m) -> JSMap.set k v m = m ++ [(k, v)].
Proof.
  induction m as [|[k' v'] m IH]; simpl; [reflexivity|].
  intros H. destruct (String.eqb_spec k' k) as [->|Hne].
  - exfalso. apply H. now left.
  - f_equal. apply IH. intros Hin. apply H. now right.
Qed.

Lemma JSMap_keys_set m k v k' :
  In k' (JSMap.keys (JSMap.set k v m)) <-> k' = k \/ In k' (JSMap.keys m).
Proof.
  induction m as [|[k0 v0] m IH]; simpl.
  - intuition.
  - destruct (String.eqb_spec k0 k) as [->|Hne]; simpl.
    + intuition.
    + rewrite IH. intuition.
Qed.

Lemma JSMap_NoDup_set m k v :
  NoDup (JSMap.keys m) -> NoDup (JSMap.keys (JSMap.set k v m)).
Proof.
  induction m as [|[k0 v0] m IH]; simpl.
  - intros _. constructor; [easy | constructor].
  - intros Hnd. inversion Hnd as [|? ? Hnotin Hnd']; subst.
    destruct (String.eqb_spec k0 k) as [->|Hne]; simpl.
    + now constructor.
    + constructor; [|auto].
      fold (JSMap.keys (JSMap.set k v m)). rewrite JSMap_keys_set.
      intros [E|Hin]; [congruence|contradiction].
Qed.

Lemma JSMap_In_delete m k kv :
  In kv (JSMap.delete k m) <-> In kv m /\ fst kv <> k.
Proof.
  unfold JSMap.delete. rewrite filter_In.
  destruct (String.eqb_spec (fst kv) k); simpl; intuition congruence.
Qed.

Lemma JSMap_keys_delete m k k' :
  In k' (JSMap.keys (JSMap.delete k m)) <-> In k' (JSMap.keys m) /\ k' <> k.
Proof.
  unfold JSMap.keys. rewrite !in_map_iff. split.
  - intros [kv [<- Hin]]. apply JSMap_In_delete in Hin as [Hin Hne].
    split; [exists kv; auto | assumption].
  - intros [[kv [<- Hin]] Hne]. exists kv. split; [reflexivity|].
    apply JSMap_In_delete. auto.
Qed.

Lemma JSMap_NoDup_delete m k :
  NoDup (JSMap.keys m) -> NoDup (JSMap.keys (JSMap.delete k m)).
Proof.
  induction m as [|[k0 v0] m IH]; simpl; [auto|].
  intros Hnd. inversion Hnd as [|? ? Hnotin Hnd']; subst.
  destruct (String.eqb_spec k0 k) as [->|Hne]; simpl; [auto|].
  constructor; [|auto].
  fold (JSMap.keys (JSMap.delete k m)). rewrite JSMap_keys_delete. tauto.
Qed.

Lemma JSMap_get_delete_eq m k : JSMap.get k (JSMap.delete k m) = None.
Proof. apply JSMap_get_None. rewrite JSMap_keys_delete. tauto. Qed.

Lemma JSMap_get_delete_neq m k k' :
  k <> k' -> JSMap.get k' (JSMap.delete k m) = JSMap.get k' m.
Proof.
  intros Hne. induction m as [|[k0 v0] m IH]; simpl; [reflexivity|].
  destruct (String.eqb_spec k0 k) as [->|Hne0]; simpl.
  - destruct (String.eqb_spec k k'); [contradiction|assumption].
  - destruct (String.eqb_spec k0 k'); [reflexivity|assumption].
Qed.

Lemma JSMap_delete_absent m k : ~ In k (JSMap.keys m) -> JSMap.delete k m = m.
Proof.
  induction m as [|[k0 v0] m IH]; simpl; [reflexivity|].
  intros H. destruct (String.eqb_spec k0 k) as [->|Hne]; simpl.
  - exfalso. apply H. now left.
  - f_equal. apply IH. intros Hin. apply H. now right.
Qed.

Lemma JSMap_keys_map_values (f : V -> V) m :
  JSMap.keys (JSMap.map_values f m) = JSMap.keys m.
Proof.
  unfold JSMap.keys, JSMap.map_values. rewrite map_map. reflexivity.
Qed.

Lemma JSMap_get_map_values (f : V -> V) m k :
  JSMap.get k (JSMap.map_values f m) = option_map f (JSMap.get k m).
Proof.
  induction m as [|[k0 v0] m IH]; simpl; [reflexivity|].
  destruct (String.eqb k0 k); [reflexivity|assumption].
Qed.

Lemma JSMap_In_map_values (f : V -> V) m k v :
  In (k, v) (JSMap.map_values f m) <-> exists v0, In (k, v0) m /\ v = f v0.
Proof.
  unfold JSMap.map_values. rewrite in_map_iff. split.
  - intros [[k0 v0] [E Hin]]. simpl in E. injection E as <- <-. eauto.
  - intros [v0 [Hin ->]]. exists (k, v0). auto.
Qed.

Lemma JSMap_In_set m k v kv :
  In kv (JSMap.set k v m) -> kv = (k, v) \/ In kv m.
Proof.
  induction m as [|[k0 v0] m IH]; simpl.
  - intros [<-|[]]. now left.
  - destruct (String.eqb k0 k); simpl.
    + intros [<-|H]; auto.
    + intros [<-|H]; auto. destruct (IH H); auto.
Qed.

Lemma JSMap_delete_middle m1 m2 k v :
  ~ In k (JSMap.keys m1) -> ~ In k (JSMap.keys m2) ->
  JSMap.delete k (m1 ++ (k, v) :: m2) = m1 ++ m2.
Proof.
  intros H1 H2. unfold JSMap.delete. rewrite filter_app. simpl.
  rewrite String.eqb_refl. simpl.
  fold (JSMap.delete k m1). fold (JSMap.delete k m2).
  now rewrite !JSMap_delete_absent.
Qed.

Lemma JSMap_keys_filter_incl (f : string * V -> bool) m k :
  In k (JSMap.keys (filter f m)) -> In k (JSMap.keys m).
Proof.
  unfold JSMap.keys. rewrite !in_map_iff.
  intros [kv [<- Hin]]. apply filter_In in Hin as [Hin _]. eauto.
Qed.

Lemma JSMap_NoDup_filter (f : string * V -> bool) m :
  NoDup (JSMap.keys m) -> NoDup (JSMap.keys (filter f m)).
Proof.
  induction m as [|[k0 v0] m IH]; simpl; [auto|].
  intros Hnd. inversion Hnd as [|? ? Hnotin Hnd']; subst.
  destruct (f (k0, v0)); simpl; [|auto].
  constructor; [|auto].
  intros Hin. apply Hnotin. eapply JSMap_keys_filter_incl. exact Hin.
Qed.

Lemma JSMap_NoDup_filter_app (f : string * V -> bool) m1 m2 :
  NoDup (JSMap.keys (m1 ++ m2)) -> NoDup (JSMap.keys (filter f m1 ++ m2)).
Proof.
  induction m1 as [|[k0 v0] m1 IH]; simpl; [auto|].
  intros Hnd. inversion Hnd as [|? ? Hnotin Hnd']; subst.
  destruct (f (k0, v0)); simpl; [|auto].
  constructor; [|auto].
  intros Hin. apply Hnotin.
  unfold JSMap.keys in *. rewrite map_app, in_app_iff in *.
  destruct Hin as [Hin|Hin]; [left|now right].
  eapply JSMap_keys_filter_incl. exact Hin.
Qed.

End JSMapFacts.

(** ** Rules for [returns] *)

Local Open Scope manager_scope.

Lemma returns_ret {A : Type} (a : A) m (Q : A -> CanvasManager -> list Event -> Prop) :
  Q a m [] -> returns (ret a) m Q.
Proof. exact (fun H => H). Qed.

Lemma returns_bind {A B : Type} (c : M A) (f : A -> M B) m
    (Q : B -> CanvasManager -> list Event -> Prop) :
  returns c m (fun a m1 t1 =>
    returns (f a) m1 (fun b m2 t2 => Q b m2 (t1 ++ t2))) ->
  returns (bind c f) m Q.
Proof.
  unfold returns, bind. destruct (c m) as [a m1 t1|]; [|easy].
  destruct (f a m1); easy.
Qed.

Lemma returns_weaken {A : Type} (c : M A) m
    (Q Q' : A -> CanvasManager -> list Event -> Prop) :
  returns c m Q -> (forall a m' tr, Q a m' tr -> Q' a m' tr) ->
  returns c m Q'.
Proof. unfold returns. destruct (c m); auto. Qed.

Lemma returns_this m (Q : CanvasManager -> CanvasManager -> list Event -> Prop) :
  Q m m [] -> returns this m Q.
Proof. exact (fun H => H). Qed.

Lemma returns_modify f m (Q : unit -> CanvasManager -> list Event -> Prop) :
  Q tt (f m) [] -> returns (modify f) m Q.
Proof. exact (fun H => H). Qed.

Lemma returns_call e m (Q : unit -> CanvasManager -> list Event -> Prop) :
  Q tt m [e] -> returns (call e) m Q.
Proof. exact (fun H => H). Qed.

Lemma returns_when (b : bool) c m
    (Q : unit -> CanvasManager -> list Event -> Prop) :
  (b = true -> returns c m Q) -> (b = false -> Q tt m []) ->
  returns (when b c) m Q.
Proof. destruct b; intros H1 H2; [apply H1 | apply H2]; reflexivity. Qed.

Lemma returns_elim {A : Type} (c : M A) m
    (Q : A -> CanvasManager -> list Event -> Prop) :
  returns c m Q -> exists a m' tr, c m = Returned a m' tr /\ Q a m' tr.
Proof. unfold returns. destruct (c m) as [a m' tr|]; [eauto|easy]. Qed.

Lemma returns_intro {A : Type} (c : M A) m a m' tr
    (Q : A -> CanvasManager -> list Event -> Prop) :
  c m = Returned a m' tr -> Q a m' tr -> returns c m Q.
Proof. unfold returns. now intros ->. Qed.

Lemma returns_and {A : Type} (c : M A) m
    (Q1 Q2 : A -> CanvasManager -> list Event -> Prop) :
  returns c m Q1 -> returns c m Q2 ->
  returns c m (fun a m' tr => Q1 a m' tr /\ Q2 a m' tr).
Proof. unfold returns. destruct (c m); auto. Qed.

(** The loop rule: [I done m tr] holds of the entries already processed,
    the manager and the calls made so far. *)
Lemma returns_for_each {A : Type} (body : A -> M unit)
    (I : list A -> CanvasManager -> list Event -> Prop) :
  forall rest done m tr,
    I done m tr ->
    (forall done' x rest' m1 t1,
        done ++ rest = done' ++ x :: rest' ->
        I done' m1 t1 ->
        returns (body x) m1 (fun _ m2 t2 => I (done' ++ [x]) m2 (t1 ++ t2))) ->
    returns (for_each rest body) m
      (fun _ m' tr' => I (done ++ rest) m' (tr ++ tr')).
Proof.
  induction rest as [|x rest IH]; intros done m tr HI Hbody; simpl.
  - apply returns_ret. now rewrite !app_nil_r.
  - apply returns_bind.
    eapply returns_weaken; [apply (Hbody done x rest m tr eq_refl HI)|].
    intros u1 m1 t1 HI1. simpl in HI1.
    eapply returns_weaken.
    + apply (IH (done ++ [x]) m1 (tr ++ t1) HI1).
      intros done' y rest' m2 t2 E. apply (Hbody done' y rest').
      rewrite <- E, <- app_assoc. reflexivity.
    + intros u2 m2 t2. simpl. now rewrite <- !app_assoc.
Qed.

Ltac unfold_monad :=
  cbv beta iota delta [bind this ret modify call throw when].

(** ** Resolving the selection *)

Lemma EntityType_eqb_eq x y : EntityType_eqb x y = true <-> x = y.
Proof. destruct x, y; simpl; split; congruence. Qed.

Lemma EntityType_eqb_neq x y : EntityType_eqb x y = false <-> x <> y.
Proof. destruct x, y; simpl; split; congruence. Qed.

Lemma resolves_functional s m i st ad st' ad' :
  resolves s m i st ad -> resolves s m i st' ad' -> st = st' /\ ad = ad'.
Proof.
  intros H H'. destruct H; inversion H'; subst; split; congruence.
Qed.

Lemma getEntity_resolved s m i st ad :
  resolves s m i st ad ->
  getEntity s m i =
    if EntityType_eqb (es_type st) (ad_type (the_adapter ad))
    then Some (mkPair st ad) else None.
Proof.
  intros H. destruct H as [i st a Hst Ha|i st a Hst Ha|i st a Hst Ha|i];
    unfold getEntity; simpl; rewrite ?Hst, ?Ha; reflexivity.
Qed.

Lemma getEntity_Some s m i p :
  getEntity s m i = Some p ->
  resolves s m i (state p) (adapter p) /\
  es_type (state p) = ad_type (the_adapter (adapter p)).
Proof.
  destruct i as [i t]. unfold getEntity. simpl.
  destruct t;
    [ destruct (find_entity i (entities_of (State.layers (val s)))) as [st|] eqn:Hst;
      [destruct (JSMap.get i (layers m)) as [a|] eqn:Ha|]
    | destruct (find_entity i (entities_of (State.controlAdapters (val s)))) as [st|] eqn:Hst;
      [destruct (JSMap.get i (controlAdapters m)) as [a|] eqn:Ha|]
    | destruct (find_entity i (entities_of (State.regions (val s)))) as [st|] eqn:Hst;
      [destruct (JSMap.get i (regions m)) as [a|] eqn:Ha|]
    | ]; simpl; try discriminate;
    match goal with
    | |- context [EntityType_eqb ?x ?y] =>
        destruct (EntityType_eqb x y) eqn:E; [|discriminate]
    end;
    intros [= <-]; simpl; apply EntityType_eqb_eq in E;
    (split; [constructor; assumption | assumption]).
Qed.

Lemma getEntity_None s m i :
  getEntity s m i = None <->
  (forall st ad, resolves s m i st ad ->
                 es_type st <> ad_type (the_adapter ad)).
Proof.
  split.
  - intros H st ad Hres. rewrite (getEntity_resolved _ _ _ _ _ Hres) in H.
    apply EntityType_eqb_neq.
    destruct (EntityType_eqb (es_type st) (ad_type (the_adapter ad)));
      [discriminate|reflexivity].
  - intros H. destruct (getEntity s m i) as [p|] eqn:E; [|reflexivity].
    apply getEntity_Some in E as [Hres Ht]. exfalso. exact (H _ _ Hres Ht).
Qed.

Lemma getSelectedEntity_mask_like s m st :
  selected_mask_like s m st ->
  exists ad, getSelectedEntity s m = Some (mkPair st ad) /\
             is_mask_like (es_type st) = true.
Proof.
  intros (i & ad & Hsel & Hres & Ht & Hk). exists ad.
  unfold getSelectedEntity. rewrite Hsel, (getEntity_resolved _ _ _ _ _ Hres).
  apply EntityType_eqb_eq in Ht. rewrite Ht. split; [reflexivity|].
  destruct Hk as [-> | ->]; reflexivity.
Qed.

Lemma getSelectedEntity_not_mask_like s m :
  (forall st, ~ selected_mask_like s m st) ->
  match getSelectedEntity s m with
  | Some p => is_mask_like (es_type (state p)) = false
  | None => True
  end.
Proof.
  intros H. destruct (getSelectedEntity s m) as [p|] eqn:E; [|exact I].
  destruct (is_mask_like (es_type (state p))) eqn:Hk; [|reflexivity].
  exfalso. apply (H (state p)).
  unfold getSelectedEntity in E.
  destruct (State.selectedEntityIdentifier (val s)) as [i|] eqn:Hsel;
    [|discriminate].
  apply getEntity_Some in E as [Hres Ht].
  exists i, (adapter p). repeat split; try assumption.
  destruct (es_type (state p)); simpl in Hk; try discriminate; auto.
Qed.

(** ** Fill colours *)

(** C7: [getCurrentFill] is the tool's fill, except that it is [RGBA_WHITE]
    when the selection resolves to a region guide or to the inpaint mask; in
    particular it is the tool's fill for a selected drawable layer. *)
Theorem getCurrentFill_rule (s : CanvasV2State) (m : CanvasManager) :
  (forall st, selected_mask_like s m st -> getCurrentFill s m = RGBA_WHITE) /\
  ((forall st, ~ selected_mask_like s m st) ->
   getCurrentFill s m = tool_fill (State.tool (val s))) /\
  (forall identifier st ad,
     State.selectedEntityIdentifier (val s) = Some identifier ->
     resolves s m identifier st ad ->
     es_type st = layer ->
     getCurrentFill s m = tool_fill (State.tool (val s))).
Proof.
  split; [|split].
  - intros st H. apply getSelectedEntity_mask_like in H as (ad & Hsel & Hk).
    unfold getCurrentFill. rewrite Hsel. simpl. now rewrite Hk.
  - intros H. apply getSelectedEntity_not_mask_like in H.
    unfold getCurrentFill. destruct (getSelectedEntity s m) as [p|];
      [now rewrite H | reflexivity].
  - intros i st ad Hsel Hres Hlayer.
    unfold getCurrentFill, getSelectedEntity.
    rewrite Hsel, (getEntity_resolved _ _ _ _ _ Hres).
    destruct (EntityType_eqb _ _); [simpl; now rewrite Hlayer | reflexivity].
Qed.

(** C9, as amended: for a selected region guide or inpaint mask,
    [getBrushPreviewFill] is the fill of the selected entity's own state with
    its alpha replaced by the mask opacity of the settings; for any other
    selection it is the tool's fill. *)
Theorem getBrushPreviewFill_rule (s : CanvasV2State) (m : CanvasManager) :
  (forall st, selected_mask_like s m st ->
     getBrushPreviewFill s m =
       with_alpha (State.maskOpacity (State.settings (val s))) (es_fill st)) /\
  ((forall st, ~ selected_mask_like s m st) ->
   getBrushPreviewFill s m = tool_fill (State.tool (val s))).
Proof.
  split.
  - intros st H. apply getSelectedEntity_mask_like in H as (ad & Hsel & Hk).
    unfold getBrushPreviewFill. rewrite Hsel. simpl. now rewrite Hk.
  - intros H. apply getSelectedEntity_not_mask_like in H.
    unfold getBrushPreviewFill. destruct (getSelectedEntity s m) as [p|];
      [now rewrite H | reflexivity].
Qed.

(** ** Transform state machine *)

Lemma getSelectedEntity_selection s m st ad :
  selection_is s m st ad -> getSelectedEntity s m = Some (mkPair st ad).
Proof.
  intros (i & Hsel & Hres & Ht). unfold getSelectedEntity.
  rewrite Hsel, (getEntity_resolved _ _ _ _ _ Hres).
  apply EntityType_eqb_eq in Ht. now rewrite Ht.
Qed.

Lemma getSelectedEntity_Some s m p :
  getSelectedEntity s m = Some p -> selection_is s m (state p) (adapter p).
Proof.
  unfold getSelectedEntity.
  destruct (State.selectedEntityIdentifier (val s)) as [i|] eqn:Hsel;
    [|discriminate].
  intros H. apply getEntity_Some in H as [Hres Ht]. exists i. auto.
Qed.

Lemma applyTransform_idle m :
  transformingEntity m = None -> applyTransform m = Returned tt m [].
Proof.
  intros H. unfold applyTransform, getTransformingLayer, transformingEntity_publish.
  unfold_monad. rewrite !H. reflexivity.
Qed.

Lemma cancelTransform_idle m :
  transformingEntity m = None -> cancelTransform m = Returned tt m [].
Proof.
  intros H. unfold cancelTransform, getTransformingLayer, transformingEntity_publish.
  unfold_monad. rewrite !H. reflexivity.
Qed.

Lemma applyTransform_clears m :
  returned (applyTransform m) = true /\
  transformingEntity (state_after (applyTransform m)) = None.
Proof.
  unfold applyTransform, transformingEntity_publish. unfold_monad.
  destruct (getTransformingLayer m) as [x|];
    destruct (transformingEntity m) eqn:E; simpl; auto.
Qed.

Lemma cancelTransform_clears m :
  returned (cancelTransform m) = true /\
  transformingEntity (state_after (cancelTransform m)) = None.
Proof.
  unfold cancelTransform, transformingEntity_publish. unfold_monad.
  destruct (getTransformingLayer m) as [x|];
    destruct (transformingEntity m) eqn:E; simpl; auto.
Qed.

Lemma getTransformingLayer_unresolved m t :
  transformingEntity m = Some t -> target_unresolved m t ->
  getTransformingLayer m = None.
Proof.
  intros Ht H. unfold getTransformingLayer. rewrite Ht.
  destruct H as [-> | [-> | [-> ->]]]; reflexivity.
Qed.

(** C6: the transform state machine has the two states idle (no target) and
    transforming (one target).  When idle, [startTransform] with no
    selection resolving to a drawable-layer or inpaint-mask adapter fails
    the assertion, and with such a selection begins the transform on that
    adapter and records its identifier; while transforming it is a no-op.
    When idle, [applyTransform] and [cancelTransform] call no adapter; after
    either of them the state is idle. *)
Theorem transform_state_machine (s : CanvasV2State) (m : CanvasManager) :
  (getIsTransforming m = false <-> transformingEntity m = None) /\
  (transformingEntity m = None ->
   (forall st ad, selection_is s m st ad -> is_transformable ad = false) ->
   startTransform s m = Threw "No selected layer" m []) /\
  (forall st ad,
     transformingEntity m = None ->
     selection_is s m st ad -> is_transformable ad = true ->
     startTransform s m =
       Returned tt
         (with_transformingEntity
            (Some (mkIdentifier (es_id st) (es_type st))) m)
         [TransformerStart (ad_uid (the_adapter ad));
          NotifyTransformingEntity
            (Some (mkIdentifier (es_id st) (es_type st)))]) /\
  (transformingEntity m <> None -> startTransform s m = Returned tt m []) /\
  (transformingEntity m = None ->
   applyTransform m = Returned tt m [] /\
   cancelTransform m = Returned tt m []) /\
  (returned (applyTransform m) = true /\
   transformingEntity (state_after (applyTransform m)) = None) /\
  (returned (cancelTransform m) = true /\
   transformingEntity (state_after (cancelTransform m)) = None).
Proof.
  repeat match goal with |- _ /\ _ => split end.
  - unfold getIsTransforming.
    destruct (transformingEntity m); split; intros H; try reflexivity;
      discriminate H.
  - intros Hidle Hnone.
    unfold startTransform, getIsTransforming. unfold_monad. rewrite Hidle.
    destruct (getSelectedEntity s m) as [p|] eqn:E; [|reflexivity].
    apply getSelectedEntity_Some in E. now rewrite (Hnone _ _ E).
  - intros st ad Hidle Hsel Htr.
    unfold startTransform, getIsTransforming, transformingEntity_publish.
    unfold_monad.
    rewrite !Hidle, (getSelectedEntity_selection _ _ _ _ Hsel). simpl.
    rewrite Htr. simpl. rewrite ?Hidle. reflexivity.
  - intros Hbusy. unfold startTransform, getIsTransforming. unfold_monad.
    destruct (transformingEntity m); [reflexivity|congruence].
  - intros Hidle. split;
      [now apply applyTransform_idle | now apply cancelTransform_idle].
  - apply applyTransform_clears.
  - apply applyTransform_clears.
  - apply cancelTransform_clears.
  - apply cancelTransform_clears.
Qed.

(** C10: [applyTransform] and [cancelTransform] always return and leave the
    transform target cleared.  When the recorded target is a control
    adapter, a region guide, or a drawable layer whose adapter is gone, they
    call no transformer and only clear the target. *)
Theorem transform_end_always_clears (m : CanvasManager) :
  (returned (applyTransform m) = true /\
   transformingEntity (state_after (applyTransform m)) = None) /\
  (returned (cancelTransform m) = true /\
   transformingEntity (state_after (cancelTransform m)) = None) /\
  (forall t,
     transformingEntity m = Some t -> target_unresolved m t ->
     applyTransform m =
       Returned tt (with_transformingEntity None m)
         [NotifyTransformingEntity None] /\
     cancelTransform m =
       Returned tt (with_transformingEntity None m)
         [NotifyTransformingEntity None]).
Proof.
  split; [apply applyTransform_clears|].
  split; [apply cancelTransform_clears|].
  intros t Ht Hun.
  pose proof (getTransformingLayer_unresolved _ _ Ht Hun) as Hnone.
  unfold applyTransform, cancelTransform, transformingEntity_publish.
  unfold_monad. rewrite !Hnone, !Ht. simpl. auto.
Qed.

(** ** Background task channel *)

Lemma worker_onmessage_known i ext p m :
  JSMap.get i (_tasks m) = Some p ->
  worker_onmessage (MsgExtents i ext) m =
    Returned tt (with_tasks (JSMap.delete i) m) [OnComplete (onComplete p) ext].
Proof.
  intros H. unfold worker_onmessage. unfold_monad. rewrite H. reflexivity.
Qed.

Lemma worker_onmessage_unknown i ext m :
  JSMap.get i (_tasks m) = None ->
  worker_onmessage (MsgExtents i ext) m = Returned tt m [].
Proof.
  intros H. unfold worker_onmessage. unfold_monad. rewrite H. reflexivity.
Qed.

Lemma run_op_other i op m p :
  other_task i op ->
  JSMap.get i (_tasks m) = Some p ->
  returned (run_op op m) = true /\
  JSMap.get i (_tasks (state_after (run_op op m))) = Some p.
Proof.
  intros Hother Hp. destruct op as [data cb j|[j ext|lvl msg ctx]]; simpl in *.
  - split; [reflexivity|]. now rewrite JSMap_get_set_neq.
  - unfold worker_onmessage. unfold_monad.
    destruct (JSMap.get j (_tasks m)) as [q|]; simpl; split; auto.
    now rewrite JSMap_get_delete_neq.
  - auto.
Qed.

Lemma run_ops_other i ops : forall m p,
  Forall (other_task i) ops ->
  JSMap.get i (_tasks m) = Some p ->
  returned (for_each ops run_op m) = true /\
  JSMap.get i (_tasks (state_after (for_each ops run_op m))) = Some p.
Proof.
  induction ops as [|op ops IH]; intros m p Hall Hp; simpl.
  - auto.
  - inversion Hall as [|? ? Hop Hall']; subst.
    destruct (run_op_other i op m p Hop Hp) as [Hret Hget].
    unfold bind. destruct (run_op op m) as [u m1 t1|]; [|discriminate].
    simpl in Hget. destruct (IH m1 p Hall' Hget) as [Hret' Hget'].
    destruct (for_each ops run_op m1); [auto|discriminate].
Qed.

(** C8: [requestBbox] records the callback under the generated id and posts
    the task.  Whatever other requests and responses come in between, the
    worker response carrying that id calls the callback once, with the
    extents delivered (or null), and removes the entry, so that a second
    response with the id calls nothing; a response whose id is not in the
    table calls nothing, changes nothing and does not throw. *)
Theorem task_correlation (m : CanvasManager) (data : BboxData)
    (cb : Callback) (i : string) (extents : option Extents) :
  let pending := mkPending (mkTask i data) cb in
  let m1 := with_tasks (JSMap.set i pending) m in
  requestBbox data cb i m = Returned tt m1 [PostMessage (mkTask i data)] /\
  (forall ops,
     Forall (other_task i) ops ->
     let m2 := state_after (for_each ops run_op m1) in
     let m3 := with_tasks (JSMap.delete i) m2 in
     returned (for_each ops run_op m1) = true /\
     JSMap.get i (_tasks m2) = Some pending /\
     worker_onmessage (MsgExtents i extents) m2 =
       Returned tt m3 [OnComplete cb extents] /\
     JSMap.get i (_tasks m3) = None /\
     (forall again, worker_onmessage (MsgExtents i again) m3 = Returned tt m3 [])) /\
  (forall m' j e,
     JSMap.get j (_tasks m') = None ->
     worker_onmessage (MsgExtents j e) m' = Returned tt m' []).
Proof.
  intros pending m1. split; [reflexivity|]. split.
  - intros ops Hall m2 m3.
    assert (Hp : JSMap.get i (_tasks m1) = Some pending)
      by (unfold m1; simpl; apply JSMap_get_set_eq).
    destruct (run_ops_other i ops m1 pending Hall Hp) as [Hret Hget].
    fold m2 in Hget.
    assert (Hgone : JSMap.get i (_tasks m3) = None)
      by (unfold m3; simpl; apply JSMap_get_delete_eq).
    repeat split; try assumption.
    + apply (worker_onmessage_known i extents pending m2 Hget).
    + intros again. now apply worker_onmessage_unknown.
  - intros m' j e. apply worker_onmessage_unknown.
Qed.

(** ** Konva nodes *)

Lemma skipn_split {A : Type} (l1 l2 : list A) :
  skipn (List.length l1) (l1 ++ l2) = l2.
Proof. induction l1; simpl; auto. Qed.

Lemma Node_eqb_eq x y : Node_eqb x y = true <-> x = y.
Proof.
  destruct x, y; simpl; split; try congruence; try discriminate.
  - intros H. apply Nat.eqb_eq in H. congruence.
  - intros [= ->]. apply Nat.eqb_refl.
Qed.

Lemma Node_eqb_refl x : Node_eqb x x = true.
Proof. now apply Node_eqb_eq. Qed.

Lemma Node_eqb_neq x y : Node_eqb x y = false <-> x <> y.
Proof.
  split.
  - intros H E. apply Node_eqb_eq in E. congruence.
  - intros H. destruct (Node_eqb x y) eqn:E; [|reflexivity].
    apply Node_eqb_eq in E. contradiction.
Qed.

Lemma remove_node_absent n l : ~ In n l -> remove_node n l = l.
Proof.
  induction l as [|x l IH]; simpl; [reflexivity|].
  intros H. destruct (Node_eqb x n) eqn:E; simpl.
  - apply Node_eqb_eq in E. exfalso. apply H. now left.
  - f_equal. apply IH. intros Hin. apply H. now right.
Qed.

Lemma remove_node_middle n l1 l2 :
  ~ In n l1 -> ~ In n l2 -> remove_node n (l1 ++ n :: l2) = l1 ++ l2.
Proof.
  intros H1 H2. unfold remove_node. rewrite filter_app. simpl.
  rewrite Node_eqb_refl. simpl.
  fold (remove_node n l1). fold (remove_node n l2).
  now rewrite !remove_node_absent.
Qed.

Lemma existsb_Node_In n l : In n l -> existsb (Node_eqb n) l = true.
Proof.
  intros H. apply existsb_exists. exists n. split; [assumption|].
  apply Node_eqb_refl.
Qed.

Lemma splice_in_at n l1 l2 :
  splice_in (List.length l1) n (l1 ++ l2) = l1 ++ n :: l2.
Proof.
  unfold splice_in.
  rewrite firstn_app, Nat.sub_diag, firstn_all, skipn_split. simpl.
  now rewrite app_nil_r.
Qed.

Lemma splice_in_beyond n i l :
  List.length l <= i -> splice_in i n l = l ++ [n].
Proof.
  intros H. unfold splice_in. now rewrite firstn_all2, skipn_all2.
Qed.

Lemma setZIndex_present n i l1 l2 :
  ~ In n l1 -> ~ In n l2 ->
  setZIndex n i (l1 ++ n :: l2) = splice_in i n (l1 ++ l2).
Proof.
  intros H1 H2. unfold setZIndex.
  rewrite existsb_Node_In by (apply in_or_app; right; now left).
  now rewrite remove_node_middle.
Qed.


(** ** Fields of the manager *)

Lemma adapters_of_with_adapters c f m :
  adapters_of c (with_adapters c f m) = f (adapters_of c m).
Proof. destruct c; reflexivity. Qed.

Lemma adapters_of_with_adapters_other c c' f m :
  c' <> c -> adapters_of c' (with_adapters c f m) = adapters_of c' m.
Proof. destruct c, c'; try reflexivity; congruence. Qed.

Lemma adapters_of_with_stage c f m :
  adapters_of c (with_stage f m) = adapters_of c m.
Proof. destruct c; reflexivity. Qed.

Lemma adapters_of_with_next_uid c n m :
  adapters_of c (with_next_uid n m) = adapters_of c m.
Proof. destruct c; reflexivity. Qed.

Lemma adapters_of_with_prevState c s m :
  adapters_of c (with_prevState s m) = adapters_of c m.
Proof. destruct c; reflexivity. Qed.

Lemma adapters_of_with_isFirstRender c b m :
  adapters_of c (with_isFirstRender b m) = adapters_of c m.
Proof. destruct c; reflexivity. Qed.


(** ** The scene graph under the primitive steps *)

Lemma uids_split c m :
  Permutation (uids m)
    (coll_uids c m ++ ad_uid (inpaintMask m) :: other_uids c m).
Proof.
  unfold uids, other_uids. destruct c.
  - apply Permutation_middle.
  - change (ad_uid (inpaintMask m)
             :: coll_uids Layers m ++ coll_uids ControlAdapters m
                ++ coll_uids Regions m)
      with ((ad_uid (inpaintMask m) :: coll_uids Layers m)
              ++ coll_uids ControlAdapters m ++ coll_uids Regions m).
    apply Permutation_app_swap_app.
  - rewrite app_assoc.
    change (ad_uid (inpaintMask m)
             :: (coll_uids Layers m ++ coll_uids ControlAdapters m)
                ++ coll_uids Regions m)
      with ((ad_uid (inpaintMask m)
               :: coll_uids Layers m ++ coll_uids ControlAdapters m)
              ++ coll_uids Regions m).
    apply Permutation_app_comm.
Qed.

Lemma other_uids_frame c m m' :
  (forall c', c' <> c -> adapters_of c' m' = adapters_of c' m) ->
  other_uids c m' = other_uids c m.
Proof.
  intros H. unfold other_uids, coll_uids.
  destruct c; rewrite !H; try reflexivity; discriminate.
Qed.

(** When only collection [c] changes, the identities change as those of
    [c] do. *)
Lemma uids_change c m m' X Y :
  (forall c', c' <> c -> adapters_of c' m' = adapters_of c' m) ->
  inpaintMask m' = inpaintMask m ->
  Permutation (X ++ coll_uids c m) (Y ++ coll_uids c m') ->
  Permutation (X ++ uids m) (Y ++ uids m').
Proof.
  intros Hother Hmask Hperm.
  rewrite (uids_split c m), (uids_split c m').
  rewrite (other_uids_frame c m m' Hother), Hmask, !app_assoc.
  now apply Permutation_app_tail.
Qed.

Lemma scene_nodes_NoDup l :
  NoDup l -> NoDup ([NPreview; NBackground; NInitialImage] ++ map NAdapter l).
Proof.
  intros Hnd. simpl.
  assert (Hn : forall n, (forall u, n <> NAdapter u) -> ~ In n (map NAdapter l)).
  { intros n Hne Hin. apply in_map_iff in Hin as [u [<- _]]. now apply (Hne u). }
  constructor; [intros [H|[H|H]]; try discriminate H;
                revert H; apply Hn; discriminate|].
  constructor; [intros [H|H]; try discriminate H;
                revert H; apply Hn; discriminate|].
  constructor; [apply Hn; discriminate|].
  apply Finite.Injective_map_NoDup; [|assumption].
  intros x y [= ->]. reflexivity.
Qed.

Lemma scene_consistent_stage_NoDup m : scene_consistent m -> NoDup (stage m).
Proof.
  intros (Hnd & _ & Hperm).
  eapply Permutation_NoDup; [symmetry; exact Hperm|].
  now apply scene_nodes_NoDup.
Qed.

Lemma remove_node_perm n st l :
  NoDup st -> Permutation st (n :: l) -> Permutation (remove_node n st) l.
Proof.
  intros Hnd Hperm.
  assert (Hin : In n st)
    by (eapply Permutation_in; [symmetry; exact Hperm | now left]).
  apply in_split in Hin as (s1 & s2 & ->).
  pose proof (NoDup_remove_2 _ _ _ Hnd) as Hout.
  rewrite remove_node_middle
    by (intros H; apply Hout; apply in_or_app; auto).
  symmetry in Hperm. apply Permutation_cons_app_inv in Hperm.
  now symmetry.
Qed.

Lemma setZIndex_perm n i st : NoDup st -> Permutation (setZIndex n i st) st.
Proof.
  intros Hnd. unfold setZIndex.
  destruct (existsb (Node_eqb n) st) eqn:E; [|reflexivity].
  apply existsb_exists in E as (x & Hin & Hx). apply Node_eqb_eq in Hx. subst x.
  apply in_split in Hin as (s1 & s2 & ->).
  pose proof (NoDup_remove_2 _ _ _ Hnd) as Hout.
  rewrite remove_node_middle
    by (intros H; apply Hout; apply in_or_app; auto).
  unfold splice_in.
  transitivity (n :: firstn i (s1 ++ s2) ++ skipn i (s1 ++ s2)).
  - symmetry. apply Permutation_middle.
  - rewrite firstn_skipn. apply Permutation_middle.
Qed.

Lemma values_map_values {V : Type} (f : V -> V) (mp : JSMap.t V) :
  JSMap.values (JSMap.map_values f mp) = map f (JSMap.values mp).
Proof.
  unfold JSMap.values, JSMap.map_values. rewrite !map_map. reflexivity.
Qed.

Lemma set_adapter_state_uid uid e a :
  ad_uid (set_adapter_state uid e a) = ad_uid a.
Proof.
  unfold set_adapter_state. destruct (Nat.eqb (ad_uid a) uid); reflexivity.
Qed.

Lemma coll_uids_with_adapters c f m :
  coll_uids c (with_adapters c f m)
  = map ad_uid (JSMap.values (f (adapters_of c m))).
Proof. unfold coll_uids. now rewrite adapters_of_with_adapters. Qed.

Lemma uids_update c uid e m :
  uids (with_adapters c (JSMap.map_values (set_adapter_state uid e)) m)
  = uids m.
Proof.
  assert (H : forall mp,
    map ad_uid (JSMap.values (JSMap.map_values (set_adapter_state uid e) mp))
    = map ad_uid (JSMap.values mp)).
  { intros mp. rewrite values_map_values, map_map.
    apply map_ext. intros a. apply set_adapter_state_uid. }
  unfold uids, coll_uids. destruct c; simpl; now rewrite H.
Qed.

Lemma scene_consistent_update c uid e m :
  scene_consistent m ->
  scene_consistent
    (with_adapters c (JSMap.map_values (set_adapter_state uid e)) m).
Proof.
  unfold scene_consistent. rewrite uids_update.
  destruct c; exact (fun H => H).
Qed.

Lemma scene_consistent_zIndex n i m :
  scene_consistent m -> scene_consistent (with_stage (setZIndex n i) m).
Proof.
  intros Hs. pose proof (scene_consistent_stage_NoDup m Hs) as Hnd.
  destruct Hs as (Hu & Hlt & Hperm).
  split; [exact Hu|]. split; [exact Hlt|].
  simpl. rewrite (setZIndex_perm n i (stage m) Hnd). exact Hperm.
Qed.

Lemma values_delete_perm {V : Type} (mp : JSMap.t V) k x :
  NoDup (JSMap.keys mp) -> In (k, x) mp ->
  Permutation (JSMap.values mp) (x :: JSMap.values (JSMap.delete k mp)).
Proof.
  intros Hnd Hin. apply in_split in Hin as (l1 & l2 & ->).
  unfold JSMap.keys in Hnd. rewrite map_app in Hnd. simpl in Hnd.
  apply NoDup_remove_2 in Hnd. rewrite in_app_iff in Hnd.
  rewrite JSMap_delete_middle by (unfold JSMap.keys; tauto).
  unfold JSMap.values. rewrite !map_app. simpl.
  symmetry. apply Permutation_middle.
Qed.

(** Destroying the adapter [x] of collection [c]. *)
Lemma scene_consistent_destroy c x m :
  NoDup (JSMap.keys (adapters_of c m)) ->
  In (ad_id x, x) (adapters_of c m) ->
  scene_consistent m ->
  scene_consistent
    (with_adapters c (JSMap.delete (ad_id x))
       (with_stage (remove_node (konva_layer x)) m)).
Proof.
  intros Hkeys Hin Hs.
  pose proof (scene_consistent_stage_NoDup m Hs) as Hstage.
  destruct Hs as (Hu & Hlt & Hperm).
  set (m' := with_adapters c (JSMap.delete (ad_id x))
               (with_stage (remove_node (konva_layer x)) m)).
  assert (Hframe : forall c', c' <> c -> adapters_of c' m' = adapters_of c' m).
  { intros c' Hne. unfold m'.
    now rewrite adapters_of_with_adapters_other, adapters_of_with_stage. }
  assert (Hmask : inpaintMask m' = inpaintMask m) by (destruct c; reflexivity).
  assert (Hcoll : Permutation ([] ++ coll_uids c m)
                    ([ad_uid x] ++ coll_uids c m')).
  { unfold m'. rewrite coll_uids_with_adapters, adapters_of_with_stage.
    unfold coll_uids. simpl.
    apply (Permutation_map ad_uid (values_delete_perm _ _ _ Hkeys Hin)). }
  pose proof (uids_change c m m' [] [ad_uid x] Hframe Hmask Hcoll) as Hch.
  simpl in Hch.
  assert (Hu' : NoDup (ad_uid x :: uids m'))
    by (eapply Permutation_NoDup; [exact Hch | exact Hu]).
  split; [now inversion Hu'|]. split.
  - assert (Hall : Forall (fun u => u < next_uid m) (ad_uid x :: uids m'))
      by (eapply Permutation_Forall; [exact Hch | exact Hlt]).
    replace (next_uid m') with (next_uid m) by (destruct c; reflexivity).
    now inversion Hall.
  - replace (stage m') with (remove_node (konva_layer x) (stage m))
      by (destruct c; reflexivity).
    apply remove_node_perm; [assumption|].
    rewrite Hperm.
    transitivity ([NPreview; NBackground; NInitialImage]
                    ++ map NAdapter (ad_uid x :: uids m')).
    + apply Permutation_app_head, Permutation_map, Hch.
    + simpl. symmetry.
      apply (Permutation_middle [NPreview; NBackground; NInitialImage]).
Qed.

(** Creating an adapter for the fresh key [k] of collection [c]. *)
Lemma scene_consistent_create c k ty e m :
  ~ In k (JSMap.keys (adapters_of c m)) ->
  scene_consistent m ->
  let a := mkAdapter k ty (next_uid m) e in
  scene_consistent
    (with_stage (fun children => children ++ [konva_layer a])
       (with_adapters c (JSMap.set k a) (with_next_uid (S (next_uid m)) m))).
Proof.
  intros Hfresh (Hu & Hlt & Hperm) a.
  set (m' := with_stage (fun children => children ++ [konva_layer a])
               (with_adapters c (JSMap.set k a)
                  (with_next_uid (S (next_uid m)) m))).
  assert (Hframe : forall c', c' <> c -> adapters_of c' m' = adapters_of c' m).
  { intros c' Hne. unfold m'.
    now rewrite adapters_of_with_stage, adapters_of_with_adapters_other,
      adapters_of_with_next_uid. }
  assert (Hmask : inpaintMask m' = inpaintMask m) by (destruct c; reflexivity).
  assert (Hcoll : Permutation ([next_uid m] ++ coll_uids c m)
                    ([] ++ coll_uids c m')).
  { unfold m', coll_uids.
    rewrite adapters_of_with_stage, adapters_of_with_adapters,
      adapters_of_with_next_uid, (JSMap_set_fresh _ _ _ Hfresh).
    unfold JSMap.values. rewrite !map_app. simpl.
    apply Permutation_cons_append. }
  pose proof (uids_change c m m' [next_uid m] [] Hframe Hmask Hcoll) as Hch.
  simpl in Hch.
  assert (Hnew : ~ In (next_uid m) (uids m)).
  { intros Hin. rewrite Forall_forall in Hlt. apply Hlt in Hin. lia. }
  split; [|split].
  - eapply Permutation_NoDup; [exact Hch|]. now constructor.
  - replace (next_uid m') with (S (next_uid m)) by (destruct c; reflexivity).
    eapply Permutation_Forall; [exact Hch|].
    constructor; [lia|].
    eapply Forall_impl; [|exact Hlt]. simpl. intros u Hu'. lia.
  - replace (stage m') with (stage m ++ [konva_layer a])
      by (destruct c; reflexivity).
    rewrite Hperm.
    transitivity ([NPreview; NBackground; NInitialImage]
                    ++ map NAdapter (next_uid m :: uids m)).
    + rewrite <- app_assoc. apply Permutation_app_head. simpl.
      symmetry. apply Permutation_cons_append.
    + apply Permutation_app_head, Permutation_map, Hch.
Qed.

Lemma scene_consistent_constructor s0 : scene_consistent (constructor s0).
Proof.
  repeat split.
  - constructor; [intros []|constructor].
  - constructor; [simpl; lia|constructor].
  - reflexivity.
Qed.

(** ** Steps of a render pass *)

Lemma adapter_class_inj c c' : adapter_class c = adapter_class c' -> c = c'.
Proof. destruct c, c'; simpl; congruence. Qed.

Lemma Collection_eqb_eq x y : Collection_eqb x y = true <-> x = y.
Proof. destruct x, y; simpl; split; congruence. Qed.

Lemma in_ids_existsb (E : list CanvasEntityState) i :
  existsb (fun e => String.eqb (es_id e) i) E = true <-> In i (ids E).
Proof.
  unfold ids. rewrite existsb_exists, in_map_iff. split.
  - intros [e [Hin He]]. apply String.eqb_eq in He. eauto.
  - intros [e [He Hin]]. exists e. split; [assumption|].
    now apply String.eqb_eq.
Qed.

Lemma step_flags_unchanged s b m m' :
  _prevState m' = _prevState m -> _isFirstRender m' = _isFirstRender m ->
  b FPrev = false -> b FFirst = false ->
  step_flags s b m m'.
Proof. intros Hp Hf Hbp Hbf. constructor; congruence. Qed.

Lemma step_flags_trans s b1 b2 m m1 m2 :
  step_flags s b1 m m1 -> step_flags s b2 m1 m2 ->
  step_flags s (fun f => b1 f || b2 f) m m2.
Proof.
  intros H1 H2. constructor.
  - intros Hb. apply orb_true_iff in Hb as [Hb|Hb].
    + apply (fl_prev _ _ _ _ H2), (fl_prev_set _ _ _ _ H1), Hb.
    + apply (fl_prev_set _ _ _ _ H2), Hb.
  - intros H. apply (fl_prev _ _ _ _ H2), (fl_prev _ _ _ _ H1), H.
  - intros Hb. apply orb_true_iff in Hb as [Hb|Hb].
    + apply (fl_first _ _ _ _ H2), (fl_first_set _ _ _ _ H1), Hb.
    + apply (fl_first_set _ _ _ _ H2), Hb.
  - intros H. apply (fl_first _ _ _ _ H2), (fl_first _ _ _ _ H1), H.
Qed.

Lemma step_flags_weaken s (b b' : Flag -> bool) m m' :
  step_flags s b m m' -> (forall f, b' f = true -> b f = true) ->
  step_flags s b' m m'.
Proof. intros H Hb. destruct H. constructor; auto. Qed.

Lemma step_ok_refl s m :
  (forall c, keyed (adapters_of c m)) -> step_ok s no_flag m m [].
Proof.
  intros Hk. constructor; auto.
  - intros c i a Hget _. eauto.
  - intros c uid i [].
  - intros c uid e [].
  - discriminate.
Qed.

Lemma step_ok_trans s b1 b2 m m1 m2 t1 t2 :
  step_ok s b1 m m1 t1 -> step_ok s b2 m1 m2 t2 ->
  step_ok s (fun f => b1 f || b2 f) m m2 (t1 ++ t2).
Proof.
  intros H1 H2. constructor.
  - apply (ok_keyed _ _ _ _ _ H2).
  - intros c i a Hget Hin.
    destruct (ok_kept _ _ _ _ _ H1 c i a Hget Hin) as (a1 & Hget1 & Hu1).
    destruct (ok_kept _ _ _ _ _ H2 c i a1 Hget1 Hin) as (a2 & Hget2 & Hu2).
    exists a2. split; [assumption|congruence].
  - intros c uid i Hin. apply in_app_or in Hin as [Hin|Hin].
    + exact (ok_destroy _ _ _ _ _ H1 c uid i Hin).
    + exact (ok_destroy _ _ _ _ _ H2 c uid i Hin).
  - intros c uid e Hin. apply in_app_or in Hin as [Hin|Hin].
    + exact (ok_create _ _ _ _ _ H1 c uid e Hin).
    + destruct (ok_create _ _ _ _ _ H2 c uid e Hin) as [Hid Hnone].
      split; [assumption|].
      destruct (JSMap.get (es_id e) (adapters_of c m)) as [a|] eqn:Hget;
        [|reflexivity].
      destruct (ok_kept _ _ _ _ _ H1 c _ a Hget Hid) as (a1 & Hget1 & _).
      congruence.
  - intros c Hs. apply (ok_synced _ _ _ _ _ H2), (ok_synced _ _ _ _ _ H1), Hs.
  - intros c Hb. apply orb_true_iff in Hb as [Hb|Hb].
    + apply (ok_synced _ _ _ _ _ H2), (ok_triggered _ _ _ _ _ H1), Hb.
    + apply (ok_triggered _ _ _ _ _ H2), Hb.
  - intros Hs. apply (ok_scene _ _ _ _ _ H2), (ok_scene _ _ _ _ _ H1), Hs.
Qed.

Lemma step_ok_weaken s (b b' : Flag -> bool) m m' tr :
  step_ok s b m m' tr -> (forall f, b' f = true -> b f = true) ->
  step_ok s b' m m' tr.
Proof.
  intros H Hb. destruct H. constructor; auto.
Qed.

Lemma step_spec_seq s b1 b2 (c1 c2 : M unit) :
  step_spec s b1 c1 -> step_spec s b2 c2 ->
  step_spec s (fun f => b1 f || b2 f) (c1 ;; c2).
Proof.
  intros H1 H2 m. apply returns_bind.
  eapply returns_weaken; [apply H1|]. intros u1 m1 t1 [Hfl1 Hok1].
  eapply returns_weaken; [apply H2|]. intros u2 m2 t2 [Hfl2 Hok2].
  split; [eapply step_flags_trans; eauto|].
  intros Hk. specialize (Hok1 Hk).
  apply (step_ok_trans _ _ _ _ _ _ _ _ Hok1).
  apply Hok2. apply (ok_keyed _ _ _ _ _ Hok1).
Qed.

Lemma step_spec_skip s : step_spec s no_flag (ret tt).
Proof.
  intros m. apply returns_ret. split.
  - now apply step_flags_unchanged.
  - apply step_ok_refl.
Qed.

Lemma step_spec_weaken s (b b' : Flag -> bool) c :
  step_spec s b c -> (forall f, b' f = true -> b f = true) ->
  step_spec s b' c.
Proof.
  intros H Hb m. eapply returns_weaken; [apply H|].
  intros u m' tr [Hfl Hok]. split.
  - eapply step_flags_weaken; eauto.
  - intros Hk. eapply step_ok_weaken; eauto.
Qed.

Lemma step_spec_when s b (cond : bool) (c : M unit) :
  step_spec s b c -> step_spec s (fun f => cond && b f) (when cond c).
Proof.
  intros H. destruct cond; simpl.
  - exact H.
  - apply step_spec_skip.
Qed.

Lemma quiet_step_spec s (c : M unit) : quiet_step c -> step_spec s no_flag c.
Proof.
  intros H m. eapply returns_weaken; [apply H|].
  intros u m' tr (Hsame & Hprev & Hfirst & Hquiet & Hscene). split.
  - now apply step_flags_unchanged.
  - intros Hk. constructor.
    + intros x. rewrite Hsame. apply Hk.
    + intros x i a Hget _. rewrite Hsame. eauto.
    + intros x uid i Hin. rewrite Forall_forall in Hquiet.
      apply Hquiet in Hin. discriminate.
    + intros x uid e Hin. rewrite Forall_forall in Hquiet.
      apply Hquiet in Hin. discriminate.
    + intros x Hs i. rewrite Hsame. apply Hs.
    + discriminate.
    + assumption.
Qed.

Lemma quiet_ret {A : Type} (a : A) : quiet_step (ret a).
Proof.
  intros m. apply returns_ret. split; [|split; [|split; [|split]]]; auto.
Qed.

Lemma quiet_call e : lifecycle_class e = None -> quiet_step (call e).
Proof.
  intros H m. apply returns_call. split; [|split; [|split; [|split]]]; auto.
Qed.

Lemma quiet_bind {A B : Type} (c : M A) (f : A -> M B) :
  quiet_step c -> (forall a, quiet_step (f a)) -> quiet_step (bind c f).
Proof.
  intros H1 H2 m. apply returns_bind.
  eapply returns_weaken; [apply H1|].
  intros a m1 t1 (Hs1 & Hp1 & Hf1 & Hq1 & Hc1).
  eapply returns_weaken; [apply H2|].
  intros u2 m2 t2 (Hs2 & Hp2 & Hf2 & Hq2 & Hc2).
  split; [|split; [|split; [|split]]].
  - intros x. now rewrite Hs2.
  - congruence.
  - congruence.
  - apply Forall_app. auto.
  - auto.
Qed.

Lemma quiet_this {A : Type} (f : CanvasManager -> M A) :
  (forall m, quiet_step (f m)) -> quiet_step (bind this f).
Proof. intros H m. apply returns_bind, returns_this. apply H. Qed.

Lemma quiet_when (b : bool) c : quiet_step c -> quiet_step (when b c).
Proof. intros H. destruct b; [exact H | exact (quiet_ret tt)]. Qed.

Lemma quiet_zIndex n i : quiet_step (zIndex n i).
Proof.
  apply quiet_bind; [now apply quiet_call | intros _].
  intros m. apply returns_modify.
  split; [intros c; apply adapters_of_with_stage|].
  split; [|split; [|split]]; auto. apply scene_consistent_zIndex.
Qed.

Lemma quiet_inpaintMask_update e t b : quiet_step (inpaintMask_update e t b).
Proof.
  apply quiet_this. intros m.
  apply quiet_bind; [now apply quiet_call|]. intros _.
  intros m1. apply returns_modify.
  split; [intros c; destruct c; reflexivity|].
  split; [|split; [|split]]; auto.
Qed.

Lemma quiet_arrange_collection c entities : forall z,
  quiet_step (arrange_collection c entities z).
Proof.
  induction entities as [|e rest IH]; intros z; simpl.
  - apply quiet_ret.
  - apply quiet_this. intros m. apply quiet_bind; [|intros z'; apply IH].
    destruct (JSMap.get (es_id e) (adapters_of c m)) as [a|].
    + apply quiet_bind; [apply quiet_zIndex | intros _; apply quiet_ret].
    + apply quiet_ret.
Qed.

Lemma quiet_arrangeEntities s : quiet_step (arrangeEntities s).
Proof.
  unfold arrangeEntities. cbv zeta.
  apply quiet_bind; [apply quiet_zIndex | intros _].
  apply quiet_bind; [apply quiet_zIndex | intros _].
  apply quiet_bind; [apply quiet_arrange_collection | intros z1].
  apply quiet_bind; [apply quiet_arrange_collection | intros z2].
  apply quiet_bind; [apply quiet_arrange_collection | intros z3].
  apply quiet_this. intros m.
  apply quiet_bind; [apply quiet_zIndex | intros _].
  apply quiet_zIndex.
Qed.

Lemma step_spec_set_prevState s :
  step_spec s prev_flag (modify (with_prevState s)).
Proof.
  intros m. apply returns_modify. split.
  - constructor; simpl; auto; discriminate.
  - intros Hk. constructor.
    + intros c. rewrite adapters_of_with_prevState. apply Hk.
    + intros c i a Hget _. rewrite adapters_of_with_prevState. eauto.
    + intros c uid i [].
    + intros c uid e [].
    + intros c Hs i. rewrite adapters_of_with_prevState. apply Hs.
    + discriminate.
    + exact (fun H => H).
Qed.

Lemma step_spec_clear_isFirstRender s :
  step_spec s first_flag (modify (with_isFirstRender false)).
Proof.
  intros m. apply returns_modify. split.
  - constructor; simpl; auto; discriminate.
  - intros Hk. constructor.
    + intros c. rewrite adapters_of_with_isFirstRender. apply Hk.
    + intros c i a Hget _. rewrite adapters_of_with_isFirstRender. eauto.
    + intros c uid i [].
    + intros c uid e [].
    + intros c Hs i. rewrite adapters_of_with_isFirstRender. apply Hs.
    + discriminate.
    + exact (fun H => H).
Qed.


(** ** Reconciling one collection: the destroy loop *)

Lemma keyed_In mp k a : keyed mp -> In (k, a) mp -> ad_id a = k.
Proof.
  intros [_ Hall] Hin. rewrite Forall_forall in Hall.
  symmetry. exact (Hall _ Hin).
Qed.

Lemma keyed_get mp k a : keyed mp -> JSMap.get k mp = Some a -> ad_id a = k.
Proof. intros Hk Hget. apply (keyed_In mp); auto using JSMap_get_In. Qed.

Lemma keyed_filter f mp : keyed mp -> keyed (filter f mp).
Proof.
  intros [Hnd Hall]. split; [now apply JSMap_NoDup_filter|].
  rewrite Forall_forall in *. intros kv Hin.
  apply filter_In in Hin as [Hin _]. auto.
Qed.

Lemma keyed_set mp a : keyed mp -> keyed (JSMap.set (ad_id a) a mp).
Proof.
  intros [Hnd Hall]. split; [now apply JSMap_NoDup_set|].
  rewrite Forall_forall in *. intros kv Hin.
  apply JSMap_In_set in Hin as [->|Hin]; [reflexivity|auto].
Qed.

Lemma keyed_map_state mp uid e :
  keyed mp -> keyed (JSMap.map_values (set_adapter_state uid e) mp).
Proof.
  intros [Hnd Hall]. split; [now rewrite JSMap_keys_map_values|].
  rewrite Forall_forall in *. intros [k v] Hin.
  apply JSMap_In_map_values in Hin as [v0 [Hin ->]].
  specialize (Hall _ Hin). unfold key_is_id in *. simpl in *.
  unfold set_adapter_state. destruct (Nat.eqb (ad_uid v0) uid); assumption.
Qed.

Lemma destroy_if_nonexistent_eq c E entry m :
  destroy_if_nonexistent c E entry m =
    if JSMap.has (fst entry) (adapters_of c m) && negb (id_in_snapshot E entry)
    then Returned tt
           (with_adapters c (JSMap.delete (ad_id (snd entry)))
              (with_stage (remove_node (konva_layer (snd entry))) m))
           [Destroy (adapter_class c) (ad_uid (snd entry)) (ad_id (snd entry))]
    else Returned tt m [].
Proof.
  unfold destroy_if_nonexistent, adapter_destroy, id_in_snapshot.
  unfold_monad.
  destruct (JSMap.has (fst entry) (adapters_of c m)); [|reflexivity].
  destruct (existsb _ E); reflexivity.
Qed.

Section DestroyLoop.

Variables (c : Collection) (E : list CanvasEntityState) (m0 : CanvasManager).
Hypothesis Hkeyed : keyed (adapters_of c m0).


Lemma destroy_inv_step done x rest m tr :
  adapters_of c m0 = done ++ x :: rest ->
  destroy_inv c E m0 done m tr ->
  returns (destroy_if_nonexistent c E x) m
    (fun _ m' tr' => destroy_inv c E m0 (done ++ [x]) m' (tr ++ tr')).
Proof.
  intros Hsplit (Hmap & Hother & Hprev & Hfirst & Htr & Hscene).
  assert (Hrest : skipn (List.length done) (adapters_of c m0) = x :: rest)
    by (rewrite Hsplit; apply skipn_split).
  assert (Hrest' : skipn (List.length (done ++ [x])) (adapters_of c m0) = rest).
  { rewrite Hsplit.
    replace (done ++ x :: rest) with ((done ++ [x]) ++ rest)
      by (rewrite <- app_assoc; reflexivity).
    apply skipn_split. }
  rewrite Hrest in Hmap.
  destruct Hkeyed as [Hnd Hall].
  assert (Hnd1 : NoDup (JSMap.keys (filter (id_in_snapshot E) done ++ x :: rest))).
  { apply JSMap_NoDup_filter_app. now rewrite <- Hsplit. }
  assert (Hkx : fst x = ad_id (snd x)).
  { rewrite Forall_forall in Hall. apply Hall. rewrite Hsplit.
    apply in_or_app. right. now left. }
  assert (Hhas : JSMap.has (fst x) (adapters_of c m) = true).
  { apply JSMap_has_true. rewrite Hmap. unfold JSMap.keys.
    rewrite map_app, in_app_iff. right. now left. }
  unfold returns. rewrite destroy_if_nonexistent_eq, Hhas. simpl.
  destruct (id_in_snapshot E x) eqn:Hin; simpl; unfold destroy_inv.
  - (* kept *)
    split.
    { rewrite Hmap, Hrest', filter_app. simpl. rewrite Hin.
      now rewrite <- app_assoc. }
    do 3 (split; [assumption|]). split; [|assumption].
    intros ev Hev. rewrite app_nil_r in Hev.
    destruct (Htr ev Hev) as (entry & He & Hrem).
    exists entry. split; [apply in_or_app; now left | assumption].
  - (* destroyed *)
    split.
    { rewrite adapters_of_with_adapters, adapters_of_with_stage, Hmap, Hrest'.
      rewrite filter_app. simpl. rewrite Hin, app_nil_r.
      rewrite <- Hkx. destruct x as [k a]. simpl.
      unfold JSMap.keys in Hnd1. rewrite map_app in Hnd1. simpl in Hnd1.
      apply NoDup_remove_2 in Hnd1. rewrite in_app_iff in Hnd1.
      apply JSMap_delete_middle; unfold JSMap.keys; tauto. }
    split.
    { intros c' Hne.
      rewrite adapters_of_with_adapters_other, adapters_of_with_stage; auto. }
    split; [destruct c; simpl; assumption|].
    split; [destruct c; simpl; assumption|].
    split.
    { intros ev Hev. apply in_app_or in Hev as [Hev|[<-|[]]].
      - destruct (Htr ev Hev) as (entry & He & Hrem).
        exists entry. split; [apply in_or_app; now left | assumption].
      - exists x. repeat split; [apply in_or_app; right; now left | assumption]. }
    intros Hs0. apply scene_consistent_destroy; [| |auto].
    + now rewrite Hmap.
    + rewrite Hmap, <- Hkx. apply in_or_app. right. left.
      now destruct x.
Qed.

Lemma destroy_nonexistent_spec :
  returns (destroy_nonexistent c E (adapters_of c m0)) m0
    (fun _ m' tr => destroy_inv c E m0 (adapters_of c m0) m' tr).
Proof.
  unfold destroy_nonexistent.
  pose proof (returns_for_each (destroy_if_nonexistent c E) (destroy_inv c E m0)
                (adapters_of c m0) [] m0 []) as H.
  simpl in H. apply H.
  - unfold destroy_inv. simpl.
    do 4 (split; [auto|]). split; [intros ev []|auto].
  - intros done x rest m1 t1 Hsplit Hinv.
    now apply (destroy_inv_step done x rest).
Qed.

End DestroyLoop.

(** ** Reconciling one collection: the entity loop *)

Lemma get_or_create_found c e m a :
  JSMap.get (es_id e) (adapters_of c m) = Some a ->
  get_or_create c e m = Returned a m [].
Proof.
  intros H. unfold get_or_create. unfold_monad. rewrite H. reflexivity.
Qed.

Lemma get_or_create_missing c e m :
  JSMap.get (es_id e) (adapters_of c m) = None ->
  let a := mkAdapter (es_id e) (class_type (adapter_class c)) (next_uid m) e in
  get_or_create c e m =
    Returned a
      (with_stage (fun children => children ++ [konva_layer a])
         (with_adapters c (JSMap.set (ad_id a) a)
            (with_next_uid (S (next_uid m)) m)))
      [New (adapter_class c) (next_uid m) e; StageAdd (konva_layer a)].
Proof.
  intros H a. unfold get_or_create, new_adapter, stage_add. unfold_monad.
  rewrite H. reflexivity.
Qed.

Lemma updates_state_adapter_update e t b :
  updates_state Layers e (fun a => adapter_update Layers a e t b).
Proof. intros a m. eexists. split; [|reflexivity]. reflexivity. Qed.

Lemma updates_state_adapter_render c e :
  updates_state c e (fun a => adapter_render c a e).
Proof. intros a m. eexists. split; [|reflexivity]. reflexivity. Qed.

Lemma get_map_state_uid mp uid e i a :
  JSMap.get i mp = Some a ->
  exists a',
    JSMap.get i (JSMap.map_values (set_adapter_state uid e) mp) = Some a' /\
    ad_uid a' = ad_uid a.
Proof.
  intros H. rewrite JSMap_get_map_values, H. simpl. eexists. split; [reflexivity|].
  unfold set_adapter_state. destruct (Nat.eqb (ad_uid a) uid); reflexivity.
Qed.

Lemma entity_inv_step c e upd m0 done m tr :
  updates_state c e upd ->
  entity_inv c m0 done m tr ->
  returns (a <- get_or_create c e ;; upd a) m
    (fun _ m' tr' => entity_inv c m0 (done ++ [e]) m' (tr ++ tr')).
Proof.
  intros Hupd (Hk & Hkeys & Hkept & Hother & Hprev & Hfirst & Htr & Hscene).
  assert (Htr' : forall ev, In ev tr ->
     lifecycle_class ev = None \/
     exists uid e0,
       ev = New (adapter_class c) uid e0 /\ In e0 (done ++ [e]) /\
       JSMap.get (es_id e0) (adapters_of c m0) = None).
  { intros ev Hev. destruct (Htr ev Hev) as [Hq|(uid & e0 & -> & Hin & Hn)];
      [now left|right]. exists uid, e0. repeat split; auto.
    apply in_or_app. now left. }
  unfold returns, bind.
  destruct (JSMap.get (es_id e) (adapters_of c m)) as [a|] eqn:Hget.
  - (* the adapter exists *)
    rewrite (get_or_create_found _ _ _ _ Hget).
    destruct (Hupd a m) as (ev & Hq & ->). simpl.
    unfold entity_inv. rewrite adapters_of_with_adapters.
    split; [now apply keyed_map_state|].
    split.
    { intros i. rewrite JSMap_keys_map_values, Hkeys. unfold ids.
      rewrite map_app, in_app_iff. simpl. split; [tauto|].
      intros [H|[H|[<-|[]]]]; auto.
      apply Hkeys. eapply JSMap_get_Some_keys. exact Hget. }
    split.
    { intros i a0 H0. destruct (Hkept i a0 H0) as (a1 & H1 & Hu1).
      destruct (get_map_state_uid _ (ad_uid a) e _ _ H1) as (a2 & H2 & Hu2).
      exists a2. split; [assumption|congruence]. }
    split.
    { intros c' Hne. rewrite adapters_of_with_adapters_other; auto. }
    split; [destruct c; assumption|].
    split; [destruct c; assumption|].
    split; [|intros Hs0; apply scene_consistent_update; auto].
    intros ev0 Hev. apply in_app_or in Hev as [Hev|[<-|[]]]; auto.
  - (* a new adapter *)
    rewrite (get_or_create_missing _ _ _ Hget).
    set (a := mkAdapter (es_id e) (class_type (adapter_class c)) (next_uid m) e).
    destruct (Hupd a
      (with_stage (fun children => children ++ [konva_layer a])
         (with_adapters c (JSMap.set (ad_id a) a)
            (with_next_uid (S (next_uid m)) m)))) as (ev & Hq & ->).
    simpl.
    assert (Hfresh : ~ In (es_id e) (JSMap.keys (adapters_of c m)))
      by (now apply JSMap_get_None).
    assert (Hnone0 : JSMap.get (es_id e) (adapters_of c m0) = None).
    { apply JSMap_get_None. intros Hin. apply Hfresh, Hkeys. now left. }
    unfold entity_inv.
    rewrite adapters_of_with_adapters, adapters_of_with_stage,
      adapters_of_with_adapters, adapters_of_with_next_uid.
    split; [apply keyed_map_state; now apply (keyed_set _ a)|].
    split.
    { intros i. rewrite JSMap_keys_map_values, JSMap_keys_set, Hkeys.
      unfold ids. rewrite map_app, in_app_iff. simpl. intuition. }
    split.
    { intros i a0 H0. destruct (Hkept i a0 H0) as (a1 & H1 & Hu1).
      assert (Hne : ad_id a <> i).
      { simpl. intros <-. apply Hfresh. eapply JSMap_get_Some_keys. exact H1. }
      rewrite <- (JSMap_get_set_neq _ _ _ a Hne) in H1.
      destruct (get_map_state_uid _ (next_uid m) e _ _ H1) as (a2 & H2 & Hu2).
      exists a2. split; [assumption|congruence]. }
    split.
    { intros c' Hne.
      rewrite adapters_of_with_adapters_other, adapters_of_with_stage,
        adapters_of_with_adapters_other, adapters_of_with_next_uid; auto. }
    split; [destruct c; assumption|].
    split; [destruct c; assumption|].
    split.
    { intros ev0 Hev. apply in_app_or in Hev as [Hev|Hev]; [auto|].
      destruct Hev as [<-|[<-|[<-|[]]]]; [|now left|now left].
      right. exists (next_uid m), e. repeat split; auto.
      apply in_or_app. right. now left. }
    intros Hs0. apply scene_consistent_update.
    apply (scene_consistent_create c (es_id e)
             (class_type (adapter_class c)) e m Hfresh (Hscene Hs0)).
Qed.

Lemma entity_loop_spec c E (body : CanvasEntityState -> M unit) m0 :
  (forall e, exists upd, updates_state c e upd /\
                         body e = (a <- get_or_create c e ;; upd a)) ->
  keyed (adapters_of c m0) ->
  returns (for_each E body) m0 (fun _ m' tr => entity_inv c m0 E m' tr).
Proof.
  intros Hbody Hk.
  pose proof (returns_for_each body (entity_inv c m0) E [] m0 []) as H.
  simpl in H. apply H.
  - unfold entity_inv.
    split; [assumption|].
    split; [intros i; simpl; tauto|].
    split; [intros i a Hget; eauto|].
    split; [auto|]. split; [auto|]. split; [auto|].
    split; [intros ev []|auto].
  - intros done x rest m1 t1 _ Hinv.
    destruct (Hbody x) as (upd & Hupd & ->).
    now apply entity_inv_step.
Qed.

(** ** Reconciling one collection: both loops *)

Lemma returns_cond {A : Type} (c : M A) m (P : Prop)
    (Q : A -> CanvasManager -> list Event -> Prop) :
  returned (c m) = true -> (P -> returns c m Q) ->
  returns c m (fun a m' tr => P -> Q a m' tr).
Proof.
  unfold returns. destruct (c m); simpl; [auto|discriminate].
Qed.

Lemma for_each_returned {A : Type} (body : A -> M unit) l :
  (forall x m, returned (body x m) = true) ->
  forall m, returned (for_each l body m) = true.
Proof.
  intros Hbody. induction l as [|x l IH]; intros m; simpl; [reflexivity|].
  unfold bind. specialize (Hbody x m).
  destruct (body x m) as [u m1 t1|]; [|discriminate].
  specialize (IH m1). destruct (for_each l body m1); [reflexivity|discriminate].
Qed.

Lemma destroy_nonexistent_returned c E entries m :
  returned (destroy_nonexistent c E entries m) = true.
Proof.
  apply for_each_returned. intros x m1. rewrite destroy_if_nonexistent_eq.
  destruct (_ && _); reflexivity.
Qed.

Lemma entity_body_returned c e upd m :
  updates_state c e upd ->
  returned ((a <- get_or_create c e ;; upd a) m) = true.
Proof.
  intros Hupd. unfold bind.
  destruct (JSMap.get (es_id e) (adapters_of c m)) as [a|] eqn:Hget.
  - rewrite (get_or_create_found _ _ _ _ Hget).
    destruct (Hupd a m) as (ev & _ & ->). reflexivity.
  - rewrite (get_or_create_missing _ _ _ Hget).
    match goal with
    | |- context [upd ?a ?m1] => destruct (Hupd a m1) as (ev & _ & ->)
    end.
    reflexivity.
Qed.

Lemma get_filter_snapshot mp E i a :
  keyed mp -> JSMap.get i mp = Some a -> In i (ids E) ->
  JSMap.get i (filter (id_in_snapshot E) mp) = Some a.
Proof.
  intros Hk Hget Hin. apply JSMap_In_get.
  - apply JSMap_NoDup_filter, Hk.
  - apply filter_In. split; [now apply JSMap_get_In|].
    unfold id_in_snapshot. simpl. apply in_ids_existsb.
    now rewrite (keyed_get _ _ _ Hk Hget).
Qed.

Lemma keys_filter_snapshot mp E i :
  keyed mp -> In i (JSMap.keys (filter (id_in_snapshot E) mp)) ->
  In i (ids E).
Proof.
  intros Hk Hin. unfold JSMap.keys in Hin. apply in_map_iff in Hin.
  destruct Hin as [[k a] [<- Hin]]. apply filter_In in Hin as [Hin Hkeep].
  unfold id_in_snapshot in Hkeep. simpl in *.
  apply in_ids_existsb in Hkeep. now rewrite (keyed_In _ _ _ Hk Hin) in Hkeep.
Qed.

Lemma Collection_eq_dec (x y : Collection) : {x = y} + {x <> y}.
Proof. decide equality. Qed.

Lemma with_adapters_prev_first c f m :
  _prevState (with_adapters c f m) = _prevState m /\
  _isFirstRender (with_adapters c f m) = _isFirstRender m.
Proof. destruct c; auto. Qed.

Lemma destroy_nonexistent_frame c E entries m :
  returns (destroy_nonexistent c E entries) m
    (fun _ m' _ => _prevState m' = _prevState m /\
                   _isFirstRender m' = _isFirstRender m).
Proof.
  pose proof (returns_for_each (destroy_if_nonexistent c E)
    (fun _ m' _ => _prevState m' = _prevState m /\
                   _isFirstRender m' = _isFirstRender m) entries [] m []) as H.
  apply H; [auto|]. clear H.
  intros done x rest m1 t1 _ [Hp Hf]. unfold returns.
  rewrite destroy_if_nonexistent_eq. destruct (_ && _); [|auto].
  destruct (with_adapters_prev_first c (JSMap.delete (ad_id (snd x)))
    (with_stage (remove_node (konva_layer (snd x))) m1)) as [-> ->]. auto.
Qed.

Lemma entity_loop_frame c E (body : CanvasEntityState -> M unit) m :
  (forall e, exists upd, updates_state c e upd /\
                         body e = (a <- get_or_create c e ;; upd a)) ->
  returns (for_each E body) m
    (fun _ m' _ => _prevState m' = _prevState m /\
                   _isFirstRender m' = _isFirstRender m).
Proof.
  intros Hbody.
  pose proof (returns_for_each body
    (fun _ m' _ => _prevState m' = _prevState m /\
                   _isFirstRender m' = _isFirstRender m) E [] m []) as H.
  apply H; [auto|]. clear H.
  intros done e rest m1 t1 _ [Hp Hf].
  destruct (Hbody e) as (upd & Hupd & ->). unfold returns, bind.
  destruct (JSMap.get (es_id e) (adapters_of c m1)) as [a|] eqn:Hget.
  - rewrite (get_or_create_found _ _ _ _ Hget).
    destruct (Hupd a m1) as (ev & _ & ->).
    destruct (with_adapters_prev_first c
      (JSMap.map_values (set_adapter_state (ad_uid a) e)) m1) as [-> ->].
    auto.
  - rewrite (get_or_create_missing _ _ _ Hget).
    match goal with
    | |- context [upd ?a ?m2] =>
        destruct (Hupd a m2) as (ev & _ & ->);
        destruct (with_adapters_prev_first c
          (JSMap.map_values (set_adapter_state (ad_uid a) e)) m2) as [-> ->]
    end.
    simpl.
    destruct (with_adapters_prev_first c
      (JSMap.set (es_id e)
         (mkAdapter (es_id e) (class_type (adapter_class c)) (next_uid m1) e))
      (with_next_uid (S (next_uid m1)) m1)) as [-> ->].
    auto.
Qed.

Lemma reconcile_spec s c (body : CanvasEntityState -> M unit) :
  (forall e, exists upd, updates_state c e upd /\
                         body e = (a <- get_or_create c e ;; upd a)) ->
  step_spec s (sync_flag c)
    (m <- this ;;
     destroy_nonexistent c (snapshot_entities c s) (adapters_of c m) ;;
     for_each (snapshot_entities c s) body).
Proof.
  intros Hbody m. set (E := snapshot_entities c s).
  apply returns_bind, returns_this, returns_bind.
  eapply returns_weaken.
  { apply returns_and.
    - apply (destroy_nonexistent_frame c E (adapters_of c m) m).
    - apply (returns_cond _ _ (keyed (adapters_of c m))).
      + apply destroy_nonexistent_returned.
      + intros Hk. apply (destroy_nonexistent_spec c E m Hk). }
  intros u1 m1 t1 [[Hp1 Hf1] Hdestroy].
  eapply returns_weaken.
  { apply returns_and.
    - apply (entity_loop_frame c E body m1 Hbody).
    - apply (returns_cond _ _ (keyed (adapters_of c m1))).
      + apply for_each_returned. intros e m2.
        destruct (Hbody e) as (upd & Hupd & ->).
        now apply entity_body_returned.
      + intros Hk1. apply (entity_loop_spec c E body m1 Hbody Hk1). }
  intros u2 m2 t2 [[Hp2 Hf2] Hentity]. simpl.
  split; [apply step_flags_unchanged; try reflexivity; congruence|].
  intros Hkeyed.
  specialize (Hdestroy (Hkeyed c)).
  destruct Hdestroy as (Hmap1 & Hother1 & Hprev1 & Hfirst1 & Htr1 & Hsc1).
  rewrite skipn_all, app_nil_r in Hmap1.
  assert (Hk1 : keyed (adapters_of c m1))
    by (rewrite Hmap1; apply keyed_filter, Hkeyed).
  specialize (Hentity Hk1).
  destruct Hentity
    as (Hk2 & Hkeys2 & Hkept2 & Hother2 & Hprev2 & Hfirst2 & Htr2 & Hsc2).
  assert (Hsynced : synced_ids s c m2).
  { intros i. rewrite Hkeys2. fold E. split; [|tauto].
    intros [Hin|Hin]; [|assumption].
    rewrite Hmap1 in Hin. eapply keys_filter_snapshot; [apply Hkeyed|exact Hin]. }
  assert (Hsame : forall c', c' <> c -> adapters_of c' m2 = adapters_of c' m).
  { intros c' Hne. rewrite Hother2, Hother1; auto. }
  constructor.
  - intros c'. destruct (Collection_eq_dec c' c) as [->|Hne];
      [assumption | rewrite Hsame; auto].
  - intros c' i a Hget Hin. destruct (Collection_eq_dec c' c) as [->|Hne].
    + apply Hkept2. rewrite Hmap1. apply get_filter_snapshot; auto.
    + rewrite Hsame; eauto.
  - intros c' uid i Hin. apply in_app_or in Hin as [Hin|Hin].
    + destruct (Htr1 _ Hin) as (entry & _ & Hrem & Hev).
      injection Hev as Hcls _ ->. apply adapter_class_inj in Hcls. subst c'.
      intros Hi. apply in_ids_existsb in Hi.
      unfold id_in_snapshot in Hrem. fold E in Hi. congruence.
    + destruct (Htr2 _ Hin) as [Hq|(uid' & e & Hev & _)]; discriminate.
  - intros c' uid e Hin. apply in_app_or in Hin as [Hin|Hin].
    + destruct (Htr1 _ Hin) as (entry & _ & _ & Hev). discriminate.
    + destruct (Htr2 _ Hin) as [Hq|(uid' & e' & Hev & Hdone & Hnone)];
        [discriminate|].
      injection Hev as Hcls _ <-. apply adapter_class_inj in Hcls. subst c'.
      assert (Hid : In (es_id e) (ids E)) by (now apply in_map).
      split; [assumption|].
      destruct (JSMap.get (es_id e) (adapters_of c m)) as [a|] eqn:Hget;
        [|reflexivity].
      rewrite Hmap1 in Hnone.
      rewrite (get_filter_snapshot _ E _ a (Hkeyed c) Hget Hid) in Hnone.
      discriminate.
  - intros c' Hs. destruct (Collection_eq_dec c' c) as [->|Hne];
      [assumption|]. intros i. rewrite Hsame; auto.
  - intros c' Hb. simpl in Hb. apply Collection_eqb_eq in Hb. now subst c'.
  - auto.
Qed.

Lemma renderLayers_spec s :
  step_spec s (sync_flag Layers) (renderLayers s).
Proof.
  apply (reconcile_spec s Layers (update_layer s)).
  intros e. eexists. split; [|reflexivity].
  apply updates_state_adapter_update.
Qed.

Lemma renderRegions_spec s :
  step_spec s (sync_flag Regions) (renderRegions s).
Proof.
  apply (reconcile_spec s Regions (render_entity Regions)).
  intros e. eexists. split; [|reflexivity].
  apply updates_state_adapter_render.
Qed.

Lemma renderControlAdapters_spec s :
  step_spec s (sync_flag ControlAdapters) (renderControlAdapters s).
Proof.
  apply (reconcile_spec s ControlAdapters (render_entity ControlAdapters)).
  intros e. eexists. split; [|reflexivity].
  apply updates_state_adapter_render.
Qed.

(** ** The render cycle *)

Ltac quiet :=
  repeat first
    [ apply quiet_call; reflexivity
    | apply quiet_ret
    | apply quiet_zIndex
    | apply quiet_inpaintMask_update
    | apply quiet_arrangeEntities
    | apply quiet_when
    | apply quiet_this; intro
    | apply quiet_bind; [|intro] ].

Ltac spec_step :=
  lazymatch goal with
  | |- step_spec _ _ (when _ _) => eapply step_spec_when
  | |- step_spec _ _ (renderLayers _) => apply renderLayers_spec
  | |- step_spec _ _ (renderRegions _) => apply renderRegions_spec
  | |- step_spec _ _ (renderControlAdapters _) => apply renderControlAdapters_spec
  | |- step_spec _ _ (modify (with_prevState _)) => apply step_spec_set_prevState
  | |- step_spec _ _ (modify (with_isFirstRender false)) =>
      apply step_spec_clear_isFirstRender
  | |- step_spec _ _ (bind this _) => apply quiet_step_spec; quiet
  | |- step_spec _ _ (call _) => apply quiet_step_spec; quiet
  | |- step_spec _ _ (ret tt) => apply step_spec_skip
  | |- step_spec _ _ (inpaintMask_update _ _ _) => apply quiet_step_spec; quiet
  | |- step_spec _ _ (arrangeEntities _) => apply quiet_step_spec; quiet
  | |- step_spec _ _ (bind _ _) => eapply step_spec_seq
  end.

Lemma render_spec s m :
  returns (render s) m (fun _ m' tr =>
    if takes_fast_path s m
    then m' = m /\ tr = [Log "trace" "No changes detected, skipping render"]
    else step_flags s (render_flags s m) m m' /\
         ((forall c, keyed (adapters_of c m)) ->
          step_ok s (render_flags s m) m m' tr)).
Proof.
  unfold render. apply returns_bind, returns_this. cbv zeta.
  unfold takes_fast_path.
  destruct (same_ref (_prevState m) s && negb (_isFirstRender m)) eqn:Hfast.
  - apply returns_call. auto.
  - simpl.
    match goal with
    | |- returns ?c m _ =>
        assert (Hspec : exists b, step_spec s b c /\
                  forall f, render_flags s m f = true -> b f = true)
    end.
    { eexists. split.
      - repeat spec_step.
      - intros f Hf. cbv beta.
        destruct f as [[]| |];
          cbv beta iota delta
            [no_flag sync_flag prev_flag first_flag Collection_eqb];
          unfold render_flags, entities_changed, entities_ref in Hf;
          repeat progress
            rewrite ?andb_false_r, ?andb_true_r, ?orb_false_r, ?orb_false_l,
              ?orb_true_r, ?orb_true_l;
          try reflexivity; try (rewrite Hf; reflexivity); try exact Hf. }
    destruct Hspec as (b & Hspec & Hb).
    eapply returns_weaken; [apply Hspec|].
    intros u m' tr [Hfl Hok]. split.
    + eapply step_flags_weaken; eauto.
    + intros Hk. eapply step_ok_weaken; eauto.
Qed.

Lemma same_ref_refl {A : Type} (x : Ref A) : same_ref x x = true.
Proof. apply Nat.eqb_refl. Qed.

Lemma render_fast s m :
  takes_fast_path s m = true ->
  render s m =
    Returned tt m [Log "trace" "No changes detected, skipping render"].
Proof.
  intros H. pose proof (render_spec s m) as Hspec. rewrite H in Hspec.
  apply returns_elim in Hspec as ([] & m' & tr & -> & -> & ->). reflexivity.
Qed.

Lemma render_full s m :
  takes_fast_path s m = false ->
  exists m' tr,
    render s m = Returned tt m' tr /\
    _prevState m' = s /\ _isFirstRender m' = false /\
    ((forall c, keyed (adapters_of c m)) ->
     step_ok s (render_flags s m) m m' tr).
Proof.
  intros H. pose proof (render_spec s m) as Hspec. rewrite H in Hspec.
  apply returns_elim in Hspec as ([] & m' & tr & Hrun & Hfl & Hok).
  exists m', tr. split; [assumption|].
  split; [apply (fl_prev_set _ _ _ _ Hfl); reflexivity|].
  split; [|assumption].
  destruct (_isFirstRender m) eqn:Hfirst.
  - apply (fl_first_set _ _ _ _ Hfl). simpl. assumption.
  - apply (fl_first _ _ _ _ Hfl). assumption.
Qed.

(** C2: when the snapshot is the object processed last time and this is
    not the first invocation, [render] returns at once: the manager is
    unchanged and the only call made is the trace log, so no adapter is
    created, updated or destroyed and no value is published.  Hence a second
    [render] of the same snapshot, right after a first one, does nothing. *)
Theorem render_unchanged_snapshot_is_noop (s : CanvasV2State)
    (m : CanvasManager) :
  (same_ref (_prevState m) s = true -> _isFirstRender m = false ->
   render s m =
     Returned tt m [Log "trace" "No changes detected, skipping render"] /\
   existsb is_adapter_or_publish_call (trace_of (render s m)) = false) /\
  (let m1 := state_after (render s m) in
   returned (render s m) = true /\
   render s m1 =
     Returned tt m1 [Log "trace" "No changes detected, skipping render"] /\
   existsb is_adapter_or_publish_call (trace_of (render s m1)) = false).
Proof.
  split.
  - intros Href Hfirst.
    assert (H : takes_fast_path s m = true)
      by (unfold takes_fast_path; now rewrite Href, Hfirst).
    rewrite (render_fast _ _ H). auto.
  - destruct (takes_fast_path s m) eqn:Hfast.
    + rewrite (render_fast _ _ Hfast). simpl.
      rewrite (render_fast _ _ Hfast). auto.
    + destruct (render_full _ _ Hfast) as (m' & tr & -> & Hprev & Hfirst & _).
      simpl.
      assert (H : takes_fast_path s m' = true).
      { unfold takes_fast_path. rewrite Hprev, Hfirst.
        now rewrite same_ref_refl. }
      rewrite (render_fast _ _ H). auto.
Qed.

(** ** Convergence of the collections *)

Lemma keyed_empty : keyed (@JSMap.empty Adapter).
Proof. split; constructor. Qed.

Lemma constructor_keyed s0 c : keyed (adapters_of c (constructor s0)).
Proof. destruct c; apply keyed_empty. Qed.

Lemma render_keyed s m :
  (forall c, keyed (adapters_of c m)) ->
  returns (render s) m (fun _ m' _ => forall c, keyed (adapters_of c m')).
Proof.
  intros Hk. destruct (takes_fast_path s m) eqn:Hfast.
  - eapply returns_intro; [apply (render_fast _ _ Hfast)|]. exact Hk.
  - destruct (render_full _ _ Hfast) as (m' & tr & Hrun & _ & _ & Hok).
    eapply returns_intro; [exact Hrun|]. apply (ok_keyed _ _ _ _ _ (Hok Hk)).
Qed.


Lemma Ref_eq {A : Type} (x y : Ref A) :
  addr x = addr y -> val x = val y -> x = y.
Proof. destruct x, y. simpl. now intros -> ->. Qed.

Lemma same_ref_true {A B : Type} (x : Ref A) (y : Ref B) :
  same_ref x y = true <-> addr x = addr y.
Proof. apply Nat.eqb_eq. Qed.

Lemma snapshot_entities_val c s :
  snapshot_entities c s = val (entities_ref c s).
Proof. destruct c; reflexivity. Qed.

(** One pass: with keyed collections that, unless this is the first pass,
    match the previous snapshot, the collections match the new one. *)
Lemma render_converges s m :
  (forall c, keyed (adapters_of c m)) ->
  (_isFirstRender m = false ->
   coherent (_prevState m) s /\ forall c, synced_ids (_prevState m) c m) ->
  returns (render s) m (fun _ m' _ =>
    (forall c, keyed (adapters_of c m')) /\
    _isFirstRender m' = false /\
    _prevState m' = s /\
    forall c, synced_ids s c m').
Proof.
  intros Hk Hinv. destruct (takes_fast_path s m) eqn:Hfast.
  - eapply returns_intro; [apply (render_fast _ _ Hfast)|].
    unfold takes_fast_path in Hfast. apply andb_true_iff in Hfast as [Href Hnf].
    apply negb_true_iff in Hnf. destruct (Hinv Hnf) as [[Hroot _] Hs].
    apply same_ref_true in Href.
    assert (Heq : _prevState m = s) by (apply Ref_eq; auto).
    rewrite Heq in Hs. auto.
  - destruct (render_full _ _ Hfast) as (m' & tr & Hrun & Hprev & Hfirst & Hok).
    eapply returns_intro; [exact Hrun|]. specialize (Hok Hk).
    split; [apply (ok_keyed _ _ _ _ _ Hok)|].
    split; [assumption|]. split; [assumption|].
    intros c.
    destruct (_isFirstRender m || entities_changed c s m) eqn:Htrig.
    + apply (ok_triggered _ _ _ _ _ Hok). exact Htrig.
    + apply orb_false_iff in Htrig as [Hnf Hsame].
      destruct (Hinv Hnf) as [[_ Hsub] Hs].
      apply (ok_synced _ _ _ _ _ Hok).
      unfold entities_changed in Hsame. apply negb_false_iff in Hsame.
      apply same_ref_true in Hsame. symmetry in Hsame.
      apply Hsub in Hsame.
      intros i. rewrite (Hs c i), !snapshot_entities_val, Hsame. tauto.
Qed.

Lemma render_all_converges ss : forall m s,
  (forall c, keyed (adapters_of c m)) ->
  (forall x y, In x (ss ++ [s]) -> In y (ss ++ [s]) -> coherent x y) ->
  (_isFirstRender m = false ->
   (forall y, In y (ss ++ [s]) -> coherent (_prevState m) y) /\
   forall c, synced_ids (_prevState m) c m) ->
  returns (render_all (ss ++ [s])) m (fun _ m' _ =>
    (forall c, keyed (adapters_of c m')) /\ forall c, synced_ids s c m').
Proof.
  induction ss as [|x ss IH]; intros m s Hk Hcoh Hinv; simpl.
  - apply returns_bind. eapply returns_weaken.
    + apply render_converges; [assumption|].
      intros Hnf. destruct (Hinv Hnf) as [Hin Hs]. split; [|assumption].
      apply Hin. now left.
    + intros u m1 t1 (Hk1 & _ & _ & Hs1). apply returns_ret. auto.
  - apply returns_bind. eapply returns_weaken.
    + apply (render_converges x m); [assumption|].
      intros Hnf. destruct (Hinv Hnf) as [Hin Hs]. split; [|assumption].
      apply Hin. now left.
    + intros u m1 t1 (Hk1 & Hf1 & Hp1 & Hs1).
      eapply returns_weaken.
      * apply (IH m1 s Hk1).
        -- intros a b Ha Hb. apply Hcoh; now right.
        -- intros _. rewrite Hp1. split; [|assumption].
           intros y Hy. apply Hcoh; [now left | now right].
      * auto.
Qed.

(** Render passes run one after the other, each to its end: after the pass
    of a snapshot each collection holds exactly the ids of that snapshot's
    sub-tree, one adapter per id. *)
Lemma render_all_converged (s0 : CanvasV2State)
    (before : list CanvasV2State) (s : CanvasV2State) :
  (forall x y, In x (before ++ [s]) -> In y (before ++ [s]) -> coherent x y) ->
  let o := render_all (before ++ [s]) (constructor s0) in
  returned o = true /\
  forall c, converged c s (state_after o).
Proof.
  intros Hcoh o.
  pose proof (render_all_converges before (constructor s0) s
                (constructor_keyed s0) Hcoh) as H.
  assert (Hfirst : _isFirstRender (constructor s0) = false ->
    (forall y, In y (before ++ [s]) -> coherent (_prevState (constructor s0)) y) /\
    forall c, synced_ids (_prevState (constructor s0)) c (constructor s0))
    by discriminate.
  specialize (H Hfirst). apply returns_elim in H as (u & m' & tr & Hrun & Hk & Hs).
  subst o. rewrite Hrun. simpl. split; [reflexivity|].
  intros c. split; [apply Hs|]. split; [apply Hk|].
  intros k a Hin. apply (keyed_In _ _ _ (Hk c) Hin).
Qed.

(** ** Adapter identity *)


(** ** Type tags of state and adapter *)

Lemma render_returned s m : returned (render s m) = true.
Proof.
  pose proof (render_spec s m) as H.
  apply returns_elim in H as (u & m' & tr & -> & _). reflexivity.
Qed.

(** C5, as amended: when the selected identifier resolves to an entity
    state and an adapter whose type tags differ, [getEntity] returns null:
    the two are not paired, and the selection counts as empty, so the
    current fill is the tool's.  No assertion is made on the tags: a render
    pass, which resolves the selection, returns whatever the tags are.  A
    pair is returned only when the tags are equal: whenever [getEntity]
    returns a pair, the identifier resolves to its state and its adapter and
    their tags are the same. *)
Theorem getEntity_mismatch_is_null (s : CanvasV2State) (m : CanvasManager)
    (identifier : CanvasEntityIdentifier) :
  (forall st ad,
     resolves s m identifier st ad ->
     es_type st <> ad_type (the_adapter ad) ->
     getEntity s m identifier = None /\
     (State.selectedEntityIdentifier (val s) = Some identifier ->
      getSelectedEntity s m = None /\
      getCurrentFill s m = tool_fill (State.tool (val s)))) /\
  (forall p,
     getEntity s m identifier = Some p ->
     resolves s m identifier (state p) (adapter p) /\
     es_type (state p) = ad_type (the_adapter (adapter p))) /\
  returned (render s m) = true.
Proof.
  split; [|split].
  - intros st ad Hres Hne.
    assert (Hnone : getEntity s m identifier = None).
    { rewrite (getEntity_resolved _ _ _ _ _ Hres).
      apply EntityType_eqb_neq in Hne. now rewrite Hne. }
    split; [assumption|]. intros Hsel.
    assert (Hempty : getSelectedEntity s m = None)
      by (unfold getSelectedEntity; now rewrite Hsel).
    split; [assumption|]. unfold getCurrentFill. now rewrite Hempty.
  - intros p Hp. now apply getEntity_Some in Hp.
  - apply render_returned.
Qed.

(** ** Z-order *)

Lemma Permutation_moved {A : Type} (x : A) l1 l2 l3 l4 :
  l1 ++ l2 = l3 ++ l4 -> Permutation (l1 ++ x :: l2) (l3 ++ x :: l4).
Proof.
  intros E. transitivity (x :: l1 ++ l2).
  - symmetry. apply Permutation_middle.
  - rewrite E. apply Permutation_middle.
Qed.

(** The children after the first [done] calls: the nodes moved so far, in
    order, with one other node among them, followed by the rest. *)
Lemma apply_zIndex_sorts todo : forall done children,
  NoDup (done ++ todo) ->
  Permutation children (done ++ todo) ->
  (todo <> [] ->
   exists a b y rest, children = a ++ y :: b ++ rest /\ a ++ b = done) ->
  (todo = [] -> children = done) ->
  apply_zIndex todo (List.length done) children = done ++ todo.
Proof.
  induction todo as [|x todo IH]; intros done children Hnd Hperm Hhole Hend.
  - simpl. rewrite app_nil_r. now apply Hend.
  - simpl.
    destruct Hhole as (a & b & y & rest & -> & Hdone); [discriminate|].
    assert (E1 : done ++ x :: todo = (done ++ [x]) ++ todo)
      by (rewrite <- app_assoc; reflexivity).
    assert (E2 : S (List.length done) = List.length (done ++ [x]))
      by (rewrite length_app; simpl; lia).
    assert (Hndc : NoDup (a ++ y :: b ++ rest)).
    { eapply Permutation_NoDup; [symmetry; exact Hperm | exact Hnd]. }
    assert (Hxdone : ~ In x done).
    { intros Hin. apply NoDup_remove_2 in Hnd. apply Hnd.
      apply in_or_app. now left. }
    assert (Hxa : ~ In x a)
      by (intros H; apply Hxdone; rewrite <- Hdone; apply in_or_app; now left).
    assert (Hxb : ~ In x b)
      by (intros H; apply Hxdone; rewrite <- Hdone; apply in_or_app; now right).
    assert (Hxin : In x (a ++ y :: b ++ rest)).
    { eapply Permutation_in; [symmetry; exact Hperm|].
      apply in_or_app. right. now left. }
    assert (Hlen : List.length a + S (List.length b + List.length rest)
                   = List.length done + S (List.length todo)).
    { apply Permutation_length in Hperm.
      rewrite !length_app in Hperm. simpl in Hperm.
      rewrite !length_app in Hperm. exact Hperm. }
    assert (Hdone_len : List.length done = List.length a + List.length b)
      by (rewrite <- Hdone; apply length_app).
    rewrite E1 in Hnd, Hperm |- *. rewrite E2.
    destruct (Node_eqb y x) eqn:Eyx.
    + (* the node moved is the one that sat among the nodes done *)
      apply Node_eqb_eq in Eyx. subst y.
      assert (Hxrest : ~ In x (b ++ rest)).
      { apply NoDup_remove_2 in Hndc. intros H. apply Hndc.
        apply in_or_app. now right. }
      rewrite setZIndex_present by assumption.
      rewrite (app_assoc a b rest), Hdone.
      destruct rest as [|z rest].
      * assert (Htodo : todo = [])
          by (destruct todo; [reflexivity | simpl in Hlen; lia]).
        rewrite app_nil_r.
        rewrite splice_in_beyond by (rewrite length_app; simpl; lia).
        apply IH; try assumption.
        -- subst todo. now rewrite app_nil_r.
        -- intros Hne. contradiction.
        -- reflexivity.
      * assert (E3 : splice_in (List.length (done ++ [x])) x (done ++ z :: rest)
                     = done ++ z :: [x] ++ rest).
        { replace (done ++ z :: rest) with ((done ++ [z]) ++ rest)
            by (rewrite <- app_assoc; reflexivity).
          replace (List.length (done ++ [x])) with (List.length (done ++ [z]))
            by (rewrite !length_app; reflexivity).
          rewrite splice_in_at, <- app_assoc. reflexivity. }
        rewrite E3. apply IH; try assumption.
        -- rewrite <- Hperm.
           replace (done ++ z :: [x] ++ rest) with ((done ++ [z]) ++ x :: rest)
             by (rewrite <- app_assoc; reflexivity).
           apply Permutation_moved.
           rewrite <- Hdone, <- !app_assoc. reflexivity.
        -- intros _. exists done, [x], z, rest. split; reflexivity.
        -- intros ->. exfalso. simpl in Hlen. lia.
    + (* the node moved comes from the rest *)
      apply Node_eqb_neq in Eyx.
      assert (Hxr : In x rest).
      { apply in_app_or in Hxin as [H|[H|H]]; [contradiction|contradiction|].
        apply in_app_or in H as [H|H]; [contradiction|assumption]. }
      apply in_split in Hxr as (r1 & r2 & ->).
      assert (E4 : a ++ y :: b ++ r1 ++ x :: r2
                   = (a ++ y :: b ++ r1) ++ x :: r2).
      { rewrite <- app_assoc. simpl. rewrite <- app_assoc. reflexivity. }
      rewrite E4 in Hndc, Hperm |- *.
      pose proof (NoDup_remove_2 _ _ _ Hndc) as Hxout.
      rewrite setZIndex_present
        by (intros H; apply Hxout; apply in_or_app; auto).
      assert (E5 : (a ++ y :: b ++ r1) ++ r2 = (a ++ y :: b) ++ r1 ++ r2).
      { rewrite <- !app_assoc. simpl. rewrite <- app_assoc. reflexivity. }
      rewrite E5.
      assert (E6 : splice_in (List.length (done ++ [x])) x
                     ((a ++ y :: b) ++ r1 ++ r2)
                   = (a ++ y :: b) ++ x :: r1 ++ r2).
      { replace (List.length (done ++ [x])) with (List.length (a ++ y :: b))
          by (rewrite !length_app; simpl; lia).
        apply splice_in_at. }
      rewrite E6. apply IH; try assumption.
      * rewrite <- Hperm. apply Permutation_moved. symmetry. exact E5.
      * intros _. exists a, (b ++ [x]), y, (r1 ++ r2). split.
        -- rewrite <- !app_assoc. reflexivity.
        -- rewrite app_assoc, Hdone. reflexivity.
      * intros ->. exfalso. rewrite length_app in Hlen. simpl in Hlen. lia.
Qed.

Lemma apply_zIndex_sorted l children :
  NoDup l -> Permutation children l -> apply_zIndex l 0 children = l.
Proof.
  intros Hnd Hperm. apply (apply_zIndex_sorts l [] children); auto.
  - intros Hne. destruct children as [|y rest].
    + apply Permutation_nil in Hperm. simpl in Hperm. congruence.
    + exists [], [], y, rest. split; reflexivity.
  - intros ->. now apply Permutation_nil, Permutation_sym.
Qed.

Lemma apply_zIndex_app l1 : forall l2 z children,
  apply_zIndex (l1 ++ l2) z children
  = apply_zIndex l2 (z + List.length l1) (apply_zIndex l1 z children).
Proof.
  induction l1 as [|n l1 IH]; intros l2 z children; simpl.
  - now rewrite Nat.add_0_r.
  - rewrite IH. f_equal. lia.
Qed.

Lemma zIndex_calls_app l1 : forall l2 z,
  zIndex_calls (l1 ++ l2) z
  = zIndex_calls l1 z ++ zIndex_calls l2 (z + List.length l1).
Proof.
  induction l1 as [|n l1 IH]; intros l2 z; simpl.
  - now rewrite Nat.add_0_r.
  - rewrite IH. do 3 f_equal. lia.
Qed.

Lemma with_stage_id m : with_stage (fun children => children) m = m.
Proof. destruct m; reflexivity. Qed.

Lemma arrange_collection_eq c entities : forall z m,
  let nodes :=
    map konva_layer (adapters_in_order (adapters_of c m) entities) in
  arrange_collection c entities z m =
    Returned (z + List.length nodes)
      (with_stage (apply_zIndex nodes z) m)
      (zIndex_calls nodes z).
Proof.
  induction entities as [|e rest IH]; intros z m; simpl.
  - unfold ret. simpl. rewrite Nat.add_0_r.
    change (apply_zIndex [] z) with (fun children : list Node => children).
    now rewrite with_stage_id.
  - cbv zeta in IH. unfold zIndex. unfold_monad.
    destruct (JSMap.get (es_id e) (adapters_of c m)) as [a|] eqn:Hget.
    + rewrite IH, adapters_of_with_stage. simpl. f_equal. lia.
    + rewrite IH. reflexivity.
Qed.

Lemma arrangeEntities_eq s m :
  arrangeEntities s m =
    Returned tt
      (with_stage (fun _ => apply_zIndex (scene_order s m) 0 (stage m)) m)
      (zIndex_calls (scene_order s m) 0).
Proof.
  pose proof (arrange_collection_eq Layers) as HL.
  pose proof (arrange_collection_eq ControlAdapters) as HC.
  pose proof (arrange_collection_eq Regions) as HR.
  cbv zeta in HL, HC, HR.
  unfold scene_order. rewrite !apply_zIndex_app, !zIndex_calls_app.
  unfold arrangeEntities, zIndex. unfold_monad.
  rewrite HL, adapters_of_with_stage.
  rewrite HC, !adapters_of_with_stage.
  rewrite HR, !adapters_of_with_stage.
  simpl.
  repeat f_equal; lia.
Qed.

Lemma getZIndex_nth l : forall i n,
  NoDup l -> nth_error l i = Some n -> getZIndex n l = Some i.
Proof.
  induction l as [|x l IH]; intros i n Hnd Hnth.
  - destruct i; discriminate.
  - inversion Hnd as [|? ? Hnotin Hnd']; subst. destruct i as [|i]; simpl in *.
    + injection Hnth as ->. now rewrite Node_eqb_refl.
    + destruct (Node_eqb x n) eqn:E.
      * apply Node_eqb_eq in E. subst x. exfalso. apply Hnotin.
        eapply nth_error_In. exact Hnth.
      * now rewrite (IH i n Hnd' Hnth).
Qed.

(** *** The stage of a reachable manager *)

Lemma render_scene_consistent s m :
  (forall c, keyed (adapters_of c m)) -> scene_consistent m ->
  returns (render s) m (fun _ m' _ => scene_consistent m').
Proof.
  intros Hk Hs. destruct (takes_fast_path s m) eqn:Hfast.
  - eapply returns_intro; [apply (render_fast _ _ Hfast)|]. exact Hs.
  - destruct (render_full _ _ Hfast) as (m' & tr & Hrun & _ & _ & Hok).
    eapply returns_intro; [exact Hrun|].
    apply (ok_scene _ _ _ _ _ (Hok Hk)), Hs.
Qed.

Lemma render_all_scene_consistent ss : forall m,
  (forall c, keyed (adapters_of c m)) -> scene_consistent m ->
  returns (render_all ss) m (fun _ m' _ => scene_consistent m').
Proof.
  induction ss as [|s ss IH]; intros m Hk Hs; simpl.
  - apply returns_ret. assumption.
  - apply returns_bind. eapply returns_weaken.
    + apply returns_and; [apply render_keyed, Hk|].
      apply render_scene_consistent; assumption.
    + intros u m1 t1 [Hk1 Hs1]. eapply returns_weaken; [apply IH; auto|].
      auto.
Qed.

Lemma keyed_values_ids mp :
  keyed mp -> map ad_id (JSMap.values mp) = JSMap.keys mp.
Proof.
  intros [_ Hall]. unfold JSMap.values, JSMap.keys. rewrite map_map.
  apply map_ext_in. intros kv Hin. rewrite Forall_forall in Hall.
  symmetry. exact (Hall kv Hin).
Qed.

Lemma adapters_in_order_ids mp E :
  keyed mp -> (forall i, In i (ids E) -> In i (JSMap.keys mp)) ->
  map ad_id (adapters_in_order mp E) = ids E.
Proof.
  intros Hk. induction E as [|e E IH]; intros Hin; simpl; [reflexivity|].
  destruct (JSMap_keys_get mp (es_id e)) as [a Ha]; [apply Hin; now left|].
  rewrite Ha. simpl. rewrite (keyed_get _ _ _ Hk Ha). f_equal.
  apply IH. intros i Hi. apply Hin. now right.
Qed.

Lemma In_adapters_in_order mp E a :
  In a (adapters_in_order mp E) <->
  exists e, In e E /\ JSMap.get (es_id e) mp = Some a.
Proof.
  induction E as [|e E IH]; simpl.
  - split; [intros [] | intros (e & [] & _)].
  - destruct (JSMap.get (es_id e) mp) as [a0|] eqn:Hget; simpl; rewrite IH.
    + split.
      * intros [<-|(e' & He' & Ha)]; [exists e; auto | exists e'; auto].
      * intros (e' & [<-|He'] & Ha); [left; congruence | right; eauto].
    + split.
      * intros (e' & He' & Ha). exists e'. auto.
      * intros (e' & [<-|He'] & Ha); [congruence | eauto].
Qed.

Lemma adapters_in_order_perm mp E :
  keyed mp -> NoDup (ids E) ->
  (forall i, In i (JSMap.keys mp) <-> In i (ids E)) ->
  Permutation (adapters_in_order mp E) (JSMap.values mp).
Proof.
  intros Hk Hnd Hsync. apply NoDup_Permutation.
  - apply (NoDup_map_inv ad_id).
    rewrite adapters_in_order_ids; [assumption|assumption|apply Hsync].
  - apply (NoDup_map_inv ad_id). rewrite keyed_values_ids by assumption.
    apply Hk.
  - intros a. rewrite In_adapters_in_order. split.
    + intros (e & _ & Ha). apply JSMap_get_In in Ha.
      unfold JSMap.values. now apply (in_map snd) in Ha.
    + intros Ha. unfold JSMap.values in Ha. apply in_map_iff in Ha.
      destruct Ha as [[k a'] [Ha' Hin]]. simpl in Ha'. subst a'.
      assert (Hkin : In k (ids E)).
      { apply Hsync. unfold JSMap.keys. now apply (in_map fst) in Hin. }
      unfold ids in Hkin. apply in_map_iff in Hkin as (e & <- & He).
      exists e. split; [assumption|]. apply JSMap_In_get; [apply Hk|assumption].
Qed.

Lemma scene_order_consistent s m :
  (forall c, keyed (adapters_of c m)) ->
  (forall c, synced_ids s c m) ->
  unique_ids s ->
  scene_consistent m ->
  NoDup (scene_order s m) /\ Permutation (stage m) (scene_order s m).
Proof.
  intros Hk Hsync Huniq (Hu & _ & Hperm).
  assert (Hc : forall c,
    Permutation
      (map konva_layer (adapters_in_order (adapters_of c m)
                          (snapshot_entities c s)))
      (map NAdapter (coll_uids c m))).
  { intros c. unfold coll_uids. rewrite map_map.
    apply (Permutation_map konva_layer).
    apply adapters_in_order_perm; [apply Hk | apply Huniq | apply Hsync]. }
  assert (Hscene : Permutation (scene_order s m)
            ([NPreview; NBackground; NInitialImage] ++ map NAdapter (uids m))).
  { unfold scene_order, uids.
    rewrite (Hc Layers), (Hc ControlAdapters), (Hc Regions).
    simpl. rewrite !map_app.
    set (X := map NAdapter (coll_uids Layers m)
              ++ map NAdapter (coll_uids ControlAdapters m)
              ++ map NAdapter (coll_uids Regions m)).
    replace (map NAdapter (coll_uids Layers m)
             ++ map NAdapter (coll_uids ControlAdapters m)
             ++ map NAdapter (coll_uids Regions m)
             ++ [konva_layer (inpaintMask m); NPreview])
      with (X ++ [konva_layer (inpaintMask m); NPreview])
      by (unfold X; rewrite <- !app_assoc; reflexivity).
    transitivity (NBackground :: NInitialImage
                    :: [konva_layer (inpaintMask m); NPreview] ++ X).
    - do 2 apply perm_skip. apply Permutation_app_comm.
    - symmetry.
      apply (Permutation_middle
               [NBackground; NInitialImage; konva_layer (inpaintMask m)]
               X NPreview). }
  split.
  - eapply Permutation_NoDup; [symmetry; exact Hscene|].
    now apply scene_nodes_NoDup.
  - rewrite Hperm. now symmetry.
Qed.

(** After the render pass of a snapshot with distinct ids, the stage holds
    exactly the layers of the z-order, each once. *)
Lemma reachable_scene_order s0 before s :
  (forall x y, In x (before ++ [s]) -> In y (before ++ [s]) -> coherent x y) ->
  unique_ids s ->
  let m := state_after (render_all (before ++ [s]) (constructor s0)) in
  NoDup (scene_order s m) /\ Permutation (stage m) (scene_order s m).
Proof.
  intros Hcoh Huniq m.
  assert (Hfirst : _isFirstRender (constructor s0) = false ->
    (forall y, In y (before ++ [s]) -> coherent (_prevState (constructor s0)) y) /\
    forall c, synced_ids (_prevState (constructor s0)) c (constructor s0))
    by discriminate.
  pose proof (returns_and _ _ _ _
    (render_all_converges before (constructor s0) s
       (constructor_keyed s0) Hcoh Hfirst)
    (render_all_scene_consistent (before ++ [s]) (constructor s0)
       (constructor_keyed s0) (scene_consistent_constructor s0))) as H.
  apply returns_elim in H as (u & m' & tr & Hrun & [Hk Hs] & Hscene).
  subst m. rewrite Hrun. simpl.
  now apply scene_order_consistent.
Qed.

(** When the stage holds exactly the layers of the z-order, each once,
    [arrangeEntities] leaves its children in that order. *)
Lemma arrangeEntities_sorts s m :
  NoDup (scene_order s m) ->
  Permutation (stage m) (scene_order s m) ->
  z_ordered s m (stage (state_after (arrangeEntities s m))).
Proof.
  intros Hnd Hperm. rewrite arrangeEntities_eq.
  cbn [state_after]. unfold with_stage. cbn [stage].
  unfold z_ordered. rewrite (apply_zIndex_sorted _ _ Hnd Hperm).
  split; [reflexivity|]. split.
  - intros i n Hnth. now apply getZIndex_nth.
  - intros i j x y Hlt Hx Hy. exists i, j.
    repeat split; auto using getZIndex_nth.
Qed.

(** ** The properties at the sample snapshots *)

Lemma sample_snapshots_coherent :
  forall x y,
    In x ([Sample.two_layers; Sample.swapped] ++ [Sample.edited]) ->
    In y ([Sample.two_layers; Sample.swapped] ++ [Sample.edited]) ->
    coherent x y.
Proof.
  intros x y Hx Hy. simpl in Hx, Hy.
  destruct Hx as [<-|[<-|[<-|[]]]]; destruct Hy as [<-|[<-|[<-|[]]]];
    (split;
     [ intros E; try reflexivity; discriminate E
     | intros c E; destruct c; try reflexivity; discriminate E ]).
Defined.

Lemma render_unchanged_snapshot_is_noop_witness :
  let s := Sample.two_layers in
  let m := Sample.rendered s in
  same_ref (_prevState m) s = true /\
  _isFirstRender m = false /\
  render s m =
    Returned tt m [Log "trace" "No changes detected, skipping render"].
Proof.
  intros s m. split; [reflexivity|]. split; [reflexivity|].
  exact (proj1 (proj1 (render_unchanged_snapshot_is_noop s m)
                  eq_refl eq_refl)).
Defined.


Lemma sample_swapped_unique_ids : unique_ids Sample.swapped.
Proof.
  intros c. destruct c; simpl.
  - constructor; [intros [H|[]]; discriminate H|].
    constructor; [intros []|constructor].
  - constructor; [intros []|constructor].
  - constructor; [intros []|constructor].
Defined.

Lemma getEntity_mismatch_is_null_witness :
  let s := Sample.mismatched in
  let m := Sample.rendered s in
  let st := Sample.entity "L1" regional_guidance in
  let ad := AsLayer (mkAdapter "L1" layer 1 st) in
  resolves s m (mkIdentifier "L1" layer) st ad /\
  es_type st <> ad_type (the_adapter ad) /\
  State.selectedEntityIdentifier (val s) = Some (mkIdentifier "L1" layer) /\
  getEntity s m (mkIdentifier "L1" layer) = None /\
  getSelectedEntity s m = None /\
  getCurrentFill s m = Sample.fill.
Proof.
  intros s m st ad.
  assert (Hres : resolves s m (mkIdentifier "L1" layer) st ad)
    by (constructor; reflexivity).
  assert (Hne : es_type st <> ad_type (the_adapter ad))
    by (simpl; discriminate).
  destruct (proj1 (getEntity_mismatch_is_null s m (mkIdentifier "L1" layer))
              st ad Hres Hne) as [Hnone Hsel].
  split; [exact Hres|]. split; [exact Hne|]. split; [reflexivity|].
  split; [exact Hnone|]. exact (Hsel eq_refl).
Defined.

(** C5 as the spec states it does not hold: at the corrupt snapshot the
    selection resolves to a state tagged as a region guide and a layer
    adapter, and the render pass returns, having published a null
    selection. *)
Lemma type_mismatch_raises_no_assertion :
  let s := Sample.mismatched in
  let o := render s (constructor Sample.initial) in
  let m := state_after o in
  exists identifier st ad,
    State.selectedEntityIdentifier (val s) = Some identifier /\
    resolves s m identifier st ad /\
    es_type st <> ad_type (the_adapter ad) /\
    returned o = true /\
    In (PublishSelectedEntity None) (trace_of o) /\
    getSelectedEntity s m = None.
Proof.
  intros s o m.
  exists (mkIdentifier "L1" layer), (Sample.entity "L1" regional_guidance),
    (AsLayer (mkAdapter "L1" layer 1 (Sample.entity "L1" regional_guidance))).
  split; [reflexivity|].
  split; [constructor; reflexivity|].
  split; [simpl; discriminate|].
  split; [reflexivity|].
  split; [|reflexivity].
  vm_compute. tauto.
Qed.

Lemma transform_state_machine_witness :
  let s := Sample.control_selected in
  let m := Sample.rendered s in
  transformingEntity m = None /\
  (forall st ad, selection_is s m st ad -> is_transformable ad = false) /\
  startTransform s m = Threw "No selected layer" m [].
Proof.
  intros s m.
  assert (Hidle : transformingEntity m = None) by reflexivity.
  assert (Hsel : forall st ad,
            selection_is s m st ad -> is_transformable ad = false).
  { intros st ad (i & Hi & Hres & _). injection Hi as <-.
    inversion Hres. reflexivity. }
  split; [exact Hidle|]. split; [exact Hsel|].
  exact (proj1 (proj2 (transform_state_machine s m)) Hidle Hsel).
Defined.

Lemma getCurrentFill_rule_witness :
  let s := Sample.region_selected in
  let m := Sample.rendered s in
  tool_fill (State.tool (val s)) = Sample.fill /\
  selected_mask_like s m Sample.R1 /\
  getCurrentFill s m = RGBA_WHITE.
Proof.
  intros s m.
  assert (Hsel : selected_mask_like s m Sample.R1).
  { exists (mkIdentifier "R1" regional_guidance),
      (AsRegion (mkAdapter "R1" regional_guidance 3 Sample.R1)).
    split; [reflexivity|]. split; [constructor; reflexivity|].
    split; [reflexivity|]. now left. }
  split; [reflexivity|]. split; [exact Hsel|].
  exact (proj1 (getCurrentFill_rule s m) Sample.R1 Hsel).
Defined.

Lemma getBrushPreviewFill_rule_witness :
  let s := Sample.region_selected in
  let m := Sample.rendered s in
  selected_mask_like s m Sample.R1 /\
  getBrushPreviewFill s m
    = mkRgba (Qmake 10 1) (Qmake 20 1) (Qmake 30 1) (Qmake 3 10).
Proof.
  intros s m.
  assert (Hsel : selected_mask_like s m Sample.R1).
  { exists (mkIdentifier "R1" regional_guidance),
      (AsRegion (mkAdapter "R1" regional_guidance 3 Sample.R1)).
    split; [reflexivity|]. split; [constructor; reflexivity|].
    split; [reflexivity|]. now left. }
  split; [exact Hsel|].
  exact (proj1 (getBrushPreviewFill_rule s m) Sample.R1 Hsel).
Defined.

(** C9 as the spec states it does not hold: with the region guide selected,
    the brush preview fill is the region's own colour with the mask opacity
    as alpha, not white with that alpha. *)
Lemma brush_preview_fill_is_not_white :
  let s := Sample.region_selected in
  let m := Sample.rendered s in
  selected_mask_like s m Sample.R1 /\
  getCurrentFill s m = RGBA_WHITE /\
  getBrushPreviewFill s m
    <> with_alpha (State.maskOpacity (State.settings (val s)))
         (getCurrentFill s m).
Proof.
  intros s m. split; [|split].
  - exists (mkIdentifier "R1" regional_guidance),
      (AsRegion (mkAdapter "R1" regional_guidance 3 Sample.R1)).
    split; [reflexivity|]. split; [constructor; reflexivity|].
    split; [reflexivity|]. now left.
  - reflexivity.
  - vm_compute. discriminate.
Qed.

Lemma task_correlation_witness :
  let m := constructor Sample.initial in
  let data := mkBboxData 7 0 in
  let ops := [OpRequest data 2 "task-b"; OpMessage (MsgExtents "task-z" None)] in
  let m2 := state_after (for_each ops run_op
                           (state_after (requestBbox data 1 "task-a" m))) in
  Forall (other_task "task-a") ops /\
  worker_onmessage (MsgExtents "task-a" None) m2
    = Returned tt (with_tasks (JSMap.delete "task-a") m2) [OnComplete 1 None].
Proof.
  intros m data ops m2.
  assert (Hops : Forall (other_task "task-a") ops)
    by (repeat constructor; simpl; discriminate).
  split; [exact Hops|].
  exact (proj1 (proj2 (proj2
    (proj1 (proj2 (task_correlation m data 1 "task-a" None)) ops Hops)))).
Defined.

Lemma transform_end_always_clears_witness :
  let m0 := Sample.rendered Sample.two_layers in
  let m1 := state_after (startTransform Sample.two_layers m0) in
  let m2 := state_after (render Sample.edited m1) in
  let t := mkIdentifier "L1" layer in
  transformingEntity m2 = Some t /\
  target_unresolved m2 t /\
  applyTransform m2
    = Returned tt (with_transformingEntity None m2)
        [NotifyTransformingEntity None].
Proof.
  intros m0 m1 m2 t.
  assert (Ht : transformingEntity m2 = Some t) by reflexivity.
  assert (Hun : target_unresolved m2 t)
    by (right; right; split; reflexivity).
  split; [exact Ht|]. split; [exact Hun|].
  exact (proj1 (proj2 (proj2 (transform_end_always_clears m2)) t Ht Hun)).
Defined.

(** * Further properties of the manager *)

(** ** Footprints *)

Section FootprintRules.

Context (R : Footprint) `{HR : Composable R}.

Lemma within_ret {A : Type} (a : A) : within R (ret a).
Proof. intros m. apply returns_ret, fp_refl. Qed.

Lemma within_call e : (forall m, R m m [e]) -> within R (call e).
Proof. intros H m. apply returns_call, H. Qed.

Lemma within_modify f : (forall m, R m (f m) []) -> within R (modify f).
Proof. intros H m. apply returns_modify, H. Qed.

Lemma within_bind {A B : Type} (c : M A) (f : A -> M B) :
  within R c -> (forall a, within R (f a)) -> within R (bind c f).
Proof.
  intros H1 H2 m. apply returns_bind.
  eapply returns_weaken; [apply H1|]. intros a m1 t1 Hr1.
  eapply returns_weaken; [apply H2|]. intros b m2 t2 Hr2.
  exact (fp_trans _ _ _ _ _ Hr1 Hr2).
Qed.

Lemma within_this {A : Type} (f : CanvasManager -> M A) :
  (forall m, within R (f m)) -> within R (bind this f).
Proof. intros H m. apply returns_bind, returns_this. apply H. Qed.

Lemma within_when (b : bool) c : within R c -> within R (when b c).
Proof. intros H. destruct b; [exact H | apply within_ret]. Qed.

Lemma within_when_off (b : bool) c : b = false -> within R (when b c).
Proof. intros ->. apply within_ret. Qed.

Lemma within_for_each {A : Type} (l : list A) (body : A -> M unit) :
  (forall x, within R (body x)) -> within R (for_each l body).
Proof.
  intros H. induction l as [|x l IH]; simpl.
  - apply within_ret.
  - apply within_bind; [apply H | intros _; exact IH].
Qed.

Lemma within_arrange_collection :
  (forall n i, within R (zIndex n i)) ->
  forall c entities z, within R (arrange_collection c entities z).
Proof.
  intros Hz c entities. induction entities as [|e rest IH]; intros z; simpl.
  - apply within_ret.
  - apply within_this. intros m. apply within_bind; [|intros z'; apply IH].
    destruct (JSMap.get (es_id e) (adapters_of c m)) as [a|].
    + apply within_bind; [apply Hz | intros _; apply within_ret].
    + apply within_ret.
Qed.

End FootprintRules.

Create HintDb manager_methods.

#[local] Hint Unfold
  render renderLayers renderRegions renderControlAdapters arrangeEntities
  destroy_nonexistent destroy_if_nonexistent get_or_create new_adapter
  update_layer render_entity adapter_update adapter_render adapter_destroy
  stage_add zIndex inpaintMask_update : manager_methods.

(** The blocks of a render pass, down to the creation of an adapter. *)
Create HintDb render_blocks.

#[local] Hint Unfold
  render renderLayers renderRegions renderControlAdapters arrangeEntities
  destroy_nonexistent destroy_if_nonexistent
  update_layer render_entity adapter_update adapter_render adapter_destroy
  zIndex inpaintMask_update : render_blocks.

(** One step of a footprint proof, along the structure of the method;
    [unfolder] opens the definitions of the methods. *)
Ltac within_step_by unfolder :=
  lazymatch goal with
  | |- Composable _ => exact _
  | |- within _ (ret _) => apply within_ret
  | |- within _ (call _) => apply within_call
  | |- within _ (modify _) => apply within_modify
  | |- within _ (bind this _) => apply within_this; [try exact _ .. | intro]
  | |- within _ (bind _ _) => apply within_bind; [try exact _ .. | intro]
  | |- within _ (when _ _) => apply within_when
  | |- within _ (for_each _ _) =>
      apply within_for_each; [try exact _ .. | intro]
  | |- within _ (arrange_collection _ _ _) =>
      apply within_arrange_collection; [try exact _ .. | intros ? ?]
  | |- within _ (match ?x with _ => _ end) => destruct x
  | |- within _ _ => progress unfolder
  end.

Ltac within_step :=
  within_step_by ltac:(autounfold with manager_methods; cbv zeta).

(** *** What a render pass leaves alone *)

#[local] Instance render_frame_composable : Composable render_frame.
Proof.
  split.
  - intros m. repeat split; auto.
  - intros m m1 m2 t1 t2 (H1 & H2 & H3) (H1' & H2' & H3').
    repeat split; try congruence. apply Forall_app. auto.
Qed.

Lemma render_within_frame s : within render_frame (render s).
Proof.
  repeat within_step;
    intros ?; unfold render_frame; repeat split; try reflexivity;
    repeat constructor.
Qed.

(** X1: a render pass neither reads nor writes the task table or the
    transform target, and calls neither the worker, a completion callback
    nor a transformer: a transform in progress stays in progress, whatever
    the pass creates or destroys. *)
Theorem render_leaves_tasks_and_transform (s : CanvasV2State)
    (m : CanvasManager) :
  let o := render s m in
  returned o = true /\
  _tasks (state_after o) = _tasks m /\
  transformingEntity (state_after o) = transformingEntity m /\
  getIsTransforming (state_after o) = getIsTransforming m /\
  Forall (fun e => is_render_call e = true) (trace_of o).
Proof.
  intros o. pose proof (render_within_frame s m) as H.
  apply returns_elim in H as (u & m' & tr & Hrun & Ht & Hx & Hcalls).
  subst o. rewrite Hrun. simpl. unfold getIsTransforming. rewrite Hx. auto.
Qed.

(** *** Selective rendering *)

#[local] Instance no_call_of_composable k : Composable (no_call_of k).
Proof.
  split.
  - reflexivity.
  - intros m m1 m2 t1 t2 H1 H2. unfold no_call_of in *.
    now rewrite existsb_app, H1, H2.
Qed.

Ltac within_step_unless H :=
  first [ apply within_when_off; [try exact _ .. | exact H] | within_step ].

Lemma render_selective s m k :
  triggered s m k = false ->
  returns (render s) m (fun _ _ tr => existsb (is_kind k) tr = false).
Proof.
  intros H. unfold render. apply returns_bind, returns_this. cbv zeta.
  match goal with
  | |- returns ?c m _ => apply ((fun H => H) : within (no_call_of k) c -> _)
  end.
  destruct k as [[]| | | |];
    repeat within_step_unless H; intros ?; reflexivity.
Qed.

(** X2: in a render pass, a collaborator whose guard is false is not called:
    no adapter of a class is created, updated, rendered or destroyed, the
    initial image, the bounding box and the staging area are not rendered
    and no layer is moved in the z-order unless the comparison with the
    previous snapshot that guards its block says so; the fast path calls
    none of them. *)
Theorem render_skips_unchanged (s : CanvasV2State) (m : CanvasManager)
    (k : CallKind) :
  takes_fast_path s m = true \/ triggered s m k = false ->
  existsb (is_kind k) (trace_of (render s m)) = false.
Proof.
  intros [Hfast|Hoff].
  - now rewrite (render_fast _ _ Hfast).
  - pose proof (render_selective s m k Hoff) as H.
    apply returns_elim in H as (u & m' & tr & -> & H). exact H.
Qed.

(** *** The fixed collaborators *)

#[local] Instance collection_footprint_composable :
  Composable collection_footprint.
Proof.
  split.
  - intros m. split; reflexivity.
  - intros m m1 m2 t1 t2 [H1 H2] [H1' H2']. split; [|congruence].
    now rewrite filter_app, H1, H1'.
Qed.

#[local] Instance arrange_footprint_composable : Composable arrange_footprint.
Proof.
  split.
  - intros m. split; [reflexivity|]. repeat split.
  - intros m m1 m2 t1 t2 [H1 (Ha & Hb & Hc & Hd)] [H1' (Ha' & Hb' & Hc' & Hd')].
    split; [now rewrite filter_app, H1, H1'|].
    repeat split; congruence.
Qed.

Lemma returns_seq_within (R : Footprint) (c k : M unit) m
    (Q : unit -> CanvasManager -> list Event -> Prop) :
  within R c ->
  (forall m1 t1, R m m1 t1 ->
     returns k m1 (fun u m2 t2 => Q u m2 (t1 ++ t2))) ->
  returns (c ;; k) m Q.
Proof.
  intros Hc Hk. apply returns_bind.
  eapply returns_weaken; [apply Hc|]. intros [] m1 t1 Hr. now apply Hk.
Qed.

Lemma returns_seq_eq (c k : M unit) m m1 t1
    (Q : unit -> CanvasManager -> list Event -> Prop) :
  c m = Returned tt m1 t1 ->
  returns k m1 (fun u m2 t2 => Q u m2 (t1 ++ t2)) ->
  returns (c ;; k) m Q.
Proof.
  intros Hc Hk. apply returns_bind. unfold returns at 1. now rewrite Hc.
Qed.

Lemma when_log_call (b : bool) level message e m :
  when b (call (Log level message) ;; call e) m =
    Returned tt m (if b then [Log level message; e] else []).
Proof. destruct b; reflexivity. Qed.

Lemma when_log_inpaintMask_update (b : bool) level message e t sel m :
  when b (call (Log level message) ;; inpaintMask_update e t sel) m =
    Returned tt (if b then with_inpaintMask (with_state e) m else m)
      (if b
       then [Log level message;
             Update CanvasInpaintMask (ad_uid (inpaintMask m)) e t sel]
       else []).
Proof. destruct b; reflexivity. Qed.

Lemma getSelectedEntity_same_adapters s m m' :
  same_adapters m m' -> getSelectedEntity s m' = getSelectedEntity s m.
Proof.
  intros (Hl & Hc & Hr & Hi). unfold getSelectedEntity, getEntity.
  now rewrite Hl, Hc, Hr, Hi.
Qed.

Lemma getCurrentFill_same_adapters s m m' :
  same_adapters m m' -> getCurrentFill s m' = getCurrentFill s m.
Proof.
  intros H. unfold getCurrentFill.
  now rewrite (getSelectedEntity_same_adapters _ _ _ H).
Qed.

Ltac collection_block :=
  eapply (returns_seq_within collection_footprint);
  [ repeat within_step; intros ?; split; reflexivity
  | intros ? ? [? ?] ].

Lemma render_fixed_calls s m :
  takes_fast_path s m = false ->
  returns (render s) m (fun _ m' tr =>
    filter is_fixed_call tr = fixed_calls s m m').
Proof.
  intros Hfast. unfold render. apply returns_bind, returns_this. cbv zeta.
  unfold takes_fast_path in Hfast. rewrite Hfast.
  collection_block.
  eapply returns_seq_eq; [apply when_log_call|].
  collection_block.
  eapply returns_seq_eq; [apply when_log_inpaintMask_update|].
  collection_block.
  eapply returns_seq_eq; [reflexivity|].
  eapply returns_seq_eq; [reflexivity|].
  eapply returns_seq_eq; [reflexivity|].
  eapply returns_seq_eq; [reflexivity|].
  eapply returns_seq_eq; [apply when_log_call|].
  eapply returns_seq_eq;
    [match goal with |- when ?b _ _ = _ => destruct b; reflexivity end|].
  eapply returns_seq_eq; [apply when_log_call|].
  eapply returns_weaken.
  { match goal with
    | |- returns ?c ?m1 _ =>
        apply ((fun H => H m1) : within arrange_footprint c -> _)
    end.
    repeat within_step; intros ?; split; try reflexivity; repeat split. }
  cbv beta. intros [] m' tr [Htr Hsame].
  rewrite <- (getSelectedEntity_same_adapters s _ _ Hsame).
  rewrite <- (getCurrentFill_same_adapters s _ _ Hsame).
  assert (Hmask : inpaintMask m0 = inpaintMask m) by congruence.
  rewrite Hmask, !filter_app.
  repeat match goal with
         | Hq : filter is_fixed_call _ = [] |- _ => rewrite Hq; clear Hq
         end.
  unfold fixed_calls, triggered, entities_changed, inpaintMask_changed,
    maskOpacity_changed, tool_changed, selection_changed,
    initialImage_changed, bbox_rect_changed, bbox_changed, session_changed,
    isActive_changed.
  cbv zeta.
  repeat match goal with
         | |- context [if ?b then _ else _] => destruct b
         end;
    reflexivity.
Qed.

(** X3: the calls of a full render pass to the fixed collaborators are, in
    this order: the initial image's render, the inpaint mask's update, the
    tool state, the selected identifier, the selected entity and the current
    fill on their value channels, the bounding box's render and the staging
    area's render.  The four values are published once in every full pass;
    each of the other calls is made once if its guard holds and not at all
    otherwise.  The selected entity and the current fill published are those
    of the reconciled collections: the ones the manager gives after the
    pass. *)
Theorem render_calls_fixed_collaborators_in_order (s : CanvasV2State)
    (m : CanvasManager) :
  takes_fast_path s m = false ->
  let o := render s m in
  returned o = true /\
  filter is_fixed_call (trace_of o) = fixed_calls s m (state_after o).
Proof.
  intros Hfast o. pose proof (render_fixed_calls s m Hfast) as H.
  apply returns_elim in H as (u & m' & tr & Hrun & H).
  subst o. rewrite Hrun. auto.
Qed.

(** ** The stage across render passes *)

(** Render passes run one after the other, each to its end: the stage holds
    the preview layer, the background, the initial image and exactly one
    layer per adapter the manager holds, and no two adapters are the same
    object. *)
Lemma render_all_one_layer_per_adapter (s0 : CanvasV2State)
    (snapshots : list CanvasV2State) :
  let o := render_all snapshots (constructor s0) in
  let m := state_after o in
  returned o = true /\
  NoDup (uids m) /\
  NoDup (stage m) /\
  (forall n, In n (stage m) <->
             In n [NPreview; NBackground; NInitialImage] \/
             exists u, n = NAdapter u /\ In u (uids m)).
Proof.
  intros o m.
  pose proof (render_all_scene_consistent snapshots (constructor s0)
                (constructor_keyed s0) (scene_consistent_constructor s0)) as H.
  apply returns_elim in H as (u & m' & tr & Hrun & Hsc).
  subst m o. rewrite Hrun. simpl.
  split; [reflexivity|]. split; [apply Hsc|].
  split; [now apply scene_consistent_stage_NoDup|].
  destruct Hsc as (_ & _ & Hperm). intros n. split.
  - intros Hin. apply (Permutation_in _ Hperm) in Hin.
    apply in_app_or in Hin as [Hin|Hin]; [now left|right].
    apply in_map_iff in Hin as (x & <- & Hx). eauto.
  - intros Hin. apply (Permutation_in _ (Permutation_sym Hperm)).
    apply in_or_app. destruct Hin as [Hin|(x & -> & Hx)]; [now left|right].
    now apply in_map.
Qed.

(** *** Steps that move nothing *)

Lemma same_objects_refl m : same_objects m m.
Proof. repeat split. Qed.

Lemma same_objects_trans m m1 m2 :
  same_objects m m1 -> same_objects m1 m2 -> same_objects m m2.
Proof.
  intros (H1 & H2 & H3) (H1' & H2' & H3').
  split; [congruence|]. split; [congruence|].
  intros c i. now rewrite H3'.
Qed.

Lemma adapters_in_order_same mp mp' E :
  (forall i, option_map ad_uid (JSMap.get i mp')
             = option_map ad_uid (JSMap.get i mp)) ->
  map konva_layer (adapters_in_order mp' E)
  = map konva_layer (adapters_in_order mp E).
Proof.
  intros H. induction E as [|e E IH]; simpl; [reflexivity|].
  specialize (H (es_id e)).
  destruct (JSMap.get (es_id e) mp') as [a'|], (JSMap.get (es_id e) mp) as [a|];
    simpl in *; try discriminate; [|assumption].
  injection H as H. unfold konva_layer at 1 3. now rewrite H, IH.
Qed.

Lemma scene_order_same_objects s m m' :
  same_objects m m' -> scene_order s m' = scene_order s m.
Proof.
  intros (_ & Hmask & Hget). unfold scene_order.
  rewrite (adapters_in_order_same _ _ _ (Hget Layers)).
  rewrite (adapters_in_order_same _ _ _ (Hget ControlAdapters)).
  rewrite (adapters_in_order_same _ _ _ (Hget Regions)).
  unfold konva_layer. now rewrite Hmask.
Qed.

Lemma scene_order_same_entities s s' m :
  (forall c, snapshot_entities c s' = snapshot_entities c s) ->
  scene_order s' m = scene_order s m.
Proof. intros H. unfold scene_order. now rewrite !H. Qed.

Lemma stable_ret s : stable_step s (ret tt).
Proof. intros m Hk Hs. apply returns_ret. auto using same_objects_refl. Qed.

Lemma stable_call s e : stable_step s (call e).
Proof. intros m Hk Hs. apply returns_call. auto using same_objects_refl. Qed.

Lemma stable_seq s (c1 c2 : M unit) :
  stable_step s c1 -> stable_step s c2 -> stable_step s (c1 ;; c2).
Proof.
  intros H1 H2 m Hk Hs. apply returns_bind.
  eapply returns_weaken; [apply (H1 m Hk Hs)|].
  intros [] m1 t1 (Hk1 & Hs1 & Ho1).
  eapply returns_weaken; [apply (H2 m1 Hk1 Hs1)|].
  intros [] m2 t2 (Hk2 & Hs2 & Ho2).
  split; [assumption|]. split; [assumption|].
  eapply same_objects_trans; eauto.
Qed.

Lemma stable_this s (f : CanvasManager -> M unit) :
  (forall m, stable_step s (f m)) -> stable_step s (bind this f).
Proof.
  intros H m Hk Hs. apply returns_bind, returns_this. now apply H.
Qed.

Lemma stable_when s (b : bool) c : stable_step s c -> stable_step s (when b c).
Proof. intros H. destruct b; [exact H | apply stable_ret]. Qed.

Lemma stable_when_off s (b : bool) c : b = false -> stable_step s (when b c).
Proof. intros ->. apply stable_ret. Qed.

Lemma stable_set_prevState s s' : stable_step s (modify (with_prevState s')).
Proof.
  intros m Hk Hs. apply returns_modify.
  split; [intros c; now rewrite adapters_of_with_prevState|].
  split; [intros c i; rewrite adapters_of_with_prevState; apply Hs|].
  repeat split.
Qed.

Lemma stable_set_isFirstRender s b :
  stable_step s (modify (with_isFirstRender b)).
Proof.
  intros m Hk Hs. apply returns_modify.
  split; [intros c; now rewrite adapters_of_with_isFirstRender|].
  split; [intros c i; rewrite adapters_of_with_isFirstRender; apply Hs|].
  repeat split.
Qed.

Lemma stable_inpaintMask_update s e t b :
  stable_step s (inpaintMask_update e t b).
Proof.
  intros m Hk Hs. unfold inpaintMask_update.
  apply returns_bind, returns_this, returns_bind, returns_call, returns_modify.
  split; [intros c; destruct c; [apply (Hk Layers) | apply (Hk ControlAdapters) | apply (Hk Regions)]|].
  split; [intros c i; destruct c; [apply (Hs Layers) | apply (Hs ControlAdapters) | apply (Hs Regions)]|].
  repeat split.
Qed.

Lemma destroy_nonexistent_noop c E entries m :
  (forall x, In x entries -> id_in_snapshot E x = true) ->
  destroy_nonexistent c E entries m = Returned tt m [].
Proof.
  unfold destroy_nonexistent.
  induction entries as [|x entries IH]; intros H; simpl; [reflexivity|].
  unfold bind. rewrite destroy_if_nonexistent_eq.
  rewrite (H x (or_introl eq_refl)), andb_false_r.
  rewrite IH; [reflexivity|]. intros y Hy. apply H. now right.
Qed.

Lemma stage_with_adapters c f m : stage (with_adapters c f m) = stage m.
Proof. destruct c; reflexivity. Qed.

Lemma inpaintMask_with_adapters c f m :
  inpaintMask (with_adapters c f m) = inpaintMask m.
Proof. destruct c; reflexivity. Qed.

Lemma same_objects_update c uid e m :
  same_objects m
    (with_adapters c (JSMap.map_values (set_adapter_state uid e)) m).
Proof.
  split; [apply stage_with_adapters|].
  split; [now rewrite inpaintMask_with_adapters|].
  intros c' i. destruct (Collection_eq_dec c' c) as [->|Hne].
  - rewrite adapters_of_with_adapters, JSMap_get_map_values.
    destruct (JSMap.get i (adapters_of c m)) as [a|]; simpl; [|reflexivity].
    now rewrite set_adapter_state_uid.
  - now rewrite adapters_of_with_adapters_other.
Qed.

Lemma entity_loop_stable c (body : CanvasEntityState -> M unit) E :
  (forall e, exists upd, updates_state c e upd /\
                         body e = (a <- get_or_create c e ;; upd a)) ->
  forall m,
    keyed (adapters_of c m) ->
    (forall e, In e E -> In (es_id e) (JSMap.keys (adapters_of c m))) ->
    returns (for_each E body) m (fun _ m' _ =>
      keyed (adapters_of c m') /\
      JSMap.keys (adapters_of c m') = JSMap.keys (adapters_of c m) /\
      (forall c', c' <> c -> adapters_of c' m' = adapters_of c' m) /\
      same_objects m m').
Proof.
  intros Hbody. induction E as [|e E IH]; intros m Hk Hin; simpl.
  - apply returns_ret. auto using same_objects_refl.
  - destruct (Hbody e) as (upd & Hupd & ->).
    destruct (JSMap_keys_get _ _ (Hin e (or_introl eq_refl))) as [a Hget].
    apply returns_bind. unfold returns at 1, bind.
    rewrite (get_or_create_found _ _ _ _ Hget).
    destruct (Hupd a m) as (ev & _ & ->).
    set (m1 := with_adapters c
                 (JSMap.map_values (set_adapter_state (ad_uid a) e)) m).
    assert (Hkeys : JSMap.keys (adapters_of c m1) = JSMap.keys (adapters_of c m)).
    { unfold m1. now rewrite adapters_of_with_adapters, JSMap_keys_map_values. }
    eapply returns_weaken.
    + apply (IH m1).
      * unfold m1. rewrite adapters_of_with_adapters. now apply keyed_map_state.
      * intros e' He'. rewrite Hkeys. apply Hin. now right.
    + intros [] m2 t2 (Hk2 & Hkeys2 & Hother2 & Hobj2).
      split; [assumption|]. split; [congruence|]. split.
      * intros c' Hne. rewrite (Hother2 c' Hne). unfold m1.
        now apply adapters_of_with_adapters_other.
      * eapply same_objects_trans; [|exact Hobj2]. apply same_objects_update.
Qed.

Lemma stable_reconcile s c (body : CanvasEntityState -> M unit) :
  (forall e, exists upd, updates_state c e upd /\
                         body e = (a <- get_or_create c e ;; upd a)) ->
  stable_step s
    (m <- this ;;
     destroy_nonexistent c (snapshot_entities c s) (adapters_of c m) ;;
     for_each (snapshot_entities c s) body).
Proof.
  intros Hbody m Hk Hs. apply returns_bind, returns_this, returns_bind.
  unfold returns at 1. rewrite destroy_nonexistent_noop.
  - eapply returns_weaken.
    + apply (entity_loop_stable c body _ Hbody m (Hk c)).
      intros e He. apply Hs. now apply in_map.
    + intros [] m' tr (Hk' & Hkeys & Hother & Hobj).
      split; [|split; [|assumption]].
      * intros c'. destruct (Collection_eq_dec c' c) as [->|Hne];
          [assumption | rewrite (Hother c' Hne); apply Hk].
      * intros c' i. destruct (Collection_eq_dec c' c) as [->|Hne].
        -- rewrite Hkeys. apply Hs.
        -- rewrite (Hother c' Hne). apply Hs.
  - intros [k a] Hin. unfold id_in_snapshot. simpl. apply in_ids_existsb.
    rewrite (keyed_In _ _ _ (Hk c) Hin). apply Hs.
    unfold JSMap.keys. now apply (in_map fst) in Hin.
Qed.

Lemma stable_renderLayers s : stable_step s (renderLayers s).
Proof.
  apply (stable_reconcile s Layers (update_layer s)).
  intros e. eexists. split; [|reflexivity].
  apply updates_state_adapter_update.
Qed.

Lemma stable_renderRegions s : stable_step s (renderRegions s).
Proof.
  apply (stable_reconcile s Regions (render_entity Regions)).
  intros e. eexists. split; [|reflexivity].
  apply updates_state_adapter_render.
Qed.

Lemma stable_renderControlAdapters s : stable_step s (renderControlAdapters s).
Proof.
  apply (stable_reconcile s ControlAdapters (render_entity ControlAdapters)).
  intros e. eexists. split; [|reflexivity].
  apply updates_state_adapter_render.
Qed.

Ltac stable_step_unless H :=
  lazymatch goal with
  | |- stable_step _ (when _ _) =>
      first [ apply stable_when_off; exact H | apply stable_when ]
  | |- stable_step _ (renderLayers _) => apply stable_renderLayers
  | |- stable_step _ (renderRegions _) => apply stable_renderRegions
  | |- stable_step _ (renderControlAdapters _) =>
      apply stable_renderControlAdapters
  | |- stable_step _ (inpaintMask_update _ _ _) =>
      apply stable_inpaintMask_update
  | |- stable_step _ (modify (with_prevState _)) => apply stable_set_prevState
  | |- stable_step _ (modify (with_isFirstRender _)) =>
      apply stable_set_isFirstRender
  | |- stable_step _ (call _) => apply stable_call
  | |- stable_step _ (ret tt) => apply stable_ret
  | |- stable_step _ (bind this _) => apply stable_this; intro
  | |- stable_step _ (bind _ _) => apply stable_seq
  end.

(** A full pass that does not arrange the layers moves nothing. *)
Lemma render_stable s m :
  takes_fast_path s m = false ->
  triggered s m KZIndex = false ->
  (forall c, keyed (adapters_of c m)) ->
  (forall c, synced_ids s c m) ->
  returns (render s) m (fun _ m' _ => same_objects m m').
Proof.
  intros Hfast Hoff Hk Hs. unfold render. apply returns_bind, returns_this.
  cbv zeta. unfold takes_fast_path in Hfast. rewrite Hfast.
  eapply returns_weaken.
  - match goal with
    | |- returns ?c m _ =>
        apply ((fun H => H m Hk Hs) : stable_step s c -> _)
    end.
    repeat stable_step_unless Hoff.
  - intros [] m' tr (_ & _ & H). exact H.
Qed.

(** *** The pass that arranges the layers *)

Lemma after_steps_cons s (b b1 : Flag -> bool) m0 (c T : M unit) Q :
  step_spec s b1 c ->
  after_steps s (fun f => b f || b1 f) m0 T Q ->
  after_steps s b m0 (c ;; T) Q.
Proof.
  intros Hc HT m tr0 Hfl Hok. apply returns_bind.
  eapply returns_weaken; [apply Hc|]. intros [] m1 t1 [Hfl1 Hok1].
  eapply returns_weaken; [apply (HT m1 (tr0 ++ t1))|].
  - eapply step_flags_trans; eauto.
  - intros Hk. apply (step_ok_trans _ _ _ _ _ _ _ _ (Hok Hk)).
    apply Hok1. apply (ok_keyed _ _ _ _ _ (Hok Hk)).
  - auto.
Qed.

Lemma step_flags_refl s m : step_flags s no_flag m m.
Proof. now apply step_flags_unchanged. Qed.

Lemma render_arranges s m :
  takes_fast_path s m = false ->
  triggered s m KZIndex = true ->
  (forall c, keyed (adapters_of c m)) ->
  scene_consistent m ->
  unique_ids s ->
  (forall c, render_flags s m (FSync c) = true \/ synced_ids s c m) ->
  returns (render s) m (fun _ m' _ => stage m' = scene_order s m').
Proof.
  intros Hfast Htrig Hk Hsc Hu Hsync. unfold render.
  apply returns_bind, returns_this. cbv zeta.
  unfold takes_fast_path in Hfast. rewrite Hfast.
  match goal with
  | |- returns ?c m _ =>
      cut (after_steps s no_flag m c (fun m' => stage m' = scene_order s m'))
  end.
  { intros H. apply (H m []); [apply step_flags_refl|].
    intros _. now apply step_ok_refl. }
  do 12 (eapply after_steps_cons; [repeat spec_step|]).
  intros m1 tr0 Hfl Hok. specialize (Hok Hk).
  assert (Hsynced : forall c, synced_ids s c m1).
  { intros c. destruct (Hsync c) as [Hc|Hc].
    - apply (ok_triggered _ _ _ _ _ Hok). cbv beta.
      unfold render_flags, entities_changed, entities_ref in Hc.
      destruct c;
        cbv beta iota delta
          [no_flag sync_flag prev_flag first_flag Collection_eqb];
        repeat progress
          rewrite ?andb_false_r, ?andb_true_r, ?orb_false_r, ?orb_false_l,
            ?orb_true_r, ?orb_true_l;
        try reflexivity; try (rewrite Hc; reflexivity); try exact Hc.
    - apply (ok_synced _ _ _ _ _ Hok), Hc. }
  pose proof (ok_keyed _ _ _ _ _ Hok) as Hk1.
  pose proof (ok_scene _ _ _ _ _ Hok Hsc) as Hsc1.
  destruct (scene_order_consistent s m1 Hk1 Hsynced Hu Hsc1) as [Hnd Hperm].
  clear Hfl Hok.
  match goal with
  | |- context [when ?b (call (Log "debug" "Arranging entities") ;; _)] =>
      change b with (triggered s m KZIndex)
  end.
  rewrite Htrig. unfold returns. unfold_monad. rewrite arrangeEntities_eq.
  destruct (_isFirstRender m);
    cbn [with_isFirstRender with_prevState with_stage stage];
    rewrite (apply_zIndex_sorted _ _ Hnd Hperm); reflexivity.
Qed.

(** *** The z-order after every pass *)

Lemma unchanged_entities s m c :
  coherent (_prevState m) s -> entities_changed c s m = false ->
  snapshot_entities c s = snapshot_entities c (_prevState m).
Proof.
  intros [_ Hsub] Hsame. unfold entities_changed in Hsame.
  apply negb_false_iff, same_ref_true in Hsame. symmetry in Hsame.
  rewrite !snapshot_entities_val. symmetry. now apply Hsub.
Qed.

Lemma synced_ids_same_entities s s' c m :
  snapshot_entities c s' = snapshot_entities c s ->
  synced_ids s c m -> synced_ids s' c m.
Proof. intros H Hs i. rewrite H. apply Hs. Qed.

Lemma render_ordered s m :
  settled m ->
  (_isFirstRender m = false -> coherent (_prevState m) s) ->
  unique_ids s ->
  returns (render s) m (fun _ m' _ => stage m' = scene_order s m').
Proof.
  intros (Hk & Hsc & Hinv) Hcoh Hu.
  destruct (takes_fast_path s m) eqn:Hfast.
  - eapply returns_intro; [apply (render_fast _ _ Hfast)|].
    unfold takes_fast_path in Hfast. apply andb_true_iff in Hfast as [Href Hnf].
    apply negb_true_iff in Hnf. apply same_ref_true in Href.
    assert (Heq : _prevState m = s)
      by (apply Ref_eq; [assumption | now apply (Hcoh Hnf)]).
    destruct (Hinv Hnf) as [_ Hord]. rewrite Heq in Hord. now apply Hord.
  - assert (Hsync : forall c,
      _isFirstRender m || entities_changed c s m = false -> synced_ids s c m).
    { intros c Hc. apply orb_false_iff in Hc as [Hnf Hsame].
      destruct (Hinv Hnf) as [Hs _].
      apply (synced_ids_same_entities (_prevState m)); [|apply Hs].
      now apply unchanged_entities; [apply Hcoh|]. }
    destruct (triggered s m KZIndex) eqn:Htrig.
    + apply render_arranges; try assumption.
      intros c. unfold render_flags.
      destruct (_isFirstRender m || entities_changed c s m) eqn:Hc;
        [now left | right; now apply Hsync].
    + assert (Hoff := Htrig). unfold triggered in Hoff. cbv zeta in Hoff.
      repeat (apply orb_false_iff in Hoff as [Hoff ?]).
      assert (Hsame : forall c,
        snapshot_entities c s = snapshot_entities c (_prevState m)).
      { intros c. apply unchanged_entities; [now apply Hcoh|].
        destruct c; assumption. }
      assert (Hs : forall c, synced_ids s c m).
      { intros c. apply Hsync. rewrite Hoff. destruct c; assumption. }
      eapply returns_weaken; [apply (render_stable s m Hfast Htrig Hk Hs)|].
      intros [] m' tr Hobj.
      rewrite (scene_order_same_objects _ _ _ Hobj).
      destruct Hobj as (-> & _). destruct (Hinv Hoff) as [_ Hord].
      rewrite (scene_order_same_entities _ _ _ Hsame). apply Hord.
      intros c. rewrite <- Hsame. apply Hu.
Qed.

Lemma render_settled s m :
  settled m ->
  (_isFirstRender m = false -> coherent (_prevState m) s) ->
  returns (render s) m (fun _ m' _ =>
    settled m' /\ _prevState m' = s /\ _isFirstRender m' = false).
Proof.
  intros Hsettled Hcoh. pose proof Hsettled as (Hk & Hsc & Hinv).
  eapply returns_weaken.
  - apply returns_and; [apply returns_and|].
    + apply (render_converges s m Hk).
      intros Hnf. split; [now apply Hcoh | now apply Hinv].
    + apply (render_scene_consistent s m Hk Hsc).
    + apply (returns_cond _ _ (unique_ids s)); [apply render_returned|].
      now apply render_ordered.
  - cbv beta. intros [] m' tr [[(Hk' & Hf' & Hp' & Hs') Hsc'] Hord].
    split; [|auto]. split; [assumption|]. split; [assumption|].
    intros _. rewrite Hp'. auto.
Qed.

Lemma settled_constructor s0 : settled (constructor s0).
Proof.
  split; [apply constructor_keyed|].
  split; [apply scene_consistent_constructor | discriminate].
Qed.

Lemma render_all_settled ss : forall m s,
  settled m ->
  (forall x y, In x (ss ++ [s]) -> In y (ss ++ [s]) -> coherent x y) ->
  (_isFirstRender m = false ->
   forall y, In y (ss ++ [s]) -> coherent (_prevState m) y) ->
  returns (render_all (ss ++ [s])) m (fun _ m' _ =>
    settled m' /\ _prevState m' = s /\ _isFirstRender m' = false).
Proof.
  induction ss as [|x ss IH]; intros m s Hm Hcoh Hprev; simpl.
  - apply returns_bind. eapply returns_weaken.
    + apply (render_settled s m Hm). intros Hnf. apply (Hprev Hnf). now left.
    + intros [] m1 t1 H. apply returns_ret. exact H.
  - apply returns_bind. eapply returns_weaken.
    + apply (render_settled x m Hm). intros Hnf. apply (Hprev Hnf). now left.
    + intros [] m1 t1 (Hm1 & Hp1 & Hf1).
      eapply returns_weaken.
      * apply (IH m1 s Hm1).
        -- intros a b Ha Hb. apply Hcoh; now right.
        -- intros _ y Hy. rewrite Hp1. apply Hcoh; [now left | now right].
      * auto.
Qed.

(** Render passes run one after the other, each to its end: after the pass
    of a snapshot with distinct ids the children of the stage are in the
    z-order of that snapshot, whether or not the pass rearranged them. *)
Lemma render_all_snapshot_order (s0 : CanvasV2State)
    (before : list CanvasV2State) (s : CanvasV2State) :
  (forall x y, In x (before ++ [s]) -> In y (before ++ [s]) -> coherent x y) ->
  unique_ids s ->
  let o := render_all (before ++ [s]) (constructor s0) in
  let m := state_after o in
  returned o = true /\
  stage m = scene_order s m /\
  z_ordered s m (stage m).
Proof.
  intros Hcoh Hu o m.
  pose proof (render_all_settled before (constructor s0) s
                (settled_constructor s0) Hcoh) as H.
  assert (Hfirst : _isFirstRender (constructor s0) = false ->
    forall y, In y (before ++ [s]) -> coherent (_prevState (constructor s0)) y)
    by discriminate.
  specialize (H Hfirst).
  apply returns_elim in H as (u & m' & tr & Hrun & (Hk & Hsc & Hinv) & Hp & Hf).
  subst m o. rewrite Hrun. simpl. split; [reflexivity|].
  destruct (Hinv Hf) as [Hs Hord]. rewrite Hp in Hs, Hord.
  specialize (Hord Hu).
  destruct (scene_order_consistent s m' Hk Hs Hu Hsc) as [Hnd _].
  split; [assumption|]. unfold z_ordered. rewrite Hord.
  split; [reflexivity|]. split.
  - intros i n Hnth. now apply getZIndex_nth.
  - intros i j x y Hlt Hx Hy. exists i, j.
    repeat split; auto using getZIndex_nth.
Qed.

(** ** Transforms and tasks: how the operations compose *)

Lemma find_entity_id i E st : find_entity i E = Some st -> es_id st = i.
Proof.
  unfold find_entity. intros H. apply find_some in H as [_ H].
  now apply String.eqb_eq.
Qed.

Lemma find_entity_In i E st : find_entity i E = Some st -> In st E.
Proof. unfold find_entity. intros H. now apply find_some in H. Qed.

Lemma with_transformingEntity_idle m v :
  transformingEntity m = None ->
  with_transformingEntity None (with_transformingEntity v m) = m.
Proof. destruct m. simpl. now intros ->. Qed.

Lemma getTransformingLayer_started s m st ad :
  selection_is s m st ad -> is_transformable ad = true -> adapter_tagged ad ->
  getTransformingLayer
    (with_transformingEntity
       (Some (mkIdentifier (es_id st) (es_type st))) m) = Some ad.
Proof.
  intros (i & _ & Hres & Ht) Htr Htag. unfold getTransformingLayer. simpl.
  destruct Hres as [i st a Hst Ha|i st a Hst Ha|i st a Hst Ha|i];
    simpl in *; try discriminate; rewrite Ht, Htag; simpl.
  - now rewrite (find_entity_id _ _ _ Hst), Ha.
  - reflexivity.
Qed.

(** X6: beginning a transform and ending it is a round trip.  From the idle
    state, with a selection that resolves to a drawable-layer or inpaint-mask
    adapter, [startTransform] records a target that [getTransformingLayer]
    resolves to that very adapter, so [applyTransform] (or
    [cancelTransform]) right after it applies (or stops) the transformer that
    was started, and the manager is back in the state it was in. *)
Theorem transform_round_trip (s : CanvasV2State) (m : CanvasManager)
    (st : CanvasEntityState) (ad : AnyAdapter) :
  transformingEntity m = None ->
  selection_is s m st ad ->
  is_transformable ad = true ->
  adapter_tagged ad ->
  let target := Some (mkIdentifier (es_id st) (es_type st)) in
  let uid := ad_uid (the_adapter ad) in
  getTransformingLayer (state_after (startTransform s m)) = Some ad /\
  (startTransform s ;; applyTransform) m =
    Returned tt m
      [TransformerStart uid; NotifyTransformingEntity target;
       TransformerApply uid; NotifyTransformingEntity None] /\
  (startTransform s ;; cancelTransform) m =
    Returned tt m
      [TransformerStart uid; NotifyTransformingEntity target;
       TransformerStop uid; NotifyTransformingEntity None].
Proof.
  intros Hidle Hsel Htr Htag target uid. subst target uid.
  pose proof (getTransformingLayer_started s m st ad Hsel Htr Htag) as Hget.
  set (target := Some (mkIdentifier (es_id st) (es_type st))) in *.
  assert (Hstart : startTransform s m =
            Returned tt (with_transformingEntity target m)
              [TransformerStart (ad_uid (the_adapter ad));
               NotifyTransformingEntity target]).
  { unfold startTransform, getIsTransforming, transformingEntity_publish.
    unfold_monad.
    rewrite !Hidle, (getSelectedEntity_selection _ _ _ _ Hsel). simpl.
    rewrite Htr. simpl. rewrite ?Hidle. reflexivity. }
  split; [now rewrite Hstart|].
  unfold bind at 1 2. rewrite Hstart.
  unfold applyTransform, cancelTransform, transformingEntity_publish.
  unfold_monad. rewrite !Hget. simpl.
  now rewrite (with_transformingEntity_idle m target Hidle).
Qed.

(** *** Requests and completions *)

Lemma JSMap_length_set {V : Type} (mp : JSMap.t V) k v :
  List.length (JSMap.set k v mp) <= S (List.length mp).
Proof.
  induction mp as [|[k' v'] mp IH]; simpl; [lia|].
  destruct (String.eqb k' k); simpl; lia.
Qed.

Lemma JSMap_length_delete {V : Type} (mp : JSMap.t V) k v :
  JSMap.get k mp = Some v ->
  S (List.length (JSMap.delete k mp)) <= List.length mp.
Proof.
  unfold JSMap.delete.
  induction mp as [|[k' v'] mp IH]; simpl; [discriminate|].
  destruct (String.eqb k' k) eqn:E; simpl.
  - intros _. pose proof (filter_length_le
      (fun kv : string * V => negb (String.eqb (fst kv) k)) mp). lia.
  - intros H. specialize (IH H). lia.
Qed.

Lemma posts_app t1 t2 : posts (t1 ++ t2) = posts t1 + posts t2.
Proof. unfold posts. now rewrite filter_app, length_app. Qed.

Lemma completions_app t1 t2 :
  completions (t1 ++ t2) = completions t1 + completions t2.
Proof. unfold completions. now rewrite filter_app, length_app. Qed.

Lemma run_op_balance op m :
  exists m' tr,
    run_op op m = Returned tt m' tr /\
    List.length (_tasks m') + completions tr
      <= List.length (_tasks m) + posts tr /\
    (forall cb ext, In (OnComplete cb ext) tr ->
       exists i p, JSMap.get i (_tasks m) = Some p /\ onComplete p = cb) /\
    (forall i p, JSMap.get i (_tasks m') = Some p ->
       JSMap.get i (_tasks m) = Some p \/
       exists data, op = OpRequest data (onComplete p) i).
Proof.
  destruct op as [data cb j|[j ext|lvl msg ctx]]; simpl.
  - eexists _, _. split; [reflexivity|]. simpl. split; [|split].
    + pose proof (JSMap_length_set (_tasks m) j
                    (mkPending (mkTask j data) cb)). unfold posts, completions.
      simpl. lia.
    + intros cb' ext [H|[]]. discriminate.
    + intros i p. destruct (String.eqb_spec j i) as [->|Hne].
      * rewrite JSMap_get_set_eq. intros [= <-]. right. now exists data.
      * rewrite JSMap_get_set_neq by assumption. auto.
  - unfold worker_onmessage. unfold_monad.
    destruct (JSMap.get j (_tasks m)) as [p|] eqn:Hget.
    + eexists _, _. split; [reflexivity|]. simpl. split; [|split].
      * pose proof (JSMap_length_delete _ _ _ Hget). unfold posts, completions.
        simpl. lia.
      * intros cb ext' [H|[]]. injection H as <- _. eauto.
      * intros i p'. destruct (String.eqb_spec j i) as [->|Hne].
        -- now rewrite JSMap_get_delete_eq.
        -- rewrite JSMap_get_delete_neq by assumption. auto.
    + eexists _, _. split; [reflexivity|]. simpl. split; [|split].
      * unfold posts, completions. simpl. lia.
      * intros cb ext' [].
      * auto.
  - eexists _, _. split; [reflexivity|]. simpl. split; [|split].
    + unfold posts, completions. simpl. lia.
    + intros cb ext [H|[]]. discriminate.
    + auto.
Qed.

Lemma run_ops_balance ops : forall m,
  exists m' tr,
    for_each ops run_op m = Returned tt m' tr /\
    List.length (_tasks m') + completions tr
      <= List.length (_tasks m) + posts tr /\
    (forall cb ext, In (OnComplete cb ext) tr ->
       (exists i p, JSMap.get i (_tasks m) = Some p /\ onComplete p = cb) \/
       (exists data i, In (OpRequest data cb i) ops)).
Proof.
  induction ops as [|op ops IH]; intros m; simpl.
  - exists m, []. split; [reflexivity|].
    split; [unfold posts, completions; simpl; lia | intros cb ext []].
  - destruct (run_op_balance op m) as (m1 & t1 & Hrun1 & Hle1 & Hcb1 & Hnew1).
    destruct (IH m1) as (m2 & t2 & Hrun2 & Hle2 & Hcb2).
    exists m2, (t1 ++ t2). unfold bind. rewrite Hrun1, Hrun2.
    split; [reflexivity|]. rewrite posts_app, completions_app.
    split; [lia|]. intros cb ext Hin. apply in_app_or in Hin as [Hin|Hin].
    + left. eauto.
    + destruct (Hcb2 cb ext Hin) as [(i & p & Hget & Hp)|(data & i & Hreq)].
      * destruct (Hnew1 i p Hget) as [Hold|(data & ->)].
        -- left. eauto.
        -- right. exists data, i. left. now rewrite Hp.
      * right. exists data, i. now right.
Qed.

(** X7: over any sequence of requests and worker messages, the background
    task channel never throws, and it calls a completion callback only for
    a request that was made and not yet answered: the callbacks called and
    the tasks still pending never outnumber the tasks pending at the start
    and the requests posted, and every callback called was registered by a
    pending task or by a request of the sequence. *)
Theorem completions_answer_requests (m : CanvasManager)
    (ops : list ChannelOp) :
  let o := for_each ops run_op m in
  returned o = true /\
  List.length (_tasks (state_after o)) + completions (trace_of o)
    <= List.length (_tasks m) + posts (trace_of o) /\
  (_tasks m = JSMap.empty -> completions (trace_of o) <= posts (trace_of o)) /\
  (forall cb ext, In (OnComplete cb ext) (trace_of o) ->
     (exists i p, JSMap.get i (_tasks m) = Some p /\ onComplete p = cb) \/
     (exists data i, In (OpRequest data cb i) ops)).
Proof.
  intros o. destruct (run_ops_balance ops m) as (m' & tr & Hrun & Hle & Hcb).
  subst o. rewrite Hrun. simpl. split; [reflexivity|]. split; [exact Hle|].
  split; [|exact Hcb]. intros Hempty. rewrite Hempty in Hle. simpl in Hle. lia.
Qed.

(** ** Rearranging twice *)

Lemma apply_zIndex_perm l : forall z children,
  NoDup children -> Permutation (apply_zIndex l z children) children.
Proof.
  induction l as [|n l IH]; intros z children Hnd; simpl; [reflexivity|].
  pose proof (setZIndex_perm n (S z) children Hnd) as Hp.
  rewrite IH; [assumption|].
  eapply Permutation_NoDup; [symmetry; exact Hp | assumption].
Qed.

(** X8: [arrangeEntities] only reorders the children of the stage: it adds
    none, removes none and duplicates none, and it touches no adapter.
    When the stage holds exactly the layers of the z-order, arranging a
    second time changes nothing: the same [zIndex] calls leave every layer
    where the first pass put it. *)
Theorem arrangeEntities_only_reorders (s : CanvasV2State)
    (m : CanvasManager) :
  NoDup (stage m) ->
  let m' := state_after (arrangeEntities s m) in
  Permutation (stage m') (stage m) /\
  NoDup (stage m') /\
  same_adapters m m' /\
  (NoDup (scene_order s m) -> Permutation (stage m) (scene_order s m) ->
   arrangeEntities s m' = Returned tt m' (zIndex_calls (scene_order s m) 0)).
Proof.
  intros Hnd m'. subst m'. rewrite arrangeEntities_eq.
  cbn [state_after]. unfold with_stage at 1 2 3. cbn [stage].
  pose proof (apply_zIndex_perm (scene_order s m) 0 (stage m) Hnd) as Hp.
  split; [exact Hp|].
  split; [eapply Permutation_NoDup; [symmetry; exact Hp | exact Hnd]|].
  split; [repeat split|].
  intros Hso Hperm. rewrite arrangeEntities_eq.
  rewrite (apply_zIndex_sorted _ _ Hso Hperm).
  change (scene_order s (with_stage (fun _ => scene_order s m) m))
    with (scene_order s m).
  cbn [with_stage stage].
  rewrite (apply_zIndex_sorted _ _ Hso (Permutation_refl _)).
  reflexivity.
Qed.

(** ** The selection after a render pass *)

#[local] Instance keeps_tags_composable : Composable keeps_tags.
Proof. split; unfold keeps_tags; auto. Qed.

Lemma tagged_with_adapters c f m :
  tagged m ->
  (forall k a, In (k, a) (f (adapters_of c m)) ->
               ad_type a = class_type (adapter_class c)) ->
  tagged (with_adapters c f m).
Proof.
  intros [Hc Hm] Hf. split.
  - intros c' k a Hin. destruct (Collection_eq_dec c' c) as [->|Hne].
    + rewrite adapters_of_with_adapters in Hin. eauto.
    + rewrite adapters_of_with_adapters_other in Hin by assumption. eauto.
  - now rewrite inpaintMask_with_adapters.
Qed.

Lemma get_or_create_keeps_tags c e : within keeps_tags (get_or_create c e).
Proof.
  intros m. unfold returns.
  destruct (JSMap.get (es_id e) (adapters_of c m)) as [a|] eqn:Hget.
  - rewrite (get_or_create_found _ _ _ _ Hget). exact (fun H => H).
  - rewrite (get_or_create_missing _ _ _ Hget). cbv zeta. intros Ht.
    assert (Ht' : tagged (with_adapters c
              (JSMap.set (es_id e)
                 (mkAdapter (es_id e) (class_type (adapter_class c))
                    (next_uid m) e))
              (with_next_uid (S (next_uid m)) m))).
    { apply tagged_with_adapters.
      - destruct Ht as [Hc Hm]. split; [|exact Hm].
        intros c' k a. rewrite adapters_of_with_next_uid. apply Hc.
      - intros k a Hin. rewrite adapters_of_with_next_uid in Hin.
        apply JSMap_In_set in Hin as [[= -> ->]|Hin]; [reflexivity|].
        destruct Ht as [Hc _]. eauto. }
    destruct Ht' as [Hc Hm]. split; [|exact Hm].
    intros c' k a. rewrite adapters_of_with_stage. apply Hc.
Qed.

Lemma keeps_tags_stage f m : tagged m -> tagged (with_stage f m).
Proof.
  intros [Hc Hm]. split; [|exact Hm].
  intros c k a. rewrite adapters_of_with_stage. apply Hc.
Qed.

Lemma keeps_tags_update c uid e m :
  tagged m ->
  tagged (with_adapters c (JSMap.map_values (set_adapter_state uid e)) m).
Proof.
  intros Ht. apply tagged_with_adapters; [assumption|].
  intros k a Hin. apply JSMap_In_map_values in Hin as [a0 [Hin ->]].
  destruct Ht as [Hc _]. unfold set_adapter_state.
  destruct (Nat.eqb (ad_uid a0) uid); simpl; eauto.
Qed.

Lemma keeps_tags_delete c k m :
  tagged m -> tagged (with_adapters c (JSMap.delete k) m).
Proof.
  intros Ht. apply tagged_with_adapters; [assumption|].
  intros k' a Hin. apply JSMap_In_delete in Hin as [Hin _].
  destruct Ht as [Hc _]. apply (Hc c k' a Hin).
Qed.

Ltac keeps_tags_step :=
  first
    [ apply get_or_create_keeps_tags
    | within_step_by ltac:(autounfold with render_blocks; cbv zeta) ].

Lemma render_keeps_tags s : within keeps_tags (render s).
Proof.
  repeat keeps_tags_step; intros ?; unfold keeps_tags;
    first
      [ exact (fun H => H)
      | apply keeps_tags_stage
      | apply keeps_tags_delete
      | apply keeps_tags_update
      | intros [Hc Hm]; split;
        [ intros c k a; destruct c;
          [apply (Hc Layers) | apply (Hc ControlAdapters) | apply (Hc Regions)]
        | exact Hm ] ].
Qed.

Lemma tagged_constructor s0 : tagged (constructor s0).
Proof. split; [intros c k a; destruct c; intros [] | reflexivity]. Qed.

Lemma render_all_tagged ss : forall m,
  tagged m -> returns (render_all ss) m (fun _ m' _ => tagged m').
Proof.
  induction ss as [|s ss IH]; intros m Ht; simpl.
  - apply returns_ret. assumption.
  - apply returns_bind. eapply returns_weaken; [apply render_keeps_tags|].
    intros [] m1 t1 H1. eapply returns_weaken; [apply IH, H1, Ht|]. auto.
Qed.

Lemma getEntity_collection s m c identifier :
  type identifier = class_type (adapter_class c) ->
  getEntity s m identifier =
    match find_entity (id identifier) (snapshot_entities c s),
          JSMap.get (id identifier) (adapters_of c m) with
    | Some st, Some a =>
        if EntityType_eqb (es_type st) (ad_type a)
        then Some (mkPair st (wrap_adapter c a))
        else None
    | _, _ => None
    end.
Proof.
  destruct identifier as [i t]. simpl. intros ->.
  destruct c;
    cbv beta iota zeta delta
      [getEntity type id snapshot_entities adapters_of wrap_adapter
       class_type adapter_class];
    match goal with
    | |- context [find_entity i ?E] => destruct (find_entity i E)
    end;
    try match goal with
        | |- context [JSMap.get i ?mp] => destruct (JSMap.get i mp)
        end; reflexivity.
Qed.

Lemma getEntity_inpaint_mask s m identifier :
  type identifier = inpaint_mask ->
  getEntity s m identifier =
    if EntityType_eqb (es_type (val (State.inpaintMask (val s))))
                      (ad_type (inpaintMask m))
    then Some (mkPair (val (State.inpaintMask (val s)))
                      (AsInpaintMask (inpaintMask m)))
    else None.
Proof.
  destruct identifier as [i t]. simpl. intros ->. reflexivity.
Qed.

(** Render passes run one after the other, each to its end: after the pass
    of a well-typed snapshot the selection resolves exactly when the
    selected entity exists. *)
Lemma render_all_selection_resolves (s0 : CanvasV2State)
    (before : list CanvasV2State) (s : CanvasV2State)
    (identifier : CanvasEntityIdentifier) :
  (forall x y, In x (before ++ [s]) -> In y (before ++ [s]) -> coherent x y) ->
  well_typed s ->
  State.selectedEntityIdentifier (val s) = Some identifier ->
  let m := state_after (render_all (before ++ [s]) (constructor s0)) in
  (forall c st,
     type identifier = class_type (adapter_class c) ->
     find_entity (id identifier) (snapshot_entities c s) = Some st ->
     exists a,
       JSMap.get (id identifier) (adapters_of c m) = Some a /\
       ad_id a = id identifier /\
       getSelectedEntity s m = Some (mkPair st (wrap_adapter c a))) /\
  (forall c,
     type identifier = class_type (adapter_class c) ->
     find_entity (id identifier) (snapshot_entities c s) = None ->
     getSelectedEntity s m = None) /\
  (type identifier = inpaint_mask ->
   getSelectedEntity s m =
     Some (mkPair (val (State.inpaintMask (val s)))
                  (AsInpaintMask (inpaintMask m)))).
Proof.
  intros Hcoh [Htyped Hmask] Hsel m.
  assert (Hfirst : _isFirstRender (constructor s0) = false ->
    (forall y, In y (before ++ [s]) -> coherent (_prevState (constructor s0)) y) /\
    forall c, synced_ids (_prevState (constructor s0)) c (constructor s0))
    by discriminate.
  pose proof (returns_and _ _ _ _
    (render_all_converges before (constructor s0) s
       (constructor_keyed s0) Hcoh Hfirst)
    (render_all_tagged (before ++ [s]) (constructor s0)
       (tagged_constructor s0))) as H.
  apply returns_elim in H as (u & m' & tr & Hrun & [Hk Hs] & [Htag Htagm]).
  subst m. rewrite Hrun. simpl. unfold getSelectedEntity. rewrite Hsel.
  split; [|split].
  - intros c st Hc Hfind.
    assert (Hin : In (id identifier) (JSMap.keys (adapters_of c m'))).
    { apply Hs. rewrite <- (find_entity_id _ _ _ Hfind).
      apply in_map. now apply find_entity_In in Hfind. }
    destruct (JSMap_keys_get _ _ Hin) as [a Hget].
    exists a. split; [assumption|].
    split; [apply (keyed_get _ _ _ (Hk c) Hget)|].
    rewrite (getEntity_collection s m' c identifier Hc), Hfind, Hget.
    rewrite (Htyped c st (find_entity_In _ _ _ Hfind)).
    rewrite (Htag c _ a (JSMap_get_In _ _ _ Hget)).
    now destruct (adapter_class c).
  - intros c Hc Hfind.
    now rewrite (getEntity_collection s m' c identifier Hc), Hfind.
  - intros Ht. rewrite (getEntity_inpaint_mask s m' identifier Ht).
    now rewrite Hmask, Htagm.
Qed.

(** ** The state held by the adapters *)

Lemma NoDup_map_In_inj {A B : Type} (f : A -> B) (l : list A) x y :
  NoDup (map f l) -> In x l -> In y l -> f x = f y -> x = y.
Proof.
  induction l as [|z l IH]; simpl; [intros _ []|].
  intros Hnd Hx Hy Hf. inversion Hnd as [|? ? Hnotin Hnd']; subst.
  destruct Hx as [->|Hx], Hy as [->|Hy]; auto.
  - exfalso. apply Hnotin. rewrite Hf. now apply in_map.
  - exfalso. apply Hnotin. rewrite <- Hf. now apply in_map.
Qed.

Lemma coll_uids_NoDup c m : scene_consistent m -> NoDup (coll_uids c m).
Proof.
  intros (Hnd & _). apply (Permutation_NoDup (uids_split c m)) in Hnd.
  now apply NoDup_app_remove_r in Hnd.
Qed.

Lemma coll_uid_lt c m k a :
  scene_consistent m -> In (k, a) (adapters_of c m) -> ad_uid a < next_uid m.
Proof.
  intros (_ & Hlt & _) Hin. rewrite Forall_forall in Hlt. apply Hlt.
  apply (Permutation_in _ (Permutation_sym (uids_split c m))).
  apply in_or_app. left. unfold coll_uids, JSMap.values. rewrite map_map.
  now apply (in_map (fun kv => ad_uid (snd kv))) in Hin.
Qed.

Lemma distinct_keys_distinct_uids c m i j a a' :
  scene_consistent m ->
  JSMap.get i (adapters_of c m) = Some a ->
  JSMap.get j (adapters_of c m) = Some a' ->
  i <> j -> ad_uid a <> ad_uid a'.
Proof.
  intros Hsc Ha Ha' Hne Heq. apply coll_uids_NoDup with (c := c) in Hsc.
  unfold coll_uids, JSMap.values in Hsc. rewrite map_map in Hsc.
  apply JSMap_get_In in Ha, Ha'.
  pose proof (NoDup_map_In_inj _ _ _ _ Hsc Ha Ha' Heq) as H.
  congruence.
Qed.

Lemma entity_fresh_step c e upd done m :
  updates_state c e upd ->
  ~ In (es_id e) (ids done) ->
  entity_loop_inv c done m ->
  returns (a <- get_or_create c e ;; upd a) m
    (fun _ m' _ => entity_loop_inv c (done ++ [e]) m').
Proof.
  intros Hupd Hnew (Hk & Hsc & Hdone). unfold returns, bind.
  destruct (JSMap.get (es_id e) (adapters_of c m)) as [a|] eqn:Hget.
  - rewrite (get_or_create_found _ _ _ _ Hget).
    destruct (Hupd a m) as (ev & _ & ->).
    unfold entity_loop_inv. rewrite adapters_of_with_adapters.
    split; [now apply keyed_map_state|].
    split; [now apply scene_consistent_update|].
    intros e' He'. rewrite JSMap_get_map_values.
    apply in_app_or in He' as [He'|[<-|[]]].
    + destruct (Hdone e' He') as (a' & Hget' & Hst'). rewrite Hget'. simpl.
      eexists. split; [reflexivity|]. unfold set_adapter_state.
      assert (Hne : es_id e' <> es_id e)
        by (intros Heq; apply Hnew; rewrite <- Heq; now apply in_map).
      pose proof (distinct_keys_distinct_uids c m _ _ _ _ Hsc Hget' Hget Hne)
        as Hu.
      apply Nat.eqb_neq in Hu. now rewrite Hu.
    + rewrite Hget. simpl. eexists. split; [reflexivity|].
      unfold set_adapter_state. now rewrite Nat.eqb_refl.
  - rewrite (get_or_create_missing _ _ _ Hget).
    set (a := mkAdapter (es_id e) (class_type (adapter_class c)) (next_uid m) e).
    destruct (Hupd a
      (with_stage (fun children => children ++ [konva_layer a])
         (with_adapters c (JSMap.set (ad_id a) a)
            (with_next_uid (S (next_uid m)) m)))) as (ev & _ & ->).
    assert (Hfresh : ~ In (es_id e) (JSMap.keys (adapters_of c m)))
      by (now apply JSMap_get_None).
    unfold entity_loop_inv.
    rewrite adapters_of_with_adapters, adapters_of_with_stage,
      adapters_of_with_adapters, adapters_of_with_next_uid.
    split; [apply keyed_map_state; now apply (keyed_set _ a)|].
    split.
    { apply scene_consistent_update.
      apply (scene_consistent_create c (es_id e)
               (class_type (adapter_class c)) e m Hfresh Hsc). }
    intros e' He'. rewrite JSMap_get_map_values.
    apply in_app_or in He' as [He'|[<-|[]]].
    + destruct (Hdone e' He') as (a' & Hget' & Hst').
      assert (Hne : ad_id a <> es_id e').
      { simpl. intros Heq. apply Hfresh. rewrite Heq.
        eapply JSMap_get_Some_keys. exact Hget'. }
      rewrite (JSMap_get_set_neq _ _ _ a Hne), Hget'. simpl.
      eexists. split; [reflexivity|]. unfold set_adapter_state.
      pose proof (coll_uid_lt c m _ _ Hsc (JSMap_get_In _ _ _ Hget')) as Hlt.
      assert (Hu : Nat.eqb (ad_uid a') (next_uid m) = false)
        by (apply Nat.eqb_neq; lia).
      simpl. now rewrite Hu.
    + change (es_id e) with (ad_id a). rewrite JSMap_get_set_eq. simpl.
      eexists. split; [reflexivity|].
      unfold set_adapter_state. now rewrite Nat.eqb_refl.
Qed.

Lemma entity_loop_fresh c E (body : CanvasEntityState -> M unit) m :
  (forall e, exists upd, updates_state c e upd /\
                         body e = (a <- get_or_create c e ;; upd a)) ->
  NoDup (ids E) ->
  keyed (adapters_of c m) -> scene_consistent m ->
  returns (for_each E body) m (fun _ m' _ => entity_loop_inv c E m').
Proof.
  intros Hbody Hnd Hk Hsc.
  pose proof (returns_for_each body (fun done m' _ => entity_loop_inv c done m')
                E [] m []) as H.
  simpl in H. apply H; clear H.
  - split; [assumption|]. split; [assumption|]. intros e [].
  - intros done x rest m1 t1 Hsplit Hinv.
    destruct (Hbody x) as (upd & Hupd & ->).
    apply (entity_fresh_step c x upd done m1 Hupd); [|assumption].
    rewrite Hsplit in Hnd. unfold ids in Hnd. rewrite map_app in Hnd.
    simpl in Hnd. apply NoDup_remove_2 in Hnd.
    intros Hin. apply Hnd. apply in_or_app. now left.
Qed.

Lemma reconcile_fresh s c (body : CanvasEntityState -> M unit) m :
  (forall e, exists upd, updates_state c e upd /\
                         body e = (a <- get_or_create c e ;; upd a)) ->
  (forall c, keyed (adapters_of c m)) -> scene_consistent m ->
  NoDup (ids (snapshot_entities c s)) ->
  returns
    (m0 <- this ;;
     destroy_nonexistent c (snapshot_entities c s) (adapters_of c m0) ;;
     for_each (snapshot_entities c s) body) m
    (fun _ m' _ => up_to_date s (TCollection c) m').
Proof.
  intros Hbody Hk Hsc Hnd. apply returns_bind, returns_this, returns_bind.
  eapply returns_weaken;
    [apply (destroy_nonexistent_spec c (snapshot_entities c s) m (Hk c))|].
  intros [] m1 t1 (Hmap & _ & _ & _ & _ & Hsc1).
  rewrite skipn_all, app_nil_r in Hmap.
  eapply returns_weaken.
  - apply (entity_loop_fresh c _ body m1 Hbody Hnd).
    + rewrite Hmap. apply keyed_filter, Hk.
    + now apply Hsc1.
  - intros [] m2 t2 (_ & _ & H). exact H.
Qed.

(** *** Steps of a render pass, for the state held by the adapters *)

Lemma up_to_date_same_adapters s t m m' :
  same_adapters m m' -> up_to_date s t m -> up_to_date s t m'.
Proof.
  intros (Hl & Hc & Hr & Hi).
  destruct t as [[]|]; simpl; rewrite ?Hl, ?Hc, ?Hr, ?Hi; exact (fun H => H).
Qed.

#[local] Instance keeps_adapters_composable : Composable keeps_adapters.
Proof.
  split.
  - intros m. repeat split.
  - intros m m1 m2 t1 t2 (Ha & Hb & Hc & Hd) (Ha' & Hb' & Hc' & Hd').
    repeat split; congruence.
Qed.

Lemma fresh_quiet s (c : M unit) :
  within keeps_adapters c -> fresh_spec s no_target c.
Proof.
  intros H m _ _. eapply returns_weaken; [apply H|].
  intros [] m' tr Hsame. split; [|discriminate].
  intros t _. now apply up_to_date_same_adapters.
Qed.

Lemma step_fresh_trans s b1 b2 m m1 m2 :
  step_fresh s b1 m m1 -> step_fresh s b2 m1 m2 ->
  step_fresh s (fun t => b1 t || b2 t) m m2.
Proof.
  intros H1 H2. split.
  - intros t Hb Hu. apply orb_false_iff in Hb as [Hb1 Hb2].
    apply (fresh_kept _ _ _ _ H2 t Hb2), (fresh_kept _ _ _ _ H1 t Hb1), Hu.
  - intros t Hb Hd. destruct (b2 t) eqn:Hb2.
    + apply (fresh_done _ _ _ _ H2 t Hb2 Hd).
    + rewrite orb_false_r in Hb.
      apply (fresh_kept _ _ _ _ H2 t Hb2), (fresh_done _ _ _ _ H1 t Hb Hd).
Qed.

Lemma fresh_seq s b0 b1 b2 (c1 c2 : M unit) :
  step_spec s b0 c1 -> fresh_spec s b1 c1 -> fresh_spec s b2 c2 ->
  fresh_spec s (fun t => b1 t || b2 t) (c1 ;; c2).
Proof.
  intros Hs1 H1 H2 m Hk Hsc. apply returns_bind.
  eapply returns_weaken; [apply (returns_and _ _ _ _ (Hs1 m) (H1 m Hk Hsc))|].
  intros [] m1 t1 [[_ Hok] Hf1]. specialize (Hok Hk).
  eapply returns_weaken.
  - apply (H2 m1 (ok_keyed _ _ _ _ _ Hok) (ok_scene _ _ _ _ _ Hok Hsc)).
  - intros [] m2 t2 Hf2. eapply step_fresh_trans; eauto.
Qed.

Lemma fresh_when s b (cond : bool) (c : M unit) :
  fresh_spec s b c -> fresh_spec s (fun t => cond && b t) (when cond c).
Proof.
  intros H. destruct cond; simpl; [exact H|].
  intros m _ _. apply returns_ret. split; [auto | discriminate].
Qed.

Lemma fresh_inpaintMask_update s t sel :
  fresh_spec s mask_target
    (inpaintMask_update (val (State.inpaintMask (val s))) t sel).
Proof.
  intros m _ _. unfold inpaintMask_update.
  apply returns_bind, returns_this, returns_bind, returns_call, returns_modify.
  split.
  - intros [c|] Hb; [|discriminate]. destruct c; exact (fun H => H).
  - intros [c|] Hb _; [discriminate|]. reflexivity.
Qed.

#[local] Instance touches_only_composable c : Composable (touches_only c).
Proof.
  split.
  - intros m. split; reflexivity.
  - intros m m1 m2 t1 t2 [H1 H2] [H1' H2']. split; [|congruence].
    intros c' Hne. now rewrite H1', H1.
Qed.

Lemma fresh_reconcile s c (comp : M unit) :
  within (touches_only c) comp ->
  (forall m,
     (forall c, keyed (adapters_of c m)) -> scene_consistent m ->
     NoDup (ids (snapshot_entities c s)) ->
     returns comp m (fun _ m' _ => up_to_date s (TCollection c) m')) ->
  fresh_spec s (collection_target c) comp.
Proof.
  intros Hframe Hdone m Hk Hsc.
  eapply returns_weaken.
  - apply returns_and; [apply (Hframe m)|].
    apply (returns_cond _ _ (NoDup (ids (snapshot_entities c s)))).
    + pose proof (Hframe m) as H.
      apply returns_elim in H as (u & m' & tr & -> & _). reflexivity.
    + now apply Hdone.
  - cbv beta. intros [] m' tr [[Hother Hmask] Hc]. split.
    + intros [c'|] Hb; simpl in *.
      * assert (Hne : c' <> c).
        { intros ->. destruct c; discriminate. }
        rewrite (Hother c' Hne). exact (fun H => H).
      * now rewrite Hmask.
    + intros [c'|] Hb Hd; simpl in *; [|discriminate].
      apply Collection_eqb_eq in Hb. subst c'. now apply Hc.
Qed.

Ltac touches_only_base :=
  intros ?; split;
  [ intros c' Hne;
    rewrite ?adapters_of_with_adapters_other, ?adapters_of_with_stage,
      ?adapters_of_with_next_uid by assumption;
    reflexivity
  | reflexivity ].

Lemma fresh_renderLayers s :
  fresh_spec s (collection_target Layers) (renderLayers s).
Proof.
  apply fresh_reconcile.
  - repeat within_step; touches_only_base.
  - intros m Hk Hsc Hnd.
    apply (reconcile_fresh s Layers (update_layer s)); try assumption.
    intros e. eexists. split; [|reflexivity].
    apply updates_state_adapter_update.
Qed.

Lemma fresh_renderRegions s :
  fresh_spec s (collection_target Regions) (renderRegions s).
Proof.
  apply fresh_reconcile.
  - repeat within_step; touches_only_base.
  - intros m Hk Hsc Hnd.
    apply (reconcile_fresh s Regions (render_entity Regions)); try assumption.
    intros e. eexists. split; [|reflexivity].
    apply updates_state_adapter_render.
Qed.

Lemma fresh_renderControlAdapters s :
  fresh_spec s (collection_target ControlAdapters) (renderControlAdapters s).
Proof.
  apply fresh_reconcile.
  - repeat within_step; touches_only_base.
  - intros m Hk Hsc Hnd.
    apply (reconcile_fresh s ControlAdapters (render_entity ControlAdapters));
      try assumption.
    intros e. eexists. split; [|reflexivity].
    apply updates_state_adapter_render.
Qed.

Ltac fresh_quiet_step :=
  apply fresh_quiet; repeat within_step; intros ?; repeat split.

Ltac fresh_step :=
  lazymatch goal with
  | |- fresh_spec _ _ (when _ _) => eapply fresh_when
  | |- fresh_spec _ _ (renderLayers _) => apply fresh_renderLayers
  | |- fresh_spec _ _ (renderRegions _) => apply fresh_renderRegions
  | |- fresh_spec _ _ (renderControlAdapters _) =>
      apply fresh_renderControlAdapters
  | |- fresh_spec _ _ (inpaintMask_update _ _ _) =>
      apply fresh_inpaintMask_update
  | |- fresh_spec _ _ (bind this _) => fresh_quiet_step
  | |- fresh_spec _ _ (bind _ _) =>
      eapply fresh_seq; [repeat spec_step | |]
  | |- fresh_spec _ _ _ => fresh_quiet_step
  end.

Lemma render_fresh s m :
  takes_fast_path s m = false ->
  (forall c, keyed (adapters_of c m)) -> scene_consistent m ->
  returns (render s) m (fun _ m' _ => step_fresh s (render_targets s m) m m').
Proof.
  intros Hfast Hk Hsc. unfold render. apply returns_bind, returns_this.
  cbv zeta. unfold takes_fast_path in Hfast. rewrite Hfast.
  match goal with
  | |- returns ?c m _ =>
      assert (Hspec : exists b, fresh_spec s b c /\
                forall t, b t = render_targets s m t)
  end.
  { eexists. split.
    - repeat fresh_step.
    - intros t. cbv beta.
      unfold render_targets, triggered, entities_changed, entities_ref,
        inpaintMask_changed, maskOpacity_changed, tool_changed,
        selection_changed.
      destruct t as [[]|];
        cbv beta iota zeta delta
          [no_target collection_target mask_target Collection_eqb
           adapter_class];
        repeat progress
          rewrite ?andb_false_r, ?andb_true_r, ?orb_false_r, ?orb_false_l;
        reflexivity. }
  destruct Hspec as (b & Hspec & Hb).
  eapply returns_weaken; [apply (Hspec m Hk Hsc)|].
  intros [] m' tr [Hkept Hdone]. split; intros t; rewrite <- Hb; auto.
Qed.

(** *** The state held after every pass *)

Lemma render_current s m :
  settled m -> current m ->
  (_isFirstRender m = false ->
   coherent (_prevState m) s /\ mask_coherent (_prevState m) s) ->
  returns (render s) m (fun _ m' _ =>
    forall t, distinct_ids s t -> up_to_date s t m').
Proof.
  intros (Hk & Hsc & _) Hcur Hcoh.
  destruct (takes_fast_path s m) eqn:Hfast.
  - eapply returns_intro; [apply (render_fast _ _ Hfast)|].
    unfold takes_fast_path in Hfast. apply andb_true_iff in Hfast as [Href Hnf].
    apply negb_true_iff in Hnf. apply same_ref_true in Href.
    assert (Heq : _prevState m = s)
      by (apply Ref_eq; [assumption | now apply (Hcoh Hnf)]).
    specialize (Hcur Hnf). now rewrite Heq in Hcur.
  - eapply returns_weaken; [apply (render_fresh s m Hfast Hk Hsc)|].
    intros [] m' tr [Hkept Hdone] t Hd.
    destruct (render_targets s m t) eqn:Ht; [now apply Hdone|].
    apply (Hkept t Ht).
    assert (Hnf : _isFirstRender m = false).
    { unfold render_targets, triggered in Ht. cbv zeta in Ht.
      destruct (_isFirstRender m); [|reflexivity].
      destruct t as [[]|]; discriminate. }
    destruct (Hcoh Hnf) as [Hc Hmc]. specialize (Hcur Hnf).
    destruct t as [c|].
    + assert (Hsame : snapshot_entities c s
                      = snapshot_entities c (_prevState m)).
      { apply unchanged_entities; [assumption|].
        unfold render_targets, triggered in Ht. cbv zeta in Ht. rewrite Hnf in Ht.
        destruct c; simpl in Ht;
          destruct (entities_changed _ s m); [discriminate|reflexivity
                                             |discriminate|reflexivity
                                             |discriminate|reflexivity]. }
      specialize (Hcur (TCollection c)). simpl in *.
      rewrite Hsame. apply Hcur. now rewrite <- Hsame.
    + specialize (Hcur TMask I). simpl in *. rewrite Hcur.
      apply Hmc. unfold triggered in Ht. cbv zeta in Ht. rewrite Hnf in Ht.
      simpl in Ht. unfold inpaintMask_changed in Ht.
      destruct (same_ref (State.inpaintMask (val s))
                         (State.inpaintMask (val (_prevState m)))) eqn:Href;
        [|discriminate].
      apply same_ref_true in Href. now symmetry.
Qed.

Lemma current_constructor s0 : current (constructor s0).
Proof. discriminate. Qed.

Lemma render_all_current ss : forall m s,
  settled m -> current m ->
  (forall x y, In x (ss ++ [s]) -> In y (ss ++ [s]) ->
               coherent x y /\ mask_coherent x y) ->
  (_isFirstRender m = false ->
   forall y, In y (ss ++ [s]) ->
             coherent (_prevState m) y /\ mask_coherent (_prevState m) y) ->
  returns (render_all (ss ++ [s])) m (fun _ m' _ =>
    settled m' /\ forall t, distinct_ids s t -> up_to_date s t m').
Proof.
  assert (Hstep : forall x m,
    settled m -> current m ->
    (_isFirstRender m = false ->
     coherent (_prevState m) x /\ mask_coherent (_prevState m) x) ->
    returns (render x) m (fun _ m' _ =>
      (settled m' /\ _prevState m' = x /\ _isFirstRender m' = false) /\
      forall t, distinct_ids x t -> up_to_date x t m')).
  { intros x m Hm Hcur Hcoh. apply returns_and.
    - apply (render_settled x m Hm). intros Hnf. now apply Hcoh.
    - now apply render_current. }
  induction ss as [|x ss IH]; intros m s Hm Hcur Hcoh Hprev; simpl.
  - apply returns_bind. eapply returns_weaken.
    + apply (Hstep s m Hm Hcur). intros Hnf. apply (Hprev Hnf). now left.
    + intros [] m1 t1 [(Hm1 & _) H]. apply returns_ret. auto.
  - apply returns_bind. eapply returns_weaken.
    + apply (Hstep x m Hm Hcur). intros Hnf. apply (Hprev Hnf). now left.
    + intros [] m1 t1 [(Hm1 & Hp1 & Hf1) H1].
      eapply returns_weaken.
      * apply (IH m1 s Hm1).
        -- intros _. now rewrite Hp1.
        -- intros a b Ha Hb. apply Hcoh; now right.
        -- intros _ y Hy. rewrite Hp1. apply Hcoh; [now left | now right].
      * auto.
Qed.

(** Render passes run one after the other, each to its end: after the pass
    of a snapshot with distinct ids every adapter holds the state the
    snapshot gives its entity. *)
Lemma render_all_snapshot_state (s0 : CanvasV2State)
    (before : list CanvasV2State) (s : CanvasV2State) :
  (forall x y, In x (before ++ [s]) -> In y (before ++ [s]) ->
               coherent x y /\ mask_coherent x y) ->
  unique_ids s ->
  let o := render_all (before ++ [s]) (constructor s0) in
  let m := state_after o in
  returned o = true /\
  (forall c e, In e (snapshot_entities c s) ->
     exists a, JSMap.get (es_id e) (adapters_of c m) = Some a /\
               ad_id a = es_id e /\ ad_state a = e) /\
  ad_state (inpaintMask m) = val (State.inpaintMask (val s)).
Proof.
  intros Hcoh Hu o m.
  pose proof (render_all_current before (constructor s0) s
                (settled_constructor s0) (current_constructor s0) Hcoh) as H.
  assert (Hfirst : _isFirstRender (constructor s0) = false ->
    forall y, In y (before ++ [s]) ->
      coherent (_prevState (constructor s0)) y /\
      mask_coherent (_prevState (constructor s0)) y)
    by discriminate.
  specialize (H Hfirst).
  apply returns_elim in H as (u & m' & tr & Hrun & (Hk & _) & Hup).
  subst m o. rewrite Hrun. simpl. split; [reflexivity|]. split.
  - intros c e He. destruct (Hup (TCollection c) (Hu c) e He) as (a & Hget & Hst).
    exists a. split; [assumption|]. split; [|assumption].
    apply (keyed_get _ _ _ (Hk c) Hget).
  - apply (Hup TMask I).
Qed.

(** ** Logging contexts *)

Lemma spread_get (source : JSONObject) : forall (target : JSONObject) k,
  well_formed source ->
  JSMap.get k (spread target source) =
    match JSMap.get k source with
    | Some v => Some v
    | None => JSMap.get k target
    end.
Proof.
  unfold spread, well_formed.
  induction source as [|[k' v'] source IH]; intros target k Hnd; simpl;
    [reflexivity|].
  inversion Hnd as [|? ? Hnotin Hnd']; subst. rewrite (IH _ _ Hnd').
  destruct (String.eqb_spec k' k) as [->|Hne].
  - assert (Hnone : JSMap.get k source = None) by (now apply JSMap_get_None).
    rewrite Hnone. apply JSMap_get_set_eq.
  - destruct (JSMap.get k source); [reflexivity|].
    now apply JSMap_get_set_neq.
Qed.

Lemma spread_optional_get (extra : option JSONObject) (target : JSONObject) k :
  (forall o, extra = Some o -> well_formed o) ->
  JSMap.get k (spread_optional target extra) =
    match extra with
    | Some o =>
        match JSMap.get k o with
        | Some v => Some v
        | None => JSMap.get k target
        end
    | None => JSMap.get k target
    end.
Proof.
  intros H. destruct extra as [o|]; simpl; [|reflexivity].
  apply spread_get. now apply H.
Qed.

Lemma buildGetLoggingContext_eq instance extra :
  buildGetLoggingContext instance extra =
    spread_optional
      (JSMap.set (id_key instance) (JString (instance_id instance))
         (spread JSMap.empty (ambient_context instance)))
      extra.
Proof.
  unfold buildGetLoggingContext, id_key, ambient_context.
  destruct (instanceof_CanvasLayer instance
            || instanceof_CanvasStagingArea instance
            || instanceof_CanvasInpaintMask instance); [reflexivity|].
  destruct (instanceof_CanvasObjectRenderer instance); reflexivity.
Qed.

(** X11: in the logging context built for an instance, the fields the caller
    supplies take precedence, then the id of the instance, then the ambient
    context.  The id is recorded under [entityId] for a layer, the inpaint
    mask or the staging area, under [rendererId] for an object renderer and
    under [objectId] otherwise; a caller-supplied field of that name
    replaces it.  A layer, inpaint mask or staging area called without
    extra fields gets exactly its [entityId]. *)
Theorem logging_context_precedence (instance : LoggingInstance)
    (extra : option JSONObject) (k : string) :
  (forall o, extra = Some o -> well_formed o) ->
  well_formed (ambient_context instance) ->
  let context := buildGetLoggingContext instance extra in
  let supplied :=
    match extra with Some o => JSMap.get k o | None => None end in
  JSMap.get k context =
    match supplied with
    | Some v => Some v
    | None =>
        if String.eqb (id_key instance) k
        then Some (JString (instance_id instance))
        else JSMap.get k (ambient_context instance)
    end /\
  (instanceof_CanvasLayer instance
   || instanceof_CanvasStagingArea instance
   || instanceof_CanvasInpaintMask instance = true ->
   buildGetLoggingContext instance None =
     [("entityId", JString (instance_id instance))]).
Proof.
  intros Hextra Hambient context supplied. subst context supplied. split.
  - rewrite buildGetLoggingContext_eq, (spread_optional_get _ _ _ Hextra).
    assert (Hown :
      JSMap.get k
        (JSMap.set (id_key instance) (JString (instance_id instance))
           (spread JSMap.empty (ambient_context instance))) =
      if String.eqb (id_key instance) k
      then Some (JString (instance_id instance))
      else JSMap.get k (ambient_context instance)).
    { destruct (String.eqb_spec (id_key instance) k) as [->|Hne].
      - apply JSMap_get_set_eq.
      - rewrite JSMap_get_set_neq by assumption.
        rewrite (spread_get _ _ _ Hambient).
        now destruct (JSMap.get k (ambient_context instance)). }
    destruct extra as [o|]; [|exact Hown].
    destruct (JSMap.get k o); [reflexivity | exact Hown].
  - intros H. rewrite buildGetLoggingContext_eq.
    unfold id_key, ambient_context. rewrite H. reflexivity.
Qed.

(** ** Adapter identity over many passes *)




(** ** The life of an adapter object *)

Lemma is_live_In uid live : is_live uid live = true <-> In uid live.
Proof.
  unfold is_live. rewrite existsb_exists. split.
  - intros (x & Hin & Heq). apply Nat.eqb_eq in Heq. now subst.
  - intros Hin. exists uid. split; [assumption | apply Nat.eqb_refl].
Qed.

Lemma is_live_not_In uid live : is_live uid live = false <-> ~ In uid live.
Proof.
  rewrite <- is_live_In. destruct (is_live uid live); split; congruence.
Qed.

Lemma follow_app t1 : forall live t2,
  follow live (t1 ++ t2) =
    match follow live t1 with
    | Some live1 => follow live1 t2
    | None => None
    end.
Proof.
  induction t1 as [|e t1 IH]; intros live t2; [reflexivity|].
  destruct e; simpl; rewrite ?IH; try reflexivity;
    repeat match goal with
           | |- context [is_live ?u ?l] => destruct (is_live u l)
           | |- context [match ?n with NPreview => _ | _ => _ end] =>
               destruct n
           end; simpl; rewrite ?IH; reflexivity.
Qed.

Lemma conforms_refl m : conforms m m [].
Proof. intros live H. exists live. auto. Qed.

Lemma conforms_trans m m1 m2 t1 t2 :
  conforms m m1 t1 -> conforms m1 m2 t2 -> conforms m m2 (t1 ++ t2).
Proof.
  intros H1 H2 live Hl. destruct (H1 live Hl) as (l1 & Hf1 & Hl1).
  destruct (H2 l1 Hl1) as (l2 & Hf2 & Hl2).
  exists l2. now rewrite follow_app, Hf1.
Qed.

Lemma conforms_other m m' e :
  uses_adapter e = None -> lifecycle_class e = None ->
  same_elements (uids m') (uids m) ->
  conforms m m' [e].
Proof.
  intros Hu Hl Hsame live Hlive. exists live. split.
  - destruct e; simpl in *; try discriminate; try reflexivity;
      destruct n; try discriminate; reflexivity.
  - intros u. rewrite (Hlive u). symmetry. apply Hsame.
Qed.

Lemma conforms_use m m' e uid :
  uses_adapter e = Some uid -> lifecycle_class e = None ->
  In uid (uids m) ->
  same_elements (uids m') (uids m) ->
  conforms m m' [e].
Proof.
  intros Hu Hl Hin Hsame live Hlive. exists live. split.
  - assert (Hlv : is_live uid live = true) by (apply is_live_In, Hlive, Hin).
    destruct e; simpl in *; try discriminate;
      try (injection Hu as ->; now rewrite Hlv);
      destruct n; try discriminate; injection Hu as ->; now rewrite Hlv.
  - intros u. rewrite (Hlive u). symmetry. apply Hsame.
Qed.

Lemma conforms_new m m' c uid e :
  ~ In uid (uids m) ->
  (forall u, In u (uids m') <-> u = uid \/ In u (uids m)) ->
  conforms m m' [New c uid e].
Proof.
  intros Hnew Hafter live Hlive. exists (uid :: live). split.
  - simpl. assert (Hlv : is_live uid live = false).
    { apply is_live_not_In. now rewrite (Hlive uid). }
    now rewrite Hlv.
  - intros u. rewrite Hafter. simpl. rewrite (Hlive u).
    split; intros [H|H]; auto.
Qed.

Lemma conforms_destroy m m' c uid i :
  In uid (uids m) ->
  (forall u, In u (uids m') <-> In u (uids m) /\ u <> uid) ->
  conforms m m' [Destroy c uid i].
Proof.
  intros Hin Hafter live Hlive. exists (remove Nat.eq_dec uid live). split.
  - simpl. assert (Hlv : is_live uid live = true) by (apply is_live_In, Hlive, Hin).
    now rewrite Hlv.
  - intros u. rewrite Hafter, <- (Hlive u). split.
    + intros H. apply in_remove in H. exact H.
    + intros [H1 H2]. now apply in_in_remove.
Qed.

(** *** The identities under the primitive steps *)

Lemma uids_destroy c x m :
  NoDup (JSMap.keys (adapters_of c m)) ->
  In (ad_id x, x) (adapters_of c m) ->
  Permutation (uids m)
    (ad_uid x
     :: uids (with_adapters c (JSMap.delete (ad_id x))
                (with_stage (remove_node (konva_layer x)) m))).
Proof.
  intros Hkeys Hin.
  set (m' := with_adapters c (JSMap.delete (ad_id x))
               (with_stage (remove_node (konva_layer x)) m)).
  assert (Hframe : forall c', c' <> c -> adapters_of c' m' = adapters_of c' m).
  { intros c' Hne. unfold m'.
    now rewrite adapters_of_with_adapters_other, adapters_of_with_stage. }
  assert (Hmask : inpaintMask m' = inpaintMask m) by (destruct c; reflexivity).
  assert (Hcoll : Permutation ([] ++ coll_uids c m)
                    ([ad_uid x] ++ coll_uids c m')).
  { unfold m'. rewrite coll_uids_with_adapters, adapters_of_with_stage.
    unfold coll_uids. simpl.
    apply (Permutation_map ad_uid (values_delete_perm _ _ _ Hkeys Hin)). }
  exact (uids_change c m m' [] [ad_uid x] Hframe Hmask Hcoll).
Qed.

Lemma uids_create c k a m :
  ~ In k (JSMap.keys (adapters_of c m)) ->
  Permutation (ad_uid a :: uids m)
    (uids (with_stage (fun children => children ++ [konva_layer a])
             (with_adapters c (JSMap.set k a)
                (with_next_uid (S (next_uid m)) m)))).
Proof.
  intros Hfresh.
  set (m' := with_stage (fun children => children ++ [konva_layer a])
               (with_adapters c (JSMap.set k a)
                  (with_next_uid (S (next_uid m)) m))).
  assert (Hframe : forall c', c' <> c -> adapters_of c' m' = adapters_of c' m).
  { intros c' Hne. unfold m'.
    now rewrite adapters_of_with_stage, adapters_of_with_adapters_other,
      adapters_of_with_next_uid. }
  assert (Hmask : inpaintMask m' = inpaintMask m) by (destruct c; reflexivity).
  assert (Hcoll : Permutation ([ad_uid a] ++ coll_uids c m)
                    ([] ++ coll_uids c m')).
  { unfold m', coll_uids.
    rewrite adapters_of_with_stage, adapters_of_with_adapters,
      adapters_of_with_next_uid, (JSMap_set_fresh _ _ _ Hfresh).
    unfold JSMap.values. rewrite !map_app. simpl.
    apply Permutation_cons_append. }
  exact (uids_change c m m' [ad_uid a] [] Hframe Hmask Hcoll).
Qed.

Lemma In_coll_uids c m k a :
  In (k, a) (adapters_of c m) -> In (ad_uid a) (uids m).
Proof.
  intros Hin.
  apply (Permutation_in _ (Permutation_sym (uids_split c m))).
  apply in_or_app. left. unfold coll_uids, JSMap.values. rewrite map_map.
  now apply (in_map (fun kv => ad_uid (snd kv))) in Hin.
Qed.

Lemma In_mask_uids m : In (ad_uid (inpaintMask m)) (uids m).
Proof. now left. Qed.

(** *** Steps of a render pass, for the life of the adapters *)

Lemma follow_others live tr :
  Forall (fun e => uses_adapter e = None /\ lifecycle_class e = None) tr ->
  follow live tr = Some live.
Proof.
  induction 1 as [|e tr [Hu Hl] _ IH]; [reflexivity|].
  destruct e; simpl in *; try discriminate; try exact IH;
    destruct n; try discriminate; exact IH.
Qed.

Lemma uids_same_adapters m m' : same_adapters m m' -> uids m' = uids m.
Proof.
  intros (Hl & Hc & Hr & Hi). unfold uids, coll_uids. simpl.
  now rewrite Hl, Hc, Hr, Hi.
Qed.

#[local] Instance no_adapter_call_composable : Composable no_adapter_call.
Proof.
  split.
  - intros m. split; [repeat split | constructor].
  - intros m m1 m2 t1 t2 [(Ha & Hb & Hc & Hd) H1] [(Ha' & Hb' & Hc' & Hd') H2].
    split; [repeat split; congruence | now apply Forall_app].
Qed.

Lemma protocol_quiet (c : M unit) :
  within no_adapter_call c -> protocol_spec c.
Proof.
  intros H m _ _. eapply returns_weaken; [apply H|].
  intros [] m' tr [Hsame Hall] live Hlive. exists live.
  split; [now apply follow_others|].
  now rewrite (uids_same_adapters _ _ Hsame).
Qed.

Lemma protocol_seq s b0 (c1 c2 : M unit) :
  step_spec s b0 c1 -> protocol_spec c1 -> protocol_spec c2 ->
  protocol_spec (c1 ;; c2).
Proof.
  intros Hs1 H1 H2 m Hk Hsc. apply returns_bind.
  eapply returns_weaken; [apply (returns_and _ _ _ _ (Hs1 m) (H1 m Hk Hsc))|].
  intros [] m1 t1 [[_ Hok] Hc1]. specialize (Hok Hk).
  eapply returns_weaken.
  - apply (H2 m1 (ok_keyed _ _ _ _ _ Hok) (ok_scene _ _ _ _ _ Hok Hsc)).
  - intros [] m2 t2 Hc2. eapply conforms_trans; eauto.
Qed.

Lemma protocol_when (cond : bool) (c : M unit) :
  protocol_spec c -> protocol_spec (when cond c).
Proof.
  intros H. destruct cond; simpl; [exact H|].
  intros m _ _. apply returns_ret. apply conforms_refl.
Qed.

Lemma protocol_inpaintMask_update e t sel :
  protocol_spec (inpaintMask_update e t sel).
Proof.
  intros m _ _. unfold inpaintMask_update.
  apply returns_bind, returns_this, returns_bind, returns_call, returns_modify.
  apply (conforms_use _ _ _ (ad_uid (inpaintMask m)));
    [reflexivity | reflexivity | apply In_mask_uids | intros u; reflexivity].
Qed.

Lemma follow_zIndex_calls live l : forall z,
  (forall uid, In (NAdapter uid) l -> In uid live) ->
  follow live (zIndex_calls l z) = Some live.
Proof.
  induction l as [|n l IH]; intros z H; [reflexivity|].
  assert (Hrest : follow live (zIndex_calls l (S z)) = Some live)
    by (apply IH; intros uid Hin; apply H; now right).
  destruct n as [| | |uid]; simpl; try exact Hrest.
  assert (Hlv : is_live uid live = true)
    by (apply is_live_In, H; now left).
  now rewrite Hlv.
Qed.

Lemma In_adapter_nodes c s m uid :
  In (NAdapter uid)
     (map konva_layer
        (adapters_in_order (adapters_of c m) (snapshot_entities c s))) ->
  In uid (uids m).
Proof.
  intros Hin. apply in_map_iff in Hin as (a & Ha & Hin).
  injection Ha as <-. apply In_adapters_in_order in Hin as (e & _ & Hget).
  apply (In_coll_uids c m _ _ (JSMap_get_In _ _ _ Hget)).
Qed.

Lemma scene_order_live s m uid :
  In (NAdapter uid) (scene_order s m) -> In uid (uids m).
Proof.
  unfold scene_order. intros Hin.
  repeat (apply in_app_or in Hin as [Hin|Hin]).
  - destruct Hin as [H|[H|[]]]; discriminate.
  - exact (In_adapter_nodes Layers s m uid Hin).
  - exact (In_adapter_nodes ControlAdapters s m uid Hin).
  - exact (In_adapter_nodes Regions s m uid Hin).
  - destruct Hin as [H|[H|[]]]; [|discriminate].
    injection H as <-. apply In_mask_uids.
Qed.

Lemma protocol_arrangeEntities s : protocol_spec (arrangeEntities s).
Proof.
  intros m _ _. unfold returns. rewrite arrangeEntities_eq.
  intros live Hlive. exists live. split.
  - apply follow_zIndex_calls. intros uid Hin.
    apply Hlive. now apply (scene_order_live s).
  - exact Hlive.
Qed.

(** *** The two loops *)

Lemma protocol_destroy_step c E m0 done x rest m tr :
  keyed (adapters_of c m0) ->
  adapters_of c m0 = done ++ x :: rest ->
  destroy_inv c E m0 done m tr ->
  scene_consistent m0 ->
  returns (destroy_if_nonexistent c E x) m
    (fun _ m' tr' => conforms m m' tr').
Proof.
  intros Hkeyed Hsplit (Hmap & _ & _ & _ & _ & Hscene) Hsc0.
  assert (Hrest : skipn (List.length done) (adapters_of c m0) = x :: rest)
    by (rewrite Hsplit; apply skipn_split).
  rewrite Hrest in Hmap.
  destruct Hkeyed as [Hnd Hall].
  assert (Hnd1 : NoDup (JSMap.keys (filter (id_in_snapshot E) done ++ x :: rest))).
  { apply JSMap_NoDup_filter_app. now rewrite <- Hsplit. }
  assert (Hkx : fst x = ad_id (snd x)).
  { rewrite Forall_forall in Hall. apply Hall. rewrite Hsplit.
    apply in_or_app. right. now left. }
  unfold returns. rewrite destroy_if_nonexistent_eq.
  destruct (JSMap.has (fst x) (adapters_of c m) && negb (id_in_snapshot E x));
    [|apply conforms_refl].
  assert (Hin : In (ad_id (snd x), snd x) (adapters_of c m)).
  { rewrite Hmap, <- Hkx. apply in_or_app. right. left. now destruct x. }
  assert (Hkeys : NoDup (JSMap.keys (adapters_of c m))) by (now rewrite Hmap).
  pose proof (uids_destroy c (snd x) m Hkeys Hin) as Hperm.
  pose proof (Hscene Hsc0) as (Hu & _).
  assert (Hu' := Permutation_NoDup Hperm Hu).
  apply conforms_destroy.
  - apply (In_coll_uids c m _ _ Hin).
  - intros u. split.
    + intros Hu1. split.
      * apply (Permutation_in _ (Permutation_sym Hperm)). now right.
      * intros ->. inversion Hu'; contradiction.
    + intros [Hu1 Hne]. apply (Permutation_in _ Hperm) in Hu1.
      destruct Hu1 as [Heq|Hu1]; [congruence | assumption].
Qed.

Lemma protocol_destroy_loop c E m0 :
  keyed (adapters_of c m0) -> scene_consistent m0 ->
  returns (destroy_nonexistent c E (adapters_of c m0)) m0
    (fun _ m' tr =>
       destroy_inv c E m0 (adapters_of c m0) m' tr /\ conforms m0 m' tr).
Proof.
  intros Hk Hsc. unfold destroy_nonexistent.
  pose proof (returns_for_each (destroy_if_nonexistent c E)
                (fun done m tr => destroy_inv c E m0 done m tr /\
                                  conforms m0 m tr)
                (adapters_of c m0) [] m0 []) as H.
  simpl in H. apply H; clear H.
  - split; [|apply conforms_refl]. unfold destroy_inv. simpl.
    do 4 (split; [auto|]). split; [intros ev []|auto].
  - intros done x rest m1 t1 Hsplit [Hinv Hconf].
    eapply returns_weaken.
    + apply returns_and.
      * apply (destroy_inv_step c E m0 Hk done x rest m1 t1 Hsplit Hinv).
      * apply (protocol_destroy_step c E m0 done x rest m1 t1 Hk Hsplit Hinv Hsc).
    + cbv beta. intros [] m2 t2 [Hinv2 Hc2].
      split; [assumption|]. eapply conforms_trans; eauto.
Qed.

Lemma protocol_entity_step c e upd m :
  updates_state c e upd ->
  keyed (adapters_of c m) -> scene_consistent m ->
  (forall a m1 ev, upd a m1 =
     Returned tt
       (with_adapters c (JSMap.map_values (set_adapter_state (ad_uid a) e)) m1)
       [ev] ->
     uses_adapter ev = Some (ad_uid a)) ->
  returns (a <- get_or_create c e ;; upd a) m
    (fun _ m' tr => conforms m m' tr).
Proof.
  intros Hupd Hk Hsc Huses. unfold returns, bind.
  destruct (JSMap.get (es_id e) (adapters_of c m)) as [a|] eqn:Hget.
  - rewrite (get_or_create_found _ _ _ _ Hget).
    destruct (Hupd a m) as (ev & Hl & Hrun). rewrite Hrun.
    apply (conforms_use _ _ _ (ad_uid a));
      [apply (Huses a m ev Hrun) | exact Hl
      | apply (In_coll_uids c m _ _ (JSMap_get_In _ _ _ Hget))
      | intros u; now rewrite uids_update].
  - rewrite (get_or_create_missing _ _ _ Hget).
    set (a := mkAdapter (es_id e) (class_type (adapter_class c)) (next_uid m) e).
    set (m1 := with_stage (fun children => children ++ [konva_layer a])
                 (with_adapters c (JSMap.set (ad_id a) a)
                    (with_next_uid (S (next_uid m)) m))).
    destruct (Hupd a m1) as (ev & Hl & Hrun). rewrite Hrun.
    assert (Hfresh : ~ In (es_id e) (JSMap.keys (adapters_of c m)))
      by (now apply JSMap_get_None).
    pose proof (uids_create c (ad_id a) a m Hfresh) as Hperm. fold m1 in Hperm.
    assert (Hnew : ~ In (next_uid m) (uids m)).
    { destruct Hsc as (_ & Hlt & _). intros Hin.
      rewrite Forall_forall in Hlt. apply Hlt in Hin. lia. }
    assert (Hlive1 : In (ad_uid a) (uids m1))
      by (apply (Permutation_in _ Hperm); now left).
    change [New (adapter_class c) (next_uid m) e; StageAdd (konva_layer a)]
      with ([New (adapter_class c) (next_uid m) e]
            ++ [StageAdd (konva_layer a)]).
    rewrite <- app_assoc.
    apply (conforms_trans m m1); [|apply (conforms_trans m1 m1)].
    + apply conforms_new; [exact Hnew|].
      intros u. split.
      * intros Hu. apply (Permutation_in _ (Permutation_sym Hperm)) in Hu.
        destruct Hu as [<-|Hu]; auto.
      * intros [->|Hu]; apply (Permutation_in _ Hperm); [now left | now right].
    + apply (conforms_use _ _ _ (ad_uid a));
        [reflexivity | reflexivity | exact Hlive1 | intros u; reflexivity].
    + apply (conforms_use _ _ _ (ad_uid a));
        [apply (Huses a m1 ev Hrun) | exact Hl | exact Hlive1
        | intros u; now rewrite uids_update].
Qed.

Lemma protocol_entity_loop c E (body : CanvasEntityState -> M unit) m0 :
  (forall e, exists upd,
     updates_state c e upd /\
     body e = (a <- get_or_create c e ;; upd a) /\
     forall a m1 ev, upd a m1 =
       Returned tt
         (with_adapters c
            (JSMap.map_values (set_adapter_state (ad_uid a) e)) m1)
         [ev] ->
       uses_adapter ev = Some (ad_uid a)) ->
  keyed (adapters_of c m0) -> scene_consistent m0 ->
  returns (for_each E body) m0 (fun _ m' tr => conforms m0 m' tr).
Proof.
  intros Hbody Hk Hsc.
  pose proof (returns_for_each body
                (fun done m tr => entity_inv c m0 done m tr /\
                                  conforms m0 m tr)
                E [] m0 []) as H.
  simpl in H. eapply returns_weaken; [apply H; clear H|].
  - split; [|apply conforms_refl]. unfold entity_inv.
    split; [assumption|].
    split; [intros i; simpl; tauto|].
    split; [intros i a Hget; eauto|].
    split; [auto|]. split; [auto|]. split; [auto|].
    split; [intros ev []|auto].
  - intros done x rest m1 t1 _ [Hinv Hconf].
    destruct (Hbody x) as (upd & Hupd & -> & Huses).
    eapply returns_weaken.
    + apply returns_and.
      * apply (entity_inv_step c x upd m0 done m1 t1 Hupd Hinv).
      * destruct Hinv as (Hk1 & _ & _ & _ & _ & _ & _ & Hsc1).
        apply (protocol_entity_step c x upd m1 Hupd Hk1 (Hsc1 Hsc) Huses).
    + cbv beta. intros [] m2 t2 [Hinv2 Hc2].
      split; [assumption|]. eapply conforms_trans; eauto.
  - cbv beta. intros [] m' tr [_ H']. exact H'.
Qed.

Lemma protocol_reconcile s c (body : CanvasEntityState -> M unit) :
  (forall e, exists upd,
     updates_state c e upd /\
     body e = (a <- get_or_create c e ;; upd a) /\
     forall a m1 ev, upd a m1 =
       Returned tt
         (with_adapters c
            (JSMap.map_values (set_adapter_state (ad_uid a) e)) m1)
         [ev] ->
       uses_adapter ev = Some (ad_uid a)) ->
  protocol_spec
    (m <- this ;;
     destroy_nonexistent c (snapshot_entities c s) (adapters_of c m) ;;
     for_each (snapshot_entities c s) body).
Proof.
  intros Hbody m Hk Hsc. apply returns_bind, returns_this, returns_bind.
  eapply returns_weaken;
    [apply (protocol_destroy_loop c (snapshot_entities c s) m (Hk c) Hsc)|].
  intros [] m1 t1 [(Hmap & _ & _ & _ & _ & Hsc1) Hc1].
  rewrite skipn_all, app_nil_r in Hmap.
  eapply returns_weaken.
  - apply (protocol_entity_loop c _ body m1 Hbody).
    + rewrite Hmap. apply keyed_filter, Hk.
    + now apply Hsc1.
  - intros [] m2 t2 Hc2. simpl. eapply conforms_trans; eauto.
Qed.

Lemma protocol_renderLayers s : protocol_spec (renderLayers s).
Proof.
  apply (protocol_reconcile s Layers (update_layer s)).
  intros e. eexists. split; [apply updates_state_adapter_update|].
  split; [reflexivity|]. intros a m1 ev [= <-]. reflexivity.
Qed.

Lemma protocol_renderRegions s : protocol_spec (renderRegions s).
Proof.
  apply (protocol_reconcile s Regions (render_entity Regions)).
  intros e. eexists. split; [apply updates_state_adapter_render|].
  split; [reflexivity|]. intros a m1 ev [= <-]. reflexivity.
Qed.

Lemma protocol_renderControlAdapters s :
  protocol_spec (renderControlAdapters s).
Proof.
  apply (protocol_reconcile s ControlAdapters (render_entity ControlAdapters)).
  intros e. eexists. split; [apply updates_state_adapter_render|].
  split; [reflexivity|]. intros a m1 ev [= <-]. reflexivity.
Qed.

(** *** The render pass *)

Ltac protocol_quiet_step :=
  apply protocol_quiet; repeat within_step;
  intros ?; (split; [repeat split | repeat constructor]).

Ltac protocol_step s :=
  lazymatch goal with
  | |- protocol_spec (when _ _) => apply protocol_when
  | |- protocol_spec (renderLayers _) => apply protocol_renderLayers
  | |- protocol_spec (renderRegions _) => apply protocol_renderRegions
  | |- protocol_spec (renderControlAdapters _) =>
      apply protocol_renderControlAdapters
  | |- protocol_spec (inpaintMask_update _ _ _) =>
      apply protocol_inpaintMask_update
  | |- protocol_spec (arrangeEntities _) => apply protocol_arrangeEntities
  | |- protocol_spec (bind this _) => protocol_quiet_step
  | |- protocol_spec (bind _ _) =>
      eapply (protocol_seq s); [repeat spec_step | |]
  | |- protocol_spec _ => protocol_quiet_step
  end.

Lemma render_conforms s m :
  (forall c, keyed (adapters_of c m)) -> scene_consistent m ->
  returns (render s) m (fun _ m' tr => conforms m m' tr).
Proof.
  intros Hk Hsc. destruct (takes_fast_path s m) eqn:Hfast.
  - eapply returns_intro; [apply (render_fast _ _ Hfast)|].
    apply conforms_other; [reflexivity | reflexivity | intros u; reflexivity].
  - unfold render. apply returns_bind, returns_this. cbv zeta.
    unfold takes_fast_path in Hfast. rewrite Hfast.
    match goal with
    | |- returns ?c m _ =>
        apply ((fun H => H m Hk Hsc) : protocol_spec c -> _)
    end.
    repeat protocol_step s.
Qed.

Lemma render_all_conforms ss : forall m,
  (forall c, keyed (adapters_of c m)) -> scene_consistent m ->
  returns (render_all ss) m (fun _ m' tr => conforms m m' tr).
Proof.
  induction ss as [|s ss IH]; intros m Hk Hsc; simpl.
  - apply returns_ret, conforms_refl.
  - apply returns_bind. eapply returns_weaken.
    + apply returns_and; [apply returns_and|].
      * apply (render_keyed s m Hk).
      * apply (render_scene_consistent s m Hk Hsc).
      * apply (render_conforms s m Hk Hsc).
    + cbv beta. intros [] m1 t1 [[Hk1 Hsc1] Hc1].
      eapply returns_weaken; [apply (IH m1 Hk1 Hsc1)|].
      intros [] m2 t2 Hc2. eapply conforms_trans; eauto.
Qed.

(** Render passes run one after the other, each to its end: every call on
    an adapter object falls within its life, and the adapters alive at the
    end are those the manager holds. *)
Lemma render_all_within_lifetime (s0 : CanvasV2State)
    (snapshots : list CanvasV2State) :
  let o := render_all snapshots (constructor s0) in
  returned o = true /\
  exists live,
    follow [ad_uid (inpaintMask (constructor s0))] (trace_of o) = Some live /\
    forall uid, In uid live <-> In uid (uids (state_after o)).
Proof.
  intros o.
  pose proof (render_all_conforms snapshots (constructor s0)
                (constructor_keyed s0) (scene_consistent_constructor s0)) as H.
  apply returns_elim in H as (u & m' & tr & Hrun & Hc).
  subst o. rewrite Hrun. simpl. split; [reflexivity|].
  apply (Hc [0]). intros uid. reflexivity.
Qed.

(** * Render passes that overlap *)

(** ** Sequencing, at a given manager *)

Lemma bind_ret_l {A B : Type} (a : A) (f : A -> M B) m :
  bind (ret a) f m = f a m.
Proof. unfold bind, ret. now destruct (f a m). Qed.

Lemma bind_ret_r {A : Type} (c : M A) m : bind c (fun a => ret a) m = c m.
Proof. unfold bind, ret. destruct (c m); now rewrite ?app_nil_r. Qed.

Lemma bind_assoc {A B C : Type} (c : M A) (f : A -> M B) (g : B -> M C) m :
  bind (bind c f) g m = bind c (fun a => bind (f a) g) m.
Proof.
  unfold bind. destruct (c m) as [a m1 t1|]; [|reflexivity].
  destruct (f a m1) as [b m2 t2|]; [|reflexivity].
  destruct (g b m2); now rewrite app_assoc.
Qed.

Lemma bind_equal {A B : Type} (c c' : M A) (f f' : A -> M B) m :
  c m = c' m ->
  (forall a m1 t1, c m = Returned a m1 t1 -> f a m1 = f' a m1) ->
  bind c f m = bind c' f' m.
Proof.
  intros Hc Hf. unfold bind. rewrite <- Hc.
  destruct (c m) as [a m1 t1|]; [|reflexivity].
  now rewrite (Hf a m1 t1 eq_refl).
Qed.

Lemma bind_this {A : Type} (f : CanvasManager -> M A) m :
  bind this f m = f m m.
Proof. unfold bind, this. now destruct (f m m). Qed.

(** ** A task run alone *)

Lemma alone_bind {A B : Type} (c : Task.t A) (f : A -> Task.t B) store :
  forall m,
    Async.alone (Task.bind c f) store m
    = bind (Async.alone c store) (fun a => Async.alone (f a) store) m.
Proof.
  induction c as [a|X c k IH|k IH|entities awaited seen k IH]; intros m;
    cbn [Task.bind Async.alone].
  - now rewrite bind_ret_l.
  - rewrite bind_assoc. apply bind_equal; [reflexivity|].
    intros b m1 t1 _. apply IH.
  - apply IH.
  - rewrite !bind_assoc. apply bind_equal; [reflexivity|].
    intros [] m1 t1 _. rewrite !bind_assoc. apply bind_equal; [reflexivity|].
    intros m2 m3 t3 _. rewrite bind_assoc. apply bind_equal; [reflexivity|].
    intros [] m4 t4 _. apply IH.
Qed.

Lemma alone_lift {A : Type} (c : M A) store m :
  Async.alone (Task.lift c) store m = c m.
Proof. cbn. apply bind_ret_r. Qed.

Lemma alone_await {A : Type} (c : Task.t A) store m :
  Async.alone (Task.await c) store m = Async.alone c store m.
Proof.
  unfold Task.await. rewrite alone_bind. cbn [Async.alone]. apply bind_ret_r.
Qed.

Lemma alone_for_each {A : Type} (body : A -> M unit) store l : forall m,
  Async.alone
    (Task.for_each l (fun x => Task.await (Task.lift (body x)))) store m
  = for_each l body m.
Proof.
  induction l as [|x l IH]; intros m; [reflexivity|].
  cbn [Task.for_each for_each]. rewrite alone_bind.
  apply bind_equal.
  - now rewrite alone_await, alone_lift.
  - intros [] m1 t1 _. apply IH.
Qed.

(** *** The loop over the live iterator *)

(** *** The loop over the live iterator *)

Lemma next_nonexistent_passes entities entries : forall seen x seen',
  Task.next_nonexistent entities seen entries = Some (x, seen') ->
  unseen seen' entries < unseen seen entries /\
  (forall u, In u seen -> In u seen').
Proof.
  induction entries as [|[k a] rest IH]; intros seen x seen' H; [discriminate|].
  cbn [Task.next_nonexistent] in H. unfold unseen in *. cbn [filter snd].
  destruct (existsb (Nat.eqb (ad_uid a)) seen) eqn:Hseen.
  - destruct (IH _ _ _ H) as [Hlt Hsub]. split; [|exact Hsub].
    assert (Hseen' : existsb (Nat.eqb (ad_uid a)) seen' = true).
    { apply existsb_exists in Hseen as (u & Hu & E).
      apply existsb_exists. exists u. auto. }
    rewrite Hseen'. exact Hlt.
  - assert (Hmono : forall s1 s2 (l : JSMap.t Adapter),
      (forall u, In u s1 -> In u s2) ->
      List.length
        (filter (fun kv => negb (existsb (Nat.eqb (ad_uid (snd kv))) s2)) l)
      <= List.length
           (filter (fun kv => negb (existsb (Nat.eqb (ad_uid (snd kv))) s1)) l)).
    { intros s1 s2 l Hs. induction l as [|kv l IHl]; [auto|]. cbn [filter].
      destruct (existsb (Nat.eqb (ad_uid (snd kv))) s1) eqn:E1.
      - assert (E2 : existsb (Nat.eqb (ad_uid (snd kv))) s2 = true).
        { apply existsb_exists in E1 as (u & Hu & E).
          apply existsb_exists. exists u. auto. }
        now rewrite E2.
      - destruct (existsb (Nat.eqb (ad_uid (snd kv))) s2); simpl; lia. }
    assert (Hin : forall s, existsb (Nat.eqb (ad_uid a)) (s ++ [ad_uid a]) = true).
    { intros s. apply existsb_exists. exists (ad_uid a).
      split; [apply in_or_app; right; now left | apply Nat.eqb_refl]. }
    destruct (existsb _ entities).
    + destruct (IH _ _ _ H) as [Hlt Hsub]. split.
      * assert (Hseen' : existsb (Nat.eqb (ad_uid a)) seen' = true).
        { apply existsb_exists. exists (ad_uid a).
          split; [apply Hsub, in_or_app; right; now left | apply Nat.eqb_refl]. }
        rewrite Hseen'. simpl.
        specialize (Hmono seen (seen ++ [ad_uid a]) rest
                      (fun u Hu => in_or_app _ _ _ (or_introl Hu))).
        lia.
      * intros u Hu. apply Hsub, in_or_app. now left.
    + injection H as <- <-. split.
      * rewrite Hin. simpl.
        specialize (Hmono seen (seen ++ [ad_uid a]) rest
                      (fun u Hu => in_or_app _ _ _ (or_introl Hu))).
        lia.
      * intros u Hu. apply in_or_app. now left.
Qed.

Lemma next_nonexistent_none entities entries : forall seen,
  unseen seen entries = 0 ->
  Task.next_nonexistent entities seen entries = None.
Proof.
  induction entries as [|[k a] rest IH]; intros seen H; [reflexivity|].
  cbn [Task.next_nonexistent]. unfold unseen in *. cbn [filter snd] in H.
  destruct (existsb (Nat.eqb (ad_uid a)) seen); [now apply IH | discriminate].
Qed.

Lemma unseen_delete seen k entries :
  unseen seen (JSMap.delete k entries) <= unseen seen entries.
Proof.
  unfold unseen, JSMap.delete. induction entries as [|kv l IH]; [auto|].
  cbn [filter]. destruct (negb (String.eqb (fst kv) k)); cbn [filter];
    destruct (negb (existsb _ seen)); simpl; lia.
Qed.

Lemma unseen_length seen entries : unseen seen entries <= List.length entries.
Proof. apply filter_length_le. Qed.

(** Rounds beyond the entries not passed change nothing. *)
Lemma destroy_layers_alone_rounds entities : forall n n' seen m,
  unseen seen (layers m) <= n -> unseen seen (layers m) <= n' ->
  Async.destroy_layers_alone n entities seen m
  = Async.destroy_layers_alone n' entities seen m.
Proof.
  assert (Hstop : forall n seen m,
    Task.next_nonexistent entities seen (layers m) = None ->
    Async.destroy_layers_alone n entities seen m = Returned tt m []).
  { intros [|n] seen m H; [reflexivity|].
    cbn [Async.destroy_layers_alone]. rewrite bind_this, H. reflexivity. }
  induction n as [|n IH]; intros n' seen m Hn Hn'.
  - assert (H0 : unseen seen (layers m) = 0) by lia.
    rewrite !Hstop by now apply next_nonexistent_none. reflexivity.
  - destruct (Task.next_nonexistent entities seen (layers m))
      as [[x seen']|] eqn:Hnext; [|now rewrite !Hstop].
    destruct (next_nonexistent_passes _ _ _ _ _ Hnext) as [Hlt _].
    destruct n' as [|n']; [lia|].
    cbn [Async.destroy_layers_alone]. rewrite !bind_this, Hnext.
    apply bind_equal; [reflexivity|]. intros [] m1 t1 H1.
    apply bind_equal; [reflexivity|]. intros [] m2 t2 H2.
    assert (Hl : layers m2 = JSMap.delete (ad_id x) (layers m)).
    { unfold adapter_destroy, bind, call, modify in H1. injection H1 as <- _.
      unfold modify in H2. injection H2 as <- _. reflexivity. }
    pose proof (unseen_delete seen' (ad_id x) (layers m)) as Hd.
    apply IH; rewrite Hl; lia.
Qed.

(** A task run alone is its first stretch, up to the first [await], and
    then what remains, run alone. *)
Lemma advance_alone {A : Type} (c : Task.t A) store : forall m,
  Async.alone c store m
  = bind (Task.advance c store)
      (fun status =>
         match status with
         | Task.Finished a => ret a
         | Task.Suspended k => Async.alone k store
         end) m.
Proof.
  induction c as [a|X c k IH|k IH|entities awaited seen k IH]; intros m;
    cbn [Task.advance Async.alone].
  - now rewrite bind_ret_l.
  - rewrite bind_assoc. apply bind_equal; [reflexivity|].
    intros b m1 t1 _. apply IH.
  - now rewrite bind_ret_l.
  - unfold Task.destroy_layers. rewrite !bind_assoc.
    apply bind_equal; [reflexivity|]. intros [] m1 t1 _.
    rewrite !bind_assoc, !bind_this.
    destruct (Task.next_nonexistent entities seen (layers m1))
      as [[x seen']|] eqn:Hnext.
    + destruct (next_nonexistent_passes _ _ _ _ _ Hnext) as [Hlt _].
      pose proof (unseen_length seen (layers m1)) as Hlen.
      destruct (List.length (layers m1)) as [|n] eqn:En; [lia|].
      cbn [Async.destroy_layers_alone].
      rewrite !bind_assoc, bind_this, Hnext, !bind_assoc.
      apply bind_equal; [reflexivity|]. intros [] m2 t2 H2.
      rewrite bind_ret_l. cbn [Async.alone]. rewrite !bind_assoc.
      apply bind_equal; [reflexivity|]. intros [] m3 t3 H3.
      rewrite bind_this. apply bind_equal; [|reflexivity].
      assert (Hl : layers m3 = JSMap.delete (ad_id x) (layers m1)).
      { unfold adapter_destroy, bind, call, modify in H2. injection H2 as <- _.
        unfold modify in H3. injection H3 as <- _. reflexivity. }
      pose proof (unseen_delete seen' (ad_id x) (layers m1)) as Hd.
      pose proof (unseen_length seen' (layers m3)) as Hlen3.
      apply destroy_layers_alone_rounds; rewrite ?Hl in *; lia.
    + assert (Hstop : Async.destroy_layers_alone (List.length (layers m1))
                        entities seen m1 = Returned tt m1 []).
      { destruct (List.length (layers m1)); [reflexivity|].
        cbn [Async.destroy_layers_alone]. now rewrite bind_this, Hnext. }
      unfold bind at 1. rewrite Hstop. cbn beta iota.
      rewrite <- IH. now destruct (Async.alone k store m1).
Qed.

(** ** Passes that do not overlap *)

Lemma bind_returned {A B : Type} (c : M A) (f : A -> M B) m b m' tr :
  bind c f m = Returned b m' tr ->
  exists a m1 t1 t2,
    c m = Returned a m1 t1 /\ f a m1 = Returned b m' t2 /\ tr = t1 ++ t2.
Proof.
  unfold bind. destruct (c m) as [a m1 t1|]; [|discriminate].
  destruct (f a m1) as [b' m2 t2|] eqn:Hf; [|discriminate].
  intros [= -> -> <-]. exists a, m1, t1, t2. auto.
Qed.

(** A pass that, run alone, would end in [m'] after the calls [tr] either
    ends so, or is suspended with the rest of it left to run. *)
Lemma run_pass_alone c w suspended finished m' tr :
  Async.alone c (Async.store w) (Async.manager w) = Returned tt m' tr ->
  let w1 := Async.run_pass c w suspended finished in
  Async.store w1 = Async.store w /\
  ((Async.in_flight w1 = finished /\ Async.manager w1 = m' /\
    Async.calls w1 = Async.calls w ++ tr) \/
   (exists k t1 t2,
      Async.in_flight w1 = suspended k /\
      Async.calls w1 = Async.calls w ++ t1 /\ tr = t1 ++ t2 /\
      Async.alone k (Async.store w) (Async.manager w1) = Returned tt m' t2)).
Proof.
  intros H w1. subst w1. unfold Async.run_pass.
  rewrite advance_alone in H. apply bind_returned in H.
  destruct H as (status & m1 & t1 & t2 & -> & H & ->).
  destruct status as [[]|k]; cbn [Async.store Async.in_flight Async.manager
                                   Async.calls].
  - injection H as <- <-. split; [reflexivity|]. left.
    now rewrite app_nil_r.
  - split; [reflexivity|]. right. exists k, t1, t2. auto.
Qed.

Lemma last_cons {A : Type} (x d : A) l : last (x :: l) d = last l x.
Proof.
  revert x d. induction l as [|y l IH]; intros x d; [reflexivity|].
  change (last (x :: y :: l) d) with (last (y :: l) d). now rewrite !IH.
Qed.

(** When no pass begins while another is in flight, and none is left in
    flight, the manager is where the passes, each run alone, one after the
    other, bring it. *)
Lemma run_one_at_a_time schedule : forall w m' tr,
  List.length (Async.in_flight w) <= 1 ->
  Async.one_at_a_time schedule w = true ->
  bind (pending w) (fun _ => alone_all (Async.dispatched schedule))
    (Async.manager w) = Returned tt m' tr ->
  Async.in_flight (Async.run schedule w) = [] ->
  Async.manager (Async.run schedule w) = m' /\
  Async.calls (Async.run schedule w) = Async.calls w ++ tr /\
  Async.store (Async.run schedule w)
  = last_dispatched (Async.dispatched schedule) (Async.store w).
Proof.
  induction schedule as [|a rest IH]; intros w m' tr Hlen Hone Hrun Hidle.
  - cbn in Hidle |- *. unfold pending in Hrun. rewrite Hidle in Hrun.
    cbn in Hrun. injection Hrun as <- <-. now rewrite app_nil_r.
  - change (Async.run (a :: rest) w) with (Async.run rest (Async.step w a))
      in *.
    cbn [Async.one_at_a_time] in Hone. unfold pending in Hrun.
    destruct a as [s|i].
    + destruct (Async.in_flight w) as [|c pool] eqn:Hpool; [|discriminate].
      rewrite bind_ret_l in Hrun. cbn [Async.dispatched alone_all] in Hrun.
      apply bind_returned in Hrun as ([] & m1 & t1 & t2 & H1 & H2 & ->).
      unfold last_dispatched. cbn [Async.dispatched]. rewrite last_cons.
      revert Hone Hidle. cbn [Async.step]. rewrite Hpool.
      set (w0 := Async.mkWorld s (Async.manager w) (Async.calls w) []).
      pose proof (run_pass_alone Async.render w0 (fun k => [] ++ [k]) []
                    m1 t1 H1) as Hpass.
      cbv zeta in Hpass. set (w1 := Async.run_pass _ _ _ _) in *.
      destruct Hpass as [Hstore [(Hfl & Hm & Hc)|(k & t11 & t12 & Hfl & Hc & -> & Hk)]];
        intros Hone Hidle.
      * destruct (IH w1 m' t2) as (Hm' & Hc' & Hs'); auto.
        -- rewrite Hfl. simpl. lia.
        -- unfold pending. rewrite Hfl, bind_ret_l, Hm. exact H2.
        -- split; [assumption|]. split.
           ++ rewrite Hc', Hc. cbn. now rewrite app_assoc.
           ++ rewrite Hs', Hstore. reflexivity.
      * destruct (IH w1 m' (t12 ++ t2)) as (Hm' & Hc' & Hs'); auto.
        -- rewrite Hfl. simpl. lia.
        -- unfold pending. rewrite Hfl. cbn [app]. rewrite Hstore.
           unfold bind. rewrite Hk, H2. reflexivity.
        -- split; [assumption|]. split.
           ++ rewrite Hc', Hc. cbn. now rewrite !app_assoc.
           ++ rewrite Hs', Hstore. reflexivity.
    + assert (Hskip : Async.step w (Async.Resume i) = w ->
                Async.manager (Async.run rest (Async.step w (Async.Resume i)))
                = m' /\
                Async.calls (Async.run rest (Async.step w (Async.Resume i)))
                = Async.calls w ++ tr /\
                Async.store (Async.run rest (Async.step w (Async.Resume i)))
                = last_dispatched (Async.dispatched (Async.Resume i :: rest))
                    (Async.store w)).
      { intros E. rewrite E in *. apply IH; auto. }
      destruct (Async.in_flight w) as [|c pool] eqn:Hpool.
      * apply Hskip. cbn [Async.step]. rewrite Hpool. now destruct i.
      * destruct pool as [|c' pool]; [|simpl in Hlen; lia].
        destruct i as [|i];
          [|apply Hskip; cbn [Async.step]; rewrite Hpool; now destruct i].
        cbn [Async.dispatched] in Hrun |- *.
        apply bind_returned in Hrun as ([] & m1 & t1 & t2 & H1 & H2 & ->).
        revert Hone Hidle. cbn [Async.step]. rewrite Hpool.
        cbn [nth_error firstn skipn app].
        pose proof (run_pass_alone c w (fun k => [k]) [] m1 t1 H1) as Hpass.
        cbv zeta in Hpass. set (w1 := Async.run_pass _ _ _ _) in *.
        destruct Hpass as [Hstore [(Hfl & Hm & Hc)|(k & t11 & t12 & Hfl & Hc & -> & Hk)]];
          intros Hone Hidle.
        -- destruct (IH w1 m' t2) as (Hm' & Hc' & Hs'); auto.
           ++ rewrite Hfl. simpl. lia.
           ++ unfold pending. rewrite Hfl, bind_ret_l, Hm. exact H2.
           ++ split; [assumption|]. split.
              ** rewrite Hc', Hc. now rewrite app_assoc.
              ** rewrite Hs', Hstore. reflexivity.
        -- destruct (IH w1 m' (t12 ++ t2)) as (Hm' & Hc' & Hs'); auto.
           ++ rewrite Hfl. simpl. lia.
           ++ unfold pending. rewrite Hfl, Hstore.
              unfold bind. rewrite Hk, H2. reflexivity.
           ++ split; [assumption|]. split.
              ** rewrite Hc', Hc. now rewrite !app_assoc.
              ** rewrite Hs', Hstore. reflexivity.
Qed.

(** ** A render pass run alone *)

Lemma next_nonexistent_seen entities K rest : forall seen,
  (forall kv, In kv K -> existsb (Nat.eqb (ad_uid (snd kv))) seen = true) ->
  Task.next_nonexistent entities seen (K ++ rest)
  = Task.next_nonexistent entities seen rest.
Proof.
  induction K as [|[k a] K IH]; intros seen H; [reflexivity|].
  cbn [app Task.next_nonexistent].
  pose proof (H (k, a) (or_introl eq_refl)) as Ha. cbn [snd] in Ha.
  rewrite Ha.
  apply IH. intros kv Hin. apply H. now right.
Qed.

Lemma existsb_uid_app u seen v :
  existsb (Nat.eqb u) (seen ++ [v]) = existsb (Nat.eqb u) seen || Nat.eqb u v.
Proof. rewrite existsb_app. simpl. now rewrite orb_false_r. Qed.

(** On a map keyed by id whose adapters are distinct objects, the loop
    over the live iterator, run alone, is the loop over the entries the map
    had when it began. *)
Lemma destroy_layers_alone_static entities : forall R K seen n m,
  layers m = K ++ R ->
  (forall kv, In kv K -> existsb (Nat.eqb (ad_uid (snd kv))) seen = true) ->
  (forall kv, In kv R -> existsb (Nat.eqb (ad_uid (snd kv))) seen = false) ->
  NoDup (map (fun kv => ad_uid (snd kv)) R) ->
  keyed (K ++ R) ->
  List.length R <= n ->
  Async.destroy_layers_alone n entities seen m
  = for_each R (destroy_if_nonexistent Layers entities) m.
Proof.
  induction R as [|[k x] R IH]; intros K seen n m Hl HK HR Hnd Hk Hn.
  - assert (Hnext : Task.next_nonexistent entities seen (layers m) = None).
    { rewrite Hl, next_nonexistent_seen by assumption. reflexivity. }
    destruct n; [reflexivity|].
    cbn [Async.destroy_layers_alone]. now rewrite bind_this, Hnext.
  - destruct n as [|n]; [simpl in Hn; lia|].
    cbn [for_each]. unfold bind at 1. rewrite destroy_if_nonexistent_eq.
    assert (Hhas : JSMap.has (fst (k, x)) (adapters_of Layers m) = true).
    { apply JSMap_has_true. cbn [adapters_of fst]. rewrite Hl.
      unfold JSMap.keys. rewrite map_app. apply in_or_app. right. now left. }
    rewrite Hhas. cbn [andb]. unfold id_in_snapshot. cbn [snd].
    assert (Hux : existsb (Nat.eqb (ad_uid x)) seen = false)
      by (apply (HR (k, x)); now left).
    inversion Hnd as [|? ? Hnotin Hnd']; subst.
    assert (HR' : forall kv, In kv R ->
              existsb (Nat.eqb (ad_uid (snd kv))) (seen ++ [ad_uid x]) = false).
    { intros kv Hin. rewrite existsb_uid_app, (HR kv) by now right.
      cbn [orb]. apply Nat.eqb_neq. intros E. apply Hnotin.
      rewrite <- E. now apply (in_map (fun kv => ad_uid (snd kv))) in Hin. }
    assert (HK' : forall kv, In kv K ->
              existsb (Nat.eqb (ad_uid (snd kv))) (seen ++ [ad_uid x]) = true).
    { intros kv Hin. now rewrite existsb_uid_app, (HK kv Hin). }
    assert (Hnext : Task.next_nonexistent entities seen (layers m)
              = if existsb (fun l => String.eqb (es_id l) (ad_id x)) entities
                then Task.next_nonexistent entities (seen ++ [ad_uid x]) R
                else Some (x, seen ++ [ad_uid x])).
    { rewrite Hl, next_nonexistent_seen by assumption.
      cbn [Task.next_nonexistent]. now rewrite Hux. }
    destruct (existsb (fun l => String.eqb (es_id l) (ad_id x)) entities)
      eqn:Hkept; cbn [negb].
    + rewrite <- (IH (K ++ [(k, x)]) (seen ++ [ad_uid x]) (S n) m).
      * cbn [Async.destroy_layers_alone]. rewrite !bind_this, Hnext.
        replace (layers m) with ((K ++ [(k, x)]) ++ R)
          by (now rewrite <- app_assoc).
        rewrite next_nonexistent_seen.
        -- match goal with |- ?X = _ => now destruct X end.
        -- intros kv Hin. apply in_app_or in Hin as [Hin|[<-|[]]]; [auto|].
           cbn [snd]. rewrite existsb_uid_app, Nat.eqb_refl.
           apply orb_true_r.
      * now rewrite <- app_assoc.
      * intros kv Hin. apply in_app_or in Hin as [Hin|[<-|[]]]; [auto|].
        cbn [snd]. rewrite existsb_uid_app, Nat.eqb_refl. apply orb_true_r.
      * assumption.
      * assumption.
      * now rewrite <- app_assoc.
      * simpl in Hn. lia.
    + assert (Hkx : k = ad_id x).
      { symmetry. apply (keyed_In _ _ _ Hk). apply in_or_app. right. now left. }
      assert (Hkeys : ~ In k (JSMap.keys K) /\ ~ In k (JSMap.keys R)).
      { destruct Hk as [Hkn _]. unfold JSMap.keys in *.
        rewrite map_app in Hkn. cbn [map fst] in Hkn.
        apply NoDup_remove_2 in Hkn. split; intros Hin; apply Hkn;
          apply in_or_app; auto. }
      assert (Hk' : keyed (K ++ R)).
      { destruct Hk as [Hkn Hall]. split.
        - unfold JSMap.keys in *. rewrite map_app in *. cbn [map fst] in Hkn.
          now apply NoDup_remove_1 in Hkn.
        - apply Forall_app in Hall as [HaK HaR]. inversion HaR; subst.
          apply Forall_app. auto. }
      set (m3 := with_adapters Layers (JSMap.delete (ad_id x))
                   (with_stage (remove_node (konva_layer x)) m)).
      assert (Hl3 : layers m3 = K ++ R).
      { unfold m3. cbn [with_adapters with_layers layers with_stage].
        rewrite Hl, <- Hkx. apply JSMap_delete_middle; apply Hkeys. }
      cbn [Async.destroy_layers_alone]. rewrite bind_this, Hnext.
      unfold adapter_destroy. unfold bind at 1 2 3. unfold call, modify.
      cbn beta iota.
      change (with_layers (JSMap.delete (ad_id x))
                (with_stage (remove_node (konva_layer x)) m)) with m3.
      rewrite (IH K (seen ++ [ad_uid x]) n m3 Hl3 HK' HR' Hnd' Hk')
        by (simpl in Hn; lia).
      now destruct (for_each R _ m3).
Qed.

#[local] Instance keeps_flags_composable : Composable keeps_flags.
Proof.
  split.
  - intros m. split; reflexivity.
  - intros m m1 m2 t1 t2 [H1 H2] [H1' H2']. split; congruence.
Qed.

Ltac keeps_flags_step :=
  repeat within_step;
    intros ?; unfold keeps_flags; split;
    try reflexivity;
    repeat match goal with
           | |- context [with_adapters ?c _ _] => destruct c
           end;
    reflexivity.

Lemma renderLayers_keeps_flags s : within keeps_flags (renderLayers s).
Proof. keeps_flags_step. Qed.

Lemma renderRegions_keeps_flags s : within keeps_flags (renderRegions s).
Proof. keeps_flags_step. Qed.

Lemma renderControlAdapters_keeps_flags s :
  within keeps_flags (renderControlAdapters s).
Proof. keeps_flags_step. Qed.

Lemma arrangeEntities_keeps_flags s : within keeps_flags (arrangeEntities s).
Proof. keeps_flags_step. Qed.

Lemma inpaintMask_update_keeps_flags e t b :
  within keeps_flags (inpaintMask_update e t b).
Proof. keeps_flags_step. Qed.

Lemma call_keeps_flags e : within keeps_flags (call e).
Proof. keeps_flags_step. Qed.

Lemma log_then_keeps_flags level message (c : M unit) :
  within keeps_flags c ->
  within keeps_flags (call (Log level message) ;; c)%mgr.
Proof.
  intros H. apply within_bind; [exact _ | apply call_keeps_flags | intros _; exact H].
Qed.

Lemma alone_when (b : bool) (c : Task.t unit) store m :
  Async.alone (Task.when b c) store m = when b (Async.alone c store) m.
Proof. now destruct b. Qed.

(** A guarded block of [render], run alone from a manager whose snapshot
    pointer and first-render flag are those the pass began with. *)
Lemma alone_guarded_block (ga : CanvasManager -> bool) (gs : bool)
    (X rest : Task.t unit) (Xs rs : M unit) s m :
  ga m = gs ->
  (gs = true -> Async.alone X s m = Xs m) ->
  (forall m1 t1, when gs Xs m = Returned tt m1 t1 ->
                 Async.alone rest s m1 = rs m1) ->
  Async.alone
    (Task.bind (Task.bind (Task.lift this) (fun m => Task.when (ga m) X))
       (fun _ => rest)) s m
  = bind (when gs Xs) (fun _ => rs) m.
Proof.
  intros Hg HX Hrest. cbn [Task.bind Task.lift Async.alone].
  rewrite bind_this, alone_bind, Hg.
  apply bind_equal.
  - rewrite alone_when. destruct gs; [now apply HX | reflexivity].
  - intros [] m1 t1 H. apply (Hrest m1 t1). rewrite alone_when in H.
    destruct gs; [cbn [when] in *; now rewrite <- HX | exact H].
Qed.

Lemma alone_plain_step (c : CanvasV2State -> M unit) (rest : Task.t unit)
    (rs : M unit) s m :
  (forall m1 t1, c s m = Returned tt m1 t1 -> Async.alone rest s m1 = rs m1) ->
  Async.alone (Task.bind (Task.stateApi c) (fun _ => rest)) s m
  = bind (c s) (fun _ => rs) m.
Proof.
  intros Hrest. cbn [Task.bind Task.stateApi Async.alone].
  apply bind_equal; [reflexivity|]. intros [] m1 t1 H. now apply (Hrest m1 t1).
Qed.

Lemma alone_log_then level message (X : Task.t unit) (Xs : M unit) s m :
  Async.alone X s m = Xs m ->
  Async.alone (Task.bind (Task.lift (call (Log level message))) (fun _ => X))
    s m
  = bind (call (Log level message)) (fun _ => Xs) m.
Proof.
  intros H. cbn [Task.bind Task.lift Async.alone].
  apply bind_equal; [reflexivity|]. intros [] m1 t1 [= <- _]. exact H.
Qed.

Lemma alone_render_entities c entities s m :
  Async.alone (Async.render_entities c entities) s m
  = for_each entities (render_entity c) m.
Proof. apply alone_for_each. Qed.

Lemma alone_renderRegions s m :
  Async.alone Async.renderRegions s m = renderRegions s m.
Proof.
  unfold Async.renderRegions, renderRegions.
  cbn [Task.bind Task.stateApi Task.lift Async.alone].
  rewrite bind_ret_l, bind_assoc. apply bind_equal; [reflexivity|].
  intros m1 m2 t2 _. apply bind_equal; [reflexivity|].
  intros [] m3 t3 _. apply alone_render_entities.
Qed.

Lemma alone_renderControlAdapters s m :
  Async.alone Async.renderControlAdapters s m = renderControlAdapters s m.
Proof.
  unfold Async.renderControlAdapters, renderControlAdapters.
  cbn [Task.bind Task.stateApi Task.lift Async.alone].
  rewrite bind_ret_l, bind_assoc. apply bind_equal; [reflexivity|].
  intros m1 m2 t2 _. apply bind_equal; [reflexivity|].
  intros [] m3 t3 _. apply alone_render_entities.
Qed.

Lemma alone_layers s m :
  keyed (layers m) -> NoDup (coll_uids Layers m) ->
  Async.alone
    (Task.bind
       (Task.DestroyLayers (entities_of (State.layers (val s))) None []
          (Task.Done tt))
       (fun _ =>
          Task.for_each (entities_of (State.layers (val s)))
            (fun entityState =>
               Task.await (Task.lift (update_layer s entityState))))) s m
  = renderLayers s m.
Proof.
  intros Hk Hnd. unfold renderLayers. cbn [Task.bind Async.alone].
  rewrite bind_ret_l, !bind_this. apply bind_equal.
  - unfold destroy_nonexistent.
    apply (destroy_layers_alone_static _ (layers m) []); auto.
    unfold coll_uids, JSMap.values in Hnd. cbn [adapters_of] in Hnd.
    now rewrite map_map in Hnd.
  - intros [] m1 t1 _. apply alone_for_each.
Qed.

Ltac flags_after H :=
  lazymatch type of H with
  | ?c ?m = Returned _ ?m1 _ =>
      let Hw := fresh "Hw" in
      assert (Hw : within keeps_flags c);
      [ repeat first
          [ apply within_when
          | apply log_then_keeps_flags
          | apply renderLayers_keeps_flags
          | apply renderRegions_keeps_flags
          | apply renderControlAdapters_keeps_flags
          | apply arrangeEntities_keeps_flags
          | apply inpaintMask_update_keeps_flags
          | apply call_keeps_flags
          | apply within_ret
          | apply within_this; [try exact _ .. | intro]
          | exact _ ]
      | specialize (Hw m); unfold returns in Hw; rewrite H in Hw;
        destruct Hw as [? ?] ]
  end.

(** Run alone, on a manager whose layers are keyed by id and are distinct
    objects, an asynchronous render pass is the render pass. *)
Lemma alone_render s m :
  keyed (layers m) -> NoDup (coll_uids Layers m) ->
  Async.alone Async.render s m = render s m.
Proof.
  intros Hk Hnd. unfold Async.render, render.
  cbn [Task.bind Task.getState Task.stateApi Task.lift Async.alone].
  rewrite bind_ret_l, !bind_this. cbv zeta.
  destruct (same_ref (_prevState m) s && negb (_isFirstRender m));
    [apply alone_lift|].
  unfold entities_changed, entities_ref, initialImage_changed,
    bbox_rect_changed, tool_changed, selection_changed, maskOpacity_changed,
    inpaintMask_changed, bbox_changed, isActive_changed, session_changed.
  apply alone_guarded_block; [reflexivity | | ].
  { intros _. apply alone_log_then. now apply alone_layers. }
  intros m1 t1 Run1. flags_after Run1.
  apply alone_guarded_block; [congruence | | ].
  { intros _. apply alone_log_then.
    unfold Async.renderInitialImage. now rewrite !alone_await, alone_lift. }
  intros m2 t2 Run2. flags_after Run2.
  apply alone_guarded_block; [congruence | | ].
  { intros _. apply alone_log_then.
    rewrite alone_await. apply alone_renderRegions. }
  intros m3 t3 Run3. flags_after Run3.
  apply alone_guarded_block; [congruence | | ].
  { intros _. apply alone_log_then. now rewrite alone_await, alone_lift. }
  intros m4 t4 Run4. flags_after Run4.
  apply alone_guarded_block; [congruence | | ].
  { intros _. apply alone_log_then.
    rewrite alone_await. apply alone_renderControlAdapters. }
  intros m5 t5 Run5. flags_after Run5.
  apply (alone_plain_step (fun _ => call _)). intros m6 t6 Run6. flags_after Run6.
  apply (alone_plain_step (fun _ => call _)). intros m7 t7 Run7. flags_after Run7.
  apply (alone_plain_step
           (fun store =>
              (m1 <- this ;;
               call (PublishSelectedEntity (getSelectedEntity store m1)))%mgr)).
  intros m8 t8 Run8. flags_after Run8.
  apply (alone_plain_step
           (fun store =>
              (m1 <- this ;;
               call (PublishCurrentFill (getCurrentFill store m1)))%mgr)).
  intros m9 t9 Run9. flags_after Run9.
  apply alone_guarded_block; [congruence | | ].
  { intros _. apply alone_log_then. now rewrite alone_await, alone_lift. }
  intros m10 t10 Run10. flags_after Run10.
  apply alone_guarded_block; [congruence | reflexivity | ].
  intros m11 t11 Run11. flags_after Run11.
  apply alone_guarded_block; [congruence | | ].
  { intros _. apply alone_log_then. now rewrite alone_await, alone_lift. }
  intros m12 t12 Run12. flags_after Run12.
  apply alone_guarded_block; [congruence | | ].
  { intros _. apply alone_log_then. rewrite alone_await. apply bind_ret_r. }
  intros m13 t13 Run13. flags_after Run13.
  apply (alone_plain_step (fun _ => modify _)). intros m14 t14 Run14.
  injection Run14 as <- _.
  cbn [Task.bind Task.lift Async.alone]. rewrite bind_this.
  cbn [with_prevState _isFirstRender].
  replace (_isFirstRender m13) with (_isFirstRender m) by congruence.
  destruct (_isFirstRender m); [apply alone_lift | reflexivity].
Qed.

Lemma alone_all_render_all snapshots : forall m,
  (forall c, keyed (adapters_of c m)) -> scene_consistent m ->
  alone_all snapshots m = render_all snapshots m.
Proof.
  induction snapshots as [|s rest IH]; intros m Hk Hs; [reflexivity|].
  cbn [alone_all render_all]. apply bind_equal.
  - apply alone_render; [apply (Hk Layers) | now apply coll_uids_NoDup].
  - intros [] m1 t1 Hrun.
    rewrite alone_render in Hrun
      by (try apply (Hk Layers); now apply coll_uids_NoDup).
    pose proof (render_keyed s m Hk) as Hk1.
    pose proof (render_scene_consistent s m Hk Hs) as Hs1.
    unfold returns in Hk1, Hs1. rewrite Hrun in Hk1, Hs1. now apply IH.
Qed.

Lemma render_all_returned snapshots : forall m,
  exists m' tr, render_all snapshots m = Returned tt m' tr.
Proof.
  induction snapshots as [|s rest IH]; intros m; cbn [render_all].
  - exists m, []. reflexivity.
  - pose proof (render_returned s m) as Hr. unfold bind.
    destruct (render s m) as [[] m1 t1|]; [|discriminate].
    destruct (IH m1) as (m' & tr & ->). eauto.
Qed.

(** From the constructor on, when no pass begins while another is in
    flight and none is left in flight, the manager, the calls made and the
    store are those of the render passes run one after the other, one per
    dispatch. *)
Lemma one_at_a_time_render_all s0 schedule :
  Async.one_at_a_time schedule (Async.boot s0) = true ->
  Async.in_flight (Async.run schedule (Async.boot s0)) = [] ->
  render_all (Async.dispatched schedule) (constructor s0)
  = Returned tt (Async.manager (Async.run schedule (Async.boot s0)))
      (Async.calls (Async.run schedule (Async.boot s0))) /\
  Async.store (Async.run schedule (Async.boot s0))
  = last_dispatched (Async.dispatched schedule) s0.
Proof.
  intros Hone Hidle.
  destruct (render_all_returned (Async.dispatched schedule) (constructor s0))
    as (m' & tr & Hrun).
  destruct (run_one_at_a_time schedule (Async.boot s0) m' tr)
    as (Hm & Hc & Hs); auto.
  - unfold pending. cbn [Async.boot Async.in_flight Async.manager].
    rewrite bind_ret_l, alone_all_render_all; auto using constructor_keyed,
      scene_consistent_constructor.
  - rewrite Hm, Hc. auto.
Qed.

(** ** Runs in which the passes do not overlap *)

(** C1, as amended: [render] is asynchronous and the store notifies it
    without awaiting it, so a pass can begin while another is in flight.
    In every run from the constructor on in which none does, whatever
    snapshots the store dispatches: once the pass of the last snapshot has
    finished, each collection (drawable layers, control adapters, region
    guides) holds exactly the ids of that snapshot's sub-tree, which is the
    one the store holds: no adapter whose id is absent from it, an adapter
    for each of its ids, and one adapter per id.  Snapshots are immutable:
    an address denotes one object. *)
Theorem reconciliation_converges (s0 : CanvasV2State)
    (schedule : list Async.Action) (before : list CanvasV2State)
    (s : CanvasV2State) :
  let w := Async.run schedule (Async.boot s0) in
  Async.one_at_a_time schedule (Async.boot s0) = true ->
  Async.in_flight w = [] ->
  Async.dispatched schedule = before ++ [s] ->
  (forall x y, In x (before ++ [s]) -> In y (before ++ [s]) -> coherent x y) ->
  Async.store w = s /\
  forall c, converged c s (Async.manager w).
Proof.
  intros w Hone Hidle Hsnap Hcoh. subst w.
  destruct (one_at_a_time_render_all s0 schedule Hone Hidle) as [Hrun Hstore].
  rewrite Hsnap in Hrun, Hstore.
  split; [rewrite Hstore; apply last_last|].
  pose proof (render_all_converged s0 before s Hcoh) as H.
  cbv zeta in H. rewrite Hrun in H. apply H.
Qed.

(** C4, as amended: [arrangeEntities] calls [zIndex] on the background, the
    initial image, the adapter of each drawable layer, of each control
    adapter and of each region guide of the snapshot, in snapshot order,
    then on the inpaint mask and on the preview layer, with the indices 1,
    2, 3, ...  When the stage holds exactly these layers, each once, its
    children end up in exactly that order: the z-index of each layer is its
    rank in that order, so a layer of an earlier category, or earlier in the
    snapshot within a category, has the smaller z-index, and the preview
    layer is topmost.  The stage does hold exactly these layers, for the
    snapshot of the store, whenever a run from the constructor in which no
    pass begins while another is in flight has come to rest on a snapshot
    with distinct ids. *)
Theorem arrangeEntities_total_order (s : CanvasV2State) (m : CanvasManager) :
  let o := arrangeEntities s m in
  let children := stage (state_after o) in
  (returned o = true /\
   trace_of o = zIndex_calls (scene_order s m) 0) /\
  (NoDup (scene_order s m) ->
   Permutation (stage m) (scene_order s m) ->
   z_ordered s m children) /\
  (forall s0 schedule before,
     Async.one_at_a_time schedule (Async.boot s0) = true ->
     Async.in_flight (Async.run schedule (Async.boot s0)) = [] ->
     Async.dispatched schedule = before ++ [s] ->
     (forall x y, In x (before ++ [s]) -> In y (before ++ [s]) ->
                  coherent x y) ->
     unique_ids s ->
     m = Async.manager (Async.run schedule (Async.boot s0)) ->
     NoDup (scene_order s m) /\
     Permutation (stage m) (scene_order s m) /\
     z_ordered s m children).
Proof.
  intros o children. subst o children.
  split; [rewrite arrangeEntities_eq; split; reflexivity|].
  split; [apply arrangeEntities_sorts|].
  intros s0 schedule before Hone Hidle Hsnap Hcoh Huniq Hm.
  destruct (one_at_a_time_render_all s0 schedule Hone Hidle) as [Hrun _].
  rewrite Hsnap in Hrun.
  pose proof (reachable_scene_order s0 before s Hcoh Huniq) as H.
  cbv zeta in H. rewrite Hrun in H. cbn [state_after] in H. rewrite <- Hm in H.
  destruct H as [Hnd Hperm].
  split; [assumption|]. split; [assumption|]. now apply arrangeEntities_sorts.
Qed.

(** X4: in every run from the constructor on in which no render pass
    begins while another is in flight, whenever no pass is in flight the
    stage holds the preview layer, the background, the initial image and
    exactly one layer per adapter the manager holds (the inpaint mask and
    the adapters of the three collections), and no two of these adapters are
    the same object: a destroyed adapter leaves no layer behind and no layer
    is added twice. *)
Theorem stage_holds_one_layer_per_adapter (s0 : CanvasV2State)
    (schedule : list Async.Action) :
  let w := Async.run schedule (Async.boot s0) in
  let m := Async.manager w in
  Async.one_at_a_time schedule (Async.boot s0) = true ->
  Async.in_flight w = [] ->
  NoDup (uids m) /\
  NoDup (stage m) /\
  (forall n, In n (stage m) <->
             In n [NPreview; NBackground; NInitialImage] \/
             exists u, n = NAdapter u /\ In u (uids m)).
Proof.
  intros w m Hone Hidle. subst m w.
  destruct (one_at_a_time_render_all s0 schedule Hone Hidle) as [Hrun _].
  pose proof (render_all_one_layer_per_adapter s0 (Async.dispatched schedule))
    as H.
  cbv zeta in H. rewrite Hrun in H. apply H.
Qed.

(** X5: in every run from the constructor on in which no render pass
    begins while another is in flight, once the pass of the last snapshot
    dispatched has finished, and if that snapshot has distinct ids, the
    children of the stage are in the z-order of that snapshot: background,
    initial image, the layers, the control adapters and the region guides in
    snapshot order, the inpaint mask, the preview layer; the z-index of each
    is its rank in that order.  This holds whether or not the last pass
    itself rearranged the layers. *)
Theorem stage_follows_snapshot_order (s0 : CanvasV2State)
    (schedule : list Async.Action) (before : list CanvasV2State)
    (s : CanvasV2State) :
  let w := Async.run schedule (Async.boot s0) in
  let m := Async.manager w in
  Async.one_at_a_time schedule (Async.boot s0) = true ->
  Async.in_flight w = [] ->
  Async.dispatched schedule = before ++ [s] ->
  (forall x y, In x (before ++ [s]) -> In y (before ++ [s]) -> coherent x y) ->
  unique_ids s ->
  stage m = scene_order s m /\
  z_ordered s m (stage m).
Proof.
  intros w m Hone Hidle Hsnap Hcoh Huniq. subst m w.
  destruct (one_at_a_time_render_all s0 schedule Hone Hidle) as [Hrun _].
  rewrite Hsnap in Hrun.
  pose proof (render_all_snapshot_order s0 before s Hcoh Huniq) as H.
  cbv zeta in H. rewrite Hrun in H. apply H.
Qed.

(** X9: in every run from the constructor on in which no render pass
    begins while another is in flight, once the pass of the last snapshot
    dispatched has finished, and if that snapshot is well typed, the
    selection resolves exactly when the selected entity exists: a selected
    identifier of a drawable layer, control adapter or region guide that is
    in the snapshot resolves to that entity's state paired with the adapter
    registered under its id; one whose id is not in the snapshot resolves to
    null; and a selected inpaint mask always resolves to the mask's state
    and adapter. *)
Theorem selection_resolves_after_render (s0 : CanvasV2State)
    (schedule : list Async.Action) (before : list CanvasV2State)
    (s : CanvasV2State) (identifier : CanvasEntityIdentifier) :
  let w := Async.run schedule (Async.boot s0) in
  let m := Async.manager w in
  Async.one_at_a_time schedule (Async.boot s0) = true ->
  Async.in_flight w = [] ->
  Async.dispatched schedule = before ++ [s] ->
  (forall x y, In x (before ++ [s]) -> In y (before ++ [s]) -> coherent x y) ->
  well_typed s ->
  State.selectedEntityIdentifier (val s) = Some identifier ->
  (forall c st,
     type identifier = class_type (adapter_class c) ->
     find_entity (id identifier) (snapshot_entities c s) = Some st ->
     exists a,
       JSMap.get (id identifier) (adapters_of c m) = Some a /\
       ad_id a = id identifier /\
       getSelectedEntity s m = Some (mkPair st (wrap_adapter c a))) /\
  (forall c,
     type identifier = class_type (adapter_class c) ->
     find_entity (id identifier) (snapshot_entities c s) = None ->
     getSelectedEntity s m = None) /\
  (type identifier = inpaint_mask ->
   getSelectedEntity s m =
     Some (mkPair (val (State.inpaintMask (val s)))
                  (AsInpaintMask (inpaintMask m)))).
Proof.
  intros w m Hone Hidle Hsnap Hcoh Htyped Hsel. subst m w.
  destruct (one_at_a_time_render_all s0 schedule Hone Hidle) as [Hrun _].
  rewrite Hsnap in Hrun.
  pose proof (render_all_selection_resolves s0 before s identifier Hcoh Htyped
                Hsel) as H.
  cbv zeta in H. rewrite Hrun in H. apply H.
Qed.

(** X10: in every run from the constructor on in which no render pass
    begins while another is in flight, once the pass of the last snapshot
    dispatched has finished, and if that snapshot has distinct ids, every
    adapter holds the state the snapshot gives its entity: for each entity
    of a collection, the adapter registered under its id was last updated
    (or rendered) with that entity's state, and the inpaint mask adapter
    with the snapshot's mask state.  This holds also for the collections the
    last pass skipped because their sub-tree is the same object as
    before. *)
Theorem adapters_hold_snapshot_state (s0 : CanvasV2State)
    (schedule : list Async.Action) (before : list CanvasV2State)
    (s : CanvasV2State) :
  let w := Async.run schedule (Async.boot s0) in
  let m := Async.manager w in
  Async.one_at_a_time schedule (Async.boot s0) = true ->
  Async.in_flight w = [] ->
  Async.dispatched schedule = before ++ [s] ->
  (forall x y, In x (before ++ [s]) -> In y (before ++ [s]) ->
               coherent x y /\ mask_coherent x y) ->
  unique_ids s ->
  (forall c e, In e (snapshot_entities c s) ->
     exists a, JSMap.get (es_id e) (adapters_of c m) = Some a /\
               ad_id a = es_id e /\ ad_state a = e) /\
  ad_state (inpaintMask m) = val (State.inpaintMask (val s)).
Proof.
  intros w m Hone Hidle Hsnap Hcoh Huniq. subst m w.
  destruct (one_at_a_time_render_all s0 schedule Hone Hidle) as [Hrun _].
  rewrite Hsnap in Hrun.
  pose proof (render_all_snapshot_state s0 before s Hcoh Huniq) as H.
  cbv zeta in H. rewrite Hrun in H. apply H.
Qed.

(** X14: in every run from the constructor on in which no render pass
    begins while another is in flight, and that has come to rest, every call
    on an adapter object fell within its life.  Following the calls in order
    from the one adapter the constructor made (the inpaint mask): an adapter
    was created only with a new identity, it was destroyed only while alive,
    so never twice, and it was updated, rendered, added to the stage or
    moved in the z-order only while alive, so never after it was destroyed;
    and the adapters alive at the end are exactly those the manager
    holds. *)
Theorem adapter_calls_within_lifetime (s0 : CanvasV2State)
    (schedule : list Async.Action) :
  let w := Async.run schedule (Async.boot s0) in
  Async.one_at_a_time schedule (Async.boot s0) = true ->
  Async.in_flight w = [] ->
  exists live,
    follow [ad_uid (inpaintMask (constructor s0))] (Async.calls w)
    = Some live /\
    forall uid, In uid live <-> In uid (uids (Async.manager w)).
Proof.
  intros w Hone Hidle. subst w.
  destruct (one_at_a_time_render_all s0 schedule Hone Hidle) as [Hrun _].
  pose proof (render_all_within_lifetime s0 (Async.dispatched schedule)) as H.
  cbv zeta in H. rewrite Hrun in H. apply H.
Qed.

(** X15: when no render pass begins while another is in flight, the
    [await]s change nothing.  In every such run from the constructor on,
    once no pass is in flight, the manager and the calls made to the
    collaborators, in their order, are those of the passes run one after the
    other without suspension, one per dispatch: each guard reads the snapshot
    pointer and the first-render flag the pass began with, the live iterator
    of the layers visits the entries the map had when the loop began, and the
    State Accessor returns the snapshot of the pass throughout.  The store
    holds the last snapshot dispatched. *)
Theorem passes_one_at_a_time_run_in_sequence (s0 : CanvasV2State)
    (schedule : list Async.Action) :
  let w := Async.run schedule (Async.boot s0) in
  let o := render_all (Async.dispatched schedule) (constructor s0) in
  Async.one_at_a_time schedule (Async.boot s0) = true ->
  Async.in_flight w = [] ->
  returned o = true /\
  Async.manager w = state_after o /\
  Async.calls w = trace_of o /\
  Async.store w = last (Async.dispatched schedule) s0.
Proof.
  intros w o Hone Hidle. subst w o.
  destruct (one_at_a_time_render_all s0 schedule Hone Hidle) as [Hrun Hstore].
  rewrite Hrun. cbn [returned state_after trace_of].
  repeat split; try reflexivity. exact Hstore.
Qed.

(** ** The further properties at the sample snapshots *)

Lemma scenario_history_coherent :
  forall x y, In x Scenario.history -> In y Scenario.history ->
              coherent x y /\ mask_coherent x y.
Proof.
  intros x y Hx Hy. unfold Scenario.history in Hx, Hy. simpl in Hx, Hy.
  destruct Hx as [<-|[<-|[<-|[]]]]; destruct Hy as [<-|[<-|[<-|[]]]];
    (split;
     [ split;
       [ intros E; try reflexivity; discriminate E
       | intros c E; destruct c; try reflexivity; discriminate E ]
     | intros E; try reflexivity; discriminate E ]).
Defined.

Lemma scenario_tool_switched_unique_ids : unique_ids Scenario.tool_switched.
Proof. exact sample_swapped_unique_ids. Defined.

Lemma sample_two_passes_coherent :
  forall x y,
    In x ([Sample.two_layers] ++ [Sample.swapped]) ->
    In y ([Sample.two_layers] ++ [Sample.swapped]) ->
    coherent x y.
Proof.
  intros x y Hx Hy. apply sample_snapshots_coherent; simpl in *; tauto.
Defined.

Lemma render_skips_unchanged_witness :
  let s := Sample.swapped in
  let m := Sample.rendered Sample.two_layers in
  takes_fast_path s m = false /\
  triggered s m (KAdapter CanvasControlAdapter) = false /\
  existsb (is_kind (KAdapter CanvasControlAdapter)) (trace_of (render s m))
    = false /\
  existsb (is_kind (KAdapter CanvasLayer)) (trace_of (render s m)) = true.
Proof.
  intros s m.
  assert (Hoff : triggered s m (KAdapter CanvasControlAdapter) = false)
    by (vm_compute; reflexivity).
  split; [vm_compute; reflexivity|]. split; [exact Hoff|].
  split; [|vm_compute; reflexivity].
  exact (render_skips_unchanged s m (KAdapter CanvasControlAdapter)
           (or_intror Hoff)).
Defined.

Lemma render_calls_fixed_collaborators_in_order_witness :
  let s := Scenario.tool_switched in
  let m := state_after (render_all [Sample.two_layers; Sample.swapped]
                          (constructor Sample.initial)) in
  let o := render s m in
  takes_fast_path s m = false /\
  filter is_fixed_call (trace_of o) = fixed_calls s m (state_after o) /\
  fixed_calls s m (state_after o) =
    [InitialImageRender;
     Update CanvasInpaintMask 0 (Sample.entity "mask" inpaint_mask)
       (mkTool "eraser" Sample.fill) false;
     PublishToolState (mkTool "eraser" Sample.fill);
     PublishSelectedEntityIdentifier (Some (mkIdentifier "L1" layer));
     PublishSelectedEntity
       (Some (mkPair Sample.L1 (AsLayer Scenario.adapter_L1)));
     PublishCurrentFill Sample.fill;
     BboxRender].
Proof.
  intros s m o.
  assert (Hfast : takes_fast_path s m = false) by (vm_compute; reflexivity).
  split; [exact Hfast|].
  split; [|vm_compute; reflexivity].
  exact (proj2 (render_calls_fixed_collaborators_in_order s m Hfast)).
Defined.

Lemma transform_round_trip_witness :
  let s := Sample.two_layers in
  let m := Sample.rendered s in
  let target := Some (mkIdentifier "L1" layer) in
  transformingEntity m = None /\
  selection_is s m Sample.L1 (AsLayer Scenario.adapter_L1) /\
  (startTransform s ;; applyTransform)%mgr m =
    Returned tt m
      [TransformerStart 1; NotifyTransformingEntity target;
       TransformerApply 1; NotifyTransformingEntity None] /\
  (startTransform s ;; cancelTransform)%mgr m =
    Returned tt m
      [TransformerStart 1; NotifyTransformingEntity target;
       TransformerStop 1; NotifyTransformingEntity None].
Proof.
  intros s m target.
  assert (Hidle : transformingEntity m = None) by reflexivity.
  assert (Hsel : selection_is s m Sample.L1 (AsLayer Scenario.adapter_L1)).
  { exists (mkIdentifier "L1" layer). split; [reflexivity|].
    split; [|reflexivity]. apply resolves_layer; reflexivity. }
  split; [exact Hidle|]. split; [exact Hsel|].
  exact (proj2 (transform_round_trip s m Sample.L1
                  (AsLayer Scenario.adapter_L1)
                  Hidle Hsel eq_refl eq_refl)).
Defined.

Lemma completions_answer_requests_witness :
  let m := constructor Sample.initial in
  let o := for_each Scenario.channel_ops run_op m in
  _tasks m = JSMap.empty /\
  returned o = true /\
  completions (trace_of o) <= posts (trace_of o) /\
  trace_of o =
    [PostMessage (mkTask "task-1" (mkBboxData 7 0));
     WorkerLog "debug" "working" None;
     OnComplete 42 None] /\
  _tasks (state_after o) = JSMap.empty.
Proof.
  intros m o.
  pose proof (completions_answer_requests m Scenario.channel_ops) as H.
  split; [reflexivity|]. split; [exact (proj1 H)|].
  split; [exact (proj1 (proj2 (proj2 H)) eq_refl)|].
  split; reflexivity.
Defined.

Lemma arrangeEntities_only_reorders_witness :
  let s := Sample.swapped in
  let m := Sample.rendered Sample.two_layers in
  let m' := state_after (arrangeEntities s m) in
  NoDup (stage m) /\
  Permutation (stage m') (stage m) /\
  same_adapters m m' /\
  arrangeEntities s m' = Returned tt m' (zIndex_calls (scene_order s m) 0).
Proof.
  intros s m m'.
  assert (Escene : scene_order s m
            = [NBackground; NInitialImage; NAdapter 2; NAdapter 1; NAdapter 4;
               NAdapter 3; NAdapter 0; NPreview])
    by (vm_compute; reflexivity).
  assert (Estage : stage m
            = [NBackground; NInitialImage; NAdapter 1; NAdapter 2; NAdapter 4;
               NAdapter 3; NAdapter 0; NPreview])
    by (vm_compute; reflexivity).
  assert (Hnd : forall l,
            l = [NBackground; NInitialImage; NAdapter 1; NAdapter 2; NAdapter 4;
                 NAdapter 3; NAdapter 0; NPreview] \/
            l = [NBackground; NInitialImage; NAdapter 2; NAdapter 1; NAdapter 4;
                 NAdapter 3; NAdapter 0; NPreview] ->
            NoDup l).
  { intros l [->| ->];
      repeat (constructor;
              [ simpl; intros H;
                repeat (destruct H as [H|H]; [discriminate H|]); exact H | ]);
      constructor. }
  assert (Hstage : NoDup (stage m)) by (apply Hnd; now left).
  assert (Hscene : NoDup (scene_order s m)) by (apply Hnd; now right).
  assert (Hperm : Permutation (stage m) (scene_order s m)).
  { rewrite Escene, Estage. do 2 apply perm_skip. apply perm_swap. }
  pose proof (arrangeEntities_only_reorders s m Hstage) as H.
  split; [exact Hstage|]. split; [exact (proj1 H)|].
  split; [exact (proj1 (proj2 (proj2 H)))|].
  exact (proj2 (proj2 (proj2 H)) Hscene Hperm).
Defined.

Lemma sample_swapped_well_typed : well_typed Sample.swapped.
Proof.
  split; [|reflexivity].
  intros c e He. destruct c; simpl in He;
    repeat (destruct He as [<-|He]; [reflexivity|]); destruct He.
Defined.

Lemma logging_context_precedence_witness :
  let layer_context :=
    buildGetLoggingContext Scenario.layer_instance
      (Some Scenario.extra_fields) in
  let line_context :=
    buildGetLoggingContext Scenario.brush_line_instance None in
  well_formed Scenario.extra_fields /\
  JSMap.get "entityId" layer_context = Some (JString "L2") /\
  JSMap.get "tool" layer_context = Some (JString "brush") /\
  JSMap.get "objectId" line_context = Some (JString "line-1") /\
  JSMap.get "entityId" line_context = Some (JString "L1") /\
  buildGetLoggingContext Scenario.layer_instance None =
    [("entityId", JString "L1")].
Proof.
  intros layer_context line_context.
  assert (Hextra : well_formed Scenario.extra_fields).
  { unfold well_formed. simpl.
    constructor; [intros [H|[]]; discriminate H|].
    constructor; [intros []|constructor]. }
  assert (Hsome : forall o, Some Scenario.extra_fields = Some o -> well_formed o)
    by (intros o [= <-]; exact Hextra).
  assert (Hnone : forall o, @None JSONObject = Some o -> well_formed o)
    by (intros o H; discriminate H).
  assert (Hlayer : well_formed (ambient_context Scenario.layer_instance))
    by constructor.
  assert (Hline : well_formed (ambient_context Scenario.brush_line_instance)).
  { unfold well_formed. simpl.
    constructor; [intros [H|[]]; discriminate H|].
    constructor; [intros []|constructor]. }
  split; [exact Hextra|].
  split; [exact (proj1 (logging_context_precedence Scenario.layer_instance
                          (Some Scenario.extra_fields) "entityId"
                          Hsome Hlayer))|].
  split; [exact (proj1 (logging_context_precedence Scenario.layer_instance
                          (Some Scenario.extra_fields) "tool"
                          Hsome Hlayer))|].
  split; [exact (proj1 (logging_context_precedence
                          Scenario.brush_line_instance None "objectId"
                          Hnone Hline))|].
  split; [exact (proj1 (logging_context_precedence
                          Scenario.brush_line_instance None "entityId"
                          Hnone Hline))|].
  exact (proj2 (logging_context_precedence Scenario.layer_instance None
                  "entityId" Hnone Hlayer) eq_refl).
Defined.


(** ** Runs of the sample snapshots *)

Lemma sample_edited_unique_ids : unique_ids Sample.edited.
Proof.
  intros c. destruct c; simpl.
  - constructor; [intros []|constructor].
  - constructor; [intros []|constructor].
  - constructor; [intros [H|[]]; discriminate H|].
    constructor; [intros []|constructor].
Defined.

Lemma reconciliation_converges_witness :
  let w := Async.run Schedule.editing (Async.boot Sample.initial) in
  Async.one_at_a_time Schedule.editing (Async.boot Sample.initial) = true /\
  Async.in_flight w = [] /\
  Async.dispatched Schedule.editing
  = [Sample.two_layers; Sample.swapped] ++ [Sample.edited] /\
  Async.store w = Sample.edited /\
  (forall c, converged c Sample.edited (Async.manager w)) /\
  JSMap.keys (layers (Async.manager w)) = ["L2"] /\
  JSMap.keys (regions (Async.manager w)) = ["R1"; "R2"].
Proof.
  intros w.
  assert (Hone : Async.one_at_a_time Schedule.editing
                   (Async.boot Sample.initial) = true)
    by (vm_compute; reflexivity).
  assert (Hidle : Async.in_flight w = []) by (vm_compute; reflexivity).
  assert (Hsnap : Async.dispatched Schedule.editing
                  = [Sample.two_layers; Sample.swapped] ++ [Sample.edited])
    by reflexivity.
  pose proof (reconciliation_converges Sample.initial Schedule.editing
                [Sample.two_layers; Sample.swapped] Sample.edited
                Hone Hidle Hsnap sample_snapshots_coherent) as H.
  split; [exact Hone|]. split; [exact Hidle|]. split; [exact Hsnap|].
  split; [exact (proj1 H)|]. split; [exact (proj2 H)|].
  split; vm_compute; reflexivity.
Defined.

(** C1 as the spec states it does not hold: two snapshots dispatched before
    either render pass is resumed, three layers and then only the first of
    them.  The pass of the second snapshot finds only the first layer's
    adapter in the map, and destroys nothing; the pass of the first then
    creates the adapters of the other two.  When both have finished, the
    store holds one layer and the manager three adapters. *)
Lemma overlapping_passes_leave_stale_adapters :
  let w := Async.run Schedule.same_tick (Async.boot Sample.initial) in
  Async.dispatched Schedule.same_tick
  = [Schedule.three_layers; Schedule.one_layer] /\
  Async.in_flight w = [] /\
  Async.store w = Schedule.one_layer /\
  ids (snapshot_entities Layers Schedule.one_layer) = ["L1"] /\
  JSMap.keys (layers (Async.manager w)) = ["L1"; "L2"; "L3"] /\
  ~ converged Layers Schedule.one_layer (Async.manager w).
Proof.
  assert (Hstale : forall m,
            JSMap.keys (layers m) = ["L1"; "L2"; "L3"] ->
            ~ converged Layers Schedule.one_layer m).
  { intros m Hkeys [Hids _]. cbn [adapters_of] in Hids. rewrite Hkeys in Hids.
    assert (Hin : In "L2" (ids (snapshot_entities Layers Schedule.one_layer)))
      by (apply Hids; simpl; auto).
    simpl in Hin. destruct Hin as [H|[]]. discriminate H. }
  intros w.
  assert (Hkeys : JSMap.keys (layers (Async.manager w)) = ["L1"; "L2"; "L3"])
    by (vm_compute; reflexivity).
  split; [reflexivity|]. split; [vm_compute; reflexivity|].
  split; [vm_compute; reflexivity|]. split; [reflexivity|].
  split; [exact Hkeys|]. exact (Hstale _ Hkeys).
Qed.

Lemma arrangeEntities_total_order_witness :
  let s := Sample.swapped in
  let m := Sample.rendered Sample.two_layers in
  let schedule :=
    Schedule.awaited Sample.two_layers ++ Schedule.awaited Sample.swapped in
  let m' := Async.manager (Async.run schedule (Async.boot Sample.initial)) in
  (NoDup (scene_order s m) /\
   Permutation (stage m) (scene_order s m) /\
   stage m = [NBackground; NInitialImage; NAdapter 1; NAdapter 2; NAdapter 4;
              NAdapter 3; NAdapter 0; NPreview] /\
   stage (state_after (arrangeEntities s m))
     = [NBackground; NInitialImage; NAdapter 2; NAdapter 1; NAdapter 4;
        NAdapter 3; NAdapter 0; NPreview]) /\
  (Async.one_at_a_time schedule (Async.boot Sample.initial) = true /\
   unique_ids s /\
   z_ordered s m' (stage (state_after (arrangeEntities s m')))).
Proof.
  intros s m schedule m'.
  assert (Escene : scene_order s m
            = [NBackground; NInitialImage; NAdapter 2; NAdapter 1; NAdapter 4;
               NAdapter 3; NAdapter 0; NPreview])
    by (vm_compute; reflexivity).
  assert (Estage : stage m
            = [NBackground; NInitialImage; NAdapter 1; NAdapter 2; NAdapter 4;
               NAdapter 3; NAdapter 0; NPreview])
    by (vm_compute; reflexivity).
  assert (Hnd : NoDup (scene_order s m)).
  { rewrite Escene.
    repeat (constructor;
            [ simpl; intros H;
              repeat (destruct H as [H|H]; [discriminate H|]); exact H | ]).
    constructor. }
  assert (Hperm : Permutation (stage m) (scene_order s m)).
  { rewrite Escene, Estage. do 2 apply perm_skip. apply perm_swap. }
  pose proof (proj1 (proj2 (arrangeEntities_total_order s m)) Hnd Hperm) as H.
  assert (Hone : Async.one_at_a_time schedule (Async.boot Sample.initial)
                 = true) by (vm_compute; reflexivity).
  split.
  - split; [exact Hnd|]. split; [exact Hperm|]. split; [exact Estage|].
    rewrite <- Escene. exact (proj1 H).
  - split; [exact Hone|]. split; [exact sample_swapped_unique_ids|].
    apply (proj2 (proj2 (arrangeEntities_total_order s m'))
             Sample.initial schedule [Sample.two_layers]).
    + exact Hone.
    + vm_compute. reflexivity.
    + reflexivity.
    + exact sample_two_passes_coherent.
    + exact sample_swapped_unique_ids.
    + reflexivity.
Defined.

(** C4 as the spec states it does not hold: in the run of the two
    overlapping passes above, the pass of the first snapshot comes to
    arrange the layers when the store holds the second.  The manager holds
    the adapters of three drawable layers; [arrangeEntities] moves the one
    layer of the store's snapshot, the inpaint mask and the preview, and the
    layer of the third adapter ends above the inpaint mask and above the
    preview layer. *)
Lemma overlapping_passes_leave_layer_above_preview :
  let w := Async.run Schedule.same_tick_before_arrange
             (Async.boot Sample.initial) in
  let s := Async.store w in
  let m := Async.manager w in
  let o := arrangeEntities s m in
  let children := stage (state_after o) in
  Async.manager (Async.step w (Async.Resume 0)) = state_after o /\
  JSMap.get "L3" (layers m) = Some (mkAdapter "L3" layer 3 Schedule.L3) /\
  children = [NBackground; NInitialImage; NAdapter 1; NAdapter 2; NAdapter 0;
              NPreview; NAdapter 3] /\
  getZIndex (konva_layer (inpaintMask m)) children = Some 4 /\
  getZIndex NPreview children = Some 5 /\
  getZIndex (NAdapter 3) children = Some 6 /\
  ~ z_ordered s m children.
Proof.
  intros w s m o children.
  assert (Hchildren : children
            = [NBackground; NInitialImage; NAdapter 1; NAdapter 2; NAdapter 0;
               NPreview; NAdapter 3]) by (vm_compute; reflexivity).
  assert (Hscene : scene_order s m
            = [NBackground; NInitialImage; NAdapter 1; NAdapter 0; NPreview])
    by (vm_compute; reflexivity).
  split; [vm_compute; reflexivity|]. split; [vm_compute; reflexivity|].
  split; [exact Hchildren|].
  split; [rewrite Hchildren; vm_compute; reflexivity|].
  split; [rewrite Hchildren; reflexivity|].
  split; [rewrite Hchildren; reflexivity|].
  intros [Heq _]. rewrite Hchildren, Hscene in Heq. discriminate Heq.
Qed.

Lemma stage_holds_one_layer_per_adapter_witness :
  let w := Async.run Schedule.editing (Async.boot Sample.initial) in
  let m := Async.manager w in
  Async.one_at_a_time Schedule.editing (Async.boot Sample.initial) = true /\
  Async.in_flight w = [] /\
  NoDup (stage m) /\
  (forall n, In n (stage m) <->
             In n [NPreview; NBackground; NInitialImage] \/
             exists u, n = NAdapter u /\ In u (uids m)) /\
  stage m = [NBackground; NInitialImage; NAdapter 2; NAdapter 4; NAdapter 3;
             NAdapter 5; NAdapter 0; NPreview] /\
  uids m = [0; 2; 4; 3; 5].
Proof.
  intros w m.
  assert (Hone : Async.one_at_a_time Schedule.editing
                   (Async.boot Sample.initial) = true)
    by (vm_compute; reflexivity).
  assert (Hidle : Async.in_flight w = []) by (vm_compute; reflexivity).
  pose proof (stage_holds_one_layer_per_adapter Sample.initial
                Schedule.editing Hone Hidle) as H.
  split; [exact Hone|]. split; [exact Hidle|].
  split; [exact (proj1 (proj2 H))|]. split; [exact (proj2 (proj2 H))|].
  split; vm_compute; reflexivity.
Defined.

Lemma stage_follows_snapshot_order_witness :
  let s := Scenario.tool_switched in
  let w := Async.run Schedule.one_by_one (Async.boot Sample.initial) in
  let m := Async.manager w in
  Async.one_at_a_time Schedule.one_by_one (Async.boot Sample.initial) = true /\
  Async.in_flight w = [] /\
  Async.dispatched Schedule.one_by_one
  = [Sample.two_layers; Sample.swapped] ++ [s] /\
  unique_ids s /\
  stage m = scene_order s m /\
  stage m = [NBackground; NInitialImage; NAdapter 2; NAdapter 1; NAdapter 4;
             NAdapter 3; NAdapter 0; NPreview].
Proof.
  intros s w m.
  assert (Hone : Async.one_at_a_time Schedule.one_by_one
                   (Async.boot Sample.initial) = true)
    by (vm_compute; reflexivity).
  assert (Hidle : Async.in_flight w = []) by (vm_compute; reflexivity).
  assert (Hsnap : Async.dispatched Schedule.one_by_one
                  = [Sample.two_layers; Sample.swapped] ++ [s])
    by reflexivity.
  pose proof (stage_follows_snapshot_order Sample.initial Schedule.one_by_one
                [Sample.two_layers; Sample.swapped] s Hone Hidle Hsnap
                (fun x y Hx Hy => proj1 (scenario_history_coherent x y Hx Hy))
                scenario_tool_switched_unique_ids) as H.
  split; [exact Hone|]. split; [exact Hidle|]. split; [exact Hsnap|].
  split; [exact scenario_tool_switched_unique_ids|].
  split; [exact (proj1 H) | vm_compute; reflexivity].
Defined.

Lemma selection_resolves_after_render_witness :
  let s := Sample.swapped in
  let schedule :=
    Schedule.awaited Sample.two_layers ++ Schedule.awaited s in
  let w := Async.run schedule (Async.boot Sample.initial) in
  let m := Async.manager w in
  Async.one_at_a_time schedule (Async.boot Sample.initial) = true /\
  Async.in_flight w = [] /\
  well_typed s /\
  State.selectedEntityIdentifier (val s) = Some (mkIdentifier "L1" layer) /\
  find_entity "L1" (snapshot_entities Layers s) = Some Sample.L1 /\
  exists a,
    JSMap.get "L1" (adapters_of Layers m) = Some a /\
    ad_id a = "L1" /\
    getSelectedEntity s m = Some (mkPair Sample.L1 (AsLayer a)).
Proof.
  intros s schedule w m.
  assert (Hone : Async.one_at_a_time schedule (Async.boot Sample.initial)
                 = true) by (vm_compute; reflexivity).
  assert (Hidle : Async.in_flight w = []) by (vm_compute; reflexivity).
  pose proof (selection_resolves_after_render Sample.initial schedule
                [Sample.two_layers] s (mkIdentifier "L1" layer)
                Hone Hidle eq_refl sample_two_passes_coherent
                sample_swapped_well_typed eq_refl) as H.
  split; [exact Hone|]. split; [exact Hidle|].
  split; [exact sample_swapped_well_typed|]. split; [reflexivity|].
  split; [reflexivity|].
  exact (proj1 H Layers Sample.L1 eq_refl eq_refl).
Defined.

Lemma adapters_hold_snapshot_state_witness :
  let s := Scenario.tool_switched in
  let w := Async.run Schedule.one_by_one (Async.boot Sample.initial) in
  let m := Async.manager w in
  Async.one_at_a_time Schedule.one_by_one (Async.boot Sample.initial) = true /\
  Async.in_flight w = [] /\
  unique_ids s /\
  (forall c e, In e (snapshot_entities c s) ->
     exists a, JSMap.get (es_id e) (adapters_of c m) = Some a /\
               ad_id a = es_id e /\ ad_state a = e) /\
  ad_state (inpaintMask m) = val (State.inpaintMask (val s)).
Proof.
  intros s w m.
  assert (Hone : Async.one_at_a_time Schedule.one_by_one
                   (Async.boot Sample.initial) = true)
    by (vm_compute; reflexivity).
  assert (Hidle : Async.in_flight w = []) by (vm_compute; reflexivity).
  pose proof (adapters_hold_snapshot_state Sample.initial Schedule.one_by_one
                [Sample.two_layers; Sample.swapped] s Hone Hidle eq_refl
                scenario_history_coherent scenario_tool_switched_unique_ids)
    as H.
  split; [exact Hone|]. split; [exact Hidle|].
  split; [exact scenario_tool_switched_unique_ids|]. exact H.
Defined.

Lemma adapter_calls_within_lifetime_witness :
  let w := Async.run Schedule.editing (Async.boot Sample.initial) in
  Async.one_at_a_time Schedule.editing (Async.boot Sample.initial) = true /\
  Async.in_flight w = [] /\
  (exists live,
     follow [0] (Async.calls w) = Some live /\
     forall uid, In uid live <-> In uid (uids (Async.manager w))) /\
  follow [0] (Async.calls w) = Some [5; 4; 3; 2; 0].
Proof.
  intros w.
  assert (Hone : Async.one_at_a_time Schedule.editing
                   (Async.boot Sample.initial) = true)
    by (vm_compute; reflexivity).
  assert (Hidle : Async.in_flight w = []) by (vm_compute; reflexivity).
  split; [exact Hone|]. split; [exact Hidle|].
  split; [exact (adapter_calls_within_lifetime Sample.initial Schedule.editing
                   Hone Hidle)|].
  vm_compute. reflexivity.
Defined.

(** ** What overlapping passes do *)

(** The layers are removed, the first is back, the second is there
    instead, and the three passes run in turn.  The pass that removes the
    layers is suspended at [await canvasLayer.destroy()] before each
    [delete], so the later passes find the destroyed adapters in the map and
    create new ones only once they are deleted; the [delete]s that follow,
    by id, take the new adapters out of the map.  The map ends empty, and
    the layers of the two new adapters stay on the stage. *)
Example overlap_leaves_layers_unheld :
  let w := Async.run Schedule.removed_and_back (Async.boot Sample.initial) in
  let m := Async.manager w in
  Async.in_flight w = [] /\
  Async.store w = Schedule.second_layer /\
  layers m = [] /\
  uids m = [0] /\
  stage m = [NBackground; NAdapter 3; NInitialImage; NAdapter 0; NPreview;
             NAdapter 4].
Proof. intros w m. repeat split; vm_compute; reflexivity. Qed.

(** The second layer is removed and the store notifies twice: the second
    pass finds its adapter still in the map, since the first is suspended
    before the [delete], and destroys it once more. *)
Example overlap_destroys_twice :
  let w := Async.run Schedule.notified_twice (Async.boot Sample.initial) in
  Async.in_flight w = [] /\
  filter (fun e => match e with Destroy _ _ _ => true | _ => false end)
    (Async.calls w)
  = [Destroy CanvasLayer 2 "L2"; Destroy CanvasLayer 2 "L2"] /\
  follow [0] (Async.calls w) = None.
Proof. intros w. repeat split; vm_compute; reflexivity. Qed.

(** The only layer is removed and is back at once, selected: the pass of
    the second snapshot finds the adapter in the map and updates it, and the
    pass of the first then deletes it.  The store holds the layer, the
    manager no adapter for it, and the selection resolves to null. *)
Example overlap_loses_selected_entity :
  let w :=
    Async.run Schedule.removed_and_restored (Async.boot Sample.initial) in
  let s := Async.store w in
  let m := Async.manager w in
  Async.in_flight w = [] /\
  s = Schedule.first_layer /\
  State.selectedEntityIdentifier (val s) = Some (mkIdentifier "L1" layer) /\
  find_entity "L1" (snapshot_entities Layers s) = Some Sample.L1 /\
  layers m = [] /\
  getSelectedEntity s m = None.
Proof. intros w s m. repeat split; vm_compute; reflexivity. Qed.

(** The layers are swapped and then the first is edited: the pass of the
    older snapshot updates the first layer's adapter after the pass of the
    newer one did, with the state it began with. *)
Example overlap_leaves_stale_state :
  let w :=
    Async.run Schedule.swapped_then_edited (Async.boot Sample.initial) in
  let m := Async.manager w in
  Async.in_flight w = [] /\
  Async.store w = Schedule.edited_layers /\
  find_entity "L1" (snapshot_entities Layers (Async.store w))
  = Some Schedule.L1_edited /\
  JSMap.get "L1" (layers m) = Some (mkAdapter "L1" layer 1 Sample.L1).
Proof. intros w m. repeat split; vm_compute; reflexivity. Qed.

Lemma passes_one_at_a_time_run_in_sequence_witness :
  let w := Async.run Schedule.editing (Async.boot Sample.initial) in
  let o := render_all [Sample.two_layers; Sample.swapped; Sample.edited]
             (constructor Sample.initial) in
  Async.one_at_a_time Schedule.editing (Async.boot Sample.initial) = true /\
  Async.in_flight w = [] /\
  Async.manager w = state_after o /\
  Async.calls w = trace_of o /\
  Async.store w = Sample.edited /\
  List.length (Async.calls w) = 89.
Proof.
  intros w o.
  assert (Hone : Async.one_at_a_time Schedule.editing
                   (Async.boot Sample.initial) = true)
    by (vm_compute; reflexivity).
  assert (Hidle : Async.in_flight w = []) by (vm_compute; reflexivity).
  pose proof (passes_one_at_a_time_run_in_sequence Sample.initial
                Schedule.editing Hone Hidle) as H.
  split; [exact Hone|]. split; [exact Hidle|].
  split; [exact (proj1 (proj2 H))|].
  split; [exact (proj1 (proj2 (proj2 H)))|].
  split; [exact (proj2 (proj2 (proj2 H)))|].
  vm_compute. reflexivity.
Defined.
